(** * Schema composition in [packages/gatsby/src/schema/schema.js]

    A shallow embedding of the type merge, type-name validation, extension
    stamping, third-party schema import, resolver override, children
    fields and validation passes of the schema builder, the properties of
    them that the specification states, and further properties that the
    code shows.

    JavaScript objects and [Map]s are insertion-ordered, and [forEach] over
    their keys decides the order of warnings and of field additions, so they
    are association lists here.  Mutation in place of a type composer is
    written as a function returning the new composer; a caller that holds the
    composer in the registry stores the result back under its name. *)

From Stdlib Require Import String Ascii List Bool Arith Lia ZArith DecimalString.
From Stdlib Require Import Permutation.
Import ListNotations.
Open Scope string_scope.

Set Implicit Arguments.
Set Warnings "-register-all".

(** ** Strings *)

Module Str.

Fixpoint join (sep : string) (l : list string) : string :=
  match l with
  | [] => ""
  | [x] => x
  | x :: rest => x ++ sep ++ join sep rest
  end.

(** [s.replace(/[<cs>]/g, ``)]: every character of the class is dropped. *)
Fixpoint strip (cs : list ascii) (s : string) : string :=
  match s with
  | EmptyString => EmptyString
  | String c r =>
      if existsb (Ascii.eqb c) cs then strip cs r else String c (strip cs r)
  end.

(** [s.replace(pat, by)] with a string pattern: the first occurrence only. *)
Fixpoint replaceFirst (pat by_ s : string) {struct s} : string :=
  if prefix pat s
  then by_ ++ substring (String.length pat)
                        (String.length s - String.length pat) s
  else match s with
       | EmptyString => EmptyString
       | String c r => String c (replaceFirst pat by_ r)
       end.

Fixpoint rev (s : string) : string :=
  match s with
  | EmptyString => EmptyString
  | String c r => rev r ++ String c EmptyString
  end.

(** [s.endsWith(suffix)] *)
Definition endsWith (suffix s : string) : bool :=
  prefix (rev suffix) (rev s).

(** [arr.includes(s)] on an array of strings *)
Definition includes (s : string) (arr : list string) : bool :=
  existsb (String.eqb s) arr.

(** [s.includes(t)] on strings: [t] occurs in [s]. *)
Fixpoint contains (t s : string) {struct s} : bool :=
  prefix t s
  || match s with
     | EmptyString => false
     | String _ r => contains t r
     end.

(** [msg] mentions [name]: [name] occurs in it. *)
Definition mentions (msg name : string) : Prop :=
  exists pre post, msg = pre ++ name ++ post.

Definition isLetter (c : ascii) : bool :=
  let n := nat_of_ascii c in
  (((65 <=? n) && (n <=? 90)) || ((97 <=? n) && (n <=? 122)))%nat.

Definition isDigit (c : ascii) : bool :=
  let n := nat_of_ascii c in ((48 <=? n) && (n <=? 57))%nat.

Definition isUnderscore (c : ascii) : bool := Ascii.eqb c "_"%char.

Fixpoint forallb (p : ascii -> bool) (s : string) : bool :=
  match s with
  | EmptyString => true
  | String c r => p c && forallb p r
  end.

End Str.

(** ** JavaScript values *)

(** A GraphQL type object: a named type under list and non-null wrappers.
    A function value is opaque but for its identity; the closures the
    builder itself creates are kept as data. *)
Inductive GraphQLType : Type :=
| NamedType (name : string)
| GraphQLList (ofType : GraphQLType)
| GraphQLNonNull (ofType : GraphQLType).

(** [type.toString()] of a GraphQL type object. *)
Fixpoint printType (t : GraphQLType) : string :=
  match t with
  | NamedType n => n
  | GraphQLList t => "[" ++ printType t ++ "]"
  | GraphQLNonNull t => printType t ++ "!"
  end.

Inductive JSVal : Type :=
| VUndefined
| VNull
| VBool (b : bool)
| VNum (z : Z)
| VStr (s : string)
| VArr (items : list JSVal)
| VObj (props : list (string * JSVal))
| VType (t : GraphQLType)
| VThunk (result : JSVal)          (* [() => result] *)
| VFun (id : string)
    (* a function supplied from outside: a plugin, a type definition *)
| VOverrideFn (resolve originalResolver : JSVal)
    (* the closure of [createResolvers]:
       [(source, args, context, info) =>
          resolve(source, args, context, { ...info,
            originalResolver: originalResolver || context.defaultFieldResolver })] *)
| VChildrenFn (typeName : string)  (* [resolve] of [createChildrenField] *)
| VChildFn (typeName : string).    (* [resolve] of [createChildField] *)

Definition JSObj : Type := list (string * JSVal).

(** ** Objects and maps keyed by strings *)

Module Obj.
Section Ops.
Variable A : Type.

Fixpoint get (k : string) (o : list (string * A)) : option A :=
  match o with
  | [] => None
  | (k', v) :: r => if String.eqb k' k then Some v else get k r
  end.

Definition has (k : string) (o : list (string * A)) : bool :=
  match get k o with Some _ => true | None => false end.

(** [o[k] = v]: an own key keeps its place, a new one goes last. *)
Fixpoint set (k : string) (v : A) (o : list (string * A))
  : list (string * A) :=
  match o with
  | [] => [(k, v)]
  | (k', v') :: r =>
      if String.eqb k' k then (k, v) :: r else (k', v') :: set k v r
  end.

(** [delete o[k]] *)
Definition remove (k : string) (o : list (string * A))
  : list (string * A) :=
  filter (fun p => negb (String.eqb (fst p) k)) o.

(** [Object.keys(o)] *)
Definition keys (o : list (string * A)) : list string :=
  nodup string_dec (map fst o).

(** [Object.entries(o)] *)
Definition entries (o : list (string * A)) : list (string * A) :=
  flat_map (fun k => match get k o with
                     | Some v => [(k, v)]
                     | None => []
                     end) (keys o).

(** [{ ...a, ...b }] *)
Definition spread (a b : list (string * A)) : list (string * A) :=
  fold_left (fun acc p => set (fst p) (snd p) acc) (entries b) a.

End Ops.
End Obj.

(** Property read [o.k]: a missing key reads as [undefined]. *)
Definition prop (k : string) (o : JSObj) : JSVal :=
  match Obj.get k o with Some v => v | None => VUndefined end.

(** Property read on any value; a read on a non-object gives [undefined]. *)
Definition propOf (k : string) (v : JSVal) : JSVal :=
  match v with VObj o => prop k o | _ => VUndefined end.

Definition truthy (v : JSVal) : bool :=
  match v with
  | VUndefined | VNull => false
  | VBool b => b
  | VNum z => negb (Z.eqb z 0)
  | VStr s => negb (String.eqb s "")
  | _ => true
  end.

Definition isArray (v : JSVal) : bool :=
  match v with VArr _ => true | _ => false end.

(** [v === VStr s] *)
Definition isStr (s : string) (v : JSVal) : bool :=
  match v with VStr s' => String.eqb s' s | _ => false end.

(** [v === false] *)
Definition isFalse (v : JSVal) : bool :=
  match v with VBool false => true | _ => false end.

(** [v == null] *)
Definition isNullish (v : JSVal) : bool :=
  match v with VUndefined | VNull => true | _ => false end.

Definition printZ (z : Z) : string := NilZero.string_of_int (Z.to_int z).

(** The text of a function is not modelled; what matters is that it is no
    type name (it holds characters a name cannot). *)
Definition functionText : string := "() => {}".

(** String conversion in a template literal, [`${v}`]. *)
Fixpoint templateString (v : JSVal) : string :=
  match v with
  | VUndefined => "undefined"
  | VNull => "null"
  | VBool b => if b then "true" else "false"
  | VNum z => printZ z
  | VStr s => s
  | VArr l =>
      Str.join ","
        (map (fun x => match x with
                       | VUndefined | VNull => ""
                       | _ => templateString x
                       end) l)
  | VObj _ => "[object Object]"
  | VType t => printType t
  | VThunk _ | VFun _ | VOverrideFn _ _ | VChildrenFn _ | VChildFn _ =>
      functionText
  end.

(** [v.toString()]: a [TypeError] ([None]) on [undefined] and [null]. *)
Definition toStringJS (v : JSVal) : option string :=
  match v with
  | VUndefined | VNull => None
  | _ => Some (templateString v)
  end.

(** [arr.includes(s)] where [arr] may be anything: an array has the
    string among its items, a string has it as a part; [None] is the
    [TypeError] of calling [includes] on any other value. *)
Definition includesStr (s : string) (arr : JSVal) : option bool :=
  match arr with
  | VArr l => Some (existsb (isStr s) l)
  | VStr t => Some (Str.contains s t)
  | _ => None
  end.

Definition dq : string := String (ascii_of_nat 34) EmptyString.
Definition nl : string := String (ascii_of_nat 10) EmptyString.
Definition bq (s : string) : string := "`" ++ s ++ "`".

(** ** Effects: reports, thrown errors and fatal exits *)

(** Modelled from the spec: the reporter of [gatsby-cli] is outside this
    file.  [report.warn] and [report.error] record a message and return;
    [report.panic] is fatal, it ends the build and cannot be caught. *)
Inductive Report : Type :=
| Warn (msg : string)
| Error (msg : string).

Inductive Outcome (A : Type) : Type :=
| Ok (a : A)
| Throw (msg : string)      (* a JavaScript exception, caught by [try] *)
| Panic (msg : string).     (* [report.panic] *)

Arguments Ok {A} a.
Arguments Throw {A} msg.
Arguments Panic {A} msg.

Inductive Kind : Type :=
| KObject | KInterface | KUnion | KInput | KEnum | KScalar.

Definition Kind_eqb (a b : Kind) : bool :=
  match a, b with
  | KObject, KObject | KInterface, KInterface | KUnion, KUnion
  | KInput, KInput | KEnum, KEnum | KScalar, KScalar => true
  | _, _ => false
  end.

(** A registry record: a type composer of [graphql-compose].  [tcKind] is
    the composer class ([ObjectTypeComposer], [InterfaceTypeComposer], ...);
    a field configuration is the object [{ type, args, resolve,
    extensions, ... }]. *)
Record TypeComposer : Type := mkTC {
  tcName : string;
  tcKind : Kind;
  tcFields : list (string * JSObj);
  tcInterfaces : list string;
  tcExtensions : JSObj;
  tcResolveType : bool
}.

(** An argument of a directive definition: [{ name, type, defaultValue }]. *)
Record ArgumentDef : Type := mkArg {
  argName : string;
  argType : GraphQLType;
  argDefault : JSVal
}.

(** The schema composer, and the reports made so far. *)
Record World : Type := mkWorld {
  registry : list (string * TypeComposer);
  mustHave : list string;
  directiveDefs : list (string * list ArgumentDef);
  reports : list Report
}.

Definition M (A : Type) : Type := World -> Outcome A * World.

Definition ret {A} (a : A) : M A := fun w => (Ok a, w).

Definition bind {A B} (m : M A) (f : A -> M B) : M B :=
  fun w =>
    match m w with
    | (Ok a, w') => f a w'
    | (Throw e, w') => (Throw e, w')
    | (Panic e, w') => (Panic e, w')
    end.

Declare Scope m_scope.
Delimit Scope m_scope with M.
Notation "x <- m ;; k" := (bind m (fun x => k))
  (at level 61, m at next level, right associativity) : m_scope.
Notation "m ;;; k" := (bind m (fun _ => k))
  (at level 61, right associativity) : m_scope.
Open Scope m_scope.

Definition throw {A} (msg : string) : M A := fun w => (Throw msg, w).

(** A call that returns or throws and leaves the world as it is. *)
Definition liftOutcome {A} (o : Outcome A) : M A := fun w => (o, w).

(** [try { m } catch (error) { h(error) }] *)
Definition tryCatch {A} (m : M A) (h : string -> M A) : M A :=
  fun w =>
    match m w with
    | (Throw e, w') => h e w'
    | r => r
    end.

Definition addReport (r : Report) : M unit :=
  fun w => (Ok tt, mkWorld (registry w) (mustHave w) (directiveDefs w)
                           (reports w ++ [r])).

Module report.
Definition warn (msg : string) : M unit := addReport (Warn msg).
Definition error (msg : string) : M unit := addReport (Error msg).
Definition panic {A} (msg : string) : M A := fun w => (Panic msg, w).
End report.

(** [l.forEach(x => { s = f(x, s) })], the object [s] being updated in
    place by the callback. *)
Fixpoint forEach {A S} (l : list A) (f : A -> S -> M S) (s : S) : M S :=
  match l with
  | [] => ret s
  | x :: r => s' <- f x s ;; forEach r f s'
  end.

(** [l.forEach(x => { f(x) })] for a callback that only acts on the world. *)
Fixpoint forEach_ {A} (l : list A) (f : A -> M unit) : M unit :=
  match l with
  | [] => ret tt
  | x :: r => f x ;;; forEach_ r f
  end.

Definition getWorld : M World := fun w => (Ok w, w).

(** ** The schema composer *)

Module schemaComposer.

Definition has (name : string) : M bool :=
  fun w => (Ok (Obj.has name (registry w)), w).

(** [schemaComposer.get(name)]: throws on an unknown name. *)
Definition get (name : string) : M TypeComposer :=
  fun w =>
    match Obj.get name (registry w) with
    | Some tc => (Ok tc, w)
    | None => (Throw ("Cannot find type with name " ++ name), w)
    end.

(** [schemaComposer.set(name, tc)]; also how a composer mutated in place
    shows in the registry. *)
Definition set (name : string) (tc : TypeComposer) : M unit :=
  fun w => (Ok tt, mkWorld (Obj.set name tc (registry w)) (mustHave w)
                           (directiveDefs w) (reports w)).

Definition addSchemaMustHaveType (tc : TypeComposer) : M unit :=
  fun w => (Ok tt, mkWorld (registry w) (mustHave w ++ [tcName tc])
                           (directiveDefs w) (reports w)).

(** [schemaComposer.getDirective(name)]: throws on an unknown directive. *)
Definition getDirective (name : string) : M (list ArgumentDef) :=
  fun w =>
    match Obj.get name (directiveDefs w) with
    | Some d => (Ok d, w)
    | None => (Throw ("Directive " ++ name ++ " does not exist"), w)
    end.

(** [schemaComposer.getOTC(name)]: throws unless [name] is an object type. *)
Definition getOTC (name : string) : M TypeComposer :=
  tc <- get name ;;
  match tcKind tc with
  | KObject => ret tc
  | _ => throw ("Cannot find ObjectTypeComposer with name " ++ name)
  end.

(** [schemaComposer.getIFTC(name)]: throws unless [name] is an interface. *)
Definition getIFTC (name : string) : M TypeComposer :=
  tc <- get name ;;
  match tcKind tc with
  | KInterface => ret tc
  | _ => throw ("Cannot find InterfaceTypeComposer with name " ++ name)
  end.

End schemaComposer.

(** ** Methods of a type composer

    Every call of a field method in [schema.js] is on a field known to be
    there (inside a [forEach] over [getFieldNames()], or behind
    [hasField]), where [getField] cannot throw; a missing field reads as
    the empty configuration here. *)

Module TC.

Definition setFields (fs : list (string * JSObj)) (tc : TypeComposer) :=
  mkTC (tcName tc) (tcKind tc) fs (tcInterfaces tc) (tcExtensions tc)
       (tcResolveType tc).

Definition setExtensions (e : JSObj) (tc : TypeComposer) :=
  mkTC (tcName tc) (tcKind tc) (tcFields tc) (tcInterfaces tc) e
       (tcResolveType tc).

Definition setInterfaces (l : list string) (tc : TypeComposer) :=
  mkTC (tcName tc) (tcKind tc) (tcFields tc) l (tcExtensions tc)
       (tcResolveType tc).

Definition setResolveType (tc : TypeComposer) :=
  mkTC (tcName tc) (tcKind tc) (tcFields tc) (tcInterfaces tc)
       (tcExtensions tc) true.

Definition getExtension (k : string) (tc : TypeComposer) : JSVal :=
  prop k (tcExtensions tc).

Definition hasExtension (k : string) (tc : TypeComposer) : bool :=
  Obj.has k (tcExtensions tc).

Definition setExtension (k : string) (v : JSVal) (tc : TypeComposer) :=
  setExtensions (Obj.set k v (tcExtensions tc)) tc.

Definition extendExtensions (e : JSObj) (tc : TypeComposer) :=
  setExtensions (Obj.spread (tcExtensions tc) e) tc.

Definition hasField (f : string) (tc : TypeComposer) : bool :=
  Obj.has f (tcFields tc).

Definition getField (f : string) (tc : TypeComposer) : JSObj :=
  match Obj.get f (tcFields tc) with Some c => c | None => [] end.

Definition getFieldNames (tc : TypeComposer) : list string :=
  Obj.keys (tcFields tc).

Definition setField (f : string) (c : JSObj) (tc : TypeComposer) :=
  setFields (Obj.set f c (tcFields tc)) tc.

Definition addFields (fs : list (string * JSObj)) (tc : TypeComposer) :=
  setFields (Obj.spread (tcFields tc) fs) tc.

Definition removeField (f : string) (tc : TypeComposer) :=
  setFields (Obj.remove f (tcFields tc)) tc.

(** The extensions of a field configuration: [c.extensions || {}] *)
Definition extensionsOf (c : JSObj) : JSObj :=
  match prop "extensions" c with
  | VObj e => e
  | _ => []
  end.

(** [extendField(f, partial)]:
    [setField(f, { ...prev, ...partial,
                   extensions: { ...prev.extensions,
                                 ...partial.extensions } })].
    A field without the key reads as one with the empty extensions
    ([getFieldExtensions]); where the partial brings no extensions the
    key is left as the field has it. *)
Definition extended (prev partial : JSObj) : JSObj :=
  match Obj.get "extensions" partial with
  | Some _ =>
      Obj.set "extensions"
              (VObj (Obj.spread (extensionsOf prev) (extensionsOf partial)))
              (Obj.spread prev partial)
  | None => Obj.spread prev partial
  end.

Definition extendField (f : string) (partial : JSObj) (tc : TypeComposer) :=
  setField f
    (match Obj.get "extensions" partial with
     | Some _ =>
         Obj.set "extensions"
                 (VObj (Obj.spread (extensionsOf (getField f tc))
                                   (extensionsOf partial)))
                 (Obj.spread (getField f tc) partial)
     | None => Obj.spread (getField f tc) partial
     end) tc.

(** [getFieldExtensions(f)]: [field.extensions || {}] *)
Definition getFieldExtensions (f : string) (tc : TypeComposer) : JSObj :=
  match prop "extensions" (getField f tc) with
  | VObj e => e
  | _ => []
  end.

Definition getFieldExtension (f k : string) (tc : TypeComposer) : JSVal :=
  prop k (getFieldExtensions f tc).

Definition setFieldExtensions (f : string) (e : JSObj) (tc : TypeComposer) :=
  setField f (Obj.set "extensions" (VObj e) (getField f tc)) tc.

Definition setFieldExtension (f k : string) (v : JSVal) (tc : TypeComposer) :=
  setFieldExtensions f (Obj.set k v (getFieldExtensions f tc)) tc.

Definition extendFieldExtensions (f : string) (e : JSObj)
           (tc : TypeComposer) :=
  setFieldExtensions f (Obj.spread (getFieldExtensions f tc) e) tc.

Definition hasInterface (i : string) (tc : TypeComposer) : bool :=
  Str.includes i (tcInterfaces tc).

(** [addInterface(i)]: added unless the type has it already. *)
Definition addInterface (i : string) (tc : TypeComposer) :=
  if hasInterface i tc then tc
  else setInterfaces (tcInterfaces tc ++ [i]) tc.

(** The directives of a definition are kept under the [directives]
    extension, an array of [{ name, args }]. *)
Definition directivesOf (e : JSObj) : list JSVal :=
  match prop "directives" e with
  | VArr l => l
  | _ => []
  end.

Definition getDirectives (tc : TypeComposer) : list JSVal :=
  directivesOf (tcExtensions tc).

Definition getFieldDirectives (f : string) (tc : TypeComposer)
  : list JSVal :=
  directivesOf (getFieldExtensions f tc).

(** The printed name of the type a type reference stands for: a string
    is the name already, a thunk stands for its result, a one-item array
    for a list. *)
Fixpoint typeText (v : JSVal) : option string :=
  match v with
  | VStr s => Some s
  | VType t => Some (printType t)
  | VThunk r => typeText r
  | VArr [x] =>
      match typeText x with
      | Some s => Some ("[" ++ s ++ "]")
      | None => None
      end
  | _ => None
  end.

(** [getFieldType(f).toString()] *)
Definition getFieldTypeName (f : string) (tc : TypeComposer)
  : option string :=
  typeText (prop "type" (getField f tc)).

End TC.

(** ** Type sources *)

(** An interface in a list of interfaces: a name, looked up in the
    registry when the list is read, or an interface type object. *)
Inductive InterfaceRef : Type :=
| IfaceName (name : string)
| IfaceType (name : string).

(** The value handed to [mergeTypes] and [processAddedType]: a temporary
    composer made from a definition or a builder descriptor, or a native
    [graphql-js] type object. *)
Inductive AddedType : Type :=
| ObjectTC (name : string) (fields : list (string * JSObj))
           (interfaces : list InterfaceRef) (extensions : JSObj)
| InterfaceTC (name : string) (fields : list (string * JSObj))
              (extensions : JSObj) (resolveType : bool)
| UnionTC (name : string) (extensions : JSObj) (resolveType : bool)
| InputTC (name : string) (fields : list (string * JSObj))
          (extensions : JSObj)
| ScalarTC (name : string) (extensions : JSObj)
| EnumTC (name : string) (extensions : JSObj)
| GraphQLObjectType (name : string) (fields : list (string * JSObj))
                    (interfaces : list string)
| GraphQLInterfaceType (name : string) (fields : list (string * JSObj))
                       (resolveType : bool)
| GraphQLOtherType (kind : Kind) (name : string)
                   (fields : list (string * JSObj)).

(** [type.getTypeName()] of a composer, [type.name] of a native type. *)
Definition addedName (t : AddedType) : string :=
  match t with
  | ObjectTC n _ _ _ | InterfaceTC n _ _ _ | UnionTC n _ _ | InputTC n _ _
  | ScalarTC n _ | EnumTC n _ | GraphQLObjectType n _ _
  | GraphQLInterfaceType n _ _ | GraphQLOtherType _ n _ => n
  end.

(** [typeOrTypeDef.name]: a composer has no such property. *)
Definition nativeName (t : AddedType) : option string :=
  match t with
  | GraphQLObjectType n _ _ | GraphQLInterfaceType n _ _
  | GraphQLOtherType _ n _ => Some n
  | _ => None
  end.

Definition ifaceRefName (r : InterfaceRef) : string :=
  match r with IfaceName n | IfaceType n => n end.

(** The composer [schemaComposer.addAsComposer(type)] registers.  The
    interfaces of a composer are kept by name; the composer made of a
    native type has the fields of its field map. *)
Definition asComposer (t : AddedType) : TypeComposer :=
  match t with
  | ObjectTC n fs ifs e => mkTC n KObject fs (map ifaceRefName ifs) e false
  | InterfaceTC n fs e rt => mkTC n KInterface fs [] e rt
  | UnionTC n e rt => mkTC n KUnion [] [] e rt
  | InputTC n fs e => mkTC n KInput fs [] e false
  | ScalarTC n e => mkTC n KScalar [] [] e false
  | EnumTC n e => mkTC n KEnum [] [] e false
  | GraphQLObjectType n fs ifs => mkTC n KObject fs ifs [] false
  | GraphQLInterfaceType n fs rt => mkTC n KInterface fs [] [] rt
  | GraphQLOtherType k n fs => mkTC n k fs [] [] false
  end.

(** A definition of a parsed document: [def.name.value], and the composer
    [typeMapper.makeSchemaDef(def)] makes of it, which is a composer and
    no native type. *)
Record TypeDef : Type := mkDef {
  defName : string;
  defComposer : AddedType;
  defIsComposer : nativeName defComposer = None
}.

Arguments mkDef : clear implicits.

(** The configuration of a type builder descriptor. *)
Record BuilderConfig : Type := mkConfig {
  cfgName : string;
  cfgFields : list (string * JSObj);
  cfgInterfaces : option (list InterfaceRef);
  cfgExtensions : JSObj
}.

Inductive TypeSource : Type :=
| SDL (doc : list TypeDef)                       (* an AST document *)
| GatsbyType (kind : Kind) (config : BuilderConfig)
| NativeType (t : AddedType).

Record Plugin : Type := mkPlugin { pluginName : string }.

(** [plugin ? plugin.name : null] *)
Definition pluginNameOrNull (plugin : option Plugin) : JSVal :=
  match plugin with
  | Some p => VStr (pluginName p)
  | None => VNull
  end.

(** Modelled from the spec: [internalExtensionNames] of [./extensions],
    the recognized extension keys the specification lists, and the
    [directives] key the directives are kept under. *)
Definition internalExtensionNames : list string :=
  [ "infer"; "addDefaultResolvers"; "mimeTypes"; "childOf"; "nodeInterface";
    "createdFrom"; "plugin"; "searchable"; "sortable"; "needsResolve";
    "originalFieldConfig"; "directives" ].

(** Has a composer of this kind fields ([ObjectTypeComposer],
    [InterfaceTypeComposer], [InputTypeComposer])? *)
Definition hasFieldMethods (k : Kind) : bool :=
  match k with
  | KObject | KInterface | KInput => true
  | _ => false
  end.

(** ** The schema builder *)

Section Builder.

(** [reportParsingError] of [./types/type-defs] is outside this file, and
    so are the [parseValue] methods of the scalar types of [graphql-js]
    ([None]: the value parses, [Some msg]: it throws), [_.camelCase]
    of [lodash] and [defineFieldMapToConfig], which the file imports
    from [graphql-compose]: it is handed the field map of a native type
    and returns a map of field configurations, or throws. *)
Variable reportParsingError : string -> M unit.
Variable parseValue : string -> JSVal -> option string.
Variable camelCase : string -> string.
Variable defineFieldMapToConfig
  : list (string * JSObj) -> Outcome (list (string * JSObj)).

(** *** [checkIsAllowedTypeName] *)

(** [invariant(condition, message)] *)
Definition invariant (condition : bool) (message : string) : M unit :=
  if condition then ret tt else throw message.

Definition builtInScalarNames : list string :=
  [ "Boolean"; "Date"; "Float"; "ID"; "Int"; "JSON"; "String" ].

(** [/^[_a-zA-Z][_a-zA-Z0-9]*$/.test(name)] *)
Definition NAME_RX (name : string) : bool :=
  match name with
  | EmptyString => false
  | String c r =>
      (Str.isLetter c || Str.isUnderscore c)
      && Str.forallb (fun c => Str.isLetter c || Str.isDigit c
                               || Str.isUnderscore c) r
  end.

Definition doubleUnderscoreMessage (name : string) : string :=
  "Name " ++ dq ++ name ++ dq ++ " must not begin with "
  ++ dq ++ "__" ++ dq ++ ", which is reserved by GraphQL introspection.".

Definition invalidNameMessage (name : string) : string :=
  "Names must match /^[_a-zA-Z][_a-zA-Z0-9]*$/ but "
  ++ dq ++ name ++ dq ++ " does not.".

(** [assertValidName] of [graphql-js] *)
Definition assertValidName (name : string) : M unit :=
  if (1 <? String.length name)%nat && prefix "__" name
  then throw (doubleUnderscoreMessage name)
  else if negb (NAME_RX name)
  then throw (invalidNameMessage name)
  else ret tt.

Definition reservedNodeMessage : string :=
  "The GraphQL type `Node` is reserved for internal use.".

Definition reservedSuffixMessage (name : string) : string :=
  "GraphQL type names ending with " ++ dq ++ "FilterInput" ++ dq
  ++ " or " ++ dq ++ "SortInput" ++ dq ++ " are "
  ++ "reserved for internal use. Please rename " ++ bq name ++ ".".

Definition builtInScalarMessage (name : string) : string :=
  "The GraphQL type " ++ bq name ++ " is reserved for internal use by "
  ++ "built-in scalar types.".

Definition checkIsAllowedTypeName (name : string) : M unit :=
  invariant (negb (String.eqb name "Node")) reservedNodeMessage ;;;
  invariant (negb (Str.endsWith "FilterInput" name)
             && negb (Str.endsWith "SortInput" name))
    (reservedSuffixMessage name) ;;;
  invariant (negb (Str.includes name builtInScalarNames))
    (builtInScalarMessage name) ;;;
  assertValidName name.

(** *** [validate] *)

(** The message of the error [validate(type, value)] throws, if any. *)
Fixpoint validate (type : GraphQLType) (value : JSVal) : option string :=
  match type with
  | GraphQLNonNull ofType =>
      if isNullish value then Some "Expected non-null field value."
      else validate ofType value
  | GraphQLList ofType =>
      match value with
      | VArr items =>
          (fix each (l : list JSVal) : option string :=
             match l with
             | [] => None
             | v :: r =>
                 match validate ofType v with
                 | Some e => Some e
                 | None => each r
                 end
             end) items
      | _ => Some "Expected array field value."
      end
  | NamedType n => parseValue n value
  end.

(** *** [addExtensions] *)

Definition deprecationNoDefaultResolvers : string :=
  "Deprecation warning - " ++ dq ++ "noDefaultResolvers" ++ dq
  ++ " is deprecated. In Gatsby 3, "
  ++ "defined fields won't get resolvers, unless explicitly added with a "
  ++ "directive/extension.".

Definition nodeInterfaceIdMessage (typeName : string) : string :=
  "Interfaces with the `nodeInterface` extension must have a field "
  ++ "`id` of type `ID!`. Check the type definition of "
  ++ bq typeName ++ ".".

(** [!typeComposer.hasField(`id`) ||
     typeComposer.getFieldType(`id`).toString() !== `ID!`] *)
Definition lacksIdField (tc : TypeComposer) : bool :=
  negb (TC.hasField "id" tc)
  || negb (match TC.getFieldTypeName "id" tc with
           | Some s => String.eqb s "ID!"
           | None => false
           end).

(** The body of [directives.forEach(({ name, args }) => { switch ... })]
    over the directives of the type.  The [args] of a parsed directive
    are an object. *)
Definition typeDirective (d : JSVal) (tc : TypeComposer) : M TypeComposer :=
  let name := propOf "name" d in
  let args := propOf "args" d in
  if isStr "infer" name || isStr "dontInfer" name then
    let tc := TC.setExtension "infer" (VBool (isStr "infer" name)) tc in
    if negb (isNullish (propOf "noDefaultResolvers" args))
    then ret (TC.setExtension "addDefaultResolvers"
                (VBool (negb (truthy (propOf "noDefaultResolvers" args))))
                tc)
    else ret tc
  else if isStr "mimeTypes" name then
    ret (TC.setExtension "mimeTypes" args tc)
  else if isStr "childOf" name then
    ret (TC.setExtension "childOf" args tc)
  else if isStr "nodeInterface" name then
    match tcKind tc with
    | KInterface =>
        (if lacksIdField tc
         then report.panic (nodeInterfaceIdMessage (tcName tc))
         else ret tt) ;;;
        ret (TC.setExtension "nodeInterface" (VBool true) tc)
    | _ => ret tc
    end
  else ret tc.

(** [typeof args === `object`] for a value that is not [null] *)
Definition isObjectType (v : JSVal) : bool :=
  match v with
  | VObj _ | VArr _ | VType _ => true
  | _ => false
  end.

(** The own keys of the arguments of a field extension.  Arguments that
    are an array or a type object are read as an object without keys. *)
Definition argsObject (v : JSVal) : JSObj :=
  match v with VObj o => o | _ => [] end.

(** [definition.args.forEach(({ name, defaultValue }) => { ... })] *)
Definition backfillDefaults (defs : list ArgumentDef) (args : JSObj)
  : JSObj :=
  fold_left
    (fun args d =>
       match prop (argName d) args, argDefault d with
       | VUndefined, VUndefined => args
       | VUndefined, dv => Obj.set (argName d) dv args
       | _, _ => args
       end) defs args.

(** [Object.keys(args).forEach(arg => { ... })] *)
Definition checkExtensionArgs (typeName fieldName name : string)
           (defs : list ArgumentDef) (args : JSObj) : M unit :=
  forEach_ (Obj.keys args)
    (fun arg =>
       match find (fun d => String.eqb (argName d) arg) defs with
       | None =>
           report.error
             ("Field extension " ++ bq name ++ " on "
              ++ bq (typeName ++ "." ++ fieldName) ++ " "
              ++ "has invalid argument " ++ bq arg ++ ".")
       | Some argumentDef =>
           let value := prop arg args in
           match validate (argType argumentDef) value with
           | Some message =>
               report.error
                 ("Field extension " ++ bq name ++ " on "
                  ++ bq (typeName ++ "." ++ fieldName) ++ " "
                  ++ "has argument " ++ bq arg ++ " with invalid value "
                  ++ dq ++ templateString value ++ dq ++ ". " ++ message)
           | None => ret tt
           end
       end).

(** The body of the [forEach] over the field extensions that are not
    internal. *)
Definition fieldExtension (fieldName name : string) (tc : TypeComposer)
  : M TypeComposer :=
  let args := TC.getFieldExtension fieldName name tc in
  let typeName := tcName tc in
  if negb (truthy args) || negb (isObjectType args) then
    report.error
      ("Field extension arguments must be provided as an object. "
       ++ "Received " ++ dq ++ templateString args ++ dq ++ " on "
       ++ bq (typeName ++ "." ++ fieldName) ++ ".") ;;;
    ret tc
  else
    tryCatch
      (definition <- schemaComposer.getDirective name ;;
       let args' := backfillDefaults definition (argsObject args) in
       let tc' := match args with
                  | VObj _ =>
                      TC.setFieldExtension fieldName name (VObj args') tc
                  | _ => tc
                  end in
       checkExtensionArgs typeName fieldName name definition args' ;;;
       ret tc')
      (fun _ =>
         report.error
           ("Field extension " ++ bq name ++ " on "
            ++ bq (typeName ++ "." ++ fieldName) ++ " "
            ++ "is not available.") ;;;
         ret tc).

(** The body of [typeComposer.getFieldNames().forEach(fieldName => ...)] *)
Definition stampField (plugin : option Plugin) (createdFrom : string)
           (fieldName : string) (tc : TypeComposer) : M TypeComposer :=
  let tc := TC.setFieldExtension fieldName "createdFrom"
              (VStr createdFrom) tc in
  let tc := TC.setFieldExtension fieldName "plugin"
              (pluginNameOrNull plugin) tc in
  let tc :=
    if String.eqb createdFrom "sdl" then
      fold_left
        (fun tc d =>
           TC.setFieldExtension fieldName
             (templateString (propOf "name" d)) (propOf "args" d) tc)
        (TC.getFieldDirectives fieldName tc) tc
    else tc in
  forEach
    (filter (fun name => negb (Str.includes name internalExtensionNames))
            (Obj.keys (TC.getFieldExtensions fieldName tc)))
    (fieldExtension fieldName) tc.

Definition addExtensions (tc : TypeComposer) (plugin : option Plugin)
           (createdFrom : string) : M TypeComposer :=
  let tc := TC.setExtension "createdFrom" (VStr createdFrom) tc in
  let tc := TC.setExtension "plugin" (pluginNameOrNull plugin) tc in
  tc <- (if String.eqb createdFrom "sdl"
         then forEach (TC.getDirectives tc) typeDirective tc
         else ret tc) ;;
  tc <- (if hasFieldMethods (tcKind tc)
         then forEach (TC.getFieldNames tc) (stampField plugin createdFrom)
                      tc
         else ret tc) ;;
  (if TC.hasExtension "addDefaultResolvers" tc
   then report.warn deprecationNoDefaultResolvers
   else ret tt) ;;;
  ret tc.

(** *** [mergeFields] and [mergeTypes] *)

(** A composer without fields has no [hasField] method: the call is a
    [TypeError]. *)
Definition mergeFields (fields : list (string * JSObj))
           (tc : TypeComposer) : M TypeComposer :=
  forEach (Obj.entries fields)
    (fun entry tc =>
       let fieldName := fst entry in
       let fieldConfig := snd entry in
       if hasFieldMethods (tcKind tc) then
         if TC.hasField fieldName tc
         then ret (TC.extendField fieldName fieldConfig tc)
         else ret (TC.setField fieldName fieldConfig tc)
       else throw "TypeError: typeComposer.hasField is not a function")
    tc.

(** [type.getInterfaces()] of a temporary composer: the thunk of
    [createTypeComposerFromGatsbyType] looks a name up with
    [schemaComposer.getIFTC(iface).getType()]. *)
Definition getInterfaces (ifs : list InterfaceRef) : M (list string) :=
  forEach ifs
    (fun r acc =>
       match r with
       | IfaceName n =>
           i <- schemaComposer.getIFTC n ;; ret (acc ++ [tcName i])%list
       | IfaceType n => ret (acc ++ [n])%list
       end) [].

(** [ifaces.forEach(iface => typeComposer.addInterface(iface))]; only an
    [ObjectTypeComposer] has the method. *)
Definition addInterfaces (ifaces : list string) (tc : TypeComposer)
  : M TypeComposer :=
  forEach ifaces
    (fun iface tc =>
       match tcKind tc with
       | KObject => ret (TC.addInterface iface tc)
       | _ => throw "TypeError: typeComposer.addInterface is not a function"
       end) tc.

Definition isSafeMerge (plugin : option Plugin) (typeOwner : JSVal)
  : bool :=
  match plugin with
  | None => true
  | Some p =>
      String.eqb (pluginName p) "default-site-plugin"
      || isStr (pluginName p) typeOwner
  end.

Definition unsafeMergeMessage (pluginName typeName : string)
           (typeOwner : JSVal) : string :=
  if truthy typeOwner then
    "Plugin " ++ bq pluginName ++ " has customized the GraphQL type "
    ++ bq typeName ++ ", which has already been defined "
    ++ "by the plugin " ++ bq (templateString typeOwner) ++ ". "
    ++ "This could potentially cause conflicts."
  else
    "Plugin " ++ bq pluginName
    ++ " has customized the built-in Gatsby GraphQL type "
    ++ bq typeName ++ ". "
    ++ "This is allowed, but could potentially cause conflicts.".

(** [isNamedTypeComposer(type)], with the extensions of the composer *)
Definition namedTypeComposerExtensions (type : AddedType) : option JSObj :=
  match type with
  | ObjectTC _ _ _ e | InterfaceTC _ _ e _ | UnionTC _ e _ | InputTC _ _ e
  | ScalarTC _ e | EnumTC _ e => Some e
  | _ => None
  end.

(** The [if (type instanceof ...)] chain of [mergeTypes]. *)
Definition mergeDefinition (type : AddedType) (tc : TypeComposer)
  : M TypeComposer :=
  match type with
  | ObjectTC _ fields ifs _ =>
      tc <- mergeFields fields tc ;;
      ifaces <- getInterfaces ifs ;;
      addInterfaces ifaces tc
  | InterfaceTC _ fields _ _ => mergeFields fields tc
  | GraphQLObjectType _ fields ifaces =>
      fields <- liftOutcome (defineFieldMapToConfig fields) ;;
      tc <- mergeFields fields tc ;;
      addInterfaces ifaces tc
  | GraphQLInterfaceType _ fields _ =>
      fields <- liftOutcome (defineFieldMapToConfig fields) ;;
      mergeFields fields tc
  | _ => ret tc
  end.

(** The ownership check of [mergeTypes]: a warning when the merge is not
    safe. *)
Definition warnUnsafeMerge (tc : TypeComposer) (plugin : option Plugin)
  : M unit :=
  let typeOwner := TC.getExtension "plugin" tc in
  match plugin with
  | Some p =>
      if negb (isSafeMerge plugin typeOwner)
      then report.warn
             (unsafeMergeMessage (pluginName p) (tcName tc) typeOwner)
      else ret tt
  | None => ret tt
  end.

(** What [mergeTypes] does after the ownership check. *)
Definition mergeInto (tc : TypeComposer) (type : AddedType)
           (plugin : option Plugin) (createdFrom : string)
  : M TypeComposer :=
  tc <- mergeDefinition type tc ;;
  let tc := match namedTypeComposerExtensions type with
            | Some e => TC.extendExtensions e tc
            | None => tc
            end in
  addExtensions tc plugin createdFrom.

(** [mergeTypes] returns [true]; the composer it has updated in place is
    what is returned here. *)
Definition mergeTypes (tc : TypeComposer) (type : AddedType)
           (plugin : option Plugin) (createdFrom : string)
  : M TypeComposer :=
  warnUnsafeMerge tc plugin ;;;
  mergeInto tc type plugin createdFrom.

(** *** [processAddedType] *)

(** [processAddedType] from [schemaComposer.addAsComposer(type)] on,
    [tc] being the composer that is registered: the composer made of a
    native type, or the composer itself. *)
Definition processAddedComposer (tc : TypeComposer) (createdFrom : string)
           (plugin : option Plugin) : M TypeComposer :=
  schemaComposer.set (tcName tc) tc ;;;
  let tc := match tcKind tc with
            | KInterface | KUnion =>
                if negb (tcResolveType tc) then TC.setResolveType tc else tc
            | _ => tc
            end in
  schemaComposer.addSchemaMustHaveType tc ;;;
  tc <- addExtensions tc plugin createdFrom ;;
  schemaComposer.set (tcName tc) tc ;;;
  ret tc.

Definition processAddedType (type : AddedType) (createdFrom : string)
           (plugin : option Plugin) : M TypeComposer :=
  processAddedComposer (asComposer type) createdFrom plugin.

(** *** [createTypeComposerFromGatsbyType]

    A descriptor is of one of the six kinds of [GatsbyGraphQLTypeKind],
    so the [default] branch, which warns and returns [null], is not
    reached. *)
Definition createTypeComposerFromGatsbyType (kind : Kind)
           (config : BuilderConfig) : option AddedType :=
  match kind with
  | KObject =>
      Some (ObjectTC (cfgName config) (cfgFields config)
              (match cfgInterfaces config with
               | Some l => l
               | None => []
               end)
              (cfgExtensions config))
  | KInput =>
      Some (InputTC (cfgName config) (cfgFields config)
              (cfgExtensions config))
  | KUnion => Some (UnionTC (cfgName config) (cfgExtensions config) false)
  | KInterface =>
      Some (InterfaceTC (cfgName config) (cfgFields config)
              (cfgExtensions config) false)
  | KEnum => Some (EnumTC (cfgName config) (cfgExtensions config))
  | KScalar => Some (ScalarTC (cfgName config) (cfgExtensions config))
  end.

(** *** [parseTypes] *)

(** [schemaComposer.typeMapper.makeSchemaDef(def)]: the composer made of
    the definition becomes the one registered under its name. *)
Definition makeSchemaDef (def : TypeDef) : M AddedType :=
  let parsed := defComposer def in
  schemaComposer.set (addedName parsed) (asComposer parsed) ;;;
  ret parsed.

(** [types] holds the composers that have been parsed, as they are: a
    composer of [types] that a later definition of its name is merged
    into is the composer of the registry, and has what the merge has
    done to it. *)
Definition parseTypes (doc : list TypeDef) (plugin : option Plugin)
           (createdFrom : string) : M (list TypeComposer) :=
  forEach doc
    (fun def types =>
       let name := defName def in
       checkIsAllowedTypeName name ;;;
       known <- schemaComposer.has name ;;
       if known then
         typeComposer <- schemaComposer.get name ;;
         parsedType <- makeSchemaDef def ;;
         merged <- mergeTypes typeComposer parsedType plugin createdFrom ;;
         schemaComposer.set (tcName merged) merged ;;;
         ret (map (fun type =>
                     if String.eqb (tcName type) (tcName merged)
                     then merged else type) types)
       else
         parsedType <- makeSchemaDef def ;;
         ret (types ++ [asComposer parsedType])%list)
    [].

(** *** [addTypes] *)

(** The part of [addTypes] shared by builder descriptors and native
    types: check the name, then merge or add. *)
Definition addOrMerge (typeName : string) (type : AddedType)
           (plugin : option Plugin) (createdFrom : string) : M unit :=
  checkIsAllowedTypeName typeName ;;;
  known <- schemaComposer.has typeName ;;
  if known then
    typeComposer <- schemaComposer.get typeName ;;
    merged <- mergeTypes typeComposer type plugin createdFrom ;;
    schemaComposer.set (tcName merged) merged
  else
    processAddedType type createdFrom plugin ;;; ret tt.

Definition addType (entry : TypeSource * option Plugin) : M unit :=
  let plugin := snd entry in
  match fst entry with
  | SDL doc =>
      let createdFrom := "sdl" in
      parsed <- tryCatch
                  (types <- parseTypes doc plugin createdFrom ;;
                   ret (Some types))
                  (fun error => reportParsingError error ;;; ret None) ;;
      match parsed with
      | None => ret tt
      | Some parsedTypes =>
          forEach_ parsedTypes
            (fun type =>
               processAddedComposer type createdFrom plugin ;;; ret tt)
      end
  | GatsbyType kind config =>
      match createTypeComposerFromGatsbyType kind config with
      | Some type => addOrMerge (addedName type) type plugin "typeBuilder"
      | None => ret tt
      end
  | NativeType type =>
      match nativeName type with
      | Some typeName => addOrMerge typeName type plugin "graphql-js"
      | None => throw "TypeError: Cannot read property 'endsWith'"
      end
  end.

Definition addTypes (types : list (TypeSource * option Plugin)) : M unit :=
  forEach_ types addType.


(** *** Third-party schemas *)

(** A [GraphQLSchema] built elsewhere.  A composer made of one of its
    types keeps its state in the type object, so a type of the schema is
    written as the composer over it. *)
Record GraphQLSchema : Type := mkSchema {
  queryTypeName : string;
  typeMap : list (string * TypeComposer)
}.

(** A field configuration given as a value: anything but an object is
    the type of the field. *)
Definition asFieldConfig (v : JSVal) : JSObj :=
  match v with
  | VObj o => o
  | _ => [("type", v)]
  end.

(** The body of [typeComposer.getFieldNames().forEach(fieldName => ...)]
    of [resetOverriddenThirdPartyTypeFields]. *)
Definition resetStep (fieldName : string) (tc : TypeComposer)
  : TypeComposer :=
  let createdFrom := TC.getFieldExtension fieldName "createdFrom" tc in
  if isStr "createResolvers" createdFrom then TC.removeField fieldName tc
  else
    let config := TC.getFieldExtension fieldName "originalFieldConfig" tc in
    if truthy config
    then TC.addFields [(fieldName, asFieldConfig config)]
                      (TC.removeField fieldName tc)
    else tc.

Definition resetOverriddenThirdPartyTypeFields (tc : TypeComposer)
  : TypeComposer :=
  fold_left (fun tc fieldName => resetStep fieldName tc)
            (TC.getFieldNames tc) tc.

(** The characters of [/[[\]!]/] *)
Definition wrappers : list ascii := [ "["%char; "]"%char; "!"%char ].

(** The body of the [forEach] that fixes references to the query type. *)
Definition fixQueryReference (schemaQueryTypeName fieldName : string)
           (tc : TypeComposer) : M TypeComposer :=
  let field := TC.getField fieldName tc in
  match toStringJS (prop "type" field) with
  | None => throw "TypeError: Cannot read property 'toString'"
  | Some fieldType =>
      if String.eqb (Str.strip wrappers fieldType) schemaQueryTypeName
      then ret (TC.extendField fieldName
                  [("type",
                    VStr (Str.replaceFirst schemaQueryTypeName "Query"
                                           fieldType))] tc)
      else ret tc
  end.

Definition processThirdPartyTypeFields (tc : TypeComposer)
           (schemaQueryTypeName : string) : M TypeComposer :=
  let tc := resetOverriddenThirdPartyTypeFields tc in
  forEach (TC.getFieldNames tc) (fixQueryReference schemaQueryTypeName) tc.

(** [isSpecifiedScalarType] and [isIntrospectionType] of [graphql-js]
    go by the name of the type. *)
Definition isSpecifiedScalarType (name : string) : bool :=
  Str.includes name [ "String"; "Int"; "Float"; "Boolean"; "ID" ].

Definition isIntrospectionType (name : string) : bool :=
  Str.includes name
    [ "__Schema"; "__Directive"; "__DirectiveLocation"; "__Type";
      "__Field"; "__InputValue"; "__EnumValue"; "__TypeKind" ].

(** The test on a type of the type map of a third-party schema. *)
Definition isImported (schemaQueryTypeName : string) (type : TypeComposer)
  : bool :=
  negb (String.eqb (tcName type) schemaQueryTypeName)
  && negb (isSpecifiedScalarType (tcName type))
  && negb (isIntrospectionType (tcName type))
  && negb (String.eqb (tcName type) "Date")
  && negb (String.eqb (tcName type) "JSON").

(** [schemaComposer.Query]: the root query type, made if missing. *)
Definition getQuery : M TypeComposer :=
  fun w =>
    match Obj.get "Query" (registry w) with
    | Some tc => (Ok tc, w)
    | None => (Ok (mkTC "Query" KObject [] [] [] false), w)
    end.

(** The body of [Object.keys(types).forEach(typeName => ...)].  The
    composer is the type of the schema, so what the callback does to it
    is done to the schema: the type after the call is returned. *)
Definition addThirdPartyType (schemaQueryTypeName : string)
           (type : TypeComposer) : M TypeComposer :=
  if isImported schemaQueryTypeName type then
    schemaComposer.set (tcName type) type ;;;
    typeComposer <-
      (match tcKind type with
       | KObject | KInterface =>
           processThirdPartyTypeFields type schemaQueryTypeName
       | _ => ret type
       end) ;;
    let typeComposer :=
      TC.setExtension "createdFrom" (VStr "thirdPartySchema")
                      typeComposer in
    schemaComposer.set (tcName typeComposer) typeComposer ;;;
    schemaComposer.addSchemaMustHaveType typeComposer ;;;
    ret typeComposer
  else ret type.

(** [types[typeName]]: the query type is the object that
    [processThirdPartyTypeFields] has just worked on. *)
Definition typeOfEntry (schema : GraphQLSchema) (queryTC : TypeComposer)
           (entry : string * TypeComposer) : TypeComposer :=
  if String.eqb (fst entry) (queryTypeName schema) then queryTC
  else snd entry.

(** The body of [thirdPartySchemas.forEach(schema => ...)]; the schema
    as its types have been left is returned. *)
Definition addThirdPartySchema (schema : GraphQLSchema) : M GraphQLSchema :=
  match Obj.get (queryTypeName schema) (typeMap schema) with
  | None => throw "Error: the schema has no query type"
  | Some schemaQueryType =>
      queryTC <- processThirdPartyTypeFields schemaQueryType
                   (tcName schemaQueryType) ;;
      query <- getQuery ;;
      schemaComposer.set "Query"
        (TC.addFields (tcFields queryTC) query) ;;;
      types <- forEach (Obj.entries (typeMap schema))
                 (fun entry done =>
                    type <- addThirdPartyType (tcName schemaQueryType)
                              (typeOfEntry schema queryTC entry) ;;
                    ret (done ++ [(fst entry, type)])%list) [] ;;
      ret (mkSchema (queryTypeName schema) types)
  end.

Definition addThirdPartySchemas (thirdPartySchemas : list GraphQLSchema)
  : M (list GraphQLSchema) :=
  forEach thirdPartySchemas
    (fun schema done =>
       schema' <- addThirdPartySchema schema ;;
       ret (done ++ [schema'])%list) [].

(** *** [addCustomResolveFunctions] *)

(** [stringifyArray]; [None] is the [TypeError] of [item.toString()] on
    [undefined] or [null]. *)
Fixpoint stringifyItem (item : JSVal) : option string :=
  match item with
  | VArr arr =>
      match
        (fix items (l : list JSVal) : option (list string) :=
           match l with
           | [] => Some []
           | x :: r =>
               match stringifyItem x, items r with
               | Some s, Some rest => Some (s :: rest)
               | _, _ => None
               end
           end) arr
      with
      | Some strs => Some ("[" ++ Str.join "," strs ++ "]")
      | None => None
      end
  | _ => toStringJS item
  end.

Definition stringifyArray (arr : list JSVal) : option string :=
  stringifyItem (VArr arr).

Definition mismatchMessage (typeName fieldName fieldTypeName
                            originalTypeName : string) : string :=
  "`createResolvers` passed resolvers for field "
  ++ bq (typeName ++ "." ++ fieldName) ++ " with type "
  ++ bq fieldTypeName ++ ". "
  ++ "Such a field with type " ++ bq originalTypeName ++ " already exists "
  ++ "on the type. Use `createTypes` to override type fields.".

Definition unknownTypeMessage (typeName : string) : string :=
  "`createResolvers` passed resolvers for type " ++ bq typeName
  ++ " that "
  ++ "doesn't exist in the schema. Use `createTypes` to add the type "
  ++ "before adding resolvers.".

(** [fieldTypeName]: [None] is [undefined]. *)
Definition overrideTypeName (fieldConfig : JSObj)
  : M (option string) :=
  let type := prop "type" fieldConfig in
  if truthy type then
    match (match type with
           | VArr arr => stringifyArray arr
           | _ => toStringJS type
           end) with
    | Some s => ret (Some s)
    | None => throw "TypeError: Cannot read property 'toString'"
    end
  else ret None.

(** [!fieldTypeName] *)
Definition noTypeName (fieldTypeName : option string) : bool :=
  match fieldTypeName with
  | None => true
  | Some s => String.eqb s ""
  end.

(** The test that decides whether an override of a field is applied. *)
Definition overrideAccepted (fieldTypeName : option string)
           (originalTypeName : string) (tc : TypeComposer) : bool :=
  noTypeName fieldTypeName
  || match fieldTypeName with
     | Some s =>
         String.eqb (Str.strip ["!"%char] s)
                    (Str.strip ["!"%char] originalTypeName)
     | None => false
     end
  || isStr "thirdPartySchema" (TC.getExtension "createdFrom" tc).

(** [newConfig] *)
Definition overrideConfig (fieldConfig : JSObj) (originalResolver : JSVal)
  : JSObj :=
  ((if truthy (prop "type" fieldConfig)
    then [("type", prop "type" fieldConfig)] else [])
   ++ (if truthy (prop "args" fieldConfig)
       then [("args", prop "args" fieldConfig)] else [])
   ++ (if truthy (prop "resolve" fieldConfig)
       then [("resolve",
              VOverrideFn (prop "resolve" fieldConfig) originalResolver)]
       else []))%list.

(** The body of [Object.keys(fields).forEach(fieldName => ...)] *)
Definition overrideField (typeName : string) (entry : string * JSObj)
           (tc : TypeComposer) : M TypeComposer :=
  let fieldName := fst entry in
  let fieldConfig := snd entry in
  if TC.hasField fieldName tc then
    let originalFieldConfig := TC.getField fieldName tc in
    match TC.typeText (prop "type" originalFieldConfig) with
    | None => throw "TypeError: Cannot read property 'toString'"
    | Some originalTypeName =>
        let originalResolver := prop "resolve" originalFieldConfig in
        fieldTypeName <- overrideTypeName fieldConfig ;;
        if overrideAccepted fieldTypeName originalTypeName tc then
          let tc :=
            if truthy (prop "resolve" fieldConfig)
            then TC.extendFieldExtensions fieldName
                   [("needsResolve", VBool true)] tc
            else tc in
          let tc :=
            TC.extendField fieldName
              (overrideConfig fieldConfig originalResolver) tc in
          if isStr "thirdPartySchema" (TC.getExtension "createdFrom" tc)
          then ret (TC.setFieldExtension fieldName "originalFieldConfig"
                      (VObj originalFieldConfig) tc)
          else ret tc
        else
          match fieldTypeName with
          | Some s =>
              if negb (String.eqb s "") then
                report.warn
                  (mismatchMessage typeName fieldName s originalTypeName)
                ;;; ret tc
              else ret tc
          | None => ret tc
          end
    end
  else
    ret (TC.setFieldExtension fieldName "createdFrom"
           (VStr "createResolvers")
           (TC.addFields [(fieldName, fieldConfig)] tc)).

(** [createResolvers(resolvers, { ignoreNonexistentTypes })].  The
    composer is the one of the registry and is changed in place: what
    has been done for a field shows in the registry before the next
    field is looked at. *)
Definition createResolvers (resolvers : list (string * list (string * JSObj)))
           (ignoreNonexistentTypes : bool) : M unit :=
  forEach_ (Obj.entries resolvers)
    (fun entry =>
       let typeName := fst entry in
       let fields := snd entry in
       known <- schemaComposer.has typeName ;;
       if known then
         tc <- schemaComposer.getOTC typeName ;;
         forEach (Obj.entries fields)
           (fun entry tc =>
              tc <- overrideField typeName entry tc ;;
              schemaComposer.set typeName tc ;;;
              ret tc) tc ;;;
         ret tt
       else if negb ignoreNonexistentTypes then
         report.warn (unknownTypeMessage typeName)
       else ret tt).

(** The [createResolvers] hook is outside this file: what it does is the
    calls of [createResolvers] it makes. *)
Definition addCustomResolveFunctions
           (calls : list (list (string * list (string * JSObj)) * bool))
  : M unit :=
  forEach_ calls (fun call => createResolvers (fst call) (snd call)).

(** *** [checkQueryableInterfaces] *)

Definition queryableInterfaces (types : list TypeComposer) : list string :=
  map tcName
    (filter (fun type =>
               Kind_eqb (tcKind type) KInterface
               && truthy (TC.getExtension "nodeInterface" type)) types).

Definition incorrectTypes (types : list TypeComposer) : list string :=
  map tcName
    (filter (fun type =>
               Kind_eqb (tcKind type) KObject
               && existsb (fun iface =>
                             Str.includes iface (queryableInterfaces types))
                          (tcInterfaces type)
               && negb (TC.hasInterface "Node" type)) types).

Definition queryableInterfacesMessage (incorrect : list string) : string :=
  "Interfaces with the `nodeInterface` extension must only be "
  ++ "implemented by types which also implement the `Node` "
  ++ "interface. Check the type definition of "
  ++ Str.join ", " (map bq incorrect) ++ ".".

Definition checkQueryableInterfaces : M unit :=
  w <- getWorld ;;
  let types := map snd (registry w) in
  match incorrectTypes types with
  | [] => ret tt
  | incorrect => report.panic (queryableInterfacesMessage incorrect)
  end.

(** *** Convenience children fields *)

(** A node of the store: [id], [parent], [children], [internal.type]. *)
Record Node : Type := mkNode {
  nodeId : string;
  nodeParent : JSVal;
  nodeChildren : list string;
  nodeType : option string
}.

(** [getNode(id)] and [getNodesByType(typeName)] of [../redux/nodes],
    over the nodes of the store. *)
Definition getNode (store : list Node) (id : string) : option Node :=
  find (fun n => String.eqb (nodeId n) id) store.

Definition getNodesByType (store : list Node) (typeName : string)
  : list Node :=
  filter (fun n => match nodeType n with
                   | Some t => String.eqb t typeName
                   | None => false
                   end) store.

(** [_.groupBy(collection, iteratee)]: the groups by key, a key being the
    string of what [iteratee] returns. *)
Definition groupBy {A} (iteratee : A -> string) (collection : list A)
  : list (string * list A) :=
  fold_left
    (fun groups x =>
       match Obj.get (iteratee x) groups with
       | Some g => Obj.set (iteratee x) (g ++ [x])%list groups
       | None => Obj.set (iteratee x) [x] groups
       end) collection [].

(** [_.maxBy(array, iteratee)]: the first element of the greatest
    [iteratee], [undefined] for no element. *)
Definition maxBy {A} (iteratee : A -> nat) (array : list A) : option A :=
  fold_left
    (fun best x =>
       match best with
       | None => Some x
       | Some b => if (iteratee b <? iteratee x)%nat then Some x else Some b
       end) array None.

Definition typeKey (n : Node) : string :=
  match nodeType n with
  | Some t => t
  | None => "undefined"
  end.

Definition parentKey (n : Node) : string := templateString (nodeParent n).

(** [(node.children || []).map(getNode).filter(Boolean)] *)
Definition childNodes (store : list Node) (node : Node) : list Node :=
  flat_map (fun id => match getNode store id with
                      | Some c => [c]
                      | None => []
                      end) (nodeChildren node).

Definition groupChildNodesByType (store : list Node) (nodes : list Node)
  : list (string * list Node) :=
  groupBy typeKey (flat_map (childNodes store) nodes).

(** [fieldNames.convenienceChild] and [fieldNames.convenienceChildren] *)
Definition convenienceChild (typeName : string) : string :=
  camelCase ("child " ++ typeName).

Definition convenienceChildren (typeName : string) : string :=
  camelCase ("children " ++ typeName).

Definition createChildrenField (typeName : string)
  : list (string * JSObj) :=
  [ (convenienceChildren typeName,
     [ ("type", VThunk (VArr [VStr typeName]));
       ("resolve", VChildrenFn typeName) ]) ].

Definition createChildField (typeName : string) : list (string * JSObj) :=
  [ (convenienceChild typeName,
     [ ("type", VThunk (VStr typeName));
       ("resolve", VChildFn typeName) ]) ].

Definition dontInferMessage (parentTypeName fieldName : string) : string :=
  "The type " ++ bq parentTypeName ++ " does not explicitly define "
  ++ "the field " ++ bq fieldName ++ "." ++ nl
  ++ "On types with the `@dontInfer` directive, or with the `infer` "
  ++ "extension set to `false`, automatically adding fields for "
  ++ "children types is deprecated." ++ nl
  ++ "In Gatsby v3, only children fields explicitly set with the "
  ++ "`childOf` extension will be added." ++ nl.

(** The test of the deprecation warning:
    [!childOfExtension || !childOfExtension.types.includes(parentTypeName)
     || !childOfExtension.many === many] *)
Definition notExplicitlySet (childOfExtension : JSVal)
           (parentTypeName : string) (many : bool) : M bool :=
  if negb (truthy childOfExtension) then ret true
  else
    match includesStr parentTypeName (propOf "types" childOfExtension) with
    | None => throw "TypeError: Cannot read property 'includes'"
    | Some listed =>
        ret (negb listed
             || Bool.eqb (negb (truthy (propOf "many" childOfExtension)))
                         many)
    end.

(** The body of [Object.keys(childNodesByType).forEach(typeName => ...)] *)
Definition addChildrenFieldOf (shouldInfer : JSVal)
           (parentTypeName : string) (entry : string * list Node)
           (tc : TypeComposer) : M TypeComposer :=
  let typeName := fst entry in
  let typeChildren := snd entry in
  match maxBy (@List.length Node)
              (map snd (groupBy parentKey typeChildren)) with
  | None => throw "TypeError: Cannot read property 'length'"
  | Some group =>
      let maxChildCount := List.length group in
      (if isFalse shouldInfer then
         childTypeComposer <- schemaComposer.get typeName ;;
         let childOfExtension :=
           TC.getExtension "childOf" childTypeComposer in
         let many := (1 <? maxChildCount)%nat in
         warn <- notExplicitlySet childOfExtension parentTypeName many ;;
         if warn then
           let fieldName := if many then convenienceChildren typeName
                            else convenienceChild typeName in
           report.warn (dontInferMessage parentTypeName fieldName)
         else ret tt
       else ret tt) ;;;
      if (1 <? maxChildCount)%nat
      then ret (TC.addFields (createChildrenField typeName) tc)
      else ret (TC.addFields (createChildField typeName) tc)
  end.

Definition addImplicitConvenienceChildrenFields (store : list Node)
           (tc : TypeComposer) : M TypeComposer :=
  let shouldInfer := TC.getExtension "infer" tc in
  let parentTypeName := tcName tc in
  let nodes := getNodesByType store parentTypeName in
  let childNodesByType := groupChildNodesByType store nodes in
  forEach (Obj.entries childNodesByType)
          (addChildrenFieldOf shouldInfer parentTypeName) tc.

(** ** What the specification speaks of *)

(** A queryable interface: an interface type of the registry that has the
    [nodeInterface] extension. *)
Definition queryable (types : list TypeComposer) (i : string) : Prop :=
  exists t, In t types /\ tcKind t = KInterface
            /\ truthy (TC.getExtension "nodeInterface" t) = true
            /\ tcName t = i.

(** An object type that implements a queryable interface and not [Node]. *)
Definition violatesNodeCapability (types : list TypeComposer)
           (t : TypeComposer) : Prop :=
  In t types /\ tcKind t = KObject
  /\ (exists i, In i (tcInterfaces t) /\ queryable types i)
  /\ ~ In "Node" (tcInterfaces t).

(** A type name the name check is to refuse: the reserved name, a
    reserved suffix, the name of a built-in scalar, or no identifier. *)
Definition reservedTypeName (name : string) : Prop :=
  name = "Node"
  \/ (exists pre, name = pre ++ "FilterInput")
  \/ (exists pre, name = pre ++ "SortInput")
  \/ In name builtInScalarNames
  \/ NAME_RX name = false.

(** Where [addTypes] comes to check the name [name] of a type of the
    source, and the world [w1] it does so in: at once for a native type
    and for a builder descriptor, after the definitions before it for a
    definition of a document. *)
Definition reachesNameCheck (source : TypeSource) (plugin : option Plugin)
           (name : string) (w w1 : World) : Prop :=
  match source with
  | NativeType t => nativeName t = Some name /\ w1 = w
  | GatsbyType kind config => cfgName config = name /\ w1 = w
  | SDL doc =>
      exists pre def post types,
        doc = (pre ++ def :: post)%list /\ defName def = name
        /\ parseTypes pre plugin "sdl" w = (Ok types, w1)
  end.

(** Modelled from the spec: [reportParsingError] of [./types/type-defs]
    is outside this file.  The specification has the failure to parse a
    malformed text reported, and a reserved name abort the whole build.
    A text is parsed before [addTypes] has the document made of it, so
    an error caught around [parseTypes] is not that of a malformed
    text: the call throws the error it is handed again. *)
Definition specReportParsingError (error : string) : M unit :=
  throw error.

(** ** Example data *)

Definition emptyWorld : World := mkWorld [] [] [] [].

(** Scalars that take every value. *)
Definition parseAnything (name : string) (value : JSVal) : option string :=
  None.

(** Two [graphql-compose]: one whose [defineFieldMapToConfig] returns
    the fields of a field map as field configurations, and one that
    does not export the name, so that the call is a [TypeError]. *)
Definition fieldMapAsConfig (fieldMap : list (string * JSObj))
  : Outcome (list (string * JSObj)) :=
  Ok fieldMap.

Definition noDefineFieldMapToConfig (fieldMap : list (string * JSObj))
  : Outcome (list (string * JSObj)) :=
  Throw "TypeError: defineFieldMapToConfig is not a function".

(** [type Node { id: ID! }] in a document, and a native type [Foo]. *)
Definition nodeDefinition : TypeDef :=
  mkDef "Node" (ObjectTC "Node" [("id", [("type", VStr "ID!")])] [] [])
        eq_refl.

Definition fooType : AddedType :=
  GraphQLObjectType "Foo" [("bar", [("type", VStr "Int")])] [].

(** The record declares a field [id] of type [ID!]. *)
Definition declaresIdField (tc : TypeComposer) : Prop :=
  TC.hasField "id" tc = true /\ TC.getFieldTypeName "id" tc = Some "ID!".

(** [d] is a [nodeInterface] directive. *)
Definition isNodeInterfaceDirective (d : JSVal) : bool :=
  isStr "nodeInterface" (propOf "name" d).

(** Two composers that differ in their extensions at most. *)
Definition sameButExtensions (a b : TypeComposer) : Prop :=
  tcName b = tcName a /\ tcKind b = tcKind a /\ tcFields b = tcFields a
  /\ tcInterfaces b = tcInterfaces a.

(** Two composers that differ in the extensions of their fields at
    most: the same fields in the same order, and the same in every field
    but under its [extensions] key. *)
Definition sameButFieldExtensions (a b : TypeComposer) : Prop :=
  tcName b = tcName a /\ tcKind b = tcKind a
  /\ tcInterfaces b = tcInterfaces a
  /\ tcExtensions b = tcExtensions a
  /\ map fst (tcFields b) = map fst (tcFields a)
  /\ forall f k, k <> "extensions" ->
                 Obj.get k (TC.getField f b) = Obj.get k (TC.getField f a).

(** Two worlds that differ in their reports at most. *)
Definition sameButReports (w w' : World) : Prop :=
  registry w' = registry w /\ mustHave w' = mustHave w
  /\ directiveDefs w' = directiveDefs w.

(** The composer [addExtensions] has after its first two lines. *)
Definition stamped (tc : TypeComposer) (plugin : option Plugin)
           (createdFrom : string) : TypeComposer :=
  TC.setExtension "plugin" (pluginNameOrNull plugin)
    (TC.setExtension "createdFrom" (VStr createdFrom) tc).

(** [interface Thing @nodeInterface { id: ID! }], and the same directive
    on an object type and on an interface without the field. *)
Definition nodeInterfaceDirective : JSVal :=
  VObj [("name", VStr "nodeInterface"); ("args", VObj [])].

Definition thingInterface : TypeComposer :=
  mkTC "Thing" KInterface [("id", [("type", VStr "ID!")])] []
       [("directives", VArr [nodeInterfaceDirective])] false.

Definition thingObject : TypeComposer :=
  mkTC "Thing" KObject [("id", [("type", VStr "ID!")])] []
       [("directives", VArr [nodeInterfaceDirective])] false.

(** The fields and the interfaces of an incoming object or interface
    type; an interface type has no interfaces of its own. *)
Definition incomingFields (type : AddedType) : list (string * JSObj) :=
  match type with
  | ObjectTC _ fields _ _ | InterfaceTC _ fields _ _
  | GraphQLObjectType _ fields _ | GraphQLInterfaceType _ fields _ => fields
  | _ => []
  end.

Definition incomingInterfaces (type : AddedType) : M (list string) :=
  match type with
  | ObjectTC _ _ ifs _ => getInterfaces ifs
  | GraphQLObjectType _ _ ifaces => ret ifaces
  | _ => ret []
  end.

Definition isObjectOrInterfaceType (type : AddedType) : bool :=
  match type with
  | ObjectTC _ _ _ _ | InterfaceTC _ _ _ _
  | GraphQLObjectType _ _ _ | GraphQLInterfaceType _ _ _ => true
  | _ => false
  end.

(** [report] put after the reports of [w]. *)
Definition reported (r : Report) (w : World) : World :=
  mkWorld (registry w) (mustHave w) (directiveDefs w)
          (reports w ++ [r]).

(** The field a merge leaves under a name the incoming definition has:
    the incoming configuration over the existing one, key by key, the
    extensions of the two put together. *)
Definition mergedField (existing : option JSObj) (incoming : JSObj)
  : JSObj :=
  match existing with
  | Some c0 => TC.extended c0 incoming
  | None => incoming
  end.

(** The field configurations [mergeTypes] hands to [mergeFields]: the
    fields of a composer, and what [defineFieldMapToConfig] makes of the
    field map of a native type. *)
Definition incomingFieldConfigs (type : AddedType)
  : Outcome (list (string * JSObj)) :=
  match type with
  | ObjectTC _ fields _ _ | InterfaceTC _ fields _ _ => Ok fields
  | GraphQLObjectType _ fields _ | GraphQLInterfaceType _ fields _ =>
      defineFieldMapToConfig fields
  | _ => Ok []
  end.

(** [tc'] is [tc] with the field configurations [fields] and the
    interfaces [ifaces] merged into it.  Under every key but
    [extensions] a field has what the incoming field has under it, and
    what the existing field had where the incoming field has nothing
    under it (or is not there); the fields are those of either; the
    interfaces are those of either, and none is there twice unless it
    was. *)
Definition mergedWith (tc : TypeComposer) (fields : list (string * JSObj))
           (ifaces : list string) (tc' : TypeComposer) : Prop :=
  (forall f k, k <> "extensions" ->
      Obj.get k (TC.getField f tc')
      = match Obj.get f fields with
        | Some c =>
            match Obj.get k c with
            | Some v => Some v
            | None => Obj.get k (TC.getField f tc)
            end
        | None => Obj.get k (TC.getField f tc)
        end)
  /\ (forall f, TC.hasField f tc'
                = Obj.has f fields || TC.hasField f tc)
  /\ (forall i, In i (tcInterfaces tc')
                <-> In i (tcInterfaces tc) \/ In i ifaces)
  /\ (NoDup (tcInterfaces tc) -> NoDup (tcInterfaces tc')).

(** [tc'] is [tc] with the composer [type], whose interfaces are
    [ifaces], merged into it. *)
Definition mergedAs (tc : TypeComposer) (type : AddedType)
           (ifaces : list string) (tc' : TypeComposer) : Prop :=
  mergedWith tc (incomingFields type) ifaces tc'.

(** The record [mergeFields] leaves of a record that has fields. *)
Definition mergedFields (fields : list (string * JSObj))
           (tc : TypeComposer) : TypeComposer :=
  fold_left
    (fun tc entry =>
       TC.setField (fst entry)
         (mergedField (Obj.get (fst entry) (tcFields tc)) (snd entry)) tc)
    (Obj.entries fields) tc.

(** [typeComposer.extendExtensions(type.getExtensions())] where the
    incoming type is a composer. *)
Definition withExtensionsOf (type : AddedType) (tc : TypeComposer)
  : TypeComposer :=
  match namedTypeComposerExtensions type with
  | Some e => TC.extendExtensions e tc
  | None => tc
  end.

(** The one way in which the stamping that ends a merge does not
    return: the text of a document is merged into an interface, the
    directives the record then has name [nodeInterface], and the merged
    record has no field [id: ID!]. *)
Definition nodeInterfacePanics (tc : TypeComposer) (type : AddedType)
           (fields : list (string * JSObj)) (createdFrom : string)
  : bool :=
  String.eqb createdFrom "sdl"
  && Kind_eqb (tcKind tc) KInterface
  && existsb isNodeInterfaceDirective
             (TC.getDirectives (withExtensionsOf type tc))
  && lacksIdField (mergedFields fields tc).

(** A computation that takes no report back: the reports it leaves are
    those it found, and then its own. *)
Definition keepsReports {A} (m : M A) : Prop :=
  forall w, exists rs, reports (snd (m w)) = (reports w ++ rs)%list.

(** A computation that does not look at the reports: in two worlds that
    differ in their reports at most it comes to the same outcome, and
    leaves two worlds that differ in their reports at most. *)
Definition ignoresReports {A} (m : M A) : Prop :=
  forall w1 w2, sameButReports w1 w2 ->
                fst (m w1) = fst (m w2)
                /\ sameButReports (snd (m w1)) (snd (m w2)).

(** Two extension maps that differ in the owner at most: the second is
    the first, or the first with another value under its [plugin] key. *)
Definition sameButOwner (e e' : JSObj) : Prop :=
  e' = e \/ (Obj.has "plugin" e = true
             /\ exists owner, e' = Obj.set "plugin" owner e).

(** [g] after a computation that returns. *)
Definition mapOk {A B} (g : A -> B) (r : Outcome A * World)
  : Outcome B * World :=
  match r with
  | (Ok a, w) => (Ok (g a), w)
  | (Throw e, w) => (Throw e, w)
  | (Panic e, w) => (Panic e, w)
  end.

(** A record [Foo] owned by the plugin [p1], with a field [a] that has a
    resolver, and a definition of [Foo] from a document that gives [a]
    another type and adds a field [b] and an interface. *)
Definition fooRecord : TypeComposer :=
  mkTC "Foo" KObject
       [("a", [("type", VStr "Int"); ("resolve", VFun "r")])]
       ["Node"]
       [("createdFrom", VStr "typeBuilder"); ("plugin", VStr "p1")]
       false.

Definition fooDefinition : AddedType :=
  ObjectTC "Foo"
           [("a", [("type", VStr "String"); ("args", VObj [])]);
            ("b", [("type", VStr "Int")])]
           [IfaceType "Node"; IfaceType "Bar"] [].

(** A registry with a queryable interface [I], an object type [A] that
    implements [I] and [Node], and an object type [B] that implements
    [I] only. *)
Definition queryableWorld : World :=
  mkWorld
    [("I", mkTC "I" KInterface [("id", [("type", VStr "ID!")])] []
                [("nodeInterface", VBool true)] true);
     ("A", mkTC "A" KObject [] ["I"; "Node"] [] false);
     ("B", mkTC "B" KObject [] ["I"] [] false)]
    [] [] [].

Definition typeB : TypeComposer := mkTC "B" KObject [] ["I"] [] false.

(** The extensions of a field configuration: [field.extensions || {}]. *)
Definition fieldExtensionsOf (c : JSObj) : JSObj :=
  match prop "extensions" c with
  | VObj e => e
  | _ => []
  end.

(** What the reset leaves of a field: nothing of a field [createResolvers]
    has added, the recorded configuration of a field it has overridden,
    and any other field as it is. *)
Definition resetField (c : JSObj) : option JSObj :=
  if isStr "createResolvers" (prop "createdFrom" (fieldExtensionsOf c))
  then None
  else if truthy (prop "originalFieldConfig" (fieldExtensionsOf c))
  then Some (asFieldConfig
               (prop "originalFieldConfig" (fieldExtensionsOf c)))
  else Some c.

(** What the fix of the references to the query type leaves of a
    field. *)
Definition fixedField (schemaQueryTypeName : string) (c : JSObj) : JSObj :=
  match toStringJS (prop "type" c) with
  | Some fieldType =>
      if String.eqb (Str.strip wrappers fieldType) schemaQueryTypeName
      then Obj.spread c
             [("type",
               VStr (Str.replaceFirst schemaQueryTypeName "Query"
                                      fieldType))]
      else c
  | None => c
  end.

(** Every field of the composer has a type that prints. *)
Definition fieldsTyped (tc : TypeComposer) : Prop :=
  forall f c, Obj.get f (tcFields tc) = Some c ->
              toStringJS (prop "type" c) <> None.

(** Two composers that differ in their fields at most. *)
Definition sameButFields (a b : TypeComposer) : Prop :=
  tcName b = tcName a /\ tcKind b = tcKind a
  /\ tcInterfaces b = tcInterfaces a /\ tcExtensions b = tcExtensions a.

(** The fix of the reference to the query type in one field, where the
    type of the field prints. *)
Definition fixPure (schemaQueryTypeName fieldName : string)
           (tc : TypeComposer) : TypeComposer :=
  match toStringJS (prop "type" (TC.getField fieldName tc)) with
  | Some fieldType =>
      if String.eqb (Str.strip wrappers fieldType) schemaQueryTypeName
      then TC.extendField fieldName
             [("type",
               VStr (Str.replaceFirst schemaQueryTypeName "Query"
                                      fieldType))] tc
      else tc
  | None => tc
  end.

(** The named type under the wrappers of a type, and the type with
    another named type under the same wrappers. *)
Fixpoint namedTypeOf (t : GraphQLType) : string :=
  match t with
  | NamedType n => n
  | GraphQLList t | GraphQLNonNull t => namedTypeOf t
  end.

Fixpoint withNamedType (n : string) (t : GraphQLType) : GraphQLType :=
  match t with
  | NamedType _ => NamedType n
  | GraphQLList t => GraphQLList (withNamedType n t)
  | GraphQLNonNull t => GraphQLNonNull (withNamedType n t)
  end.

(** What [printType] puts before and after the name. *)
Fixpoint opens (t : GraphQLType) : string :=
  match t with
  | NamedType _ => ""
  | GraphQLList t => "[" ++ opens t
  | GraphQLNonNull t => opens t
  end.

Fixpoint closes (t : GraphQLType) : string :=
  match t with
  | NamedType _ => ""
  | GraphQLList t => closes t ++ "]"
  | GraphQLNonNull t => closes t ++ "!"
  end.

(** The composer [processThirdPartyTypeFields] returns where the fields
    the reset leaves are typed. *)
Definition processedFields (schemaQueryTypeName : string)
           (tc : TypeComposer) : TypeComposer :=
  fold_left (fun tc f => fixPure schemaQueryTypeName f tc)
            (TC.getFieldNames (resetOverriddenThirdPartyTypeFields tc))
            (resetOverriddenThirdPartyTypeFields tc).

(** The record an imported type of a third-party schema is registered
    as. *)
Definition importedAs (schemaQueryTypeName : string) (type : TypeComposer)
  : TypeComposer :=
  TC.setExtension "createdFrom" (VStr "thirdPartySchema")
    (match tcKind type with
     | KObject | KInterface => processedFields schemaQueryTypeName type
     | _ => type
     end).

(** The world once a type of a third-party schema has been looked at. *)
Definition importStep (schemaQueryTypeName : string) (w : World)
           (type : TypeComposer) : World :=
  if isImported schemaQueryTypeName type
  then mkWorld (Obj.set (tcName type)
                        (importedAs schemaQueryTypeName type) (registry w))
               (mustHave w ++ [tcName type])
               (directiveDefs w) (reports w)
  else w.

(** The types of a schema are under their names, and what the reset
    leaves of their fields is typed. *)
Definition wellFormedSchema (schema : GraphQLSchema) : Prop :=
  forall name t, Obj.get name (typeMap schema) = Some t ->
                 tcName t = name
                 /\ fieldsTyped (resetOverriddenThirdPartyTypeFields t).

(** The test on a type of a third-party schema goes by its name. *)
Definition isImportedName (schemaQueryTypeName name : string) : bool :=
  negb (String.eqb name schemaQueryTypeName)
  && negb (isSpecifiedScalarType name)
  && negb (isIntrospectionType name)
  && negb (String.eqb name "Date")
  && negb (String.eqb name "JSON").


(** The two as tests. *)
Definition fieldsTypedb (tc : TypeComposer) : bool :=
  forallb (fun e => match toStringJS (prop "type" (snd e)) with
                    | Some _ => true
                    | None => false
                    end) (tcFields tc).

Definition wellFormedSchemab (schema : GraphQLSchema) : bool :=
  forallb (fun e =>
             String.eqb (tcName (snd e)) (fst e)
             && fieldsTypedb (resetOverriddenThirdPartyTypeFields (snd e)))
          (typeMap schema).

(** A schema of the Relay kind: the query type [RootQuery], a type
    [Viewer] with a field that leads back to the query type, and a scalar
    [Date]. *)
Definition relaySchema : GraphQLSchema :=
  mkSchema "RootQuery"
    [ ("RootQuery",
       mkTC "RootQuery" KObject
            [("viewer", [("type", VType (NamedType "Viewer"))])]
            [] [] false);
      ("Viewer",
       mkTC "Viewer" KObject
            [("name", [("type", VType (NamedType "String"))]);
             ("query",
              [("type",
                VType (GraphQLNonNull
                         (GraphQLList
                            (GraphQLNonNull (NamedType "RootQuery")))))])]
            [] [] false);
      ("Date", mkTC "Date" KScalar [] [] [] false);
      ("String", mkTC "String" KScalar [] [] [] false) ].

Definition rootQueryType : TypeComposer :=
  mkTC "RootQuery" KObject
       [("viewer", [("type", VType (NamedType "Viewer"))])] [] [] false.




(** A record [Foo] with a field [bar] of the given type that has a
    resolver, a registry that holds it, and an override of [bar] as a
    [String]. *)
Definition fooWith (type : string) : TypeComposer :=
  mkTC "Foo" KObject
       [("bar", [("type", VStr type); ("resolve", VFun "old")])]
       [] [("createdFrom", VStr "sdl")] false.

Definition fooWorld (type : string) : World :=
  mkWorld [("Foo", fooWith type)] [] [] [].

Definition overrideAsString : JSObj :=
  [("type", VStr "String"); ("resolve", VFun "fn")].

(** The world once a third-party schema with the query type [q] has
    been imported. *)
Definition importedWorld (schema : GraphQLSchema) (q : TypeComposer)
           (w : World) : World :=
  let queryTC := processedFields (tcName q) q in
  let query := match Obj.get "Query" (registry w) with
               | Some tc => tc
               | None => mkTC "Query" KObject [] [] [] false
               end in
  fold_left (importStep (tcName q))
    (map (typeOfEntry schema queryTC) (Obj.entries (typeMap schema)))
    (mkWorld (Obj.set "Query" (TC.addFields (tcFields queryTC) query)
                      (registry w))
             (mustHave w) (directiveDefs w) (reports w)).


(** The Relay schema as a build with a [createResolvers] that overrides
    [Viewer.query] and adds [Viewer.extra] has left it: the types of the
    schema that are registered are the composers of the registry. *)
Definition viewerResolvers : list (string * list (string * JSObj)) :=
  [("Viewer", [("query", [("type", VStr "String");
                          ("resolve", VFun "fn")]);
               ("extra", [("type", VStr "Foo")])])].

Definition relaySchemaRebuilt : GraphQLSchema :=
  match addThirdPartySchema relaySchema emptyWorld with
  | (Ok schema', w') =>
      match createResolvers viewerResolvers false w' with
      | (Ok _, w'') =>
          mkSchema (queryTypeName schema')
            (map (fun e =>
                    (fst e,
                     match Obj.get (fst e) (registry w'') with
                     | Some t =>
                         if isImported (queryTypeName schema') (snd e)
                         then t else snd e
                     | None => snd e
                     end)) (typeMap schema'))
      | _ => relaySchema
      end
  | _ => relaySchema
  end.



(** The children of a parent that are of a child type, the greatest
    number of them under one node of the parent type, and the child
    types seen under the nodes of the parent type. *)
Definition isOfType (typeName : string) (c : Node) : bool :=
  String.eqb (typeKey c) typeName.

Definition childrenOfType (store : list Node) (typeName : string)
           (parent : Node) : list Node :=
  filter (isOfType typeName) (childNodes store parent).

Definition maxChildCount (store : list Node)
           (parentTypeName typeName : string) : nat :=
  list_max (map (fun parent =>
                   List.length (childrenOfType store typeName parent))
                (getNodesByType store parentTypeName)).






(** A store with three nodes of type [Parent] that have no, one and
    two children of type [C], and a composer for [Parent]. *)
Definition familyStore : list Node :=
  [ mkNode "p0" VNull [] (Some "Parent");
    mkNode "p1" VNull ["a"] (Some "Parent");
    mkNode "p2" VNull ["b"; "c"] (Some "Parent");
    mkNode "a" (VStr "p1") [] (Some "C");
    mkNode "b" (VStr "p2") [] (Some "C");
    mkNode "c" (VStr "p2") [] (Some "C") ].

(** The same with one child at most under every parent. *)
Definition smallFamilyStore : list Node :=
  [ mkNode "p0" VNull [] (Some "Parent");
    mkNode "p1" VNull ["a"] (Some "Parent");
    mkNode "p2" VNull ["b"] (Some "Parent");
    mkNode "a" (VStr "p1") [] (Some "C");
    mkNode "b" (VStr "p2") [] (Some "C") ].

Definition parentComposer : TypeComposer :=
  mkTC "Parent" KObject [("id", [("type", VStr "ID!")])] ["Node"] [] false.

(** The steps of [groupBy] and [maxBy]. *)
Definition groupStep {A} (iteratee : A -> string)
           (groups : list (string * list A)) (x : A)
  : list (string * list A) :=
  match Obj.get (iteratee x) groups with
  | Some g => Obj.set (iteratee x) (g ++ [x])%list groups
  | None => Obj.set (iteratee x) [x] groups
  end.


(** A [camelCase] for the examples, [_.camelCase] on words of letters
    that spaces separate: the spaces go and the first letter of a word
    that is not the first is kept as it is. *)
Fixpoint joinWords (s : string) : string :=
  match s with
  | EmptyString => EmptyString
  | String c r =>
      if Ascii.eqb c " "%char then joinWords r else String c (joinWords r)
  end.

(** The consistency of the store as a test. *)
Fixpoint distinct (l : list string) : bool :=
  match l with
  | [] => true
  | x :: r => negb (Str.includes x r) && distinct r
  end.




(** ** Further notions *)

(** A name the name check lets through. *)
Definition allowedTypeName (name : string) : Prop :=
  ~ reservedTypeName name /\ prefix "__" name = false.

(** A value is of the shape a type asks for: not [null] under a
    non-null type, an array of values of the shape under a list type, a
    value the scalar parses under a named type. *)
Fixpoint conforms (type : GraphQLType) (value : JSVal) : Prop :=
  match type with
  | GraphQLNonNull ofType => isNullish value = false /\ conforms ofType value
  | GraphQLList ofType =>
      exists items, value = VArr items /\ Forall (conforms ofType) items
  | NamedType n => parseValue n value = None
  end.

(** [v === undefined] *)
Definition isUndefined (v : JSVal) : bool :=
  match v with VUndefined => true | _ => false end.

(** The first default value a list of argument definitions declares for
    an argument. *)
Definition declaredDefault (defs : list ArgumentDef) (arg : string)
  : JSVal :=
  match find (fun d => String.eqb (argName d) arg
                       && negb (isUndefined (argDefault d))) defs with
  | Some d => argDefault d
  | None => VUndefined
  end.

(** The registry [w'] has the types of [w] under the same names, the
    same but for their fields, and the very same where the type is no
    object type or its name is not among [names]; the list of types the
    schema must have and the directive definitions are the same. *)
Definition sameTypesButFields (names : list string) (w w' : World) : Prop :=
  map fst (registry w') = map fst (registry w)
  /\ mustHave w' = mustHave w
  /\ directiveDefs w' = directiveDefs w
  /\ forall name tc,
      Obj.get name (registry w) = Some tc ->
      exists tc',
        Obj.get name (registry w') = Some tc'
        /\ sameButFields tc tc'
        /\ (tcKind tc <> KObject \/ ~ In name names -> tc' = tc).

(** A type written the short way [createResolvers] takes it: a list
    type as the array of its item type. *)
Fixpoint arrayShorthand (t : GraphQLType) : JSVal :=
  match t with
  | GraphQLList ofType => VArr [arrayShorthand ofType]
  | _ => VType t
  end.

(** The field carries the provenance and the owner as extensions. *)
Definition fieldStamped (plugin : option Plugin) (createdFrom : string)
           (f : string) (tc : TypeComposer) : Prop :=
  TC.getFieldExtension f "createdFrom" tc = VStr createdFrom
  /\ TC.getFieldExtension f "plugin" tc = pluginNameOrNull plugin.

(** The last directive of a list that has one of the names. *)
Definition lastNamed (names : list string) (ds : list JSVal)
  : option JSVal :=
  fold_left
    (fun found d =>
       if existsb (fun n => isStr n (propOf "name" d)) names
       then Some d else found) ds None.

(** The type a builder descriptor or a native type brings, with the
    provenance [addTypes] gives it; a document brings none by itself. *)
Definition sourceType (source : TypeSource) : option (AddedType * string) :=
  match source with
  | SDL _ => None
  | GatsbyType kind config =>
      match createTypeComposerFromGatsbyType kind config with
      | Some type => Some (type, "typeBuilder")
      | None => None
      end
  | NativeType type =>
      match nativeName type with
      | Some _ => Some (type, "graphql-js")
      | None => None
      end
  end.

Definition sourceName (source : TypeSource) : string :=
  match sourceType source with
  | Some (type, _) => addedName type
  | None => ""
  end.

(** *** [determineSearchableFields]

    The values of [SEARCHABLE_ENUM] of [./types/filter] and of
    [SORTABLE_ENUM] of [./types/sort] are outside this file. *)
Record SearchEnums : Type := mkEnums {
  SEARCHABLE : JSVal;
  DEPRECATED_SEARCHABLE : JSVal;
  SORTABLE : JSVal;
  DEPRECATED_SORTABLE : JSVal
}.

(** [_.isEmpty(value)] of [lodash]: no own enumerable key, no item, no
    character. *)
Definition isEmpty (v : JSVal) : bool :=
  match v with
  | VObj [] | VArr [] => true
  | VObj _ | VArr _ | VType _ => false
  | VStr s => String.eqb s ""
  | _ => true
  end.

(** The object handed to [extendFieldExtensions]. *)
Definition searchableExtensions (enums : SearchEnums)
           (field extensions : JSObj) : JSObj :=
  if truthy (prop "resolve" field) then
    if truthy (prop "dateformat" extensions) then
      [ ("searchable", SEARCHABLE enums);
        ("sortable", SORTABLE enums);
        ("needsResolve",
         VBool (if truthy (prop "proxy" extensions) then true else false)) ]
    else if negb (isEmpty (prop "args" field)) then
      [ ("searchable", DEPRECATED_SEARCHABLE enums);
        ("sortable", DEPRECATED_SORTABLE enums);
        ("needsResolve", VBool true) ]
    else
      [ ("searchable", SEARCHABLE enums);
        ("sortable", SORTABLE enums);
        ("needsResolve", VBool true) ]
  else
    [ ("searchable", SEARCHABLE enums);
      ("sortable", SORTABLE enums);
      ("needsResolve", VBool false) ].

(** The body of [typeComposer.getFieldNames().forEach(fieldName => ...)] *)
Definition determineSearchableField (enums : SearchEnums)
           (fieldName : string) (tc : TypeComposer) : TypeComposer :=
  let field := TC.getField fieldName tc in
  let extensions := TC.getFieldExtensions fieldName tc in
  TC.extendFieldExtensions fieldName
    (searchableExtensions enums field extensions) tc.

Definition determineSearchableFields (enums : SearchEnums)
           (tc : TypeComposer) : TypeComposer :=
  fold_left (fun tc fieldName => determineSearchableField enums fieldName tc)
            (TC.getFieldNames tc) tc.

(** *** [attachTracingResolver]

    [wrappingResolver] and [defaultResolver] of [./resolvers] are outside
    this file.  This is the callback of [schemaComposer.forEach], what is
    done to one composer. *)
Definition attachTracingResolverTo (wrappingResolver : JSVal -> JSVal)
           (defaultResolver : JSVal) (tc : TypeComposer) : TypeComposer :=
  match tcKind tc with
  | KObject | KInterface =>
      fold_left
        (fun tc fieldName =>
           let field := TC.getField fieldName tc in
           TC.extendField fieldName
             [("resolve",
               if truthy (prop "resolve" field)
               then wrappingResolver (prop "resolve" field)
               else defaultResolver)] tc)
        (TC.getFieldNames tc) tc
  | _ => tc
  end.

(** What a field is classed as. *)
Definition isDeprecatedSearch (field extensions : JSObj) : bool :=
  truthy (prop "resolve" field)
  && negb (truthy (prop "dateformat" extensions))
  && negb (isEmpty (prop "args" field)).

Definition needsResolveOf (field extensions : JSObj) : bool :=
  truthy (prop "resolve" field)
  && (negb (truthy (prop "dateformat" extensions))
      || truthy (prop "proxy" extensions)).

(** *** Examples *)

(** A union [Media] in the registry, and a definition of an object type
    of that name; an enum definition of the name [Foo]. *)
Definition mediaUnion : TypeComposer :=
  mkTC "Media" KUnion [] [] [] true.

Definition mediaObject : AddedType :=
  ObjectTC "Media" [("url", [("type", VStr "String")])] [] [].

Definition fooEnum : AddedType := EnumTC "Foo" [].

(** [type Post @dontInfer @childOf(types: ["File"]) { title: String }] *)
Definition postWithDirectives : TypeComposer :=
  mkTC "Post" KObject [("title", [("type", VStr "String")])] ["Node"]
       [("directives",
         VArr [ VObj [("name", VStr "dontInfer"); ("args", VObj [])];
                VObj [("name", VStr "childOf");
                      ("args", VObj [("types", VArr [VStr "File"])])] ])]
       false.

(** A native interface type without a [resolveType]. *)
Definition shapeInterface : AddedType :=
  GraphQLInterfaceType "Shape" [("area", [("type", VStr "Float")])] false.

(** A builder descriptor of an object type [Author] and a native object
    type [Book]; the same as definitions of a document. *)
Definition authorAndBook : list (TypeSource * option Plugin) :=
  [ (GatsbyType KObject
       (mkConfig "Author" [("name", [("type", VStr "String")])]
                 (Some [IfaceType "Node"]) []),
     Some (mkPlugin "gatsby-source-books"));
    (NativeType
       (GraphQLObjectType "Book" [("title", [("type", VStr "String")])]
                          []),
     None) ].

Definition authorAndBookDocument : list TypeDef :=
  [ mkDef "Author"
          (ObjectTC "Author" [("name", [("type", VStr "String")])]
                    [IfaceType "Node"] [])
          eq_refl;
    mkDef "Book"
          (ObjectTC "Book" [("title", [("type", VStr "String")])] [] [])
          eq_refl ].

(** A type with a plain field, a field with a resolver and arguments,
    and a date field with a resolver. *)
Definition someEnums : SearchEnums :=
  mkEnums (VStr "SEARCHABLE") (VStr "DEPRECATED_SEARCHABLE")
          (VStr "SORTABLE") (VStr "DEPRECATED_SORTABLE").

Definition articleType : TypeComposer :=
  mkTC "Article" KObject
       [ ("title", [("type", VStr "String")]);
         ("excerpt", [("type", VStr "String");
                      ("args", VObj [("length", VStr "Int")]);
                      ("resolve", VFun "excerpt")]);
         ("date", [("type", VStr "Date");
                   ("resolve", VFun "date");
                   ("extensions", VObj [("dateformat", VObj [])])]) ]
       ["Node"] [] false.



(** [rs] put after the reports of [w]. *)
Definition reportedAll (rs : list Report) (w : World) : World :=
  mkWorld (registry w) (mustHave w) (directiveDefs w) (reports w ++ rs).

(** A registry that has the type [Foo] of a plugin. *)
Definition fooRegistered : World :=
  mkWorld [("Foo", fooRecord)] ["Foo"] [] [].



(** A second third-party schema, whose query type is named [Query]. *)
Definition shopSchema : GraphQLSchema :=
  mkSchema "Query"
    [ ("Query",
       mkTC "Query" KObject
            [("product", [("type", VType (NamedType "Product"))])]
            [] [] false);
      ("Product",
       mkTC "Product" KObject
            [("title", [("type", VType (NamedType "String"))])]
            [] [] false);
      ("String", mkTC "String" KScalar [] [] [] false) ].

(** *** [addConvenienceChildrenFields]

    The fields of the children that say with [childOf] whose children
    they are.  The function keeps type composers in [Map]s and [Set]s; a
    composer is known here by its key in the registry, and the name a
    child composer has is kept beside it. *)

Fixpoint GraphQLType_eqb (a b : GraphQLType) : bool :=
  match a, b with
  | NamedType x, NamedType y => String.eqb x y
  | GraphQLList x, GraphQLList y => GraphQLType_eqb x y
  | GraphQLNonNull x, GraphQLNonNull y => GraphQLType_eqb x y
  | _, _ => false
  end.

(** [SameValueZero], the comparison of the keys of a [Map] and of the
    members of a [Set].  JavaScript compares arrays, objects and functions
    by identity; values have no identity here, and these are compared by
    what they hold. *)
Fixpoint sameValueZero (a b : JSVal) {struct a} : bool :=
  match a, b with
  | VUndefined, VUndefined => true
  | VNull, VNull => true
  | VBool x, VBool y => Bool.eqb x y
  | VNum x, VNum y => Z.eqb x y
  | VStr x, VStr y => String.eqb x y
  | VArr x, VArr y =>
      (fix each (l1 l2 : list JSVal) : bool :=
         match l1, l2 with
         | [], [] => true
         | p :: r1, q :: r2 => sameValueZero p q && each r1 r2
         | _, _ => false
         end) x y
  | VObj x, VObj y =>
      (fix each (l1 l2 : list (string * JSVal)) : bool :=
         match l1, l2 with
         | [], [] => true
         | (k1, p) :: r1, (k2, q) :: r2 =>
             String.eqb k1 k2 && sameValueZero p q && each r1 r2
         | _, _ => false
         end) x y
  | VType x, VType y => GraphQLType_eqb x y
  | VThunk x, VThunk y => sameValueZero x y
  | VFun x, VFun y => String.eqb x y
  | VOverrideFn r1 o1, VOverrideFn r2 o2 =>
      sameValueZero r1 r2 && sameValueZero o1 o2
  | VChildrenFn x, VChildrenFn y => String.eqb x y
  | VChildFn x, VChildFn y => String.eqb x y
  | _, _ => false
  end.

(** [map.get(k)], [map.has(k)] and [map.set(k, v)] of a [Map]; a key that
    is set again keeps its place. *)
Fixpoint mapGet {V} (k : JSVal) (m : list (JSVal * V)) : option V :=
  match m with
  | [] => None
  | (k', v) :: r => if sameValueZero k' k then Some v else mapGet k r
  end.

Definition mapHas {V} (k : JSVal) (m : list (JSVal * V)) : bool :=
  match mapGet k m with Some _ => true | None => false end.

Fixpoint mapSet {V} (k : JSVal) (v : V) (m : list (JSVal * V))
  : list (JSVal * V) :=
  match m with
  | [] => [(k, v)]
  | (k', v') :: r =>
      if sameValueZero k' k then (k', v) :: r else (k', v') :: mapSet k v r
  end.

(** [set.add(x)] *)
Definition setAdd (x : JSVal) (s : list JSVal) : list JSVal :=
  if existsb (fun y => sameValueZero y x) s then s else (s ++ [x])%list.

(** [set.add(type)] for a set of composers. *)
Definition addComposer (key : string) (s : list string) : list string :=
  if Str.includes key s then s else (s ++ [key])%list.

Fixpoint characters (s : string) : list JSVal :=
  match s with
  | EmptyString => []
  | String c r => VStr (String c EmptyString) :: characters r
  end.

(** [new Set(v)]: the items of an array and the characters of a string,
    each once and in their order; nothing for [undefined] and [null];
    any other value cannot be iterated. *)
Definition newSet (v : JSVal) : M (list JSVal) :=
  match v with
  | VUndefined | VNull => ret []
  | VArr items => ret (fold_left (fun s x => setAdd x s) items [])
  | VStr s => ret (fold_left (fun s x => setAdd x s) (characters s) [])
  | _ => throw "TypeError: object is not iterable"
  end.

(** [const { types } = v] *)
Definition destructured (v : JSVal) : M JSVal :=
  if isNullish v
  then throw "TypeError: Cannot destructure property `types` of 'undefined' or 'null'."
  else ret v.

(** The children of a parent type or of a mime type: a [Map] from the
    child composer to [many]. *)
Definition Children : Type := list (string * (string * JSVal)).

Record ChildrenMaps : Type := mkMaps {
  parentTypesToChildren : list (JSVal * Children);
  mimeTypesToChildren : list (JSVal * Children);
  typesHandlingMimeTypes : list (JSVal * list string)
}.

Definition isObjectOrInterface (type : TypeComposer) : bool :=
  match tcKind type with
  | KObject | KInterface => true
  | _ => false
  end.

Definition childOfOnObjectMessage (typeName : string) : string :=
  "The `childOf` extension can only be used on types that implement "
  ++ "the `Node` interface." ++ nl
  ++ "Check the type definition of " ++ bq typeName ++ ".".

Definition childOfOnInterfaceMessage (typeName : string) : string :=
  "The `childOf` extension can only be used on interface types that "
  ++ "have the `@nodeInterface` extension." ++ nl
  ++ "Check the type definition of " ++ bq typeName ++ ".".

Definition childrenOnInterfaceMessage (typeName : string) : string :=
  "With the `childOf` extension, children fields can only be added to "
  ++ "interfaces which have the `@nodeInterface` extension." ++ nl
  ++ "Check the type definition of " ++ bq typeName ++ ".".

(** [if (!typesHandlingMimeTypes.has(mimeType)) {
       typesHandlingMimeTypes.set(mimeType, new Set()) }
     typesHandlingMimeTypes.get(mimeType).add(type)] *)
Definition addHandler (key : string) (mimeType : JSVal)
           (handling : list (JSVal * list string))
  : M (list (JSVal * list string)) :=
  let handling :=
    if mapHas mimeType handling then handling
    else mapSet mimeType [] handling in
  match mapGet mimeType handling with
  | Some types => ret (mapSet mimeType (addComposer key types) handling)
  | None => throw "TypeError: Cannot read property 'add' of undefined"
  end.

(** [if (!map.has(k)) { map.set(k, new Map()) }
     map.get(k).set(type, many)] *)
Definition addChild (key : string) (type : TypeComposer) (many : JSVal)
           (k : JSVal) (map : list (JSVal * Children))
  : M (list (JSVal * Children)) :=
  let map := if mapHas k map then map else mapSet k [] map in
  match mapGet k map with
  | Some children =>
      ret (mapSet k (Obj.set key (tcName type, many) children) map)
  | None => throw "TypeError: Cannot read property 'set' of undefined"
  end.

(** The first half of the callback of [schemaComposer.forEach]. *)
Definition collectMimeTypes (key : string) (type : TypeComposer)
           (handling : list (JSVal * list string))
  : M (list (JSVal * list string)) :=
  if isObjectOrInterface type && TC.hasExtension "mimeTypes" type then
    extension <- destructured (TC.getExtension "mimeTypes" type) ;;
    types <- newSet (propOf "types" extension) ;;
    forEach types (addHandler key) handling
  else ret handling.

(** The second half; after [report.error] the callback returns. *)
Definition collectChildOf (key : string) (type : TypeComposer)
           (maps : list (JSVal * Children) * list (JSVal * Children))
  : M (list (JSVal * Children) * list (JSVal * Children)) :=
  if isObjectOrInterface type && TC.hasExtension "childOf" type then
    if Kind_eqb (tcKind type) KObject
       && negb (TC.hasInterface "Node" type)
    then report.error (childOfOnObjectMessage (tcName type)) ;;; ret maps
    else if Kind_eqb (tcKind type) KInterface
            && negb (TC.hasExtension "nodeInterface" type)
    then report.error (childOfOnInterfaceMessage (tcName type)) ;;;
         ret maps
    else
      extension <- destructured (TC.getExtension "childOf" type) ;;
      let many := propOf "many" extension in
      types <- newSet (propOf "types" extension) ;;
      parents <- forEach types (addChild key type many) (fst maps) ;;
      mimeTypes <- newSet (propOf "mimeTypes" extension) ;;
      mimes <- forEach mimeTypes (addChild key type many) (snd maps) ;;
      ret (parents, mimes)
  else ret maps.

Definition collectChildren (entry : string * TypeComposer)
           (maps : ChildrenMaps) : M ChildrenMaps :=
  let key := fst entry in
  let type := snd entry in
  handling <- collectMimeTypes key type (typesHandlingMimeTypes maps) ;;
  pm <- collectChildOf key type
          (parentTypesToChildren maps, mimeTypesToChildren maps) ;;
  ret (mkMaps (fst pm) (snd pm) handling).

(** [typeComposer.addFields(fields)]; the composers of unions and of
    scalars have no such method. *)
Definition addFieldsTo (fields : list (string * JSObj))
           (tc : TypeComposer) : M TypeComposer :=
  match tcKind tc with
  | KUnion | KScalar =>
      throw "TypeError: typeComposer.addFields is not a function"
  | _ => ret (TC.addFields fields tc)
  end.

Definition childrenOrChildField (typeName : string) (many : JSVal)
  : list (string * JSObj) :=
  if truthy many then createChildrenField typeName
  else createChildField typeName.

(** What is done with a parent composer and its children, in the loop
    over the parent types and in the loop over the mime types alike. *)
Definition addChildrenFieldsTo (key : string) (children : Children)
  : M unit :=
  typeComposer <- schemaComposer.get key ;;
  if Kind_eqb (tcKind typeComposer) KInterface
     && negb (TC.hasExtension "nodeInterface" typeComposer)
  then report.error (childrenOnInterfaceMessage (tcName typeComposer))
  else
    typeComposer <-
      forEach children
        (fun child tc =>
           addFieldsTo (childrenOrChildField (fst (snd child))
                                             (snd (snd child))) tc)
        typeComposer ;;
    schemaComposer.set key typeComposer.

(** A parent that is no string names no type of the registry. *)
Definition addToParentType (entry : JSVal * Children) : M unit :=
  match fst entry with
  | VStr parent =>
      has <- schemaComposer.has parent ;;
      if has then addChildrenFieldsTo parent (snd entry) else ret tt
  | _ => ret tt
  end.

Definition addToMimeTypeHandlers (handling : list (JSVal * list string))
           (entry : JSVal * Children) : M unit :=
  match mapGet (fst entry) handling with
  | Some parentTypes =>
      forEach_ parentTypes (fun key => addChildrenFieldsTo key (snd entry))
  | None => ret tt
  end.

Definition addConvenienceChildrenFields : M unit :=
  w <- getWorld ;;
  maps <- forEach (registry w) collectChildren (mkMaps [] [] []) ;;
  forEach_ (parentTypesToChildren maps) addToParentType ;;;
  forEach_ (mimeTypesToChildren maps)
           (addToMimeTypeHandlers (typesHandlingMimeTypes maps)).

(** ** Notions for [addConvenienceChildrenFields] *)

Definition isString (v : JSVal) : bool :=
  match v with VStr _ => true | _ => false end.

(** A [types] or [mimeTypes] argument that lists names, or is missing. *)
Definition namesOrMissing (v : JSVal) : bool :=
  match v with
  | VUndefined | VNull => true
  | VArr items => forallb isString items
  | _ => false
  end.

(** The array [v] lists the name. *)
Definition lists (name : string) (v : JSVal) : bool :=
  match includesStr name v with
  | Some listed => listed
  | None => false
  end.

(** The [childOf] extension of the type is taken up: the type is an
    object type that implements [Node], or an interface with the
    [nodeInterface] extension. *)
Definition takenAsChild (type : TypeComposer) : bool :=
  TC.hasExtension "childOf" type
  && match tcKind type with
     | KObject => TC.hasInterface "Node" type
     | KInterface => TC.hasExtension "nodeInterface" type
     | _ => false
     end.

(** The type says that it is a child of the type [parent], or of the
    types that handle the mime type. *)
Definition childOfType (child : TypeComposer) (parent : string) : bool :=
  takenAsChild child
  && lists parent (propOf "types" (TC.getExtension "childOf" child)).

Definition childOfMimeType (child : TypeComposer) (mimeType : string)
  : bool :=
  takenAsChild child
  && lists mimeType (propOf "mimeTypes" (TC.getExtension "childOf" child)).

(** The type says with [mimeTypes] that it handles the mime type. *)
Definition handlesMimeType (type : TypeComposer) (mimeType : string)
  : bool :=
  isObjectOrInterface type && TC.hasExtension "mimeTypes" type
  && lists mimeType (propOf "types" (TC.getExtension "mimeTypes" type)).

(** What [childOf] says of the number of children, and the name of the
    field it asks for. *)
Definition manyOf (child : TypeComposer) : JSVal :=
  propOf "many" (TC.getExtension "childOf" child).

Definition childFieldName (typeName : string) (many : JSVal) : string :=
  if truthy many then convenienceChildren typeName
  else convenienceChild typeName.

Definition explicitFieldName (child : TypeComposer) : string :=
  childFieldName (tcName child) (manyOf child).

(** The [mimeTypes] extensions of the object and interface types, and
    the [childOf] extensions that are taken up, are there and list
    names. *)
Definition readableDeclaration (type : TypeComposer) : bool :=
  (negb (isObjectOrInterface type && TC.hasExtension "mimeTypes" type)
   || (negb (isNullish (TC.getExtension "mimeTypes" type))
       && namesOrMissing
            (propOf "types" (TC.getExtension "mimeTypes" type))))
  && (negb (takenAsChild type)
      || (negb (isNullish (TC.getExtension "childOf" type))
          && namesOrMissing
               (propOf "types" (TC.getExtension "childOf" type))
          && namesOrMissing
               (propOf "mimeTypes" (TC.getExtension "childOf" type)))).

Definition readableDeclarations (w : World) : bool :=
  forallb (fun entry => readableDeclaration (snd entry)) (registry w).

(** No union and no scalar of the registry is named as a parent. *)
Definition parentsTakeFields (w : World) : bool :=
  forallb
    (fun entry =>
       match tcKind (snd entry) with
       | KUnion | KScalar =>
           negb (existsb (fun child => childOfType (snd child) (fst entry))
                         (registry w))
       | _ => true
       end) (registry w).

(** Types are neither added nor taken out, every type keeps its name,
    kind, interfaces and extensions and the fields it has; the types the
    schema must have and the directive definitions stay. *)
Definition fieldsGrew (w w' : World) : Prop :=
  map fst (registry w') = map fst (registry w)
  /\ mustHave w' = mustHave w
  /\ directiveDefs w' = directiveDefs w
  /\ forall name tc,
      Obj.get name (registry w) = Some tc ->
      exists tc',
        Obj.get name (registry w') = Some tc'
        /\ sameButFields tc tc'
        /\ forall f, TC.hasField f tc = true -> TC.hasField f tc' = true.

(** A child is under a key of one of the [Map]s, a composer is in the
    set of a mime type. *)
Definition holds (map : list (JSVal * Children)) (k key : string)
           (v : string * JSVal) : Prop :=
  exists children,
    mapGet (VStr k) map = Some children /\ Obj.get key children = Some v.

Definition handled (handling : list (JSVal * list string))
           (mimeType key : string) : Prop :=
  exists types,
    mapGet (VStr mimeType) handling = Some types /\ In key types.

(** What the first loop of [addConvenienceChildrenFields] reports on a
    type. *)
Definition childOfReport (type : TypeComposer) : list Report :=
  if isObjectOrInterface type && TC.hasExtension "childOf" type then
    if Kind_eqb (tcKind type) KObject
       && negb (TC.hasInterface "Node" type)
    then [Error (childOfOnObjectMessage (tcName type))]
    else if Kind_eqb (tcKind type) KInterface
            && negb (TC.hasExtension "nodeInterface" type)
    then [Error (childOfOnInterfaceMessage (tcName type))]
    else []
  else [].

(** A report of the second or of the third loop: on an interface of the
    registry that has no [nodeInterface] extension. *)
Definition parentReport (w : World) (r : Report) : Prop :=
  exists key tc,
    Obj.get key (registry w) = Some tc
    /\ tcKind tc = KInterface
    /\ TC.hasExtension "nodeInterface" tc = false
    /\ r = Error (childrenOnInterfaceMessage (tcName tc)).

(** The composer can be given the fields of children: it is no interface
    without the [nodeInterface] extension. *)
Definition takesChildren (tc : TypeComposer) : bool :=
  negb (Kind_eqb (tcKind tc) KInterface
        && negb (TC.hasExtension "nodeInterface" tc)).

Definition hasAddFields (tc : TypeComposer) : bool :=
  match tcKind tc with
  | KUnion | KScalar => false
  | _ => true
  end.

(** The fields of the children are on the composer. *)
Definition hasChildrenFields (children : Children) (tc : TypeComposer)
  : Prop :=
  forall key name many,
    In (key, (name, many)) children ->
    TC.hasField (childFieldName name many) tc = true.

(** A step of the second or of the third loop: where [pre] holds it
    returns, the types stay and keep their fields, what it reports is on
    interfaces without the [nodeInterface] extension, and the parents
    among [targets] that are in the registry and can be given the fields
    of children have the fields of theirs. *)
Definition addsChildren (pre : World -> Prop) (m : M unit)
           (targets : list (string * Children)) : Prop :=
  forall w,
    pre w ->
    exists w' rs,
      m w = (Ok tt, w')
      /\ fieldsGrew w w'
      /\ reports w' = (reports w ++ rs)%list
      /\ (forall r, In r rs -> parentReport w r)
      /\ forall key children tc,
          In (key, children) targets ->
          Obj.get key (registry w) = Some tc ->
          takesChildren tc = true ->
          exists tc',
            Obj.get key (registry w') = Some tc'
            /\ hasChildrenFields children tc'.

(** The parents a step of the second and of the third loop goes to. *)
Definition parentTargets (entry : JSVal * Children)
  : list (string * Children) :=
  match fst entry with
  | VStr parent => [(parent, snd entry)]
  | _ => []
  end.

Definition handlerTargets (handling : list (JSVal * list string))
           (entry : JSVal * Children) : list (string * Children) :=
  match mapGet (fst entry) handling with
  | Some parentTypes => map (fun key => (key, snd entry)) parentTypes
  | None => []
  end.

(** A registry with a parent type, a type that handles a mime type, a
    child of each, a type that has [childOf] and is no node, and a
    scalar. *)
Definition childrenRegistry : World :=
  mkWorld
    [ ("Parent",
       mkTC "Parent" KObject [("id", [("type", VStr "ID!")])] ["Node"]
            [] false);
      ("File",
       mkTC "File" KObject [("id", [("type", VStr "ID!")])] ["Node"]
            [("mimeTypes", VObj [("types", VArr [VStr "text/markdown"])])]
            false);
      ("Child",
       mkTC "Child" KObject [("id", [("type", VStr "ID!")])] ["Node"]
            [("childOf", VObj [("types", VArr [VStr "Parent"]);
                               ("mimeTypes", VArr []);
                               ("many", VBool true)])]
            false);
      ("Markdown",
       mkTC "Markdown" KObject [("id", [("type", VStr "ID!")])] ["Node"]
            [("childOf", VObj [("types", VArr []);
                               ("mimeTypes", VArr [VStr "text/markdown"]);
                               ("many", VBool false)])]
            false);
      ("Stray",
       mkTC "Stray" KObject [("name", [("type", VStr "String")])] []
            [("childOf", VObj [("types", VArr [VStr "Parent"])])]
            false);
      ("String", mkTC "String" KScalar [] [] [] false) ]
    [] [] [].

(** A child of a scalar. *)
Definition scalarParentRegistry : World :=
  mkWorld
    [ ("String", mkTC "String" KScalar [] [] [] false);
      ("Child",
       mkTC "Child" KObject [("id", [("type", VStr "ID!")])] ["Node"]
            [("childOf", VObj [("types", VArr [VStr "String"])])]
            false) ]
    [] [] [].

(** * Properties *)

Set Default Proof Using "Type".

(** [tauto] without the section variables in its way. *)
Ltac tauto' :=
  try clear reportParsingError; try clear parseValue; try clear camelCase;
  try clear defineFieldMapToConfig;
  tauto.

(** ** Objects *)

Lemma eqb_neq_false (a b : string) : a <> b -> String.eqb a b = false.
Proof. intros N. apply String.eqb_neq. exact N. Qed.

Lemma get_set_eq A k (v : A) o : Obj.get k (Obj.set k v o) = Some v.
Proof.
  induction o as [|[k' v'] o IH]; simpl.
  - now rewrite String.eqb_refl.
  - destruct (String.eqb k' k) eqn:E; simpl.
    + now rewrite String.eqb_refl.
    + now rewrite E.
Qed.

Lemma get_set_ne A k k' (v : A) o :
  k <> k' -> Obj.get k' (Obj.set k v o) = Obj.get k' o.
Proof.
  intros N. induction o as [|[k1 v1] o IH]; simpl.
  - now rewrite (eqb_neq_false N).
  - destruct (String.eqb k1 k) eqn:E; simpl.
    + apply String.eqb_eq in E; subst k1.
      now rewrite (eqb_neq_false N).
    + destruct (String.eqb k1 k'); auto.
Qed.

Lemma get_set A k k' (v : A) o :
  Obj.get k' (Obj.set k v o)
  = if String.eqb k k' then Some v else Obj.get k' o.
Proof.
  destruct (String.eqb k k') eqn:E.
  - apply String.eqb_eq in E; subst. apply get_set_eq.
  - apply String.eqb_neq in E. now apply get_set_ne.
Qed.

Lemma get_remove_eq A k (o : list (string * A)) :
  Obj.get k (Obj.remove k o) = None.
Proof.
  induction o as [|[k1 v1] o IH]; simpl; auto.
  destruct (String.eqb k1 k) eqn:E; simpl; auto. now rewrite E.
Qed.

Lemma get_remove_ne A k k' (o : list (string * A)) :
  k <> k' -> Obj.get k' (Obj.remove k o) = Obj.get k' o.
Proof.
  intros N. induction o as [|[k1 v1] o IH]; simpl; auto.
  destruct (String.eqb k1 k) eqn:E; simpl.
  - apply String.eqb_eq in E; subst k1. now rewrite (eqb_neq_false N).
  - destruct (String.eqb k1 k'); auto.
Qed.

Lemma get_None_notin A k (o : list (string * A)) :
  Obj.get k o = None <-> ~ In k (map fst o).
Proof.
  induction o as [|[k1 v1] o IH]; simpl.
  - tauto'.
  - destruct (String.eqb k1 k) eqn:E.
    + apply String.eqb_eq in E. split; [discriminate | intros H; tauto'].
    + apply String.eqb_neq in E. rewrite IH. tauto'.
Qed.

Lemma get_Some_in A k (v : A) o : Obj.get k o = Some v -> In k (map fst o).
Proof.
  intros H. destruct (in_dec string_dec k (map fst o)) as [I|I]; auto.
  apply get_None_notin in I. congruence.
Qed.

Lemma has_in A k (o : list (string * A)) :
  Obj.has k o = true <-> In k (map fst o).
Proof.
  unfold Obj.has. destruct (Obj.get k o) eqn:E.
  - split; auto. intros _. eapply get_Some_in; eauto.
  - apply get_None_notin in E. split; [discriminate | tauto'].
Qed.

Lemma in_keys A k (o : list (string * A)) :
  In k (Obj.keys o) <-> In k (map fst o).
Proof. unfold Obj.keys. apply nodup_In. Qed.

Lemma NoDup_keys A (o : list (string * A)) : NoDup (Obj.keys o).
Proof. apply NoDup_nodup. Qed.

Lemma map_fst_set_has A k (v : A) o :
  Obj.has k o = true -> map fst (Obj.set k v o) = map fst o.
Proof.
  unfold Obj.has. induction o as [|[k1 v1] o IH]; simpl; [discriminate|].
  destruct (String.eqb k1 k) eqn:E; simpl; intros H.
  - apply String.eqb_eq in E. now subst.
  - now rewrite IH.
Qed.

Lemma map_fst_set_new A k (v : A) o :
  Obj.has k o = false -> map fst (Obj.set k v o) = (map fst o ++ [k])%list.
Proof.
  unfold Obj.has. induction o as [|[k1 v1] o IH]; simpl; auto.
  destruct (String.eqb k1 k) eqn:E; simpl; [discriminate|].
  intros H. now rewrite IH.
Qed.

(** The entries of an object: its keys once each, with what [get] reads. *)
Lemma get_flat_map_keys A (o : list (string * A)) ks k :
  Obj.get k
    (flat_map (fun k => match Obj.get k o with
                        | Some v => [(k, v)]
                        | None => []
                        end) ks)
  = if in_dec string_dec k ks then Obj.get k o else None.
Proof.
  induction ks as [|k1 ks IH]; simpl; auto.
  destruct (Obj.get k1 o) eqn:G; simpl.
  - destruct (String.eqb k1 k) eqn:E.
    + apply String.eqb_eq in E; subst k1.
      destruct (string_dec k k); [|congruence]. now rewrite G.
    + apply String.eqb_neq in E. rewrite IH.
      destruct (string_dec k1 k); [contradiction|].
      destruct (in_dec string_dec k ks); auto.
  - rewrite IH. destruct (string_dec k1 k).
    + subst k1. rewrite G. destruct (in_dec string_dec k ks); auto.
    + destruct (in_dec string_dec k ks); auto.
Qed.

Lemma get_entries A (o : list (string * A)) k :
  Obj.get k (Obj.entries o) = Obj.get k o.
Proof.
  unfold Obj.entries. rewrite get_flat_map_keys.
  destruct (in_dec string_dec k (Obj.keys o)) as [I|I]; auto.
  rewrite in_keys in I. apply get_None_notin in I. now rewrite I.
Qed.

Lemma map_fst_entries A (o : list (string * A)) :
  map fst (Obj.entries o) = Obj.keys o.
Proof.
  unfold Obj.entries.
  assert (H : forall ks, (forall k, In k ks -> In k (map fst o)) ->
            map fst (flat_map (fun k => match Obj.get k o with
                                        | Some v => [(k, v)]
                                        | None => []
                                        end) ks) = ks).
  { induction ks as [|k1 ks IH]; simpl; auto. intros H.
    destruct (Obj.get k1 o) eqn:G.
    - simpl. f_equal. apply IH. auto.
    - apply get_None_notin in G. exfalso. apply G. auto. }
  apply H. intros k. apply in_keys.
Qed.

Lemma NoDup_entries A (o : list (string * A)) :
  NoDup (map fst (Obj.entries o)).
Proof. rewrite map_fst_entries. apply NoDup_keys. Qed.

Lemma in_entries A (o : list (string * A)) k v :
  In (k, v) (Obj.entries o) -> Obj.get k o = Some v.
Proof.
  unfold Obj.entries. rewrite in_flat_map. intros [k' [_ H]].
  destruct (Obj.get k' o) eqn:G; simpl in H; [|tauto'].
  destruct H as [H|[]]. now inversion H; subst.
Qed.

(** [{ ...a, ...b }] reads [b] first. *)
Lemma get_fold_set A (l : list (string * A)) a k :
  NoDup (map fst l) ->
  Obj.get k (fold_left (fun acc p => Obj.set (fst p) (snd p) acc) l a)
  = match Obj.get k l with
    | Some v => Some v
    | None => Obj.get k a
    end.
Proof.
  revert a. induction l as [|[k1 v1] l IH]; simpl; intros a ND; auto.
  inversion ND as [|? ? N1 ND']; subst. rewrite IH by assumption.
  destruct (String.eqb k1 k) eqn:E.
  - apply String.eqb_eq in E; subst k1.
    apply get_None_notin in N1. rewrite N1. apply get_set_eq.
  - apply String.eqb_neq in E. rewrite get_set_ne by assumption.
    reflexivity.
Qed.

Lemma get_spread A (a b : list (string * A)) k :
  Obj.get k (Obj.spread a b)
  = match Obj.get k b with
    | Some v => Some v
    | None => Obj.get k a
    end.
Proof.
  unfold Obj.spread. rewrite get_fold_set by apply NoDup_entries.
  now rewrite get_entries.
Qed.

Lemma has_set A k k' (v : A) o :
  Obj.has k' (Obj.set k v o) = String.eqb k k' || Obj.has k' o.
Proof.
  unfold Obj.has. rewrite get_set. now destruct (String.eqb k k').
Qed.

Lemma has_spread A (a b : list (string * A)) k :
  Obj.has k (Obj.spread a b) = Obj.has k b || Obj.has k a.
Proof.
  unfold Obj.has. rewrite get_spread. now destruct (Obj.get k b).
Qed.

Lemma prop_set k k' v o :
  prop k' (Obj.set k v o) = if String.eqb k k' then v else prop k' o.
Proof. unfold prop. rewrite get_set. now destruct (String.eqb k k'). Qed.

(** ** Strings *)

Lemma append_nil_r (s : string) : s ++ "" = s.
Proof. induction s; simpl; congruence. Qed.

Lemma append_assoc (a b c : string) : (a ++ b) ++ c = a ++ b ++ c.
Proof. induction a; simpl; congruence. Qed.

Lemma prefix_spec (p s : string) :
  prefix p s = true <-> exists t, s = p ++ t.
Proof.
  revert s. induction p as [|c p IH]; intros s.
  - split; [intros _; now exists s | intros _; now destruct s].
  - destruct s as [|d s]; simpl.
    + split; [discriminate | intros [t H]; discriminate].
    + destruct (ascii_dec c d) as [->|N].
      * rewrite IH. split; intros [t H]; exists t; congruence.
      * split; [discriminate | intros [t H]; congruence].
Qed.

Lemma rev_append (a b : string) : Str.rev (a ++ b) = Str.rev b ++ Str.rev a.
Proof.
  induction a as [|c a IH]; simpl.
  - now rewrite append_nil_r.
  - now rewrite IH, append_assoc.
Qed.

Lemma rev_involutive (a : string) : Str.rev (Str.rev a) = a.
Proof.
  induction a as [|c a IH]; simpl; auto.
  rewrite rev_append. simpl. now rewrite IH.
Qed.

(** [endsWith] is what it says. *)
Lemma endsWith_spec (suffix s : string) :
  Str.endsWith suffix s = true <-> exists pre, s = pre ++ suffix.
Proof.
  unfold Str.endsWith. rewrite prefix_spec. split.
  - intros [t H]. exists (Str.rev t).
    rewrite <- (rev_involutive s), H, rev_append.
    now rewrite rev_involutive.
  - intros [pre ->]. exists (Str.rev pre). apply rev_append.
Qed.

Lemma includes_In (s : string) l : Str.includes s l = true <-> In s l.
Proof.
  unfold Str.includes. rewrite existsb_exists. split.
  - intros [x [I E]]. apply String.eqb_eq in E. now subst.
  - intros I. exists s. split; auto. apply String.eqb_refl.
Qed.

Lemma mentions_mid (a name b : string) : Str.mentions (a ++ name ++ b) name.
Proof. now exists a, b. Qed.

Lemma mentions_append_l (a b name : string) :
  Str.mentions a name -> Str.mentions (a ++ b) name.
Proof.
  intros [p [q ->]]. exists p, (q ++ b). now rewrite !append_assoc.
Qed.

Lemma mentions_append_r (a b name : string) :
  Str.mentions b name -> Str.mentions (a ++ b) name.
Proof.
  intros [p [q ->]]. exists (a ++ p), q. now rewrite !append_assoc.
Qed.

Lemma mentions_refl (name : string) : Str.mentions name name.
Proof. exists "", "". simpl. now rewrite append_nil_r. Qed.

Lemma mentions_bq (name : string) : Str.mentions (bq name) name.
Proof. unfold bq. apply mentions_mid. Qed.

Lemma mentions_trans (a b c : string) :
  Str.mentions a b -> Str.mentions b c -> Str.mentions a c.
Proof.
  intros [p [q ->]] [p' [q' ->]]. exists (p ++ p'), (q' ++ q).
  now rewrite !append_assoc.
Qed.

Lemma mentions_join sep l x :
  In x l -> Str.mentions (Str.join sep l) x.
Proof.
  induction l as [|y l IH]; simpl; [tauto'|].
  intros [->|I].
  - destruct l; [apply mentions_refl|].
    apply mentions_append_l, mentions_refl.
  - destruct l as [|z l]; [destruct I|].
    apply mentions_append_r, mentions_append_r, IH, I.
Qed.

(** ** Computations *)

Lemma forEach_app A S (l1 l2 : list A) (f : A -> S -> M S) s w :
  forEach (l1 ++ l2) f s w
  = (s' <- forEach l1 f s ;; forEach l2 f s') w.
Proof.
  revert s w. induction l1 as [|x l1 IH]; intros s w; simpl.
  - reflexivity.
  - unfold bind in *.
    destruct (f x s w) as [[s1|e|e] w1]; auto.
Qed.

(** A loop whose callback always returns is a fold. *)
Lemma forEach_pure A S (l : list A) (f : A -> S -> M S) (g : S -> A -> S) :
  (forall x s w, f x s w = (Ok (g s x), w)) ->
  forall s w, forEach l f s w = (Ok (fold_left g l s), w).
Proof.
  intros H. induction l as [|x l IH]; intros s w; simpl; auto.
  unfold bind. rewrite H. apply IH.
Qed.

(** A loop whose callback returns and keeps an invariant returns and
    keeps it. *)
Lemma forEach_invariant A S (P : S -> Prop) (l : list A)
      (f : A -> S -> M S) :
  (forall x s w, In x l -> P s ->
                 exists s' w', f x s w = (Ok s', w') /\ P s') ->
  forall s w, P s -> exists s' w', forEach l f s w = (Ok s', w') /\ P s'.
Proof.
  induction l as [|x l IH]; intros H s w Ps; simpl.
  - now exists s, w.
  - destruct (H x s w) as [s1 [w1 [E P1]]]; simpl; auto.
    unfold bind. rewrite E. apply IH; auto.
    intros y s2 w2 I. apply H. now right.
Qed.

(** ** [checkQueryableInterfaces] *)

Lemma Kind_eqb_eq (a b : Kind) : Kind_eqb a b = true <-> a = b.
Proof. destruct a, b; simpl; split; congruence. Qed.

Lemma queryableInterfaces_spec types i :
  In i (queryableInterfaces types) <-> queryable types i.
Proof.
  unfold queryableInterfaces, queryable. rewrite in_map_iff. split.
  - intros [t [E I]]. apply filter_In in I. destruct I as [I C].
    apply andb_true_iff in C. destruct C as [K T].
    apply Kind_eqb_eq in K. exists t. auto.
  - intros [t [I [K [T E]]]]. exists t. split; auto.
    apply filter_In. split; auto. apply andb_true_iff. split; auto.
    now apply Kind_eqb_eq.
Qed.

Lemma incorrectTypes_spec types n :
  In n (incorrectTypes types)
  <-> exists t, violatesNodeCapability types t /\ tcName t = n.
Proof.
  unfold incorrectTypes, violatesNodeCapability. rewrite in_map_iff. split.
  - intros [t [E I]]. apply filter_In in I. destruct I as [I C].
    apply andb_true_iff in C. destruct C as [C N].
    apply andb_true_iff in C. destruct C as [K X].
    apply Kind_eqb_eq in K. apply existsb_exists in X.
    destruct X as [i [Ii Q]]. apply includes_In in Q.
    apply queryableInterfaces_spec in Q.
    exists t. repeat split; eauto.
    intros IN. apply includes_In in IN. unfold TC.hasInterface in N.
    rewrite IN in N. discriminate.
  - intros [t [[I [K [[i [Ii Q]] N]]] E]]. exists t. split; auto.
    apply filter_In. split; auto.
    apply andb_true_iff. split; [apply andb_true_iff; split|].
    + now apply Kind_eqb_eq.
    + apply existsb_exists. exists i. split; auto.
      apply includes_In. now apply queryableInterfaces_spec.
    + unfold TC.hasInterface.
      destruct (Str.includes "Node" (tcInterfaces t)) eqn:X; auto.
      apply includes_In in X. contradiction.
Qed.

(** C6. If any object type of the registry implements a queryable
    interface without implementing [Node], the check ends the build with
    one error, and the message of that one error names every such type of
    the whole registry. *)
Theorem checkQueryableInterfaces_names_all_violators w t :
  violatesNodeCapability (map snd (registry w)) t ->
  exists msg,
    checkQueryableInterfaces w = (Panic msg, w)
    /\ forall t', violatesNodeCapability (map snd (registry w)) t' ->
                  Str.mentions msg (bq (tcName t')).
Proof.
  intros V. unfold checkQueryableInterfaces, bind, getWorld.
  assert (I : In (tcName t) (incorrectTypes (map snd (registry w)))).
  { apply incorrectTypes_spec. eauto. }
  destruct (incorrectTypes (map snd (registry w))) as [|n l] eqn:E;
    [destruct I|].
  exists (queryableInterfacesMessage (n :: l)). split; [reflexivity|].
  intros t' V'. unfold queryableInterfacesMessage.
  do 3 apply mentions_append_r. apply mentions_append_l.
  apply mentions_join. apply in_map. rewrite <- E.
  apply incorrectTypes_spec. eauto.
Qed.

(** Without such a type the check passes and reports nothing. *)
Lemma checkQueryableInterfaces_passes w :
  (forall t, ~ violatesNodeCapability (map snd (registry w)) t) ->
  checkQueryableInterfaces w = (Ok tt, w).
Proof.
  intros H. unfold checkQueryableInterfaces, bind, getWorld.
  destruct (incorrectTypes (map snd (registry w))) as [|n l] eqn:E; auto.
  assert (I : In n (incorrectTypes (map snd (registry w)))).
  { rewrite E. now left. }
  apply incorrectTypes_spec in I. destruct I as [t [V _]].
  exfalso. eapply H; eauto.
Qed.

(** ** [checkIsAllowedTypeName] and [addTypes] *)

Ltac find_mention :=
  first [ apply mentions_bq
        | apply mentions_refl
        | apply mentions_append_l; first [ apply mentions_bq
                                         | apply mentions_refl ]
        | apply mentions_append_r; find_mention ].

Lemma reservedSuffixMessage_mentions name :
  Str.mentions (reservedSuffixMessage name) name.
Proof. unfold reservedSuffixMessage. find_mention. Qed.

Lemma builtInScalarMessage_mentions name :
  Str.mentions (builtInScalarMessage name) name.
Proof. unfold builtInScalarMessage. find_mention. Qed.

Lemma doubleUnderscoreMessage_mentions name :
  Str.mentions (doubleUnderscoreMessage name) name.
Proof. unfold doubleUnderscoreMessage. find_mention. Qed.

Lemma invalidNameMessage_mentions name :
  Str.mentions (invalidNameMessage name) name.
Proof. unfold invalidNameMessage. find_mention. Qed.

Lemma reservedNodeMessage_mentions :
  Str.mentions reservedNodeMessage "Node".
Proof.
  exists "The GraphQL type `", "` is reserved for internal use.".
  reflexivity.
Qed.

(** The name check refuses every reserved name with an error that has
    the name in it, and leaves the world as it was. *)
Lemma checkIsAllowedTypeName_rejects name w :
  reservedTypeName name ->
  exists msg, checkIsAllowedTypeName name w = (Throw msg, w)
              /\ Str.mentions msg name.
Proof.
  intros R. unfold checkIsAllowedTypeName, bind, invariant, throw, ret.
  destruct (String.eqb name "Node") eqn:E1; cbn [negb].
  { apply String.eqb_eq in E1; subst.
    eexists; split; [reflexivity | apply reservedNodeMessage_mentions]. }
  destruct (Str.endsWith "FilterInput" name) eqn:E2; cbn [negb andb].
  { eexists; split; [reflexivity | apply reservedSuffixMessage_mentions]. }
  destruct (Str.endsWith "SortInput" name) eqn:E3; cbn [negb andb].
  { eexists; split; [reflexivity | apply reservedSuffixMessage_mentions]. }
  destruct (Str.includes name builtInScalarNames) eqn:E4; cbn [negb].
  { eexists; split; [reflexivity | apply builtInScalarMessage_mentions]. }
  unfold assertValidName, throw, ret.
  destruct ((1 <? String.length name)%nat && prefix "__" name).
  { eexists; split; [reflexivity | apply doubleUnderscoreMessage_mentions]. }
  destruct (NAME_RX name) eqn:E5; cbn [negb].
  2:{ eexists; split; [reflexivity | apply invalidNameMessage_mentions]. }
  exfalso. destruct R as [R|[R|[R|[R|R]]]].
  - subst. discriminate.
  - apply endsWith_spec in R. congruence.
  - apply endsWith_spec in R. congruence.
  - apply includes_In in R. congruence.
  - congruence.
Qed.

Lemma addOrMerge_rejects name type plugin createdFrom w :
  reservedTypeName name ->
  exists msg, addOrMerge name type plugin createdFrom w = (Throw msg, w)
              /\ Str.mentions msg name.
Proof.
  intros R. destruct (@checkIsAllowedTypeName_rejects name w R) as [msg [E Mn]].
  exists msg. split; auto. unfold addOrMerge, bind. now rewrite E.
Qed.

Lemma createTypeComposerFromGatsbyType_name kind config :
  exists type, createTypeComposerFromGatsbyType kind config = Some type
               /\ addedName type = cfgName config.
Proof. destruct kind; simpl; eauto. Qed.

Lemma parseTypes_rejects pre def post plugin createdFrom types w w1 :
  reservedTypeName (defName def) ->
  parseTypes pre plugin createdFrom w = (Ok types, w1) ->
  exists msg,
    parseTypes (pre ++ def :: post) plugin createdFrom w = (Throw msg, w1)
    /\ Str.mentions msg (defName def).
Proof.
  intros R P. destruct (@checkIsAllowedTypeName_rejects (defName def) w1 R)
    as [msg [E Mn]].
  exists msg. split; auto. unfold parseTypes in *.
  rewrite forEach_app. unfold bind at 1. rewrite P. simpl.
  unfold bind. now rewrite E.
Qed.

(** C2.  When [addTypes] comes to check a reserved name, the check
    throws an error that has the name in it, before anything is done
    for the type, and the error leaves [addTypes]: no later source is
    looked at.  For a native type and for a builder descriptor nothing
    is between the check and the caller.  For a definition of a
    document the error is caught and handed to [reportParsingError],
    which throws it again. *)
Theorem reserved_type_name_is_rejected
        source plugin rest name (w w1 : World) :
  reservedTypeName name ->
  reachesNameCheck source plugin name w w1 ->
  (forall doc, source = SDL doc ->
     forall error w0,
       reportParsingError error w0 = specReportParsingError error w0) ->
  exists msg,
    Str.mentions msg name
    /\ addTypes ((source, plugin) :: rest) w = (Throw msg, w1).
Proof.
  intros R H Spec. destruct source as [doc|kind config|t]; simpl in H.
  - destruct H as [pre [def [post [types [-> [<- P]]]]]].
    destruct (@parseTypes_rejects pre def post plugin "sdl" types w w1 R P)
      as [msg [E Mn]].
    exists msg. split; auto.
    unfold addTypes. simpl. unfold addType. simpl.
    unfold bind, tryCatch. rewrite E.
    now rewrite (Spec _ eq_refl).
  - destruct H as [<- ->].
    destruct (createTypeComposerFromGatsbyType_name kind config)
      as [type [C N]].
    destruct (@addOrMerge_rejects (cfgName config) type plugin "typeBuilder"
                                  w R) as [msg [E Mn]].
    exists msg. split; auto.
    unfold addTypes. simpl. unfold addType. simpl.
    rewrite C, N. unfold bind. now rewrite E.
  - destruct H as [N ->].
    destruct (@addOrMerge_rejects name t plugin "graphql-js" w R)
      as [msg [E Mn]].
    exists msg. split; auto.
    unfold addTypes. simpl. unfold addType. simpl.
    rewrite N. unfold bind. now rewrite E.
Qed.

(** ** [addExtensions] *)

Lemma lacksIdField_spec tc : lacksIdField tc = false <-> declaresIdField tc.
Proof.
  unfold lacksIdField, declaresIdField.
  destruct (TC.hasField "id" tc); simpl;
    [|split; [discriminate | intros [H _]; discriminate]].
  destruct (TC.getFieldTypeName "id" tc) as [s|]; simpl.
  - destruct (String.eqb s "ID!") eqn:E; simpl.
    + apply String.eqb_eq in E. subst. tauto'.
    + apply String.eqb_neq in E. split; [discriminate|].
      intros [_ H]. congruence.
  - split; [discriminate | intros [_ H]; discriminate].
Qed.

Lemma isStr_eq s v : isStr s v = true <-> v = VStr s.
Proof.
  destruct v; simpl; try (split; [discriminate | congruence]).
  rewrite String.eqb_eq. split; congruence.
Qed.

Lemma sameButExtensions_refl tc : sameButExtensions tc tc.
Proof. repeat split. Qed.

Lemma sameButExtensions_setExtension k v tc :
  sameButExtensions tc (TC.setExtension k v tc).
Proof. repeat split. Qed.

(** What a directive of the type does: it returns with a composer that
    differs in its extensions only, or it is a [nodeInterface] directive
    on an interface without the field [id: ID!], and it panics. *)
Lemma typeDirective_cases d tc w :
  (exists tc',
      typeDirective d tc w = (Ok tc', w)
      /\ sameButExtensions tc tc'
      /\ TC.getDirectives tc' = TC.getDirectives tc
      /\ TC.getExtension "nodeInterface" tc'
         = (if isNodeInterfaceDirective d && Kind_eqb (tcKind tc) KInterface
            then VBool true
            else TC.getExtension "nodeInterface" tc)
      /\ isNodeInterfaceDirective d && Kind_eqb (tcKind tc) KInterface
         && lacksIdField tc = false)
  \/ (typeDirective d tc w = (Panic (nodeInterfaceIdMessage (tcName tc)), w)
      /\ isNodeInterfaceDirective d = true
      /\ tcKind tc = KInterface
      /\ lacksIdField tc = true).
Proof.
  unfold typeDirective, isNodeInterfaceDirective.
  destruct (isStr "infer" (propOf "name" d)
            || isStr "dontInfer" (propOf "name" d)) eqn:E1.
  { left.
    assert (N : isStr "nodeInterface" (propOf "name" d) = false).
    { apply orb_true_iff in E1. destruct E1 as [E|E];
        apply isStr_eq in E; rewrite E; reflexivity. }
    rewrite N. simpl.
    destruct (negb (isNullish (propOf "noDefaultResolvers" (propOf "args" d))));
      eexists; (split; [reflexivity|]);
        repeat split; unfold TC.getDirectives, TC.directivesOf,
          TC.getExtension; simpl; now rewrite ?prop_set. }
  destruct (isStr "mimeTypes" (propOf "name" d)) eqn:E2.
  { left. apply isStr_eq in E2. rewrite E2. simpl.
    eexists; (split; [reflexivity|]).
    repeat split; unfold TC.getDirectives, TC.directivesOf,
      TC.getExtension; simpl; now rewrite ?prop_set. }
  destruct (isStr "childOf" (propOf "name" d)) eqn:E3.
  { left. apply isStr_eq in E3. rewrite E3. simpl.
    eexists; (split; [reflexivity|]).
    repeat split; unfold TC.getDirectives, TC.directivesOf,
      TC.getExtension; simpl; now rewrite ?prop_set. }
  destruct (isStr "nodeInterface" (propOf "name" d)) eqn:E4.
  2:{ left. exists tc. simpl. repeat split. }
  destruct (tcKind tc) eqn:K; simpl;
    try (left; exists tc; repeat split; reflexivity).
  unfold bind, ret, report.panic.
  destruct (lacksIdField tc) eqn:L.
  - right. repeat split.
  - left. eexists; (split; [reflexivity|]).
    repeat split; unfold TC.getDirectives, TC.directivesOf,
      TC.getExtension; simpl; now rewrite ?prop_set.
Qed.

Lemma lacksIdField_fields a b :
  tcFields b = tcFields a -> lacksIdField b = lacksIdField a.
Proof.
  intros E. unfold lacksIdField, TC.hasField, TC.getFieldTypeName,
              TC.getField. now rewrite E.
Qed.

Lemma sameButExtensions_trans a b c :
  sameButExtensions a b -> sameButExtensions b c -> sameButExtensions a c.
Proof.
  unfold sameButExtensions. intros [A1 [A2 [A3 A4]]] [B1 [B2 [B3 B4]]].
  repeat split; congruence.
Qed.

(** The loop over the directives of a type returns, unless it comes to a
    [nodeInterface] directive on an interface without [id: ID!]. *)
Lemma typeDirectives_return ds : forall tc w,
  lacksIdField tc = false \/ tcKind tc <> KInterface
  \/ existsb isNodeInterfaceDirective ds = false ->
  exists tc',
    forEach ds typeDirective tc w = (Ok tc', w)
    /\ sameButExtensions tc tc'
    /\ TC.getDirectives tc' = TC.getDirectives tc
    /\ TC.getExtension "nodeInterface" tc'
       = (if existsb isNodeInterfaceDirective ds
             && Kind_eqb (tcKind tc) KInterface
          then VBool true
          else TC.getExtension "nodeInterface" tc).
Proof.
  induction ds as [|d ds IH]; intros tc w H; simpl.
  - exists tc. repeat split.
  - destruct (typeDirective_cases d tc w)
      as [[tc1 [E [S [D [X B]]]]] | [E [N [K L]]]].
    + destruct (IH tc1 w) as [tc' [E' [S' [D' X']]]].
      { destruct S as [_ [K [F _]]]. rewrite K, (@lacksIdField_fields tc tc1 F).
        destruct H as [H|[H|H]]; auto.
        simpl in H. apply orb_false_iff in H. tauto'. }
      exists tc'. unfold bind. rewrite E. split; [exact E'|].
      split; [eapply sameButExtensions_trans; eauto|].
      split; [congruence|].
      rewrite X', X. destruct S as [_ [K _]]. rewrite K.
      destruct (isNodeInterfaceDirective d),
               (existsb isNodeInterfaceDirective ds),
               (Kind_eqb (tcKind tc) KInterface); reflexivity.
    + exfalso. destruct H as [H|[H|H]]; try congruence.
      simpl in H. rewrite N in H. discriminate.
Qed.

Lemma typeDirectives_panic ds : forall tc w,
  lacksIdField tc = true -> tcKind tc = KInterface ->
  existsb isNodeInterfaceDirective ds = true ->
  forEach ds typeDirective tc w
  = (Panic (nodeInterfaceIdMessage (tcName tc)), w).
Proof.
  induction ds as [|d ds IH]; intros tc w L K X; simpl in *;
    [discriminate|].
  destruct (typeDirective_cases d tc w)
    as [[tc1 [E [S [D [_ B]]]]] | [E _]].
  - unfold bind. rewrite E.
    rewrite K, L in B. simpl in B.
    destruct (isNodeInterfaceDirective d); [discriminate|]. simpl in X.
    destruct S as [Nm [Kd [F _]]].
    rewrite <- Nm. apply IH; try congruence.
    now rewrite (@lacksIdField_fields tc tc1 F).
  - unfold bind. now rewrite E.
Qed.

Lemma sameButReports_refl w : sameButReports w w.
Proof. repeat split. Qed.

Lemma sameButReports_trans a b c :
  sameButReports a b -> sameButReports b c -> sameButReports a c.
Proof.
  unfold sameButReports. intros [A1 [A2 A3]] [B1 [B2 B3]].
  repeat split; congruence.
Qed.

Lemma addReport_same r w :
  exists w', addReport r w = (Ok tt, w') /\ sameButReports w w'.
Proof. eexists. split; [reflexivity|]. repeat split. Qed.

(** A loop of callbacks that return and only report returns and only
    reports. *)
Lemma forEach__reports A (l : list A) (f : A -> M unit) :
  (forall x w, exists w', f x w = (Ok tt, w') /\ sameButReports w w') ->
  forall w, exists w', forEach_ l f w = (Ok tt, w') /\ sameButReports w w'.
Proof.
  intros H. induction l as [|x l IH]; intros w; simpl.
  - exists w. split; [reflexivity | apply sameButReports_refl].
  - destruct (H x w) as [w1 [E S]]. destruct (IH w1) as [w2 [E2 S2]].
    exists w2. unfold bind. rewrite E.
    split; [exact E2 | eapply sameButReports_trans; eauto].
Qed.

Lemma checkExtensionArgs_reports typeName fieldName name defs args w :
  exists w', checkExtensionArgs typeName fieldName name defs args w
             = (Ok tt, w') /\ sameButReports w w'.
Proof.
  unfold checkExtensionArgs. apply forEach__reports. intros arg w0.
  destruct (find (fun d => String.eqb (argName d) arg) defs) as [ad|].
  - destruct (validate (argType ad) (prop arg args)).
    + apply addReport_same.
    + exists w0. split; [reflexivity | apply sameButReports_refl].
  - apply addReport_same.
Qed.

Lemma sameButFieldExtensions_refl tc : sameButFieldExtensions tc tc.
Proof. repeat split. Qed.

Lemma sameButFieldExtensions_trans a b c :
  sameButFieldExtensions a b -> sameButFieldExtensions b c ->
  sameButFieldExtensions a c.
Proof.
  unfold sameButFieldExtensions.
  intros [A1 [A2 [A3 [A4 [A5 A6]]]]] [B1 [B2 [B3 [B4 [B5 B6]]]]].
  repeat split; try congruence.
  intros f k N. rewrite B6, A6; auto.
Qed.

Lemma sameButFieldExtensions_hasField a b f :
  sameButFieldExtensions a b -> TC.hasField f b = TC.hasField f a.
Proof.
  intros [_ [_ [_ [_ [K _]]]]]. unfold TC.hasField.
  destruct (Obj.has f (tcFields a)) eqn:E.
  - apply has_in. rewrite K. now apply has_in.
  - destruct (Obj.has f (tcFields b)) eqn:E'; auto.
    apply has_in in E'. rewrite K in E'. apply has_in in E'. congruence.
Qed.

Lemma getField_setField f g c tc :
  TC.getField g (TC.setField f c tc)
  = if String.eqb f g then c else TC.getField g tc.
Proof.
  unfold TC.getField, TC.setField, TC.setFields. simpl. rewrite get_set.
  now destruct (String.eqb f g).
Qed.

Lemma setFieldExtensions_same f e tc :
  TC.hasField f tc = true ->
  sameButFieldExtensions tc (TC.setFieldExtensions f e tc).
Proof.
  intros H. unfold sameButFieldExtensions. repeat split.
  - simpl. now apply map_fst_set_has.
  - intros g k N. unfold TC.setFieldExtensions.
    rewrite getField_setField. destruct (String.eqb f g) eqn:E; auto.
    apply String.eqb_eq in E. subst g.
    apply get_set_ne. congruence.
Qed.

Lemma setFieldExtension_same f k v tc :
  TC.hasField f tc = true ->
  sameButFieldExtensions tc (TC.setFieldExtension f k v tc).
Proof. apply setFieldExtensions_same. Qed.

Lemma fieldExtension_returns fieldName name tc w :
  TC.hasField fieldName tc = true ->
  exists tc' w',
    fieldExtension fieldName name tc w = (Ok tc', w')
    /\ sameButFieldExtensions tc tc' /\ sameButReports w w'.
Proof.
  intros H. unfold fieldExtension.
  destruct (negb (truthy (TC.getFieldExtension fieldName name tc))
            || negb (isObjectType (TC.getFieldExtension fieldName name tc))).
  - unfold bind.
    match goal with
    | |- context [report.error ?m w] =>
        destruct (addReport_same (Error m) w) as [w1 [E S]]
    end.
    unfold report.error. rewrite E. exists tc, w1.
    split; [reflexivity|]. split; [apply sameButFieldExtensions_refl|auto].
  - unfold tryCatch, bind, schemaComposer.getDirective.
    destruct (Obj.get name (directiveDefs w)) as [defs|].
    + match goal with
      | |- context [checkExtensionArgs ?a ?b ?c ?d ?e w] =>
          destruct (checkExtensionArgs_reports a b c d e w) as [w1 [E S]]
      end.
      rewrite E. eexists; exists w1. split; [reflexivity|]. split; auto.
      destruct (TC.getFieldExtension fieldName name tc);
        try apply sameButFieldExtensions_refl.
      now apply setFieldExtension_same.
    + match goal with
      | |- context [report.error ?m w] =>
          destruct (addReport_same (Error m) w) as [w1 [E S]]
      end.
      unfold report.error. rewrite E. exists tc, w1.
      split; [reflexivity|]. split; [apply sameButFieldExtensions_refl|auto].
Qed.

(** A loop whose callback returns, keeps an invariant of the object and
    only reports, does so as a whole. *)
Lemma forEach_returns A S (P : S -> Prop) (l : list A)
      (f : A -> S -> M S) :
  (forall x s w, In x l -> P s ->
                 exists s' w', f x s w = (Ok s', w') /\ P s'
                               /\ sameButReports w w') ->
  forall s w, P s ->
              exists s' w', forEach l f s w = (Ok s', w') /\ P s'
                            /\ sameButReports w w'.
Proof.
  induction l as [|x l IH]; intros H s w Ps; simpl.
  - exists s, w. repeat split; auto.
  - destruct (H x s w) as [s1 [w1 [E [P1 R1]]]]; simpl; auto.
    destruct (IH (fun y s2 w2 I => H y s2 w2 (or_intror I)) s1 w1 P1)
      as [s2 [w2 [E2 [P2 R2]]]].
    exists s2, w2. unfold bind. rewrite E.
    split; [exact E2|]. split; [exact P2|].
    eapply sameButReports_trans; eauto.
Qed.

Lemma stampField_returns plugin createdFrom f tc w :
  TC.hasField f tc = true ->
  exists tc' w',
    stampField plugin createdFrom f tc w = (Ok tc', w')
    /\ sameButFieldExtensions tc tc' /\ sameButReports w w'.
Proof.
  intros H. unfold stampField.
  set (tc1 := TC.setFieldExtension f "createdFrom" (VStr createdFrom) tc).
  set (tc2 := TC.setFieldExtension f "plugin" (pluginNameOrNull plugin) tc1).
  assert (S1 : sameButFieldExtensions tc tc1)
    by now apply setFieldExtension_same.
  assert (S2 : sameButFieldExtensions tc tc2).
  { eapply sameButFieldExtensions_trans; [exact S1|].
    apply setFieldExtension_same.
    now rewrite (@sameButFieldExtensions_hasField tc tc1 f S1). }
  assert (FL : forall l t, sameButFieldExtensions tc t ->
             sameButFieldExtensions tc
               (fold_left
                  (fun tc d =>
                     TC.setFieldExtension f
                       (templateString (propOf "name" d))
                       (propOf "args" d) tc) l t)).
  { induction l as [|d l IH]; intros t St; simpl; auto.
    apply IH. eapply sameButFieldExtensions_trans; [exact St|].
    apply setFieldExtension_same.
    now rewrite (@sameButFieldExtensions_hasField tc t f St). }
  match goal with
  | |- context [forEach ?l ?g ?t w] =>
      assert (S3 : sameButFieldExtensions tc t)
  end.
  { destruct (String.eqb createdFrom "sdl"); auto. }
  apply forEach_returns with (P := sameButFieldExtensions tc); auto.
  intros name t w0 _ St.
  destruct (@fieldExtension_returns f name t w0) as [t' [w' [E [S' R]]]].
  { now rewrite (@sameButFieldExtensions_hasField tc t f St). }
  exists t', w'. split; auto. split; auto.
  eapply sameButFieldExtensions_trans; eauto.
Qed.

Lemma stampFields_return plugin createdFrom tc w :
  exists tc' w',
    forEach (TC.getFieldNames tc) (stampField plugin createdFrom) tc w
    = (Ok tc', w')
    /\ sameButFieldExtensions tc tc' /\ sameButReports w w'.
Proof.
  apply forEach_returns with (P := sameButFieldExtensions tc);
    [|apply sameButFieldExtensions_refl].
  intros f t w0 I St.
  destruct (@stampField_returns plugin createdFrom f t w0)
    as [t' [w' [E [S' R]]]].
  { rewrite (@sameButFieldExtensions_hasField tc t f St).
    apply has_in. apply in_keys. exact I. }
  exists t', w'. split; auto. split; auto.
  eapply sameButFieldExtensions_trans; eauto.
Qed.

(** What is left of [addExtensions] once the directives of the type are
    done returns, and touches the extensions of the fields only. *)
Lemma addExtensions_after_directives tc plugin createdFrom w tcD wD :
  (if String.eqb createdFrom "sdl"
   then forEach (TC.getDirectives (stamped tc plugin createdFrom))
                typeDirective (stamped tc plugin createdFrom)
   else ret (stamped tc plugin createdFrom)) w = (Ok tcD, wD) ->
  exists tc' w',
    addExtensions tc plugin createdFrom w = (Ok tc', w')
    /\ sameButFieldExtensions tcD tc' /\ sameButReports wD w'.
Proof.
  intros E. unfold addExtensions. fold (stamped tc plugin createdFrom).
  unfold bind at 1. rewrite E.
  assert (T : exists tc' w',
             (if hasFieldMethods (tcKind tcD)
              then forEach (TC.getFieldNames tcD)
                           (stampField plugin createdFrom) tcD
              else ret tcD) wD = (Ok tc', w')
             /\ sameButFieldExtensions tcD tc' /\ sameButReports wD w').
  { destruct (hasFieldMethods (tcKind tcD)).
    - apply stampFields_return.
    - exists tcD, wD. repeat split. }
  destruct T as [tc1 [w1 [E1 [S1 R1]]]].
  unfold bind at 1. rewrite E1. unfold bind.
  destruct (TC.hasExtension "addDefaultResolvers" tc1).
  - destruct (addReport_same (Warn deprecationNoDefaultResolvers) w1)
      as [w2 [E2 R2]].
    unfold report.warn. rewrite E2. exists tc1, w2.
    split; [reflexivity|]. split; auto.
    eapply sameButReports_trans; eauto.
  - exists tc1, w1. auto.
Qed.

Lemma addExtensions_panics tc plugin w msg wD :
  forEach (TC.getDirectives (stamped tc plugin "sdl")) typeDirective
          (stamped tc plugin "sdl") w = (Panic msg, wD) ->
  addExtensions tc plugin "sdl" w = (Panic msg, wD).
Proof.
  intros E. unfold addExtensions. fold (stamped tc plugin "sdl").
  unfold bind at 1. simpl. now rewrite E.
Qed.

Lemma getDirectives_stamped tc plugin createdFrom :
  TC.getDirectives (stamped tc plugin createdFrom) = TC.getDirectives tc.
Proof.
  unfold stamped, TC.getDirectives, TC.directivesOf. simpl.
  now rewrite !prop_set.
Qed.

Lemma nodeInterface_stamped tc plugin createdFrom :
  TC.getExtension "nodeInterface" (stamped tc plugin createdFrom)
  = TC.getExtension "nodeInterface" tc.
Proof.
  unfold stamped, TC.getExtension. simpl. now rewrite !prop_set.
Qed.

Lemma nodeInterfaceIdMessage_mentions typeName :
  Str.mentions (nodeInterfaceIdMessage typeName) typeName.
Proof. unfold nodeInterfaceIdMessage. find_mention. Qed.

(** C9. For an interface that a document gives a [nodeInterface]
    directive: if it does not declare a field [id] of type [ID!], stamping
    its extensions ends the build with an error that names the type; if
    it does, the [nodeInterface] extension of the record is set to
    [true]. *)
Theorem nodeInterface_directive_on_interface tc plugin w :
  tcKind tc = KInterface ->
  (exists d, In d (TC.getDirectives tc)
             /\ isNodeInterfaceDirective d = true) ->
  (~ declaresIdField tc ->
   exists w',
     addExtensions tc plugin "sdl" w
     = (Panic (nodeInterfaceIdMessage (tcName tc)), w')
     /\ Str.mentions (nodeInterfaceIdMessage (tcName tc)) (tcName tc))
  /\ (declaresIdField tc ->
      exists tc' w',
        addExtensions tc plugin "sdl" w = (Ok tc', w')
        /\ TC.getExtension "nodeInterface" tc' = VBool true).
Proof.
  intros K [d [I N]].
  assert (X : existsb isNodeInterfaceDirective (TC.getDirectives tc) = true).
  { apply existsb_exists. eauto. }
  assert (LF : lacksIdField (stamped tc plugin "sdl") = lacksIdField tc)
    by now apply lacksIdField_fields.
  split.
  - intros ND. exists w. split; [|apply nodeInterfaceIdMessage_mentions].
    apply addExtensions_panics. rewrite getDirectives_stamped.
    change (tcName tc) with (tcName (stamped tc plugin "sdl")).
    apply typeDirectives_panic; auto.
    rewrite LF. destruct (lacksIdField tc) eqn:L; auto.
    apply lacksIdField_spec in L. contradiction.
  - intros D. apply lacksIdField_spec in D.
    destruct (@typeDirectives_return (TC.getDirectives tc)
                (stamped tc plugin "sdl") w) as [tcD [E [S [_ Xn]]]].
    { left. congruence. }
    destruct (@addExtensions_after_directives tc plugin "sdl" w tcD w)
      as [tc' [w' [E' [S' _]]]].
    { simpl. now rewrite getDirectives_stamped. }
    exists tc', w'. split; auto.
    destruct S' as [_ [_ [_ [Ex _]]]].
    unfold TC.getExtension in *. rewrite Ex, Xn, X.
    change (tcKind (stamped tc plugin "sdl")) with (tcKind tc).
    now rewrite K.
Qed.

Lemma typeDirective_off_interface d tc w :
  tcKind tc <> KInterface -> isNodeInterfaceDirective d = true ->
  typeDirective d tc w = (Ok tc, w).
Proof.
  intros K N. apply isStr_eq in N. unfold typeDirective. rewrite N. simpl.
  destruct (tcKind tc); try reflexivity. congruence.
Qed.

Lemma typeDirectives_skip ds : forall tc w,
  tcKind tc <> KInterface ->
  forEach ds typeDirective tc w
  = forEach (filter (fun d => negb (isNodeInterfaceDirective d)) ds)
            typeDirective tc w.
Proof.
  induction ds as [|d ds IH]; intros tc w K; simpl; auto.
  destruct (isNodeInterfaceDirective d) eqn:N; simpl.
  - unfold bind. rewrite typeDirective_off_interface by assumption.
    now apply IH.
  - unfold bind.
    destruct (typeDirective_cases d tc w)
      as [[tc1 [E [S _]]] | [E _]]; rewrite E; auto.
    apply IH. destruct S as [_ [Kd _]]. congruence.
Qed.

(** C10. On a composer that is no interface a [nodeInterface] directive
    of a document does nothing: the callback returns the composer and
    the world, reports included, as they were; the loop over the
    directives is the loop without the directive, and it reports
    nothing; and [addExtensions] returns, with the [nodeInterface]
    extension as it was before. *)
Theorem nodeInterface_directive_ignored_off_interfaces tc plugin w :
  tcKind tc <> KInterface ->
  (forall d w0, isNodeInterfaceDirective d = true ->
                typeDirective d tc w0 = (Ok tc, w0))
  /\ (forall ds,
         forEach ds typeDirective tc w
         = forEach (filter (fun d => negb (isNodeInterfaceDirective d)) ds)
                   typeDirective tc w)
  /\ exists tcD tc' w',
      forEach (TC.getDirectives tc) typeDirective
              (stamped tc plugin "sdl") w = (Ok tcD, w)
      /\ addExtensions tc plugin "sdl" w = (Ok tc', w')
      /\ TC.getExtension "nodeInterface" tc'
         = TC.getExtension "nodeInterface" tc.
Proof.
  intros K. split; [|split].
  - intros d w0 N. now apply typeDirective_off_interface.
  - intros ds. now apply typeDirectives_skip.
  - destruct (@typeDirectives_return (TC.getDirectives tc)
                (stamped tc plugin "sdl") w) as [tcD [E [S [_ Xn]]]].
    { right. left. exact K. }
    destruct (@addExtensions_after_directives tc plugin "sdl" w tcD w)
      as [tc' [w' [E' [S' _]]]].
    { simpl. now rewrite getDirectives_stamped. }
    exists tcD, tc', w'. split; auto. split; auto.
    destruct S' as [_ [_ [_ [Ex _]]]].
    unfold TC.getExtension in *. rewrite Ex, Xn.
    change (tcKind (stamped tc plugin "sdl")) with (tcKind tc).
    assert (Kb : Kind_eqb (tcKind tc) KInterface = false).
    { destruct (Kind_eqb (tcKind tc) KInterface) eqn:Kb; auto.
      apply Kind_eqb_eq in Kb. contradiction. }
    rewrite Kb, andb_false_r. apply nodeInterface_stamped.
Qed.

(** ** [mergeFields] and [mergeTypes] *)

Lemma mergeFields_step fieldName fieldConfig tc :
  (if TC.hasField fieldName tc
   then ret (TC.extendField fieldName fieldConfig tc)
   else ret (TC.setField fieldName fieldConfig tc))
  = ret (TC.setField fieldName
           (mergedField (Obj.get fieldName (tcFields tc)) fieldConfig) tc).
Proof.
  unfold TC.hasField, Obj.has, TC.extendField, TC.getField, mergedField,
    TC.extended.
  now destruct (Obj.get fieldName (tcFields tc)).
Qed.

(** Where [mergeFields] returns, each field the incoming definition has
    is the merged field, and every other field is as it was. *)
Lemma mergeFields_inv fields tc w tc' w' :
  mergeFields fields tc w = (Ok tc', w') ->
  w' = w /\ tcName tc' = tcName tc /\ tcKind tc' = tcKind tc
  /\ tcInterfaces tc' = tcInterfaces tc
  /\ tcExtensions tc' = tcExtensions tc
  /\ forall f, Obj.get f (tcFields tc')
               = match Obj.get f fields with
                 | Some c => Some (mergedField (Obj.get f (tcFields tc)) c)
                 | None => Obj.get f (tcFields tc)
                 end.
Proof.
  unfold mergeFields. generalize (NoDup_entries fields).
  assert (G : forall f, Obj.get f fields = Obj.get f (Obj.entries fields))
    by (intros; now rewrite get_entries).
  setoid_rewrite G. clear G. generalize (Obj.entries fields) as l.
  intros l. revert tc w. induction l as [|[f1 c1] l IH]; intros tc w ND E.
  - simpl in E. inversion E; subst. repeat split.
  - inversion ND as [|? ? N1 ND']; subst. simpl in E.
    unfold bind in E. destruct (hasFieldMethods (tcKind tc)) eqn:HM.
    2:{ simpl in E. discriminate. }
    simpl in E. rewrite mergeFields_step in E. unfold ret at 1 in E.
    apply IH in E; auto. destruct E as [-> [En [Ek [Ei [Ee Ef]]]]].
    repeat split; auto.
    intros f. rewrite Ef. simpl. rewrite get_set.
    destruct (String.eqb f1 f) eqn:X.
    + apply String.eqb_eq in X. subst f.
      apply get_None_notin in N1. now rewrite N1.
    + reflexivity.
Qed.

Lemma mergeFields_returns fields tc w :
  hasFieldMethods (tcKind tc) = true ->
  exists tc', mergeFields fields tc w = (Ok tc', w).
Proof.
  unfold mergeFields. generalize (Obj.entries fields) as l. intros l.
  revert tc w. induction l as [|[f1 c1] l IH]; intros tc w HM; simpl.
  - now exists tc.
  - unfold bind. rewrite HM. simpl. rewrite mergeFields_step.
    unfold ret at 1. now apply IH.
Qed.

Lemma getInterfaces_world ifs : forall acc w r w',
  forEach ifs
    (fun r acc =>
       match r with
       | IfaceName n =>
           i <- schemaComposer.getIFTC n ;; ret (acc ++ [tcName i])%list
       | IfaceType n => ret (acc ++ [n])%list
       end) acc w = (r, w') -> w' = w.
Proof.
  induction ifs as [|[n|n] ifs IH]; intros acc w r w' E; simpl in E.
  - now inversion E.
  - unfold bind, schemaComposer.getIFTC, schemaComposer.get, bind, ret,
      throw in E.
    destruct (Obj.get n (registry w)) as [i|]; [|now inversion E].
    destruct (tcKind i); try now inversion E.
    eapply IH; eauto.
  - unfold bind, ret in E. eapply IH; eauto.
Qed.

Lemma incomingInterfaces_world type w r w' :
  incomingInterfaces type w = (r, w') -> w' = w.
Proof.
  destruct type; simpl; try (unfold ret; intros E; now inversion E).
  apply getInterfaces_world.
Qed.

Lemma addInterface_In i j tc :
  In j (tcInterfaces (TC.addInterface i tc))
  <-> In j (tcInterfaces tc) \/ j = i.
Proof.
  unfold TC.addInterface, TC.hasInterface.
  destruct (Str.includes i (tcInterfaces tc)) eqn:E.
  - apply includes_In in E. split; [auto | intros [H| ->]; auto].
  - simpl. rewrite in_app_iff. simpl. split; intros [H|H]; auto.
    + destruct H as [<-|[]]. auto.
Qed.

Lemma addInterface_NoDup i tc :
  NoDup (tcInterfaces tc) -> NoDup (tcInterfaces (TC.addInterface i tc)).
Proof.
  intros ND. unfold TC.addInterface, TC.hasInterface.
  destruct (Str.includes i (tcInterfaces tc)) eqn:E; auto.
  simpl. apply NoDup_app; auto.
  - constructor; [intros []|constructor].
  - intros x Hx [<-|[]]. apply includes_In in Hx. congruence.
Qed.

(** Where [addInterfaces] returns, the interfaces are those the composer
    had and those added, and none has come twice. *)
Lemma addInterfaces_inv ifaces : forall tc w tc' w',
  addInterfaces ifaces tc w = (Ok tc', w') ->
  w' = w /\ tcName tc' = tcName tc /\ tcKind tc' = tcKind tc
  /\ tcFields tc' = tcFields tc /\ tcExtensions tc' = tcExtensions tc
  /\ (forall i, In i (tcInterfaces tc')
                <-> In i (tcInterfaces tc) \/ In i ifaces)
  /\ (NoDup (tcInterfaces tc) -> NoDup (tcInterfaces tc')).
Proof.
  unfold addInterfaces.
  induction ifaces as [|i ifaces IH]; intros tc w tc' w' E; simpl in E.
  - inversion E; subst. repeat split; auto; try tauto'.
    intros [H|[]]; auto.
  - unfold bind in E. destruct (tcKind tc) eqn:K; try discriminate.
    simpl in E. apply IH in E.
    destruct E as [-> [En [Ek [Ef [Ee [Ei Ed]]]]]].
    assert (K' : tcKind (TC.addInterface i tc) = tcKind tc)
      by (unfold TC.addInterface; destruct (TC.hasInterface i tc); auto).
    assert (F' : tcFields (TC.addInterface i tc) = tcFields tc)
      by (unfold TC.addInterface; destruct (TC.hasInterface i tc); auto).
    assert (N' : tcName (TC.addInterface i tc) = tcName tc)
      by (unfold TC.addInterface; destruct (TC.hasInterface i tc); auto).
    assert (X' : tcExtensions (TC.addInterface i tc) = tcExtensions tc)
      by (unfold TC.addInterface; destruct (TC.hasInterface i tc); auto).
    repeat split; try congruence.
    + rewrite Ei, addInterface_In. simpl. intros [[H|H]|H]; auto.
    + rewrite Ei, addInterface_In. simpl. intros [H|[H|H]]; auto.
    + intros ND. apply Ed. now apply addInterface_NoDup.
Qed.

Lemma addInterfaces_returns ifaces : forall tc w,
  tcKind tc = KObject ->
  exists tc', addInterfaces ifaces tc w = (Ok tc', w).
Proof.
  unfold addInterfaces.
  induction ifaces as [|i ifaces IH]; intros tc w K; simpl.
  - now exists tc.
  - unfold bind. rewrite K. simpl. apply IH.
    unfold TC.addInterface. now destruct (TC.hasInterface i tc).
Qed.

Lemma typeDirectives_inv ds : forall tc w tcD wD,
  forEach ds typeDirective tc w = (Ok tcD, wD) ->
  wD = w /\ sameButExtensions tc tcD.
Proof.
  induction ds as [|d ds IH]; intros tc w tcD wD E; simpl in E.
  - inversion E; subst. split; [auto | apply sameButExtensions_refl].
  - unfold bind in E.
    destruct (typeDirective_cases d tc w)
      as [[tc1 [E1 [S1 _]]] | [E1 _]]; rewrite E1 in E; [|discriminate].
    apply IH in E. destruct E as [-> S]. split; auto.
    eapply sameButExtensions_trans; eauto.
Qed.

Lemma sameButExtensions_stamped tc plugin createdFrom :
  sameButExtensions tc (stamped tc plugin createdFrom).
Proof. repeat split. Qed.

(** Where [addExtensions] returns, it has touched the extensions of the
    type and of its fields, and the reports, and nothing else. *)
Lemma addExtensions_inv tc plugin createdFrom w tc' w' :
  addExtensions tc plugin createdFrom w = (Ok tc', w') ->
  exists tcD, sameButExtensions tc tcD /\ sameButFieldExtensions tcD tc'
              /\ sameButReports w w'.
Proof.
  intros E.
  destruct ((if String.eqb createdFrom "sdl"
             then forEach (TC.getDirectives (stamped tc plugin createdFrom))
                          typeDirective (stamped tc plugin createdFrom)
             else ret (stamped tc plugin createdFrom)) w)
    as [[tcD|e|e] wD] eqn:S.
  - destruct (@addExtensions_after_directives tc plugin createdFrom w
                tcD wD S) as [tc2 [w2 [E2 [S2 R2]]]].
    rewrite E in E2. inversion E2; subst tc2 w2.
    assert (wD = w /\ sameButExtensions tc tcD) as [-> SD].
    { destruct (String.eqb createdFrom "sdl").
      - apply typeDirectives_inv in S. destruct S as [-> S].
        split; [reflexivity|].
        eapply sameButExtensions_trans;
          [apply sameButExtensions_stamped | exact S].
      - inversion S; subst. split; [reflexivity|].
        apply sameButExtensions_stamped. }
    exists tcD. auto.
  - unfold addExtensions in E. fold (stamped tc plugin createdFrom) in E.
    unfold bind at 1 in E. rewrite S in E. discriminate.
  - unfold addExtensions in E. fold (stamped tc plugin createdFrom) in E.
    unfold bind at 1 in E. rewrite S in E. discriminate.
Qed.

(** [addExtensions] returns on a composer that is no interface, and for
    a provenance other than [sdl]. *)
Lemma addExtensions_returns tc plugin createdFrom w :
  tcKind tc <> KInterface \/ String.eqb createdFrom "sdl" = false ->
  exists tc' w', addExtensions tc plugin createdFrom w = (Ok tc', w').
Proof.
  intros H.
  assert (S : exists tcD,
             (if String.eqb createdFrom "sdl"
              then forEach
                     (TC.getDirectives (stamped tc plugin createdFrom))
                     typeDirective (stamped tc plugin createdFrom)
              else ret (stamped tc plugin createdFrom)) w = (Ok tcD, w)).
  { destruct (String.eqb createdFrom "sdl") eqn:C.
    - destruct H as [H|H]; [|discriminate].
      destruct (@typeDirectives_return
                  (TC.getDirectives (stamped tc plugin createdFrom))
                  (stamped tc plugin createdFrom) w) as [tcD [E _]]; eauto.
    - eexists. reflexivity. }
  destruct S as [tcD S].
  destruct (@addExtensions_after_directives tc plugin createdFrom w tcD w S)
    as [tc' [w' [E _]]].
  eauto.
Qed.

Lemma getField_fields a b f :
  tcFields b = tcFields a -> TC.getField f b = TC.getField f a.
Proof. intros E. unfold TC.getField. now rewrite E. Qed.

Lemma hasField_fields a b f :
  tcFields b = tcFields a -> TC.hasField f b = TC.hasField f a.
Proof. intros E. unfold TC.hasField. now rewrite E. Qed.

(** Where the merge of the definitions returns, the composer is the
    merged one. *)
Lemma mergeDefinition_inv type tc w fields ifaces tcM wM :
  isObjectOrInterfaceType type = true ->
  incomingFieldConfigs type = Ok fields ->
  incomingInterfaces type w = (Ok ifaces, w) ->
  mergeDefinition type tc w = (Ok tcM, wM) ->
  wM = w /\ tcName tcM = tcName tc /\ tcKind tcM = tcKind tc
  /\ tcExtensions tcM = tcExtensions tc
  /\ (forall f, Obj.get f (tcFields tcM)
                = match Obj.get f fields with
                  | Some c =>
                      Some (mergedField (Obj.get f (tcFields tc)) c)
                  | None => Obj.get f (tcFields tc)
                  end)
  /\ (forall i, In i (tcInterfaces tcM)
                <-> In i (tcInterfaces tc) \/ In i ifaces)
  /\ (NoDup (tcInterfaces tc) -> NoDup (tcInterfaces tcM)).
Proof.
  intros T C I E.
  assert (NoIfaces :
             mergeFields fields tc w = (Ok tcM, wM) -> ifaces = [] ->
             wM = w /\ tcName tcM = tcName tc /\ tcKind tcM = tcKind tc
             /\ tcExtensions tcM = tcExtensions tc
             /\ (forall f, Obj.get f (tcFields tcM)
                  = match Obj.get f fields with
                    | Some c =>
                        Some (mergedField (Obj.get f (tcFields tc)) c)
                    | None => Obj.get f (tcFields tc)
                    end)
             /\ (forall i, In i (tcInterfaces tcM)
                           <-> In i (tcInterfaces tc) \/ In i ifaces)
             /\ (NoDup (tcInterfaces tc) -> NoDup (tcInterfaces tcM))).
  { intros EF ->. apply mergeFields_inv in EF.
    destruct EF as [-> [En [Ek [Ei [Ee Ef]]]]].
    repeat split; auto; rewrite Ei; auto.
    intros [H|[]]; auto. }
  assert (WithIfaces :
             (tc1 <- mergeFields fields tc ;; addInterfaces ifaces tc1) w
             = (Ok tcM, wM) ->
             wM = w /\ tcName tcM = tcName tc /\ tcKind tcM = tcKind tc
             /\ tcExtensions tcM = tcExtensions tc
             /\ (forall f, Obj.get f (tcFields tcM)
                  = match Obj.get f fields with
                    | Some c =>
                        Some (mergedField (Obj.get f (tcFields tc)) c)
                    | None => Obj.get f (tcFields tc)
                    end)
             /\ (forall i, In i (tcInterfaces tcM)
                           <-> In i (tcInterfaces tc) \/ In i ifaces)
             /\ (NoDup (tcInterfaces tc) -> NoDup (tcInterfaces tcM))).
  { intros EF. unfold bind in EF.
    destruct (mergeFields fields tc w)
      as [[tc1|e|e] w1] eqn:E1; try discriminate.
    apply mergeFields_inv in E1.
    destruct E1 as [-> [En [Ek [Ei [Ee Ef]]]]].
    apply addInterfaces_inv in EF.
    destruct EF as [-> [En' [Ek' [Ef' [Ee' [Ei' Ed']]]]]].
    repeat split; try congruence.
    - intros f. rewrite Ef'. apply Ef.
    - rewrite Ei'. rewrite Ei. auto.
    - rewrite Ei'. rewrite Ei. auto.
    - intros ND. apply Ed'. now rewrite Ei. }
  destruct type; try discriminate; simpl in E, I, C.
  - injection C as <-. apply WithIfaces.
    unfold bind in *.
    destruct (mergeFields fields0 tc w) as [[tc1|e|e] w1] eqn:E1; auto.
    assert (w1 = w) as -> by (apply mergeFields_inv in E1; tauto').
    now rewrite I in E.
  - injection C as <-. unfold ret in I. inversion I; subst.
    now apply NoIfaces.
  - unfold ret in I. inversion I; subst.
    unfold bind at 1, liftOutcome in E. rewrite C in E.
    now apply WithIfaces.
  - unfold ret in I. inversion I; subst.
    unfold bind at 1, liftOutcome in E. rewrite C in E.
    now apply NoIfaces.
Qed.

(** ** Computations that do not look at the reports *)

Lemma ignoresReports_ret A (a : A) : ignoresReports (ret a).
Proof. intros w1 w2 R. split; auto. Qed.

Lemma ignoresReports_throw A msg : ignoresReports (@throw A msg).
Proof. intros w1 w2 R. split; auto. Qed.

Lemma ignoresReports_panic A msg : ignoresReports (@report.panic A msg).
Proof. intros w1 w2 R. split; auto. Qed.

Lemma ignoresReports_addReport r : ignoresReports (addReport r).
Proof.
  intros w1 w2 [R1 [R2 R3]]. split; auto. repeat split; simpl; auto.
Qed.

Lemma ignoresReports_bind A B (m : M A) (f : A -> M B) :
  ignoresReports m -> (forall a, ignoresReports (f a)) ->
  ignoresReports (bind m f).
Proof.
  intros Hm Hf w1 w2 R. unfold bind. destruct (Hm w1 w2 R) as [E S].
  destruct (m w1) as [r1 w1'], (m w2) as [r2 w2']. simpl in E, S.
  subst r2. destruct r1; auto. now apply Hf.
Qed.

Lemma ignoresReports_tryCatch A (m : M A) (h : string -> M A) :
  ignoresReports m -> (forall e, ignoresReports (h e)) ->
  ignoresReports (tryCatch m h).
Proof.
  intros Hm Hh w1 w2 R. unfold tryCatch. destruct (Hm w1 w2 R) as [E S].
  destruct (m w1) as [r1 w1'], (m w2) as [r2 w2']. simpl in E, S.
  subst r2. destruct r1; auto. now apply Hh.
Qed.

Lemma ignoresReports_forEach A S (l : list A) (f : A -> S -> M S) :
  (forall x s, ignoresReports (f x s)) ->
  forall s, ignoresReports (forEach l f s).
Proof.
  intros H. induction l as [|x l IH]; intros s; simpl.
  - apply ignoresReports_ret.
  - apply ignoresReports_bind; auto.
Qed.

Lemma ignoresReports_forEach_ A (l : list A) (f : A -> M unit) :
  (forall x, ignoresReports (f x)) -> ignoresReports (forEach_ l f).
Proof.
  intros H. induction l as [|x l IH]; simpl.
  - apply ignoresReports_ret.
  - apply ignoresReports_bind; auto.
Qed.

Lemma ignoresReports_get name : ignoresReports (schemaComposer.get name).
Proof.
  intros w1 w2 R. unfold schemaComposer.get.
  destruct R as [R1 R']. rewrite R1.
  destruct (Obj.get name (registry w1)); split; simpl; auto;
    repeat split; tauto'.
Qed.

Lemma ignoresReports_getIFTC name :
  ignoresReports (schemaComposer.getIFTC name).
Proof.
  unfold schemaComposer.getIFTC. apply ignoresReports_bind.
  - apply ignoresReports_get.
  - intros tc. destruct (tcKind tc);
      first [apply ignoresReports_ret | apply ignoresReports_throw].
Qed.

Lemma ignoresReports_getDirective name :
  ignoresReports (schemaComposer.getDirective name).
Proof.
  intros w1 w2 R. unfold schemaComposer.getDirective.
  destruct R as [R1 [R2 R3]]. rewrite R3.
  destruct (Obj.get name (directiveDefs w1)); split; simpl; auto;
    repeat split; auto.
Qed.

Lemma ignoresReports_liftOutcome A (o : Outcome A) :
  ignoresReports (liftOutcome o).
Proof. intros w1 w2 R. split; auto. Qed.

Ltac ignores_reports :=
  repeat first
    [ apply ignoresReports_ret
    | apply ignoresReports_liftOutcome
    | apply ignoresReports_throw
    | apply ignoresReports_panic
    | apply ignoresReports_addReport
    | apply ignoresReports_getIFTC
    | apply ignoresReports_getDirective
    | apply ignoresReports_get
    | apply ignoresReports_bind
    | apply ignoresReports_tryCatch
    | apply ignoresReports_forEach
    | apply ignoresReports_forEach_
    | match goal with
      | |- forall _, _ => intro
      | |- ignoresReports (if ?b then _ else _) => destruct b
      | |- ignoresReports (match ?x with _ => _ end) => destruct x
      end ].

Lemma ignoresReports_mergeDefinition type tc :
  ignoresReports (mergeDefinition type tc).
Proof.
  unfold mergeDefinition, mergeFields, getInterfaces, addInterfaces.
  ignores_reports.
Qed.

Lemma ignoresReports_typeDirective d tc :
  ignoresReports (typeDirective d tc).
Proof. unfold typeDirective. ignores_reports. Qed.

Lemma ignoresReports_stampField plugin createdFrom f tc :
  ignoresReports (stampField plugin createdFrom f tc).
Proof.
  unfold stampField. apply ignoresReports_forEach.
  intros name t. unfold fieldExtension, checkExtensionArgs,
                   report.error, report.warn.
  ignores_reports.
Qed.

Lemma ignoresReports_addExtensions tc plugin createdFrom :
  ignoresReports (addExtensions tc plugin createdFrom).
Proof.
  unfold addExtensions, report.warn.
  apply ignoresReports_bind.
  { destruct (String.eqb createdFrom "sdl").
    - apply ignoresReports_forEach. intros.
      apply ignoresReports_typeDirective.
    - apply ignoresReports_ret. }
  intros tc1. apply ignoresReports_bind.
  { destruct (hasFieldMethods (tcKind tc1)).
    - apply ignoresReports_forEach. intros.
      apply ignoresReports_stampField.
    - apply ignoresReports_ret. }
  intros tc2. ignores_reports.
Qed.

Lemma ignoresReports_mergeInto tc type plugin createdFrom :
  ignoresReports (mergeInto tc type plugin createdFrom).
Proof.
  unfold mergeInto. apply ignoresReports_bind.
  - apply ignoresReports_mergeDefinition.
  - intros. apply ignoresReports_addExtensions.
Qed.

Lemma sameButReports_reported r w : sameButReports w (reported r w).
Proof. repeat split. Qed.

(** ** The owner of the existing record *)

Lemma set_set_same A k (v v' : A) o :
  Obj.set k v (Obj.set k v' o) = Obj.set k v o.
Proof.
  induction o as [|[k1 v1] o IH]; simpl.
  - now rewrite String.eqb_refl.
  - destruct (String.eqb k1 k) eqn:E; simpl.
    + now rewrite String.eqb_refl.
    + now rewrite E, IH.
Qed.

Lemma set_comm A k k' (v v' : A) o :
  k <> k' -> Obj.has k' o = true ->
  Obj.set k v (Obj.set k' v' o) = Obj.set k' v' (Obj.set k v o).
Proof.
  intros N. unfold Obj.has.
  induction o as [|[k1 v1] o IH]; simpl; [discriminate|].
  destruct (String.eqb k1 k') eqn:E1.
  - apply String.eqb_eq in E1. subst k1. intros _.
    rewrite (eqb_neq_false (not_eq_sym N)). simpl.
    rewrite ?(eqb_neq_false (not_eq_sym N)), String.eqb_refl. reflexivity.
  - intros H. destruct (String.eqb k1 k) eqn:E2;
      simpl; rewrite ?E1, ?E2; simpl;
      rewrite ?E1, ?E2, ?(eqb_neq_false N);
      [reflexivity | now rewrite IH].
Qed.

Lemma sameButOwner_set k v e e' :
  sameButOwner e e' -> sameButOwner (Obj.set k v e) (Obj.set k v e').
Proof.
  intros [->|[H [o ->]]]; [now left|].
  destruct (string_dec k "plugin") as [->|N].
  - left. apply set_set_same.
  - right. split.
    + rewrite has_set, H. apply orb_true_r.
    + exists o. now apply set_comm.
Qed.

Lemma sameButOwner_spread e e' x :
  sameButOwner e e' -> sameButOwner (Obj.spread e x) (Obj.spread e' x).
Proof.
  unfold Obj.spread. generalize (Obj.entries x) as l. intros l.
  revert e e'. induction l as [|[k v] l IH]; intros e e' R; simpl; auto.
  apply IH. now apply sameButOwner_set.
Qed.

Lemma sameButOwner_owner v e e' :
  sameButOwner e e' -> Obj.set "plugin" v e' = Obj.set "plugin" v e.
Proof. intros [->|[_ [o ->]]]; auto. apply set_set_same. Qed.

Lemma addExtensions_stamped a b plugin createdFrom :
  stamped a plugin createdFrom = stamped b plugin createdFrom ->
  addExtensions a plugin createdFrom = addExtensions b plugin createdFrom.
Proof.
  intros E. unfold addExtensions.
  fold (stamped a plugin createdFrom). fold (stamped b plugin createdFrom).
  now rewrite E.
Qed.

Lemma forEach_commute A S (g : S -> S) (l : list A) (f : A -> S -> M S) :
  (forall x s w, f x (g s) w = mapOk g (f x s w)) ->
  forall s w, forEach l f (g s) w = mapOk g (forEach l f s w).
Proof.
  intros H. induction l as [|x l IH]; intros s w; simpl; auto.
  unfold bind. rewrite H. destruct (f x s w) as [[s'|e|e] w']; simpl; auto.
Qed.

(** The merge of the definitions does not look at the extensions of the
    existing record. *)
Lemma mergeDefinition_setExtensions type e tc w :
  mergeDefinition type (TC.setExtensions e tc) w
  = mapOk (TC.setExtensions e) (mergeDefinition type tc w).
Proof.
  assert (MF : forall fields t w0,
             mergeFields fields (TC.setExtensions e t) w0
             = mapOk (TC.setExtensions e) (mergeFields fields t w0)).
  { intros. unfold mergeFields. apply forEach_commute.
    intros [f c] s w1. simpl.
    destruct (hasFieldMethods (tcKind s)); auto.
    unfold TC.hasField. simpl. destruct (Obj.has f (tcFields s)); auto. }
  assert (AI : forall ifaces t w0,
             addInterfaces ifaces (TC.setExtensions e t) w0
             = mapOk (TC.setExtensions e) (addInterfaces ifaces t w0)).
  { intros. unfold addInterfaces. apply forEach_commute.
    intros i s w1. simpl. destruct (tcKind s); auto.
    unfold TC.addInterface, TC.hasInterface. simpl.
    destruct (Str.includes i (tcInterfaces s)); auto. }
  destruct type; simpl; auto.
  - unfold bind. rewrite MF.
    destruct (mergeFields fields tc w) as [[t|x|x] w1]; simpl; auto.
    destruct (getInterfaces interfaces w1) as [[ifaces|x|x] w2]; simpl; auto.
  - unfold bind, liftOutcome.
    destruct (defineFieldMapToConfig fields) as [fs|x|x]; simpl; auto.
    rewrite MF.
    destruct (mergeFields fs tc w) as [[t|x|x] w1]; simpl; auto.
  - unfold bind, liftOutcome.
    destruct (defineFieldMapToConfig fields) as [fs|x|x]; simpl; auto.
Qed.

Lemma mergeDefinition_extensions type tc w tcM wM :
  mergeDefinition type tc w = (Ok tcM, wM) ->
  tcExtensions tcM = tcExtensions tc.
Proof.
  assert (MF : forall fields t w0 t' w',
             mergeFields fields t w0 = (Ok t', w') ->
             tcExtensions t' = tcExtensions t)
    by (intros ? ? ? ? ? E; apply mergeFields_inv in E; tauto').
  assert (AI : forall ifaces t w0 t' w',
             addInterfaces ifaces t w0 = (Ok t', w') ->
             tcExtensions t' = tcExtensions t)
    by (intros ? ? ? ? ? E; apply addInterfaces_inv in E; tauto').
  destruct type; simpl; intros E;
    try (unfold ret in E; now inversion E); eauto.
  - unfold bind in E.
    destruct (mergeFields fields tc w) as [[t|x|x] w1] eqn:E1;
      try discriminate.
    destruct (getInterfaces interfaces w1) as [[ifaces|x|x] w2];
      try discriminate.
    apply AI in E. apply MF in E1. congruence.
  - unfold bind, liftOutcome in E.
    destruct (defineFieldMapToConfig fields) as [fs|x|x];
      try discriminate.
    destruct (mergeFields fs tc w) as [[t|x|x] w1] eqn:E1;
      try discriminate.
    apply AI in E. apply MF in E1. congruence.
  - unfold bind, liftOutcome in E.
    destruct (defineFieldMapToConfig fields) as [fs|x|x];
      try discriminate.
    eauto.
Qed.

(** What a merge leaves does not depend on who owned the record. *)
Lemma mergeInto_owner_independent tc type plugin createdFrom owner w :
  Obj.has "plugin" (tcExtensions tc) = true ->
  mergeInto (TC.setExtension "plugin" owner tc) type plugin createdFrom w
  = mergeInto tc type plugin createdFrom w.
Proof.
  intros H. unfold mergeInto, bind, TC.setExtension.
  rewrite mergeDefinition_setExtensions.
  destruct (mergeDefinition type tc w) as [[tcM|x|x] wM] eqn:E; simpl; auto.
  apply mergeDefinition_extensions in E.
  erewrite addExtensions_stamped; [reflexivity|].
  assert (R : sameButOwner (tcExtensions tcM)
                           (Obj.set "plugin" owner (tcExtensions tc))).
  { right. rewrite E. eauto. }
  unfold stamped, TC.setExtension, TC.setExtensions, TC.extendExtensions.
  destruct (namedTypeComposerExtensions type) as [x|]; simpl; f_equal;
    apply sameButOwner_owner, sameButOwner_set;
    auto using sameButOwner_spread.
Qed.

(** ** [mergeTypes] *)

Lemma warnUnsafeMerge_safe tc plugin w :
  isSafeMerge plugin (TC.getExtension "plugin" tc) = true ->
  warnUnsafeMerge tc plugin w = (Ok tt, w).
Proof.
  intros S. unfold warnUnsafeMerge. rewrite S. now destruct plugin.
Qed.

Lemma warnUnsafeMerge_unsafe tc p w :
  isSafeMerge (Some p) (TC.getExtension "plugin" tc) = false ->
  warnUnsafeMerge tc (Some p) w
  = (Ok tt,
     reported (Warn (unsafeMergeMessage (pluginName p) (tcName tc)
                       (TC.getExtension "plugin" tc))) w).
Proof. intros S. unfold warnUnsafeMerge. now rewrite S. Qed.

Lemma warnUnsafeMerge_returns tc plugin w :
  exists w0, warnUnsafeMerge tc plugin w = (Ok tt, w0)
             /\ sameButReports w w0.
Proof.
  destruct (isSafeMerge plugin (TC.getExtension "plugin" tc)) eqn:S.
  - exists w. split; [now apply warnUnsafeMerge_safe|].
    apply sameButReports_refl.
  - destruct plugin as [p|]; [|discriminate].
    eexists. split; [now apply warnUnsafeMerge_unsafe|].
    apply sameButReports_reported.
Qed.

Lemma isSafeMerge_spec plugin typeOwner :
  isSafeMerge plugin typeOwner = true
  <-> plugin = None
      \/ exists p, plugin = Some p
                   /\ (pluginName p = "default-site-plugin"
                       \/ typeOwner = VStr (pluginName p)).
Proof.
  unfold isSafeMerge. destruct plugin as [p|].
  - rewrite orb_true_iff, String.eqb_eq, isStr_eq. split.
    + intros H. right. exists p. auto.
    + intros [H|[q [E H]]]; [discriminate|]. now inversion E; subst.
  - split; auto.
Qed.

Lemma unsafeMergeMessage_mentions_plugin pluginName typeName typeOwner :
  Str.mentions (unsafeMergeMessage pluginName typeName typeOwner)
               pluginName.
Proof.
  unfold unsafeMergeMessage. destruct (truthy typeOwner); find_mention.
Qed.

Lemma unsafeMergeMessage_mentions_owner pluginName typeName typeOwner :
  truthy typeOwner = true ->
  Str.mentions (unsafeMergeMessage pluginName typeName typeOwner)
               (templateString typeOwner).
Proof.
  intros T. unfold unsafeMergeMessage. rewrite T. find_mention.
Qed.

Lemma ignoresReports_incomingInterfaces type :
  ignoresReports (incomingInterfaces type).
Proof.
  unfold incomingInterfaces, getInterfaces. ignores_reports.
Qed.

Lemma incomingInterfaces_sameButReports type w w0 ifaces :
  sameButReports w w0 ->
  incomingInterfaces type w = (Ok ifaces, w) ->
  incomingInterfaces type w0 = (Ok ifaces, w0).
Proof.
  intros R E.
  destruct (@ignoresReports_incomingInterfaces type w w0 R) as [F _].
  rewrite E in F. simpl in F.
  destruct (incomingInterfaces type w0) as [r w1] eqn:E0. simpl in F.
  subst r. apply incomingInterfaces_world in E0. now subst.
Qed.

Lemma get_extended k prev partial :
  k <> "extensions" ->
  Obj.get k (TC.extended prev partial)
  = match Obj.get k partial with
    | Some v => Some v
    | None => Obj.get k prev
    end.
Proof.
  intros N. unfold TC.extended.
  destruct (Obj.get "extensions" partial).
  - rewrite get_set_ne by congruence. apply get_spread.
  - apply get_spread.
Qed.

Lemma get_mergedField k existing incoming :
  k <> "extensions" ->
  Obj.get k (mergedField existing incoming)
  = match Obj.get k incoming with
    | Some v => Some v
    | None => match existing with
              | Some c0 => Obj.get k c0
              | None => None
              end
    end.
Proof.
  intros N. destruct existing as [c0|]; simpl.
  - now apply get_extended.
  - now destruct (Obj.get k incoming).
Qed.

(** Where the merge returns, the composer is the merged one. *)
Lemma mergeInto_inv tc type plugin createdFrom w fields ifaces tc' w' :
  isObjectOrInterfaceType type = true ->
  incomingFieldConfigs type = Ok fields ->
  incomingInterfaces type w = (Ok ifaces, w) ->
  mergeInto tc type plugin createdFrom w = (Ok tc', w') ->
  mergedWith tc fields ifaces tc' /\ sameButReports w w'.
Proof.
  intros T C I E. unfold mergeInto, bind in E.
  destruct (mergeDefinition type tc w) as [[tcM|x|x] wM] eqn:EM;
    try discriminate.
  destruct (@mergeDefinition_inv type tc w fields ifaces tcM wM T C I EM)
    as [-> [Mn [Mk [Me [Mf [Mi Md]]]]]].
  apply addExtensions_inv in E.
  destruct E as [tcD [[Dn [Dk [Df Di]]] [S R]]].
  assert (F : tcFields tcD = tcFields tcM)
    by (rewrite Df; now destruct (namedTypeComposerExtensions type)).
  assert (Is : tcInterfaces tcD = tcInterfaces tcM)
    by (rewrite Di; now destruct (namedTypeComposerExtensions type)).
  split; auto. unfold mergedWith.
  pose proof S as S0. destruct S as [_ [_ [Si [_ [Sk Sg]]]]].
  split; [|split; [|split]].
  - intros f k N. rewrite Sg by assumption.
    rewrite (@getField_fields tcM tcD f F).
    unfold TC.getField. rewrite Mf.
    destruct (Obj.get f fields) as [c|]; auto.
    rewrite get_mergedField by assumption.
    destruct (Obj.get k c); auto.
    now destruct (Obj.get f (tcFields tc)).
  - intros f.
    rewrite (@sameButFieldExtensions_hasField tcD tc' f S0).
    rewrite (@hasField_fields tcM tcD f F).
    unfold TC.hasField, Obj.has. rewrite Mf.
    destruct (Obj.get f fields); auto.
  - intros i. rewrite Si, Is. apply Mi.
  - intros ND. rewrite Si, Is. now apply Md.
Qed.

(** A composer is handed to [mergeFields] with the fields it has. *)
Lemma incomingFieldConfigs_composer type :
  nativeName type = None ->
  incomingFieldConfigs type = Ok (incomingFields type).
Proof. destruct type; simpl; intros N; try discriminate; auto. Qed.

(** [mergeFields] into a record that has fields returns, and what it
    returns is [mergedFields]. *)
Lemma mergeFields_run fields tc w :
  hasFieldMethods (tcKind tc) = true ->
  mergeFields fields tc w = (Ok (mergedFields fields tc), w).
Proof.
  unfold mergeFields, mergedFields.
  generalize (Obj.entries fields) as l. intros l.
  revert tc w. induction l as [|[f1 c1] l IH]; intros tc w HM; simpl.
  - reflexivity.
  - unfold bind. rewrite HM. simpl. rewrite mergeFields_step.
    unfold ret at 1. now apply IH.
Qed.

Lemma mergeDefinition_returns type tc w fields ifaces :
  isObjectOrInterfaceType type = true ->
  incomingFieldConfigs type = Ok fields ->
  incomingInterfaces type w = (Ok ifaces, w) ->
  hasFieldMethods (tcKind tc) = true ->
  ifaces = [] \/ tcKind tc = KObject ->
  exists tcM, mergeDefinition type tc w = (Ok tcM, w)
              /\ tcKind tcM = tcKind tc
              /\ tcFields tcM = tcFields (mergedFields fields tc)
              /\ tcExtensions tcM = tcExtensions tc.
Proof.
  intros T C I HM K.
  pose proof (@mergeFields_run fields tc w HM) as MF.
  pose proof MF as MI. apply mergeFields_inv in MI.
  destruct MI as [_ [_ [Kt [_ [Et _]]]]].
  assert (AI : exists tcM,
             addInterfaces ifaces (mergedFields fields tc) w = (Ok tcM, w)
             /\ tcKind tcM = tcKind tc
             /\ tcFields tcM = tcFields (mergedFields fields tc)
             /\ tcExtensions tcM = tcExtensions tc).
  { destruct K as [->|K].
    - exists (mergedFields fields tc). repeat split; auto.
    - destruct (@addInterfaces_returns ifaces (mergedFields fields tc) w)
        as [tcM E]; [congruence|].
      exists tcM. split; auto.
      apply addInterfaces_inv in E.
      destruct E as [_ [_ [Ek [Ef [Ee _]]]]].
      repeat split; congruence. }
  destruct AI as [tcM [E' R]].
  destruct type; try discriminate; simpl in *.
  - injection C as <-. exists tcM. split; auto.
    unfold bind. now rewrite MF, I.
  - injection C as <-. unfold ret in I. inversion I; subst.
    exists tcM. split; auto. simpl in E'. inversion E'; subst. exact MF.
  - unfold ret in I. inversion I; subst.
    exists tcM. split; auto.
    unfold bind, liftOutcome. now rewrite C, MF.
  - unfold ret in I. inversion I; subst.
    exists tcM. split; auto.
    unfold bind at 1, liftOutcome. rewrite C.
    simpl in E'. inversion E'; subst. exact MF.
Qed.

Lemma lacksIdField_stamped tc plugin createdFrom :
  lacksIdField (stamped tc plugin createdFrom) = lacksIdField tc.
Proof. now apply lacksIdField_fields. Qed.

(** [addExtensions] returns unless it comes to a [nodeInterface]
    directive on an interface without [id: ID!]. *)
Lemma addExtensions_returns_unless tc plugin createdFrom w :
  String.eqb createdFrom "sdl"
  && Kind_eqb (tcKind tc) KInterface
  && existsb isNodeInterfaceDirective (TC.getDirectives tc)
  && lacksIdField tc = false ->
  exists tc' w', addExtensions tc plugin createdFrom w = (Ok tc', w').
Proof.
  intros H.
  assert (S : exists tcD,
             (if String.eqb createdFrom "sdl"
              then forEach
                     (TC.getDirectives (stamped tc plugin createdFrom))
                     typeDirective (stamped tc plugin createdFrom)
              else ret (stamped tc plugin createdFrom)) w = (Ok tcD, w)).
  { destruct (String.eqb createdFrom "sdl") eqn:C.
    - destruct (@typeDirectives_return
                  (TC.getDirectives (stamped tc plugin createdFrom))
                  (stamped tc plugin createdFrom) w) as [tcD [E _]]; eauto.
      rewrite getDirectives_stamped, lacksIdField_stamped.
      simpl in H. change (tcKind (stamped tc plugin createdFrom))
        with (tcKind tc).
      destruct (lacksIdField tc); auto. right.
      destruct (existsb isNodeInterfaceDirective (TC.getDirectives tc));
        auto. left.
      destruct (tcKind tc); simpl in H; congruence.
    - eexists. reflexivity. }
  destruct S as [tcD S].
  destruct (@addExtensions_after_directives tc plugin createdFrom w tcD w S)
    as [tc' [w' [E _]]].
  eauto.
Qed.

(** The merge returns for a definition whose fields and interfaces are
    known, into a record that has fields, and is an object where there
    are interfaces to add, unless the stamping comes to a
    [nodeInterface] directive on an interface without [id: ID!]. *)
Lemma mergeInto_succeeds tc type plugin createdFrom w fields ifaces :
  isObjectOrInterfaceType type = true ->
  incomingFieldConfigs type = Ok fields ->
  incomingInterfaces type w = (Ok ifaces, w) ->
  hasFieldMethods (tcKind tc) = true ->
  ifaces = [] \/ tcKind tc = KObject ->
  nodeInterfacePanics tc type fields createdFrom = false ->
  exists tc' w', mergeInto tc type plugin createdFrom w = (Ok tc', w').
Proof.
  intros T C I HM K N.
  destruct (@mergeDefinition_returns type tc w fields ifaces T C I HM K)
    as [tcM [E [Km [Fm Em]]]].
  unfold mergeInto, bind. rewrite E.
  apply addExtensions_returns_unless.
  fold (withExtensionsOf type tcM).
  assert (Kw : tcKind (withExtensionsOf type tcM) = tcKind tc)
    by (unfold withExtensionsOf;
        destruct (namedTypeComposerExtensions type); simpl; congruence).
  assert (Dw : TC.getDirectives (withExtensionsOf type tcM)
               = TC.getDirectives (withExtensionsOf type tc))
    by (unfold withExtensionsOf, TC.getDirectives, TC.extendExtensions;
        destruct (namedTypeComposerExtensions type); simpl; congruence).
  assert (Lw : lacksIdField (withExtensionsOf type tcM)
               = lacksIdField (mergedFields fields tc)).
  { apply lacksIdField_fields. rewrite <- Fm. unfold withExtensionsOf.
    now destruct (namedTypeComposerExtensions type). }
  rewrite Kw, Dw, Lw. exact N.
Qed.

Lemma nodeInterfacePanics_not tc type fields createdFrom :
  tcKind tc = KObject \/ String.eqb createdFrom "sdl" = false ->
  nodeInterfacePanics tc type fields createdFrom = false.
Proof.
  unfold nodeInterfacePanics. intros [K | ->]; [|reflexivity].
  rewrite K. simpl. now rewrite andb_false_r.
Qed.

Lemma mergeInto_returns tc type plugin createdFrom w fields ifaces :
  isObjectOrInterfaceType type = true ->
  incomingFieldConfigs type = Ok fields ->
  incomingInterfaces type w = (Ok ifaces, w) ->
  tcKind tc = KObject
  \/ (tcKind tc = KInterface /\ ifaces = []
      /\ String.eqb createdFrom "sdl" = false) ->
  exists tc' w', mergeInto tc type plugin createdFrom w = (Ok tc', w').
Proof.
  intros T C I K.
  apply mergeInto_succeeds with (fields := fields) (ifaces := ifaces);
    auto.
  - destruct K as [K|[K _]]; now rewrite K.
  - destruct K as [K|[_ [K _]]]; auto.
  - apply nodeInterfacePanics_not. destruct K as [K|[_ [_ K]]]; auto.
Qed.

(** ** Computations that take no report back *)

Lemma keepsReports_ret A (a : A) : keepsReports (ret a).
Proof. intros w. exists []. simpl. now rewrite app_nil_r. Qed.

Lemma keepsReports_throw A msg : keepsReports (@throw A msg).
Proof. intros w. exists []. simpl. now rewrite app_nil_r. Qed.

Lemma keepsReports_panic A msg : keepsReports (@report.panic A msg).
Proof. intros w. exists []. simpl. now rewrite app_nil_r. Qed.

Lemma keepsReports_liftOutcome A (o : Outcome A) :
  keepsReports (liftOutcome o).
Proof. intros w. exists []. simpl. now rewrite app_nil_r. Qed.

Lemma keepsReports_addReport r : keepsReports (addReport r).
Proof. intros w. now exists [r]. Qed.

Lemma keepsReports_bind A B (m : M A) (f : A -> M B) :
  keepsReports m -> (forall a, keepsReports (f a)) ->
  keepsReports (bind m f).
Proof.
  intros Hm Hf w. unfold bind. destruct (Hm w) as [rs E].
  destruct (m w) as [[a|e|e] w1]; simpl in E; eauto.
  destruct (Hf a w1) as [rs' E']. exists (rs ++ rs')%list.
  now rewrite E', E, app_assoc.
Qed.

Lemma keepsReports_tryCatch A (m : M A) (h : string -> M A) :
  keepsReports m -> (forall e, keepsReports (h e)) ->
  keepsReports (tryCatch m h).
Proof.
  intros Hm Hh w. unfold tryCatch. destruct (Hm w) as [rs E].
  destruct (m w) as [[a|e|e] w1]; simpl in E; eauto.
  destruct (Hh e w1) as [rs' E']. exists (rs ++ rs')%list.
  now rewrite E', E, app_assoc.
Qed.

Lemma keepsReports_forEach A S (l : list A) (f : A -> S -> M S) :
  (forall x s, keepsReports (f x s)) ->
  forall s, keepsReports (forEach l f s).
Proof.
  intros H. induction l as [|x l IH]; intros s; simpl.
  - apply keepsReports_ret.
  - apply keepsReports_bind; auto.
Qed.

Lemma keepsReports_forEach_ A (l : list A) (f : A -> M unit) :
  (forall x, keepsReports (f x)) -> keepsReports (forEach_ l f).
Proof.
  intros H. induction l as [|x l IH]; simpl.
  - apply keepsReports_ret.
  - apply keepsReports_bind; auto.
Qed.

Lemma keepsReports_get name : keepsReports (schemaComposer.get name).
Proof.
  intros w. exists []. unfold schemaComposer.get.
  destruct (Obj.get name (registry w)); simpl; now rewrite app_nil_r.
Qed.

Lemma keepsReports_getIFTC name :
  keepsReports (schemaComposer.getIFTC name).
Proof.
  unfold schemaComposer.getIFTC. apply keepsReports_bind.
  - apply keepsReports_get.
  - intros tc. destruct (tcKind tc);
      first [apply keepsReports_ret | apply keepsReports_throw].
Qed.

Lemma keepsReports_getDirective name :
  keepsReports (schemaComposer.getDirective name).
Proof.
  intros w. exists []. unfold schemaComposer.getDirective.
  destruct (Obj.get name (directiveDefs w)); simpl; now rewrite app_nil_r.
Qed.

Ltac keeps_reports :=
  repeat first
    [ apply keepsReports_ret
    | apply keepsReports_liftOutcome
    | apply keepsReports_throw
    | apply keepsReports_panic
    | apply keepsReports_addReport
    | apply keepsReports_getIFTC
    | apply keepsReports_getDirective
    | apply keepsReports_get
    | apply keepsReports_bind
    | apply keepsReports_tryCatch
    | apply keepsReports_forEach
    | apply keepsReports_forEach_
    | match goal with
      | |- forall _, _ => intro
      | |- keepsReports (if ?b then _ else _) => destruct b
      | |- keepsReports (match ?x with _ => _ end) => destruct x
      end ].

Lemma keepsReports_addExtensions tc plugin createdFrom :
  keepsReports (addExtensions tc plugin createdFrom).
Proof.
  unfold addExtensions, report.warn.
  apply keepsReports_bind.
  { destruct (String.eqb createdFrom "sdl").
    - apply keepsReports_forEach. intros.
      unfold typeDirective. keeps_reports.
    - apply keepsReports_ret. }
  intros tc1. apply keepsReports_bind.
  { destruct (hasFieldMethods (tcKind tc1)).
    - apply keepsReports_forEach. intros.
      unfold stampField. apply keepsReports_forEach.
      intros name t. unfold fieldExtension, checkExtensionArgs,
                       report.error, report.warn.
      keeps_reports.
    - apply keepsReports_ret. }
  intros tc2. keeps_reports.
Qed.

Lemma keepsReports_mergeInto tc type plugin createdFrom :
  keepsReports (mergeInto tc type plugin createdFrom).
Proof.
  unfold mergeInto. apply keepsReports_bind.
  - unfold mergeDefinition, mergeFields, getInterfaces, addInterfaces.
    keeps_reports.
  - intros. apply keepsReports_addExtensions.
Qed.

(** The merge of [mergeTypes]: under the conditions of
    [mergeInto_succeeds] it returns the merged record, whatever the
    ownership check has found, and the warning of the check is among
    the reports it leaves. *)
Lemma mergeTypes_succeeds tc type plugin createdFrom w fields ifaces :
  isObjectOrInterfaceType type = true ->
  incomingFieldConfigs type = Ok fields ->
  incomingInterfaces type w = (Ok ifaces, w) ->
  hasFieldMethods (tcKind tc) = true ->
  ifaces = [] \/ tcKind tc = KObject ->
  nodeInterfacePanics tc type fields createdFrom = false ->
  exists tc' w',
    mergeTypes tc type plugin createdFrom w = (Ok tc', w')
    /\ mergedWith tc fields ifaces tc'
    /\ sameButReports w w'
    /\ (forall p, plugin = Some p ->
          isSafeMerge plugin (TC.getExtension "plugin" tc) = false ->
          In (Warn (unsafeMergeMessage (pluginName p) (tcName tc)
                      (TC.getExtension "plugin" tc)))
             (reports w')).
Proof.
  intros T C I HM K N.
  destruct (warnUnsafeMerge_returns tc plugin w) as [w0 [E0 R0]].
  pose proof (@incomingInterfaces_sameButReports type w w0 ifaces R0 I)
    as I0.
  destruct (@mergeInto_succeeds tc type plugin createdFrom w0 fields ifaces
              T C I0 HM K N) as [tc' [w' E]].
  exists tc', w'. unfold mergeTypes, bind. rewrite E0.
  destruct (@mergeInto_inv tc type plugin createdFrom w0 fields ifaces
              tc' w' T C I0 E) as [MW R1].
  split; auto. split; auto.
  split; [eapply sameButReports_trans; eauto|].
  intros p -> S. rewrite warnUnsafeMerge_unsafe in E0 by exact S.
  inversion E0; subst w0.
  destruct (@keepsReports_mergeInto tc type (Some p) createdFrom
              (reported (Warn (unsafeMergeMessage (pluginName p)
                                 (tcName tc)
                                 (TC.getExtension "plugin" tc))) w))
    as [rs Rs].
  rewrite E in Rs. simpl in Rs. rewrite Rs.
  apply in_or_app. left. apply in_or_app. right. now left.
Qed.


(** Whenever a merge returns, what it returns is the merged record. *)
Lemma mergeTypes_inv tc type plugin createdFrom w fields ifaces tc' w' :
  isObjectOrInterfaceType type = true ->
  incomingFieldConfigs type = Ok fields ->
  incomingInterfaces type w = (Ok ifaces, w) ->
  mergeTypes tc type plugin createdFrom w = (Ok tc', w') ->
  mergedWith tc fields ifaces tc'.
Proof.
  intros T C I E.
  destruct (warnUnsafeMerge_returns tc plugin w) as [w0 [E0 R0]].
  pose proof (@incomingInterfaces_sameButReports type w w0 ifaces R0 I)
    as I0.
  unfold mergeTypes, bind in E. rewrite E0 in E.
  eapply mergeInto_inv; eauto.
Qed.

(** C7. A merge is safe exactly when no plugin comes with the incoming
    definition, or the plugin is [default-site-plugin], or it is the
    owner the [plugin] extension of the record names.  A merge that is
    not safe reports one warning, which names the plugin and, where the
    record has an owner, the owner; and then, as a safe merge does at
    once, it goes on to merge.  The outcome of the merge is that of the
    merge without the check, and it does not depend on who owns the
    record.  So a merge of fields and interfaces that returns for the
    owner returns for any plugin: it returns the merged record, and the
    warning is among the reports it leaves. *)
Theorem mergeTypes_ownership tc type plugin createdFrom w :
  let typeOwner := TC.getExtension "plugin" tc in
  (isSafeMerge plugin typeOwner = true
   <-> plugin = None
       \/ exists p, plugin = Some p
                    /\ (pluginName p = "default-site-plugin"
                        \/ typeOwner = VStr (pluginName p)))
  /\ (isSafeMerge plugin typeOwner = true ->
      mergeTypes tc type plugin createdFrom w
      = mergeInto tc type plugin createdFrom w)
  /\ (forall p, plugin = Some p -> isSafeMerge plugin typeOwner = false ->
        let msg := unsafeMergeMessage (pluginName p) (tcName tc)
                                      typeOwner in
        mergeTypes tc type plugin createdFrom w
        = mergeInto tc type plugin createdFrom (reported (Warn msg) w)
        /\ Str.mentions msg (pluginName p)
        /\ (truthy typeOwner = true ->
            Str.mentions msg (templateString typeOwner)))
  /\ fst (mergeTypes tc type plugin createdFrom w)
     = fst (mergeInto tc type plugin createdFrom w)
  /\ (forall owner, Obj.has "plugin" (tcExtensions tc) = true ->
        mergeInto (TC.setExtension "plugin" owner tc) type plugin
                  createdFrom w
        = mergeInto tc type plugin createdFrom w)
  /\ (forall fields ifaces,
        isObjectOrInterfaceType type = true ->
        incomingFieldConfigs type = Ok fields ->
        incomingInterfaces type w = (Ok ifaces, w) ->
        hasFieldMethods (tcKind tc) = true ->
        ifaces = [] \/ tcKind tc = KObject ->
        nodeInterfacePanics tc type fields createdFrom = false ->
        exists tc' w',
          mergeTypes tc type plugin createdFrom w = (Ok tc', w')
          /\ mergedWith tc fields ifaces tc'
          /\ (forall p, plugin = Some p ->
                isSafeMerge plugin typeOwner = false ->
                In (Warn (unsafeMergeMessage (pluginName p) (tcName tc)
                            typeOwner))
                   (reports w'))).
Proof.
  intros typeOwner. split; [apply isSafeMerge_spec|].
  split; [|split; [|split; [|split]]].
  - intros S. unfold mergeTypes, bind.
    now rewrite warnUnsafeMerge_safe.
  - intros p -> S msg. split; [|split].
    + unfold mergeTypes, bind. now rewrite warnUnsafeMerge_unsafe.
    + apply unsafeMergeMessage_mentions_plugin.
    + apply unsafeMergeMessage_mentions_owner.
  - destruct (warnUnsafeMerge_returns tc plugin w) as [w0 [E0 R0]].
    unfold mergeTypes, bind. rewrite E0.
    symmetry. apply ignoresReports_mergeInto. exact R0.
  - intros owner H. now apply mergeInto_owner_independent.
  - intros fields ifaces T C I HM K N.
    destruct (@mergeTypes_succeeds tc type plugin createdFrom w fields
                ifaces T C I HM K N) as [tc' [w' [E [MW [_ W]]]]].
    exists tc', w'. auto.
Qed.

(** ** Third-party schemas *)

(** A loop over distinct field names whose step for a name looks at the
    field of that name and changes no other field changes each field as
    the step for its name does. *)
Lemma fold_fieldwise (step : string -> TypeComposer -> TypeComposer) names :
  NoDup names ->
  (forall f g tc, g <> f ->
      Obj.get g (tcFields (step f tc)) = Obj.get g (tcFields tc)) ->
  (forall f tc tc',
      Obj.get f (tcFields tc) = Obj.get f (tcFields tc') ->
      Obj.get f (tcFields (step f tc)) = Obj.get f (tcFields (step f tc'))) ->
  forall tc0 f,
    Obj.get f (tcFields (fold_left (fun tc f => step f tc) names tc0))
    = if in_dec string_dec f names
      then Obj.get f (tcFields (step f tc0))
      else Obj.get f (tcFields tc0).
Proof.
  intros ND Other Local. induction names as [|n names IH];
    intros tc0 f; simpl; auto.
  inversion ND as [|? ? Nn ND']; subst. rewrite IH by assumption.
  destruct (string_dec n f) as [->|N].
  - destruct (in_dec string_dec f names); [contradiction | reflexivity].
  - destruct (in_dec string_dec f names).
    + apply Local. apply Other. congruence.
    + apply Other. congruence.
Qed.

Lemma getFieldExtension_field f k tc :
  TC.getFieldExtension f k tc
  = prop k (fieldExtensionsOf (TC.getField f tc)).
Proof. reflexivity. Qed.

Lemma get_addFields_one f c g tc :
  Obj.get g (tcFields (TC.addFields [(f, c)] tc))
  = if String.eqb f g then Some c else Obj.get g (tcFields tc).
Proof.
  unfold TC.addFields. simpl. rewrite get_spread. simpl.
  now destruct (String.eqb f g).
Qed.

Lemma resetStep_other f g tc :
  g <> f -> Obj.get g (tcFields (resetStep f tc)) = Obj.get g (tcFields tc).
Proof.
  intros N. unfold resetStep.
  destruct (isStr "createResolvers" _).
  - simpl. apply get_remove_ne. congruence.
  - destruct (truthy _); auto.
    rewrite get_addFields_one, eqb_neq_false by congruence.
    simpl. apply get_remove_ne. congruence.
Qed.

Lemma resetStep_field f tc :
  Obj.get f (tcFields (resetStep f tc))
  = match Obj.get f (tcFields tc) with
    | Some c => resetField c
    | None => None
    end.
Proof.
  unfold resetStep, resetField. rewrite !getFieldExtension_field.
  unfold TC.getField.
  destruct (Obj.get f (tcFields tc)) as [c|] eqn:G.
  - destruct (isStr "createResolvers" _).
    + simpl. apply get_remove_eq.
    + destruct (truthy _); auto.
      now rewrite get_addFields_one, String.eqb_refl.
  - simpl. exact G.
Qed.

(** The reset, field by field. *)
Lemma reset_fields tc f :
  Obj.get f (tcFields (resetOverriddenThirdPartyTypeFields tc))
  = match Obj.get f (tcFields tc) with
    | Some c => resetField c
    | None => None
    end.
Proof.
  unfold resetOverriddenThirdPartyTypeFields.
  rewrite fold_fieldwise.
  - destruct (in_dec string_dec f (TC.getFieldNames tc)) as [I|I].
    + apply resetStep_field.
    + destruct (Obj.get f (tcFields tc)) eqn:G; auto.
      exfalso. apply I. apply in_keys. eapply get_Some_in; eauto.
  - apply NoDup_keys.
  - intros. now apply resetStep_other.
  - intros g t t' E. rewrite !resetStep_field. now rewrite E.
Qed.

Lemma reset_same tc :
  sameButFields tc (resetOverriddenThirdPartyTypeFields tc).
Proof.
  unfold resetOverriddenThirdPartyTypeFields.
  generalize (TC.getFieldNames tc) as names. intros names.
  assert (G : forall t, sameButFields tc t ->
             sameButFields tc
               (fold_left (fun tc f => resetStep f tc) names t)).
  { induction names as [|n names IH]; intros t S; simpl; auto.
    apply IH. unfold resetStep.
    destruct (isStr "createResolvers" _); [exact S|].
    destruct (truthy _); exact S. }
  apply G. repeat split.
Qed.

Lemma forEach_pure_under A S (P : S -> Prop) (l : list A)
      (f : A -> S -> M S) (g : S -> A -> S) :
  (forall x s w, In x l -> P s -> f x s w = (Ok (g s x), w) /\ P (g s x)) ->
  forall s w, P s -> forEach l f s w = (Ok (fold_left g l s), w)
                     /\ P (fold_left g l s).
Proof.
  induction l as [|x l IH]; intros H s w Ps; simpl; auto.
  destruct (H x s w (or_introl eq_refl) Ps) as [E P1].
  unfold bind. rewrite E. apply IH; auto.
  intros y s2 w2 I. apply H. now right.
Qed.

Lemma fixPure_other q f g tc :
  g <> f -> Obj.get g (tcFields (fixPure q f tc)) = Obj.get g (tcFields tc).
Proof.
  intros N. unfold fixPure.
  destruct (toStringJS _) as [s|]; auto.
  destruct (String.eqb _ q); auto.
  unfold TC.extendField, TC.setField. simpl.
  apply get_set_ne. congruence.
Qed.

Lemma fixPure_field q f tc c :
  Obj.get f (tcFields tc) = Some c ->
  Obj.get f (tcFields (fixPure q f tc)) = Some (fixedField q c).
Proof.
  intros G. unfold fixPure, fixedField, TC.getField. rewrite G.
  destruct (toStringJS _) as [s|]; auto.
  destruct (String.eqb _ q); auto.
  unfold TC.extendField, TC.setField, TC.getField. simpl.
  now rewrite get_set_eq, G.
Qed.

Lemma fixPure_missing q f tc :
  Obj.get f (tcFields tc) = None -> fixPure q f tc = tc.
Proof. intros G. unfold fixPure, TC.getField. now rewrite G. Qed.

Lemma fixPure_same q f tc : sameButFields tc (fixPure q f tc).
Proof.
  unfold fixPure. destruct (toStringJS _) as [s|]; [|repeat split].
  destruct (String.eqb _ q); repeat split.
Qed.

Lemma sameButFields_trans a b c :
  sameButFields a b -> sameButFields b c -> sameButFields a c.
Proof.
  unfold sameButFields. intros [A1 [A2 [A3 A4]]] [B1 [B2 [B3 B4]]].
  repeat split; congruence.
Qed.

Lemma toStringJS_fixedField q c :
  toStringJS (prop "type" c) <> None ->
  toStringJS (prop "type" (fixedField q c)) <> None.
Proof.
  intros T. unfold fixedField.
  destruct (toStringJS (prop "type" c)) as [s|] eqn:E; auto.
  destruct (String.eqb _ q); [|congruence].
  unfold prop. rewrite get_spread. simpl. discriminate.
Qed.

Lemma fixPure_typed q f tc : fieldsTyped tc -> fieldsTyped (fixPure q f tc).
Proof.
  intros T g c G. destruct (string_dec g f) as [->|N].
  - destruct (Obj.get f (tcFields tc)) as [c0|] eqn:G0.
    + rewrite (@fixPure_field q f tc c0 G0) in G. inversion G; subst.
      apply toStringJS_fixedField. eapply T; eauto.
    + rewrite fixPure_missing in G by assumption. congruence.
  - rewrite fixPure_other in G by assumption. eapply T; eauto.
Qed.

Lemma fixQueryReference_typed q f tc w :
  fieldsTyped tc -> In f (TC.getFieldNames tc) ->
  fixQueryReference q f tc w = (Ok (fixPure q f tc), w).
Proof.
  intros T I. unfold fixQueryReference, fixPure.
  apply in_keys in I.
  destruct (Obj.get f (tcFields tc)) as [c|] eqn:G.
  - unfold TC.getField. rewrite G.
    destruct (toStringJS (prop "type" c)) as [s|] eqn:E.
    + now destruct (String.eqb _ q).
    + exfalso. eapply T; eauto.
  - apply get_None_notin in G. contradiction.
Qed.

Lemma getFieldNames_fixPure q f tc :
  TC.getFieldNames (fixPure q f tc) = TC.getFieldNames tc.
Proof.
  unfold fixPure. destruct (toStringJS _) as [s|] eqn:E; auto.
  destruct (String.eqb _ q); auto.
  unfold TC.getFieldNames, Obj.keys, TC.extendField, TC.setField. simpl.
  destruct (Obj.has f (tcFields tc)) eqn:H.
  - now rewrite map_fst_set_has.
  - unfold TC.getField in E. unfold Obj.has in H.
    destruct (Obj.get f (tcFields tc)); [discriminate|].
    simpl in E. discriminate.
Qed.

(** The fix of the references after the reset, field by field: where
    the fields the reset leaves are typed, [processThirdPartyTypeFields]
    returns, whatever the world, and each field is the fixed field of
    what the reset leaves of it. *)
Lemma processThirdPartyTypeFields_spec tc q :
  fieldsTyped (resetOverriddenThirdPartyTypeFields tc) ->
  (forall w, processThirdPartyTypeFields tc q w
             = (Ok (processedFields q tc), w))
  /\ sameButFields tc (processedFields q tc)
  /\ forall f, Obj.get f (tcFields (processedFields q tc))
               = match Obj.get f (tcFields tc) with
                 | Some c => option_map (fixedField q) (resetField c)
                 | None => None
                 end.
Proof.
  intros T. unfold processThirdPartyTypeFields, processedFields.
  set (r := resetOverriddenThirdPartyTypeFields tc) in *.
  set (names := TC.getFieldNames r).
  assert (L : forall w,
             forEach names (fixQueryReference q) r w
             = (Ok (fold_left (fun tc f => fixPure q f tc) names r), w)
             /\ (fieldsTyped (fold_left (fun tc f => fixPure q f tc) names r)
                 /\ TC.getFieldNames
                      (fold_left (fun tc f => fixPure q f tc) names r)
                    = names)).
  { intros w.
    apply forEach_pure_under
      with (P := fun t => fieldsTyped t /\ TC.getFieldNames t = names)
           (g := fun tc f => fixPure q f tc); [|split; auto].
    intros f t w0 I [Tt Nt]. split.
    - apply fixQueryReference_typed; auto. now rewrite Nt.
    - split; [now apply fixPure_typed|].
      now rewrite getFieldNames_fixPure. }
  split; [intros w; apply L|]. split.
  - apply sameButFields_trans with r; [apply reset_same|].
    generalize names. intros l. generalize r. induction l as [|n l IH];
      intros t; simpl; [repeat split|].
    eapply sameButFields_trans; [apply (fixPure_same q n t) | apply IH].
  - intros f. rewrite fold_fieldwise.
    + assert (RF : Obj.get f (tcFields r)
                   = match Obj.get f (tcFields tc) with
                     | Some c => resetField c
                     | None => None
                     end) by apply reset_fields.
      assert (X : match Obj.get f (tcFields tc) with
                  | Some c => option_map (fixedField q) (resetField c)
                  | None => None
                  end = option_map (fixedField q) (Obj.get f (tcFields r))).
      { rewrite RF. now destruct (Obj.get f (tcFields tc)). }
      rewrite X. clear X RF.
      destruct (in_dec string_dec f names) as [I|I].
      * destruct (Obj.get f (tcFields r)) as [c|] eqn:G.
        -- now apply fixPure_field.
        -- rewrite fixPure_missing by assumption. now rewrite G.
      * destruct (Obj.get f (tcFields r)) as [c|] eqn:G; auto.
        exfalso. apply I. apply in_keys. eapply get_Some_in; eauto.
    + apply NoDup_keys.
    + intros. now apply fixPure_other.
    + intros g t t' E.
      destruct (Obj.get g (tcFields t)) as [c|] eqn:G.
      * symmetry in E. now rewrite (@fixPure_field q g t c G),
                          (@fixPure_field q g t' c E).
      * symmetry in E. rewrite !fixPure_missing by assumption. congruence.
Qed.

(** ** The text of a wrapped type *)

Lemma printType_parts t :
  printType t = opens t ++ namedTypeOf t ++ closes t.
Proof.
  induction t as [n|t IH|t IH]; simpl.
  - now rewrite append_nil_r.
  - now rewrite IH, !append_assoc.
  - now rewrite IH, !append_assoc.
Qed.

Lemma opens_withNamedType n t : opens (withNamedType n t) = opens t.
Proof. induction t; simpl; congruence. Qed.

Lemma closes_withNamedType n t : closes (withNamedType n t) = closes t.
Proof. induction t; simpl; congruence. Qed.

Lemma namedTypeOf_withNamedType n t : namedTypeOf (withNamedType n t) = n.
Proof. induction t; simpl; congruence. Qed.

Lemma strip_append cs a b :
  Str.strip cs (a ++ b) = Str.strip cs a ++ Str.strip cs b.
Proof.
  induction a as [|c a IH]; simpl; auto.
  destruct (existsb (Ascii.eqb c) cs); simpl; congruence.
Qed.

Lemma strip_opens t : Str.strip wrappers (opens t) = "".
Proof. induction t; simpl; auto. Qed.

Lemma strip_closes t : Str.strip wrappers (closes t) = "".
Proof.
  induction t as [n|t IH|t IH]; simpl; auto;
    rewrite strip_append, IH; reflexivity.
Qed.

(** A character of a name is no wrapper. *)
Lemma name_char_no_wrapper c :
  Str.isLetter c || Str.isDigit c || Str.isUnderscore c = true ->
  existsb (Ascii.eqb c) wrappers = false.
Proof.
  destruct c as [[] [] [] [] [] [] [] []]; simpl; intros H;
    try reflexivity; discriminate.
Qed.

Lemma strip_name_chars s :
  Str.forallb (fun c => Str.isLetter c || Str.isDigit c
                        || Str.isUnderscore c) s = true ->
  Str.strip wrappers s = s.
Proof.
  induction s as [|c s IH]; intros H; [reflexivity|].
  cbn [Str.forallb] in H. apply andb_true_iff in H. destruct H as [Hc Hs].
  cbn [Str.strip]. rewrite (name_char_no_wrapper c Hc). now rewrite IH.
Qed.

Lemma strip_name q : NAME_RX q = true -> Str.strip wrappers q = q.
Proof.
  destruct q as [|c q]; [discriminate|]. unfold NAME_RX. intros H.
  apply andb_true_iff in H. destruct H as [Hc Hq].
  change (Str.strip wrappers (String c q))
    with (if existsb (Ascii.eqb c) wrappers then Str.strip wrappers q
          else String c (Str.strip wrappers q)).
  rewrite name_char_no_wrapper.
  - now rewrite strip_name_chars.
  - apply orb_true_iff in Hc. destruct Hc as [Hc|Hc]; rewrite Hc; auto.
    now rewrite !orb_true_r.
Qed.

Lemma strip_printType t :
  NAME_RX (namedTypeOf t) = true ->
  Str.strip wrappers (printType t) = namedTypeOf t.
Proof.
  intros H. rewrite printType_parts, !strip_append, strip_opens,
              strip_closes, strip_name by assumption.
  simpl. apply append_nil_r.
Qed.

Lemma substring_all s : substring 0 (String.length s) s = s.
Proof. induction s; simpl; congruence. Qed.

Lemma substring_after a b :
  substring (String.length a)
            (String.length (a ++ b) - String.length a) (a ++ b) = b.
Proof.
  induction a as [|c a IH]; simpl.
  - rewrite Nat.sub_0_r. apply substring_all.
  - exact IH.
Qed.

Lemma prefix_append a b : prefix a (a ++ b) = true.
Proof. apply prefix_spec. now exists b. Qed.

Lemma replaceFirst_here q by_ rest :
  Str.replaceFirst q by_ (q ++ rest) = by_ ++ rest.
Proof.
  destruct q as [|c q]; simpl.
  - destruct rest; simpl; [reflexivity|].
    now rewrite substring_all.
  - destruct (ascii_dec c c); [|congruence].
    rewrite prefix_append. f_equal. apply (substring_after (String c q)).
Qed.

Lemma replaceFirst_opens q by_ t rest :
  NAME_RX q = true ->
  Str.replaceFirst q by_ (opens t ++ q ++ rest) = opens t ++ by_ ++ rest.
Proof.
  intros H. induction t as [n|t IH|t IH]; simpl; auto.
  - apply replaceFirst_here.
  - destruct q as [|c q]; [discriminate|].
    assert (N : c <> "["%char).
    { unfold NAME_RX in H. apply andb_true_iff in H. destruct H as [Hc _].
      intros ->. discriminate. }
    simpl. destruct (ascii_dec c "["); [contradiction|].
    f_equal. exact IH.
Qed.

(** The text of a type that wraps the type [q], with the first [q]
    replaced, is the text of the same wrappers around the other name. *)
Lemma replaceFirst_printType q by_ t :
  NAME_RX q = true -> namedTypeOf t = q ->
  Str.replaceFirst q by_ (printType t) = printType (withNamedType by_ t).
Proof.
  intros H N. rewrite !printType_parts, opens_withNamedType,
                closes_withNamedType, namedTypeOf_withNamedType, N.
  now apply replaceFirst_opens.
Qed.

(** ** The import of a third-party schema *)

Lemma isImported_name q t : isImported q t = isImportedName q (tcName t).
Proof. reflexivity. Qed.

Lemma tcName_processedFields q t : tcName (processedFields q t) = tcName t.
Proof.
  unfold processedFields.
  assert (R : sameButFields t (resetOverriddenThirdPartyTypeFields t))
    by apply reset_same.
  destruct R as [<- _].
  generalize (TC.getFieldNames (resetOverriddenThirdPartyTypeFields t)).
  intros l. generalize (resetOverriddenThirdPartyTypeFields t).
  induction l as [|n l IH]; intros r; simpl; auto.
  rewrite IH. now destruct (fixPure_same q n r).
Qed.

Lemma tcName_importedAs q t : tcName (importedAs q t) = tcName t.
Proof.
  unfold importedAs. simpl.
  destruct (tcKind t); auto; apply tcName_processedFields.
Qed.

Lemma createdFrom_importedAs q t :
  TC.getExtension "createdFrom" (importedAs q t) = VStr "thirdPartySchema".
Proof.
  unfold importedAs, TC.getExtension, TC.setExtension. simpl.
  now rewrite prop_set.
Qed.

(** What [addThirdPartyType] does with a type. *)
Lemma addThirdPartyType_step q t w :
  isImported q t = false
  \/ fieldsTyped (resetOverriddenThirdPartyTypeFields t) ->
  addThirdPartyType q t w
  = (Ok (if isImported q t then importedAs q t else t), importStep q w t).
Proof.
  intros H. unfold addThirdPartyType, importStep.
  destruct (isImported q t) eqn:I; [|reflexivity].
  destruct H as [H|T]; [discriminate|].
  destruct (@processThirdPartyTypeFields_spec t q T) as [P _].
  assert (E : forall w0,
             (match tcKind t with
              | KObject | KInterface => processThirdPartyTypeFields t q
              | _ => ret t
              end) w0
             = (Ok (match tcKind t with
                    | KObject | KInterface => processedFields q t
                    | _ => t
                    end), w0)).
  { intros w0. destruct (tcKind t); auto. }
  unfold bind at 1. unfold schemaComposer.set at 1.
  unfold bind at 1. rewrite E.
  fold (importedAs q t).
  unfold bind, schemaComposer.set, schemaComposer.addSchemaMustHaveType,
    ret. cbn [registry mustHave directiveDefs reports].
  rewrite tcName_importedAs, set_set_same. reflexivity.
Qed.

Lemma importStep_fold_mustHave q ts : forall w,
  mustHave (fold_left (importStep q) ts w)
  = (mustHave w ++ map tcName (filter (isImported q) ts))%list.
Proof.
  induction ts as [|t ts IH]; intros w; simpl.
  - now rewrite app_nil_r.
  - rewrite IH. unfold importStep.
    destruct (isImported q t); simpl; auto.
    now rewrite <- app_assoc.
Qed.

Lemma importStep_fold_other q ts name : forall w,
  (forall t, In t ts -> isImported q t = true -> tcName t <> name) ->
  Obj.get name (registry (fold_left (importStep q) ts w))
  = Obj.get name (registry w).
Proof.
  induction ts as [|t ts IH]; intros w H; simpl; auto.
  rewrite IH by (intros; apply H; simpl; auto).
  unfold importStep. destruct (isImported q t) eqn:I; auto.
  simpl. apply get_set_ne. apply H; simpl; auto.
Qed.

Lemma importStep_fold_imported q ts t : forall w,
  NoDup (map tcName ts) -> In t ts -> isImported q t = true ->
  Obj.get (tcName t) (registry (fold_left (importStep q) ts w))
  = Some (importedAs q t).
Proof.
  induction ts as [|t0 ts IH]; intros w ND I Imp; simpl; [destruct I|].
  inversion ND as [|? ? N0 ND']; subst.
  destruct I as [->|I].
  - rewrite importStep_fold_other.
    + unfold importStep. rewrite Imp. simpl. apply get_set_eq.
    + intros t' I' _ E. apply N0. rewrite <- E. now apply in_map.
  - now apply IH.
Qed.

Lemma importStep_fold_rest q ts : forall w,
  directiveDefs (fold_left (importStep q) ts w) = directiveDefs w
  /\ reports (fold_left (importStep q) ts w) = reports w.
Proof.
  induction ts as [|t ts IH]; intros w; simpl; auto.
  destruct (IH (importStep q w t)) as [-> ->].
  unfold importStep. now destruct (isImported q t).
Qed.

(** The loop over the type map is the fold of [importStep]. *)
Lemma addThirdPartyTypes_loop q (f : string * TypeComposer -> TypeComposer)
      (entries : list (string * TypeComposer)) : forall done w,
  (forall e, In e entries ->
             isImported q (f e) = false
             \/ fieldsTyped (resetOverriddenThirdPartyTypeFields (f e))) ->
  exists types,
    forEach entries
      (fun entry done =>
         type <- addThirdPartyType q (f entry) ;;
         ret (done ++ [(fst entry, type)])%list) done w
    = (Ok types, fold_left (importStep q) (map f entries) w).
Proof.
  induction entries as [|e entries IH]; intros done w H; simpl.
  - now exists done.
  - unfold bind at 1. unfold bind at 1.
    rewrite addThirdPartyType_step by (apply H; now left).
    unfold ret at 1. apply IH. intros e' I. apply H. now right.
Qed.

Lemma get_in_entries A (o : list (string * A)) k v :
  Obj.get k o = Some v -> In (k, v) (Obj.entries o).
Proof.
  intros G. unfold Obj.entries. apply in_flat_map. exists k. split.
  - apply in_keys. eapply get_Some_in; eauto.
  - rewrite G. now left.
Qed.

Lemma imported_names q (f : string * TypeComposer -> TypeComposer) l :
  (forall e, In e l -> tcName (f e) = fst e) ->
  map tcName (filter (isImported q) (map f l))
  = filter (isImportedName q) (map fst l).
Proof.
  induction l as [|e l IH]; intros H; simpl; auto.
  rewrite isImported_name, (H e) by now left.
  destruct (isImportedName q (fst e)); simpl;
    rewrite IH by (intros; apply H; now right); auto.
  now rewrite (H e) by now left.
Qed.

Lemma isImportedName_self q : isImportedName q q = false.
Proof. unfold isImportedName. now rewrite String.eqb_refl. Qed.

Lemma isImportedName_builtIn q name :
  isImportedName q name
  = negb (String.eqb name q)
    && negb (Str.includes name builtInScalarNames)
    && negb (isIntrospectionType name).
Proof.
  unfold isImportedName, isSpecifiedScalarType, builtInScalarNames,
    Str.includes. cbn [existsb].
  destruct (String.eqb name q), (isIntrospectionType name),
    (String.eqb name "String"), (String.eqb name "Int"),
    (String.eqb name "Float"), (String.eqb name "Boolean"),
    (String.eqb name "ID"), (String.eqb name "Date"),
    (String.eqb name "JSON"); reflexivity.
Qed.

(** C8. Of a third-party schema whose types are under their names and
    have typed fields: the fields of its query type, processed, are added
    to the root query type of the registry; the types that are registered
    and kept are exactly the types of its type map but the query type,
    the specified scalars, the introspection types and the types named
    [Date] and [JSON]; each of them is registered as the record that has
    [thirdPartySchema] for [createdFrom]; and in a field of such a record
    a type that wraps the query type of the schema has become the text of
    the same wrappers around [Query]. *)
Theorem addThirdPartySchema_imports schema w q :
  Obj.get (queryTypeName schema) (typeMap schema) = Some q ->
  wellFormedSchema schema ->
  exists schema' w' query,
    addThirdPartySchema schema w = (Ok schema', w')
    /\ getQuery w = (Ok query, w)
    /\ (isImportedName (tcName q) "Query"
        && Obj.has "Query" (typeMap schema) = false ->
        Obj.get "Query" (registry w')
        = Some (TC.addFields (tcFields (processedFields (tcName q) q))
                             query))
    /\ mustHave w'
       = (mustHave w
          ++ filter (isImportedName (tcName q))
                    (Obj.keys (typeMap schema)))%list
    /\ (forall name,
           isImportedName (tcName q) name
           = negb (String.eqb name (tcName q))
             && negb (Str.includes name builtInScalarNames)
             && negb (isIntrospectionType name))
    /\ (forall name t,
           Obj.get name (typeMap schema) = Some t ->
           isImported (tcName q) t = true ->
           Obj.get name (registry w') = Some (importedAs (tcName q) t)
           /\ TC.getExtension "createdFrom" (importedAs (tcName q) t)
              = VStr "thirdPartySchema"
           /\ (tcKind t = KObject \/ tcKind t = KInterface ->
               forall f, Obj.get f (tcFields (importedAs (tcName q) t))
                         = match Obj.get f (tcFields t) with
                           | Some c =>
                               option_map (fixedField (tcName q))
                                          (resetField c)
                           | None => None
                           end))
    /\ (forall name,
           name <> "Query" ->
           isImportedName (tcName q) name
           && Obj.has name (typeMap schema) = false ->
           Obj.get name (registry w') = Obj.get name (registry w))
    /\ (forall c ty,
           NAME_RX (tcName q) = true ->
           prop "type" c = VType ty -> namedTypeOf ty = tcName q ->
           prop "type" (fixedField (tcName q) c)
           = VStr (printType (withNamedType "Query" ty))
           /\ forall k, k <> "type" ->
                        Obj.get k (fixedField (tcName q) c) = Obj.get k c).
Proof.
  intros G WF. destruct (WF _ _ G) as [Nq Tq].
  destruct (@processThirdPartyTypeFields_spec q (tcName q) Tq)
    as [P [Sq Fq]].
  set (queryTC := processedFields (tcName q) q) in *.
  set (query := match Obj.get "Query" (registry w) with
                | Some tc => tc
                | None => mkTC "Query" KObject [] [] [] false
                end).
  set (w1 := mkWorld (Obj.set "Query"
                        (TC.addFields (tcFields queryTC) query)
                        (registry w))
                     (mustHave w) (directiveDefs w) (reports w)).
  set (f := typeOfEntry schema queryTC).
  set (entries := Obj.entries (typeMap schema)).
  assert (Nf : forall e, In e entries -> tcName (f e) = fst e).
  { intros [n t] I. apply in_entries in I. unfold f, typeOfEntry. simpl.
    destruct (String.eqb n (queryTypeName schema)) eqn:E.
    - apply String.eqb_eq in E. subst n. destruct Sq as [-> _]. exact Nq.
    - now destruct (WF _ _ I). }
  assert (Tf : forall e, In e entries ->
             isImported (tcName q) (f e) = false
             \/ fieldsTyped (resetOverriddenThirdPartyTypeFields (f e))).
  { intros [n t] I. apply in_entries in I. unfold f, typeOfEntry. simpl.
    destruct (String.eqb n (queryTypeName schema)) eqn:E.
    - left. rewrite isImported_name. destruct Sq as [-> _].
      apply isImportedName_self.
    - right. now destruct (WF _ _ I). }
  destruct (@addThirdPartyTypes_loop (tcName q) f entries [] w1 Tf)
    as [types L].
  exists (mkSchema (queryTypeName schema) types),
    (fold_left (importStep (tcName q)) (map f entries) w1), query.
  assert (GQ : getQuery w = (Ok query, w)).
  { unfold getQuery, query. now destruct (Obj.get "Query" (registry w)). }
  assert (ND : NoDup (map tcName (map f entries))).
  { rewrite map_map.
    rewrite (map_ext_in _ fst) by exact Nf. apply NoDup_entries. }
  assert (Other : forall name,
             isImportedName (tcName q) name
             && Obj.has name (typeMap schema) = false ->
             forall t, In t (map f entries) ->
                       isImported (tcName q) t = true -> tcName t <> name).
  { intros name H t I Imp E. apply in_map_iff in I.
    destruct I as [e [<- I]]. rewrite isImported_name, E in Imp.
    rewrite Imp in H. simpl in H. rewrite Nf in E by assumption.
    assert (X : Obj.has name (typeMap schema) = true).
    { apply has_in. rewrite <- E. apply in_keys.
      rewrite <- map_fst_entries. now apply in_map. }
    congruence. }
  split; [|split; [exact GQ|split; [|split; [|split; [|split; [|split]]]]]].
  - unfold addThirdPartySchema. rewrite G. unfold bind at 1.
    rewrite P. unfold bind at 1. rewrite GQ.
    unfold bind at 1. unfold schemaComposer.set at 1.
    unfold f, entries, w1 in *. unfold bind at 1. rewrite L. reflexivity.
  - intros H. rewrite importStep_fold_other by (apply Other; exact H).
    simpl. apply get_set_eq.
  - rewrite importStep_fold_mustHave. simpl. f_equal.
    rewrite imported_names by exact Nf.
    unfold entries. now rewrite map_fst_entries.
  - intros name. apply isImportedName_builtIn.
  - intros name t Gt Imp. destruct (WF _ _ Gt) as [Nt Tt].
    split; [|split].
    + assert (E : f (name, t) = t).
      { unfold f, typeOfEntry. simpl.
        destruct (String.eqb name (queryTypeName schema)) eqn:E; auto.
        apply String.eqb_eq in E. rewrite isImported_name in Imp.
        rewrite Nt, E, <- Nq, isImportedName_self in Imp. discriminate. }
      rewrite <- Nt. apply importStep_fold_imported; auto.
      rewrite <- E. apply in_map. now apply get_in_entries.
    + apply createdFrom_importedAs.
    + intros K g.
      destruct (@processThirdPartyTypeFields_spec t (tcName q) Tt)
        as [_ [_ Ft]].
      unfold importedAs. simpl. destruct K as [K|K]; rewrite K; apply Ft.
  - intros name N H. rewrite importStep_fold_other by (apply Other; exact H).
    simpl. apply get_set_ne. congruence.
  - intros c ty V Ety Nty. unfold fixedField. rewrite Ety. simpl.
    rewrite strip_printType by (rewrite Nty; exact V).
    rewrite Nty, String.eqb_refl.
    rewrite replaceFirst_printType by assumption.
    split.
    + unfold prop. rewrite get_spread. reflexivity.
    + intros k N. rewrite get_spread. cbn [Obj.get].
      now rewrite (eqb_neq_false (not_eq_sym N)).
Qed.

Lemma get_In A k (v : A) o : Obj.get k o = Some v -> In (k, v) o.
Proof.
  induction o as [|[k1 v1] o IH]; simpl; [discriminate|].
  destruct (String.eqb k1 k) eqn:E.
  - apply String.eqb_eq in E. intros H. inversion H; subst. now left.
  - intros H. right. now apply IH.
Qed.

Lemma fieldsTypedb_sound tc : fieldsTypedb tc = true -> fieldsTyped tc.
Proof.
  unfold fieldsTypedb, fieldsTyped. rewrite forallb_forall.
  intros H f c G. apply get_In in G. specialize (H _ G). simpl in H.
  destruct (toStringJS (prop "type" c)); [discriminate|discriminate].
Qed.

Lemma wellFormedSchemab_sound schema :
  wellFormedSchemab schema = true -> wellFormedSchema schema.
Proof.
  unfold wellFormedSchemab, wellFormedSchema. rewrite forallb_forall.
  intros H name t G. apply get_In in G. specialize (H _ G). simpl in H.
  apply andb_true_iff in H. destruct H as [N T]. split.
  - now apply String.eqb_eq.
  - now apply fieldsTypedb_sound.
Qed.

(** ** [createResolvers] *)

Lemma overrideTypeName_pure fieldConfig w :
  overrideTypeName fieldConfig w
  = (fst (overrideTypeName fieldConfig emptyWorld), w).
Proof.
  unfold overrideTypeName. destruct (truthy _); [|reflexivity].
  destruct (match prop "type" fieldConfig with
            | VArr arr => stringifyArray arr
            | _ => toStringJS (prop "type" fieldConfig)
            end); reflexivity.
Qed.







Lemma getFieldExtensions_setFieldExtensions f e tc :
  TC.getFieldExtensions f (TC.setFieldExtensions f e tc) = e.
Proof.
  unfold TC.getFieldExtensions, TC.setFieldExtensions.
  rewrite getField_setField, String.eqb_refl.
  unfold prop. now rewrite get_set_eq.
Qed.



Lemma fields_setField_other f g c tc :
  g <> f ->
  Obj.get g (tcFields (TC.setField f c tc)) = Obj.get g (tcFields tc).
Proof. intros N. simpl. apply get_set_ne. congruence. Qed.











(** ** Importing a schema again *)

Lemma addThirdPartySchema_run schema w q :
  Obj.get (queryTypeName schema) (typeMap schema) = Some q ->
  wellFormedSchema schema ->
  exists types,
    addThirdPartySchema schema w
    = (Ok (mkSchema (queryTypeName schema) types),
       importedWorld schema q w).
Proof.
  intros G WF. destruct (WF _ _ G) as [Nq Tq].
  destruct (@processThirdPartyTypeFields_spec q (tcName q) Tq)
    as [P [Sq _]].
  assert (Tf : forall e, In e (Obj.entries (typeMap schema)) ->
             isImported (tcName q)
               (typeOfEntry schema (processedFields (tcName q) q) e)
             = false
             \/ fieldsTyped
                  (resetOverriddenThirdPartyTypeFields
                     (typeOfEntry schema
                        (processedFields (tcName q) q) e))).
  { intros [n t] I. apply in_entries in I. unfold typeOfEntry. simpl.
    destruct (String.eqb n (queryTypeName schema)) eqn:E.
    - left. rewrite isImported_name. destruct Sq as [-> _].
      apply isImportedName_self.
    - right. now destruct (WF _ _ I). }
  destruct (@addThirdPartyTypes_loop (tcName q)
              (typeOfEntry schema (processedFields (tcName q) q))
              (Obj.entries (typeMap schema)) []
              (mkWorld
                 (Obj.set "Query"
                    (TC.addFields
                       (tcFields (processedFields (tcName q) q))
                       (match Obj.get "Query" (registry w) with
                        | Some tc => tc
                        | None => mkTC "Query" KObject [] [] [] false
                        end))
                    (registry w))
                 (mustHave w) (directiveDefs w) (reports w)) Tf)
    as [types L].
  exists types.
  unfold addThirdPartySchema. rewrite G. unfold bind at 1.
  rewrite P. unfold bind at 1. unfold getQuery at 1.
  unfold importedWorld. cbv zeta.
  destruct (Obj.get "Query" (registry w)) as [tc|];
    unfold bind at 1; unfold schemaComposer.set at 1;
    unfold bind at 1; rewrite L; reflexivity.
Qed.

Lemma typeOfEntry_name schema q e :
  Obj.get (queryTypeName schema) (typeMap schema) = Some q ->
  wellFormedSchema schema ->
  In e (Obj.entries (typeMap schema)) ->
  tcName (typeOfEntry schema (processedFields (tcName q) q) e) = fst e.
Proof.
  intros G WF I. destruct (WF _ _ G) as [Nq _].
  destruct e as [n t]. apply in_entries in I. unfold typeOfEntry. simpl.
  destruct (String.eqb n (queryTypeName schema)) eqn:E.
  - apply String.eqb_eq in E. subst n.
    now rewrite tcName_processedFields.
  - now destruct (WF _ _ I).
Qed.

Lemma importedWorld_mustHave schema q w :
  Obj.get (queryTypeName schema) (typeMap schema) = Some q ->
  wellFormedSchema schema ->
  mustHave (importedWorld schema q w)
  = (mustHave w
     ++ filter (isImportedName (queryTypeName schema))
               (Obj.keys (typeMap schema)))%list.
Proof.
  intros G WF. destruct (WF _ _ G) as [Nq _].
  unfold importedWorld. cbv zeta.
  rewrite importStep_fold_mustHave. simpl. f_equal.
  rewrite imported_names
    by (intros e I; now apply typeOfEntry_name).
  now rewrite map_fst_entries, Nq.
Qed.

Lemma importStep_fold_has q ts name : forall w,
  Obj.has name (registry (fold_left (importStep q) ts w))
  = Str.includes name (map tcName (filter (isImported q) ts))
    || Obj.has name (registry w).
Proof.
  induction ts as [|t ts IH]; intros w; simpl; auto.
  rewrite IH. unfold importStep.
  destruct (isImported q t); simpl; auto.
  rewrite has_set. rewrite (String.eqb_sym (tcName t) name).
  now rewrite orb_assoc, (orb_comm (Str.includes _ _)).
Qed.

Lemma importedWorld_has schema q w name :
  Obj.get (queryTypeName schema) (typeMap schema) = Some q ->
  wellFormedSchema schema ->
  Obj.has name (registry (importedWorld schema q w))
  = Str.includes name
      (filter (isImportedName (queryTypeName schema))
              (Obj.keys (typeMap schema)))
    || (String.eqb "Query" name || Obj.has name (registry w)).
Proof.
  intros G WF. destruct (WF _ _ G) as [Nq _].
  unfold importedWorld. cbv zeta.
  rewrite importStep_fold_has. cbn [registry]. rewrite has_set.
  rewrite imported_names
    by (intros e I; now apply typeOfEntry_name).
  now rewrite map_fst_entries, Nq.
Qed.





Lemma overrideField_name typeName entry tc w tc' w' :
  overrideField typeName entry tc w = (Ok tc', w') ->
  sameButFields tc tc'.
Proof.
  destruct entry as [fieldName fieldConfig].
  unfold overrideField. cbv zeta. cbn [fst snd].
  destruct (TC.hasField fieldName tc).
  - destruct (TC.typeText _) as [originalTypeName|]; [|discriminate].
    unfold bind at 1. rewrite overrideTypeName_pure.
    destruct (fst (overrideTypeName fieldConfig emptyWorld))
      as [fieldTypeName| |]; try discriminate.
    destruct (overrideAccepted _ _ _).
    + destruct (isStr "thirdPartySchema" _); intros E; inversion E;
        destruct (truthy (prop "resolve" fieldConfig));
        repeat split.
    + destruct fieldTypeName as [s|].
      * destruct (negb (String.eqb s "")); intros E; inversion E;
          repeat split.
      * intros E; inversion E; repeat split.
  - intros E. inversion E. repeat split.
Qed.






(** ** Convenience children fields *)

(** *** [_.groupBy] and [_.maxBy] *)

Lemma in_map_fst_set A k (v : A) o x :
  In x (map fst (Obj.set k v o)) <-> x = k \/ In x (map fst o).
Proof.
  induction o as [|[k' v'] o IH]; simpl.
  - split; [intros [H|[]]; auto | intros [H|[]]; auto].
  - destruct (String.eqb k' k) eqn:E; simpl.
    + apply String.eqb_eq in E. subst k'.
      split; [intros [H|H]; auto | intros [H|[H|H]]; auto].
    + rewrite IH. split; [intros [H|[H|H]]; auto | intros [H|[H|H]]; auto].
Qed.

Lemma NoDup_map_fst_set A k (v : A) o :
  NoDup (map fst o) -> NoDup (map fst (Obj.set k v o)).
Proof.
  induction o as [|[k' v'] o IH]; simpl; intros ND.
  - constructor; [intros []|constructor].
  - inversion ND as [|? ? N ND']; subst.
    destruct (String.eqb k' k) eqn:E; simpl.
    + apply String.eqb_eq in E. subst. now constructor.
    + constructor; [|now apply IH].
      rewrite in_map_fst_set. intros [H|H]; [|contradiction].
      subst k'. now rewrite String.eqb_refl in E.
Qed.

Lemma groupBy_fold_get A (iteratee : A -> string) k (l : list A) :
  forall groups,
    Obj.get k (fold_left (groupStep iteratee) l groups)
    = match Obj.get k groups,
            filter (fun x => String.eqb (iteratee x) k) l with
      | None, [] => None
      | None, g => Some g
      | Some g0, g => Some (g0 ++ g)%list
      end.
Proof.
  induction l as [|x l IH]; intros groups; simpl.
  - destruct (Obj.get k groups); [now rewrite app_nil_r | reflexivity].
  - rewrite IH. unfold groupStep.
    destruct (String.eqb (iteratee x) k) eqn:E.
    + apply String.eqb_eq in E. rewrite E.
      destruct (Obj.get k groups) as [g0|]; rewrite get_set_eq.
      * now rewrite <- app_assoc.
      * reflexivity.
    + apply String.eqb_neq in E.
      destruct (Obj.get (iteratee x) groups);
        rewrite get_set_ne by exact E; reflexivity.
Qed.

Lemma groupBy_fold_NoDup A (iteratee : A -> string) (l : list A) :
  forall groups,
    NoDup (map fst groups) ->
    NoDup (map fst (fold_left (groupStep iteratee) l groups)).
Proof.
  induction l as [|x l IH]; intros groups ND; simpl; auto.
  apply IH. unfold groupStep.
  destruct (Obj.get (iteratee x) groups); now apply NoDup_map_fst_set.
Qed.

(** The group of a key is the elements of that key, in their order. *)
Lemma groupBy_get A (iteratee : A -> string) (l : list A) k :
  Obj.get k (groupBy iteratee l)
  = match filter (fun x => String.eqb (iteratee x) k) l with
    | [] => None
    | g => Some g
    end.
Proof. unfold groupBy. apply (groupBy_fold_get iteratee k l []). Qed.

Lemma groupBy_NoDup A (iteratee : A -> string) (l : list A) :
  NoDup (map fst (groupBy iteratee l)).
Proof. unfold groupBy. apply groupBy_fold_NoDup. constructor. Qed.

Lemma get_of_In_NoDup A k (v : A) o :
  NoDup (map fst o) -> In (k, v) o -> Obj.get k o = Some v.
Proof.
  induction o as [|[k' v'] o IH]; simpl; intros ND I; [destruct I|].
  inversion ND as [|? ? N ND']; subst.
  destruct I as [E|I].
  - inversion E; subst. now rewrite String.eqb_refl.
  - destruct (String.eqb k' k) eqn:E.
    + apply String.eqb_eq in E. subst k'. exfalso. apply N.
      apply in_map_iff. now exists (k, v).
    + now apply IH.
Qed.

Lemma groupBy_In A (iteratee : A -> string) (l : list A) k g :
  In (k, g) (groupBy iteratee l)
  <-> g = filter (fun x => String.eqb (iteratee x) k) l /\ g <> [].
Proof.
  split.
  - intros I. apply get_of_In_NoDup in I; [|apply groupBy_NoDup].
    rewrite groupBy_get in I.
    destruct (filter _ l) eqn:F; [discriminate|].
    inversion I; subst. split; [reflexivity|discriminate].
  - intros [-> N]. apply get_In. rewrite groupBy_get.
    destruct (filter _ l); [contradiction|reflexivity].
Qed.








Lemma filter_ext_in' A (f g : A -> bool) l :
  (forall x, In x l -> f x = g x) -> filter f l = filter g l.
Proof.
  induction l as [|x l IH]; simpl; intros H; auto.
  rewrite (H x) by now left.
  rewrite IH by (intros; apply H; now right). reflexivity.
Qed.



(** *** The groups of the children *)



(** *** The loop over the child types *)












Lemma distinct_NoDup l : distinct l = true -> NoDup l.
Proof.
  induction l as [|x l IH]; simpl; intros H; [constructor|].
  apply andb_true_iff in H. destruct H as [N D].
  constructor; [|now apply IH].
  intros I. apply includes_In in I. rewrite I in N. discriminate.
Qed.



(** * Further properties *)

(** ** [checkIsAllowedTypeName] *)

Lemma invariant_true message w : invariant true message w = (Ok tt, w).
Proof. reflexivity. Qed.

Lemma prefix_length p s :
  prefix p s = true -> (String.length p <= String.length s)%nat.
Proof.
  intros H. apply prefix_spec in H. destruct H as [t ->].
  induction p as [|c p IH]; simpl; lia.
Qed.

Lemma checkIsAllowedTypeName_allowed name w :
  allowedTypeName name -> checkIsAllowedTypeName name w = (Ok tt, w).
Proof.
  intros [R U]. unfold checkIsAllowedTypeName.
  assert (N : String.eqb name "Node" = false).
  { apply String.eqb_neq. intros E. apply R. now left. }
  assert (F : Str.endsWith "FilterInput" name = false).
  { destruct (Str.endsWith "FilterInput" name) eqn:E; auto.
    apply endsWith_spec in E. exfalso. apply R. right. now left. }
  assert (S : Str.endsWith "SortInput" name = false).
  { destruct (Str.endsWith "SortInput" name) eqn:E; auto.
    apply endsWith_spec in E. exfalso. apply R. right. right. now left. }
  assert (B : Str.includes name builtInScalarNames = false).
  { destruct (Str.includes name builtInScalarNames) eqn:E; auto.
    apply includes_In in E. exfalso. apply R. right. right. right.
    now left. }
  assert (X : NAME_RX name = true).
  { destruct (NAME_RX name) eqn:E; auto. exfalso. apply R.
    right. right. right. now right. }
  rewrite N, F, S, B. simpl negb. simpl andb.
  unfold bind. rewrite !invariant_true.
  unfold assertValidName. rewrite U, X, andb_false_r. reflexivity.
Qed.

Lemma checkIsAllowedTypeName_outcome name w :
  (checkIsAllowedTypeName name w = (Ok tt, w) <-> allowedTypeName name)
  /\ (~ allowedTypeName name ->
      exists msg, checkIsAllowedTypeName name w = (Throw msg, w)).
Proof.
  assert (T : ~ allowedTypeName name ->
              exists msg, checkIsAllowedTypeName name w = (Throw msg, w)).
  { intros NA.
    assert (D : reservedTypeName name \/ ~ reservedTypeName name).
    { unfold reservedTypeName.
      destruct (string_dec name "Node") as [E|N1]; [now left; left|].
      destruct (Str.endsWith "FilterInput" name) eqn:F.
      { left. right. left. now apply endsWith_spec. }
      destruct (Str.endsWith "SortInput" name) eqn:S.
      { left. right. right. left. now apply endsWith_spec. }
      destruct (Str.includes name builtInScalarNames) eqn:B.
      { left. right. right. right. left. now apply includes_In. }
      destruct (NAME_RX name) eqn:X;
        [|left; right; right; right; now right].
      right. intros [H|[H|[H|[H|H]]]]; try congruence.
      - apply endsWith_spec in H. congruence.
      - apply endsWith_spec in H. congruence.
      - apply includes_In in H. congruence. }
    destruct D as [R|R].
    - destruct (@checkIsAllowedTypeName_rejects name w R) as [msg [E _]].
      now exists msg.
    - assert (U : prefix "__" name = true).
      { destruct (prefix "__" name) eqn:U; auto.
        exfalso. apply NA. now split. }
      exists (doubleUnderscoreMessage name).
      unfold checkIsAllowedTypeName.
      assert (N : String.eqb name "Node" = false).
      { apply String.eqb_neq. intros E. apply R. now left. }
      assert (F : Str.endsWith "FilterInput" name = false).
      { destruct (Str.endsWith "FilterInput" name) eqn:E; auto.
        apply endsWith_spec in E. exfalso. apply R. right. now left. }
      assert (S : Str.endsWith "SortInput" name = false).
      { destruct (Str.endsWith "SortInput" name) eqn:E; auto.
        apply endsWith_spec in E. exfalso. apply R. right. right.
        now left. }
      assert (B : Str.includes name builtInScalarNames = false).
      { destruct (Str.includes name builtInScalarNames) eqn:E; auto.
        apply includes_In in E. exfalso. apply R. right. right. right.
        now left. }
      rewrite N, F, S, B. simpl negb. simpl andb.
      unfold bind. rewrite !invariant_true.
      unfold assertValidName. rewrite U.
      pose proof (prefix_length _ _ U) as L. simpl in L.
      assert (L1 : (1 <? String.length name)%nat = true)
        by (apply Nat.ltb_lt; lia).
      now rewrite L1. }
  split; [|exact T].
  split; [|apply checkIsAllowedTypeName_allowed].
  intros E.
  assert (D : allowedTypeName name \/ ~ allowedTypeName name).
  { unfold allowedTypeName.
    destruct (prefix "__" name); [right; intros [_ H]; discriminate|].
    destruct (string_dec name "Node") as [E1|N1].
    { right. intros [H _]. apply H. now left. }
    destruct (Str.endsWith "FilterInput" name) eqn:F.
    { right. intros [H _]. apply H. right. left.
      now apply endsWith_spec. }
    destruct (Str.endsWith "SortInput" name) eqn:S.
    { right. intros [H _]. apply H. right. right. left.
      now apply endsWith_spec. }
    destruct (Str.includes name builtInScalarNames) eqn:B.
    { right. intros [H _]. apply H. right. right. right. left.
      now apply includes_In. }
    destruct (NAME_RX name) eqn:X.
    - left. split; [|reflexivity].
      intros [H|[H|[H|[H|H]]]]; try congruence.
      + apply endsWith_spec in H. congruence.
      + apply endsWith_spec in H. congruence.
      + apply includes_In in H. congruence.
    - right. intros [H _]. apply H. right. right. right. now right. }
  destruct D as [A|NA]; [exact A|].
  destruct (T NA) as [msg E']. congruence.
Qed.

Lemma allowed_by_check name :
  checkIsAllowedTypeName name emptyWorld = (Ok tt, emptyWorld) ->
  allowedTypeName name.
Proof. apply checkIsAllowedTypeName_outcome. Qed.

(** X1. The name check returns exactly for the names that are not [Node],
    do not end in [FilterInput] or [SortInput], are no built-in scalar
    name, match the name pattern and do not begin with two underscores.
    For every other name it throws; it never ends the build by itself
    and never touches the registry or the reports. *)
Theorem checkIsAllowedTypeName_returns_iff name w :
  (checkIsAllowedTypeName name w = (Ok tt, w) <-> allowedTypeName name)
  /\ (~ allowedTypeName name ->
      exists msg, checkIsAllowedTypeName name w = (Throw msg, w)).
Proof. apply checkIsAllowedTypeName_outcome. Qed.

(** ** [validate] *)

Lemma validate_items ofType items :
  (forall v, In v items ->
             (validate ofType v = None <-> conforms ofType v)) ->
  (validate (GraphQLList ofType) (VArr items) = None
   <-> Forall (conforms ofType) items).
Proof.
  induction items as [|v items IH]; intros H; simpl.
  - split; [constructor|reflexivity].
  - destruct (validate ofType v) eqn:E.
    + split; [discriminate|]. intros F. inversion F; subst.
      apply (H v (or_introl eq_refl)) in H2. congruence.
    + simpl in IH. rewrite IH by (intros; apply H; now right).
      split.
      * intros F. constructor; [|exact F].
        now apply (H v (or_introl eq_refl)).
      * intros F. now inversion F.
Qed.

Lemma validate_conforms type : forall value,
  validate type value = None <-> conforms type value.
Proof.
  induction type as [n|ofType IH|ofType IH]; intros value.
  - reflexivity.
  - destruct value;
      try (simpl; split; [discriminate | intros [items [E _]]; discriminate]).
    rewrite validate_items by (intros; apply IH).
    simpl. split.
    + intros F. now exists items.
    + intros [items' [E F]]. now inversion E; subst.
  - simpl. destruct (isNullish value).
    + split; [discriminate | intros [E _]; discriminate].
    + rewrite IH. split; [now split | now intros [_ C]].
Qed.

Lemma validate_first_failure ofType good bad rest message :
  Forall (conforms ofType) good ->
  validate ofType bad = Some message ->
  validate (GraphQLList ofType) (VArr (good ++ bad :: rest))
  = Some message.
Proof.
  intros G B. induction G as [|v good C G IH]; simpl.
  - now rewrite B.
  - apply validate_conforms in C. rewrite C. exact IH.
Qed.

(** X2. [validate] accepts a value exactly when it has the shape of the
    type: under a non-null type it is neither [null] nor [undefined],
    under a list type it is an array of accepted items, under a named
    type the scalar parses it.  A list type refuses [null] and
    [undefined] even without a non-null wrapper, and of an array it
    reports the error of the first item it refuses. *)
Theorem validate_accepts_the_shape type value :
  (validate type value = None <-> conforms type value)
  /\ (forall ofType,
         validate (GraphQLList ofType) VNull
         = Some "Expected array field value."
         /\ validate (GraphQLList ofType) VUndefined
            = Some "Expected array field value.")
  /\ (forall ofType good bad rest message,
         Forall (conforms ofType) good ->
         validate ofType bad = Some message ->
         validate (GraphQLList ofType) (VArr (good ++ bad :: rest))
         = Some message).
Proof.
  split; [apply validate_conforms|]. split.
  - intros ofType. split; reflexivity.
  - apply validate_first_failure.
Qed.

(** ** [backfillDefaults] *)

Lemma backfillDefaults_prop defs arg : forall args,
  prop arg (backfillDefaults defs args)
  = if isUndefined (prop arg args) then declaredDefault defs arg
    else prop arg args.
Proof.
  unfold backfillDefaults, declaredDefault.
  induction defs as [|d defs IH]; intros args; simpl.
  - destruct (prop arg args); reflexivity.
  - rewrite IH. clear IH.
    destruct (string_dec (argName d) arg) as [E|E].
    + rewrite E, String.eqb_refl.
      destruct (prop arg args) eqn:P; destruct (argDefault d) eqn:D;
        simpl; rewrite ?prop_set, ?String.eqb_refl, ?P, ?D; simpl;
        rewrite ?D; reflexivity.
    + rewrite (eqb_neq_false E). simpl.
      assert (X : forall v, prop arg (Obj.set (argName d) v args)
                            = prop arg args).
      { intros v. now rewrite prop_set, (eqb_neq_false E). }
      destruct (prop (argName d) args); simpl; auto;
        destruct (argDefault d); simpl; rewrite ?X; auto.
Qed.

(** X3. Filling in the defaults of a directive definition never replaces
    an argument that is given, whatever its value but [undefined]; an
    argument that is missing or [undefined] gets the first default that
    is declared for it, and stays [undefined] where none is. *)
Theorem backfillDefaults_fills_only_missing defs args arg :
  (isUndefined (prop arg args) = false ->
   prop arg (backfillDefaults defs args) = prop arg args)
  /\ (isUndefined (prop arg args) = true ->
      prop arg (backfillDefaults defs args) = declaredDefault defs arg)
  /\ (isUndefined (prop arg args) = true ->
      (forall d, In d defs -> argName d = arg ->
                 argDefault d = VUndefined) ->
      prop arg (backfillDefaults defs args) = VUndefined).
Proof.
  rewrite backfillDefaults_prop. split; [|split].
  - now intros ->.
  - now intros ->.
  - intros -> H. unfold declaredDefault.
    destruct (find _ defs) as [d|] eqn:F; [|reflexivity].
    apply find_some in F. destruct F as [I F].
    apply andb_true_iff in F. destruct F as [N U].
    apply String.eqb_eq in N. rewrite (H d I N) in U. discriminate.
Qed.

(** ** [checkQueryableInterfaces] *)

(** X4. The check of the queryable interfaces passes exactly when no
    object type of the registry implements a queryable interface without
    implementing [Node]; whether it passes or ends the build, it leaves
    the registry and the reports as they are, and it never throws. *)
Theorem checkQueryableInterfaces_passes_iff w :
  (checkQueryableInterfaces w = (Ok tt, w)
   <-> forall t, ~ violatesNodeCapability (map snd (registry w)) t)
  /\ (checkQueryableInterfaces w = (Ok tt, w)
      \/ exists msg, checkQueryableInterfaces w = (Panic msg, w)).
Proof.
  assert (D : checkQueryableInterfaces w = (Ok tt, w)
              \/ exists n l,
                  incorrectTypes (map snd (registry w)) = n :: l
                  /\ checkQueryableInterfaces w
                     = (Panic (queryableInterfacesMessage (n :: l)), w)).
  { unfold checkQueryableInterfaces, bind, getWorld.
    destruct (incorrectTypes (map snd (registry w))) as [|n l];
      [now left|].
    right. now exists n, l. }
  split.
  - split.
    + intros E t V. destruct D as [_|[n [l [I P]]]].
      * assert (X : In (tcName t)
                      (incorrectTypes (map snd (registry w)))).
        { apply incorrectTypes_spec. eauto. }
        unfold checkQueryableInterfaces, bind, getWorld in E.
        destruct (incorrectTypes (map snd (registry w)));
          [destruct X | discriminate E].
      * congruence.
    + apply checkQueryableInterfaces_passes.
  - destruct D as [E|[n [l [_ P]]]]; [now left|].
    right. eexists. exact P.
Qed.

(** ** [createResolvers] on types the registry does not have *)

Lemma createResolvers_unknown_loop ignoreNonexistentTypes
      (entries : list (string * list (string * JSObj))) : forall w,
  (forall e, In e entries -> Obj.has (fst e) (registry w) = false) ->
  forEach_ entries
    (fun entry =>
       let typeName := fst entry in
       let fields := snd entry in
       known <- schemaComposer.has typeName ;;
       if known then
         tc <- schemaComposer.getOTC typeName ;;
         forEach (Obj.entries fields)
           (fun entry tc =>
              tc <- overrideField typeName entry tc ;;
              schemaComposer.set typeName tc ;;;
              ret tc) tc ;;;
         ret tt
       else if negb ignoreNonexistentTypes then
         report.warn (unknownTypeMessage typeName)
       else ret tt) w
  = (Ok tt,
     mkWorld (registry w) (mustHave w) (directiveDefs w)
             (reports w
              ++ if ignoreNonexistentTypes then []
                 else map (fun e => Warn (unknownTypeMessage (fst e)))
                          entries)).
Proof.
  induction entries as [|e entries IH]; intros w H; simpl.
  - destruct w. simpl.
    destruct ignoreNonexistentTypes; now rewrite app_nil_r.
  - unfold bind at 1. unfold bind at 1. unfold schemaComposer.has at 1.
    rewrite (H e (or_introl eq_refl)).
    destruct ignoreNonexistentTypes; simpl.
    + unfold ret at 1. apply IH. intros. apply H. now right.
    + unfold report.warn, addReport. rewrite IH.
      * simpl. now rewrite <- app_assoc.
      * simpl. intros. apply H. now right.
Qed.

(** X5. [createResolvers] given only types the registry does not have
    changes no type and returns: unless [ignoreNonexistentTypes] is set
    it warns once for each of the types, in their order, and with the
    option set it does nothing at all. *)
Theorem createResolvers_unknown_types resolvers ignoreNonexistentTypes w :
  (forall typeName, In typeName (Obj.keys resolvers) ->
                    Obj.has typeName (registry w) = false) ->
  createResolvers resolvers ignoreNonexistentTypes w
  = (Ok tt,
     mkWorld (registry w) (mustHave w) (directiveDefs w)
             (reports w
              ++ if ignoreNonexistentTypes then []
                 else map (fun typeName =>
                             Warn (unknownTypeMessage typeName))
                          (Obj.keys resolvers))).
Proof.
  intros H. unfold createResolvers.
  rewrite createResolvers_unknown_loop.
  - rewrite <- map_fst_entries, map_map. reflexivity.
  - intros e I. apply H. rewrite <- map_fst_entries. now apply in_map.
Qed.

(** ** What [createResolvers] leaves alone *)

Lemma sameButFields_refl tc : sameButFields tc tc.
Proof. repeat split. Qed.

Lemma sameTypesButFields_refl names w : sameTypesButFields names w w.
Proof.
  repeat split. intros name tc G. exists tc.
  split; [exact G|]. split; [apply sameButFields_refl | reflexivity].
Qed.

Lemma sameTypesButFields_trans names a b c :
  sameTypesButFields names a b -> sameTypesButFields names b c ->
  sameTypesButFields names a c.
Proof.
  intros [A1 [A2 [A3 A4]]] [B1 [B2 [B3 B4]]].
  split; [congruence|]. split; [congruence|]. split; [congruence|].
  intros name tc G. destruct (A4 name tc G) as [tc1 [G1 [S1 U1]]].
  destruct (B4 name tc1 G1) as [tc2 [G2 [S2 U2]]].
  exists tc2. split; [exact G2|].
  split; [eapply sameButFields_trans; eauto|].
  intros H. pose proof (U1 H) as E1. subst tc1. now apply U2.
Qed.

Lemma sameTypesButFields_reports names w w' :
  sameButReports w w' -> sameTypesButFields names w w'.
Proof.
  intros [R [M D]]. split; [now rewrite R|]. split; [exact M|].
  split; [exact D|]. intros name tc G. exists tc. rewrite R.
  split; [exact G|]. split; [apply sameButFields_refl | reflexivity].
Qed.

Lemma overrideField_world typeName entry tc w :
  sameButReports w (snd (overrideField typeName entry tc w)).
Proof.
  destruct entry as [fieldName fieldConfig].
  unfold overrideField. cbv zeta. cbn [fst snd].
  destruct (TC.hasField fieldName tc); [|apply sameButReports_refl].
  destruct (TC.typeText _) as [originalTypeName|];
    [|apply sameButReports_refl].
  unfold bind at 1. rewrite overrideTypeName_pure.
  destruct (fst (overrideTypeName fieldConfig emptyWorld))
    as [fieldTypeName| |]; try apply sameButReports_refl.
  destruct (overrideAccepted _ _ _).
  - destruct (isStr "thirdPartySchema" _); apply sameButReports_refl.
  - destruct fieldTypeName as [s|]; [|apply sameButReports_refl].
    destruct (negb (String.eqb s "")); repeat split.
Qed.

Lemma sameTypesButFields_set names typeName tc tc' w :
  Obj.get typeName (registry w) = Some tc ->
  tcKind tc = KObject -> In typeName names ->
  sameButFields tc tc' ->
  sameTypesButFields names w
    (mkWorld (Obj.set typeName tc' (registry w)) (mustHave w)
             (directiveDefs w) (reports w)).
Proof.
  intros G K I S. split; [|split; [reflexivity|split; [reflexivity|]]].
  - cbn [registry]. apply map_fst_set_has.
    unfold Obj.has. now rewrite G.
  - intros name t Gt. cbn [registry]. rewrite get_set.
    destruct (String.eqb typeName name) eqn:E.
    + apply String.eqb_eq in E. subst name.
      assert (t = tc) by congruence. subst t.
      exists tc'. split; [reflexivity|]. split; [exact S|].
      intros [H|H]; contradiction.
    + exists t. split; [exact Gt|].
      split; [apply sameButFields_refl | reflexivity].
Qed.

Lemma overrideFields_through names typeName entries :
  In typeName names ->
  forall tc w,
    Obj.get typeName (registry w) = Some tc ->
    tcKind tc = KObject ->
    sameTypesButFields names w
      (snd (forEach entries
              (fun entry tc =>
                 tc <- overrideField typeName entry tc ;;
                 schemaComposer.set typeName tc ;;;
                 ret tc) tc w)).
Proof.
  intros I. induction entries as [|e entries IH]; intros tc w G K.
  - apply sameTypesButFields_refl.
  - cbn [forEach]. unfold bind at 1. unfold bind at 1.
    pose proof (overrideField_world typeName e tc w) as W.
    destruct (overrideField typeName e tc w) as [[tc1|m|m] w1] eqn:E;
      simpl in W;
      try (cbn [snd]; now apply sameTypesButFields_reports).
    pose proof (overrideField_name _ _ _ _ E) as S.
    unfold bind at 1. unfold schemaComposer.set at 1. unfold ret at 1.
    set (w2 := mkWorld (Obj.set typeName tc1 (registry w1)) (mustHave w1)
                       (directiveDefs w1) (reports w1)).
    assert (G1 : Obj.get typeName (registry w1) = Some tc)
      by (destruct W as [R _]; now rewrite R).
    assert (T2 : sameTypesButFields names w w2).
    { eapply sameTypesButFields_trans.
      - apply sameTypesButFields_reports. exact W.
      - now apply sameTypesButFields_set with (tc := tc). }
    eapply sameTypesButFields_trans; [exact T2|].
    apply IH.
    + unfold w2. cbn [registry]. apply get_set_eq.
    + destruct S as [_ [Sk _]]. congruence.
Qed.

Lemma createResolvers_step names ignoreNonexistentTypes
      (entry : string * list (string * JSObj)) w :
  In (fst entry) names ->
  sameTypesButFields names w
    (snd ((known <- schemaComposer.has (fst entry) ;;
           if known then
             tc <- schemaComposer.getOTC (fst entry) ;;
             forEach (Obj.entries (snd entry))
               (fun entry0 tc =>
                  tc <- overrideField (fst entry) entry0 tc ;;
                  schemaComposer.set (fst entry) tc ;;;
                  ret tc) tc ;;;
             ret tt
           else if negb ignoreNonexistentTypes then
             report.warn (unknownTypeMessage (fst entry))
           else ret tt) w)).
Proof.
  intros I. unfold bind at 1. unfold schemaComposer.has at 1.
  unfold Obj.has.
  destruct (Obj.get (fst entry) (registry w)) as [tc|] eqn:G.
  - unfold bind at 1. unfold schemaComposer.getOTC, bind at 1.
    unfold schemaComposer.get. rewrite G.
    destruct (tcKind tc) eqn:K;
      try (cbn [snd throw]; apply sameTypesButFields_refl).
    unfold ret at 1. unfold bind at 1.
    pose proof (@overrideFields_through names (fst entry)
                  (Obj.entries (snd entry)) I tc w G K) as T.
    destruct (forEach (Obj.entries (snd entry)) _ tc w)
      as [[tc'|m|m] w1]; exact T.
  - destruct ignoreNonexistentTypes; simpl.
    + apply sameTypesButFields_refl.
    + apply sameTypesButFields_reports. repeat split.
Qed.

Lemma forEach__related A (R : World -> World -> Prop) (l : list A)
      (f : A -> M unit) :
  (forall w, R w w) ->
  (forall a b c, R a b -> R b c -> R a c) ->
  (forall x w, In x l -> R w (snd (f x w))) ->
  forall w, R w (snd (forEach_ l f w)).
Proof.
  intros Rr Rt. induction l as [|x l IH]; intros H w; simpl.
  - apply Rr.
  - unfold bind. pose proof (H x w (or_introl eq_refl)) as S.
    destruct (f x w) as [[u|m|m] w1]; simpl in S.
    + eapply Rt; [exact S|]. apply IH. intros. apply H. now right.
    + exact S.
    + exact S.
Qed.

(** X6. Whatever [createResolvers] is given and however it ends, it
    adds no type to the registry and takes none out; every type keeps
    its name, kind, interfaces and extensions; a type that is no object
    type, or that the resolvers do not name, is left exactly as it was;
    and the types the schema must have and the directive definitions
    stay. *)
Theorem createResolvers_touches_fields_only resolvers
        ignoreNonexistentTypes w :
  sameTypesButFields (Obj.keys resolvers) w
    (snd (createResolvers resolvers ignoreNonexistentTypes w)).
Proof.
  unfold createResolvers.
  apply forEach__related
    with (R := sameTypesButFields (Obj.keys resolvers)).
  - apply sameTypesButFields_refl.
  - apply sameTypesButFields_trans.
  - intros e w0 I. apply createResolvers_step.
    rewrite <- map_fst_entries. now apply in_map.
Qed.

(** ** [stringifyArray] *)

Lemma stringifyItem_shorthand t :
  stringifyItem (arrayShorthand t) = Some (printType t).
Proof.
  induction t as [n|ofType IH|ofType IH]; simpl; auto.
  now rewrite IH.
Qed.

Lemma stringifyArray_nullish items :
  existsb isNullish items = true -> stringifyArray items = None.
Proof.
  unfold stringifyArray. simpl.
  assert (H : existsb isNullish items = true ->
              (fix items (l : list JSVal) : option (list string) :=
                 match l with
                 | [] => Some []
                 | x :: r =>
                     match stringifyItem x, items r with
                     | Some s, Some rest => Some (s :: rest)
                     | _, _ => None
                     end
                 end) items = None).
  { induction items as [|x items IH]; simpl; [discriminate|].
    intros E. apply orb_true_iff in E. destruct E as [E|E].
    - destruct x; try discriminate; reflexivity.
    - rewrite (IH E). now destruct (stringifyItem x). }
  intros E. now rewrite (H E).
Qed.

(** X7. A list type given to [createResolvers] the short way, as the
    array of its item type, is read as the very text the type prints as,
    at any depth, so that it compares as the type itself would; an array
    that holds [null] or [undefined] is a [TypeError]. *)
Theorem stringifyArray_prints_the_list_type ofType fieldConfig w :
  prop "type" fieldConfig = arrayShorthand (GraphQLList ofType) ->
  stringifyArray [arrayShorthand ofType]
  = Some (printType (GraphQLList ofType))
  /\ overrideTypeName fieldConfig w
     = (Ok (Some (printType (GraphQLList ofType))), w)
  /\ forall items, existsb isNullish items = true ->
                   stringifyArray items = None.
Proof.
  intros T. split; [|split].
  - exact (stringifyItem_shorthand (GraphQLList ofType)).
  - unfold overrideTypeName. rewrite T. cbn [arrayShorthand truthy].
    change (stringifyArray [arrayShorthand ofType])
      with (stringifyItem (arrayShorthand (GraphQLList ofType))).
    now rewrite stringifyItem_shorthand.
  - apply stringifyArray_nullish.
Qed.

(** ** [groupChildNodesByType] *)

Lemma flat_map_snd_set_new A k (v : list A) o :
  Obj.get k o = None ->
  flat_map snd (Obj.set k v o) = (flat_map snd o ++ v)%list.
Proof.
  induction o as [|[k' v'] o IH]; simpl; intros G.
  - now rewrite app_nil_r.
  - destruct (String.eqb k' k); [discriminate|]. simpl.
    now rewrite IH, app_assoc.
Qed.

Lemma flat_map_snd_set_old A k (g : list A) x o :
  Obj.get k o = Some g ->
  Permutation (flat_map snd (Obj.set k (g ++ [x])%list o))
              (flat_map snd o ++ [x]).
Proof.
  induction o as [|[k' v'] o IH]; simpl; intros G; [discriminate|].
  destruct (String.eqb k' k).
  - inversion G; subst. simpl. rewrite <- !app_assoc.
    apply Permutation_app_head. apply Permutation_app_comm.
  - simpl. rewrite <- app_assoc. apply Permutation_app_head. now apply IH.
Qed.

Lemma groupStep_permutation A (iteratee : A -> string) groups x :
  Permutation (flat_map snd (groupStep iteratee groups x))
              (flat_map snd groups ++ [x]).
Proof.
  unfold groupStep. destruct (Obj.get (iteratee x) groups) eqn:G.
  - now apply flat_map_snd_set_old.
  - now rewrite flat_map_snd_set_new.
Qed.

Lemma groupBy_fold_permutation A (iteratee : A -> string) (l : list A) :
  forall groups,
    Permutation (flat_map snd (fold_left (groupStep iteratee) l groups))
                (flat_map snd groups ++ l).
Proof.
  induction l as [|x l IH]; intros groups; simpl.
  - now rewrite app_nil_r.
  - rewrite IH.
    rewrite (groupStep_permutation iteratee groups x).
    now rewrite <- app_assoc.
Qed.

Lemma groupBy_permutation A (iteratee : A -> string) (l : list A) :
  Permutation (flat_map snd (groupBy iteratee l)) l.
Proof. unfold groupBy. apply (groupBy_fold_permutation iteratee l []). Qed.

Lemma in_childNodes store node c :
  In c (childNodes store node)
  <-> exists id, In id (nodeChildren node) /\ getNode store id = Some c.
Proof.
  unfold childNodes. rewrite in_flat_map. split.
  - intros [id [I H]]. exists id. split; [exact I|].
    destruct (getNode store id); simpl in H; [|destruct H].
    destruct H as [->|[]]. reflexivity.
  - intros [id [I G]]. exists id. split; [exact I|].
    rewrite G. now left.
Qed.

(** X8. Grouping the children of some nodes by type loses and repeats
    nothing: taken together the groups are the children the store
    resolves, as often as they are listed; a group is under one key only,
    is never empty, and holds, in their order, the children of the type
    of its key; an id the store does not resolve gives no child. *)
Theorem groupChildNodesByType_partitions store nodes :
  let children := flat_map (childNodes store) nodes in
  let groups := groupChildNodesByType store nodes in
  Permutation (flat_map snd groups) children
  /\ NoDup (map fst groups)
  /\ (forall typeName group,
         In (typeName, group) groups
         <-> group = filter (isOfType typeName) children /\ group <> [])
  /\ (forall c,
         In c children
         <-> exists node id,
             In node nodes /\ In id (nodeChildren node)
             /\ getNode store id = Some c).
Proof.
  cbv zeta. unfold groupChildNodesByType.
  split; [apply groupBy_permutation|].
  split; [apply groupBy_NoDup|]. split.
  - intros typeName group. apply groupBy_In.
  - intros c. rewrite in_flat_map. split.
    + intros [node [I H]]. apply in_childNodes in H.
      destruct H as [id [Ii G]]. now exists node, id.
    + intros [node [id [I [Ii G]]]]. exists node. split; [exact I|].
      apply in_childNodes. now exists id.
Qed.

(** ** Merging definitions of another kind *)

Lemma entries_not_empty A (o : list (string * A)) :
  o <> [] -> exists e rest, Obj.entries o = e :: rest.
Proof.
  destruct o as [|[k v] o]; [contradiction|]. intros _.
  assert (I : In (k, v) (Obj.entries ((k, v) :: o))).
  { apply get_in_entries. simpl. now rewrite String.eqb_refl. }
  destruct (Obj.entries ((k, v) :: o)) as [|e rest]; [destruct I|].
  now exists e, rest.
Qed.

Lemma mergeFields_throws fields tc w :
  hasFieldMethods (tcKind tc) = false -> fields <> [] ->
  mergeFields fields tc w
  = (Throw "TypeError: typeComposer.hasField is not a function", w).
Proof.
  intros K N. unfold mergeFields.
  destruct (entries_not_empty N) as [e [rest ->]].
  simpl. unfold bind. now rewrite K.
Qed.

(** X9. Merging a definition of an object or interface type that has
    fields (the fields of a composer, or a field map of a native type
    of which [defineFieldMapToConfig] has made field configurations)
    into a record that is a union or a scalar does not merge: it throws
    the [TypeError] of the missing [hasField] method, after the
    ownership warning if there is one, and nothing but the reports has
    changed. *)
Theorem mergeTypes_into_fieldless_record_throws tc type plugin
        createdFrom w fields :
  tcKind tc = KUnion \/ tcKind tc = KScalar ->
  isObjectOrInterfaceType type = true ->
  incomingFieldConfigs type = Ok fields ->
  fields <> [] ->
  exists w',
    mergeTypes tc type plugin createdFrom w
    = (Throw "TypeError: typeComposer.hasField is not a function", w')
    /\ sameButReports w w'.
Proof.
  intros K' T C N.
  assert (K : hasFieldMethods (tcKind tc) = false)
    by (destruct K' as [-> | ->]; reflexivity).
  destruct (warnUnsafeMerge_returns tc plugin w) as [w0 [W S]].
  exists w0. split; [|exact S].
  unfold mergeTypes. unfold bind at 1. rewrite W.
  unfold mergeInto. unfold bind at 1.
  assert (E : mergeDefinition type tc w0
              = (Throw "TypeError: typeComposer.hasField is not a function",
                 w0)).
  { destruct type; try discriminate T; simpl in C |- *;
      try (injection C as ->);
      try (unfold bind at 1, liftOutcome; rewrite C);
      try (unfold bind at 1); now rewrite mergeFields_throws. }
  now rewrite E.
Qed.

(** X28. Where [defineFieldMapToConfig] throws on the field map of a
    native object or interface type, merging that type throws the same
    error, after the ownership warning if there is one: no field and no
    interface of the type is merged, and nothing but the reports has
    changed. *)
Theorem mergeTypes_of_native_type_without_configs tc type plugin
        createdFrom w msg :
  incomingFieldConfigs type = Throw msg ->
  exists w',
    mergeTypes tc type plugin createdFrom w = (Throw msg, w')
    /\ sameButReports w w'.
Proof.
  intros C.
  destruct (warnUnsafeMerge_returns tc plugin w) as [w0 [W S]].
  exists w0. split; [|exact S].
  unfold mergeTypes. unfold bind at 1. rewrite W.
  unfold mergeInto. unfold bind at 1.
  assert (E : mergeDefinition type tc w0 = (Throw msg, w0)).
  { destruct type; try discriminate C; simpl in C |- *;
      unfold bind at 1, liftOutcome; now rewrite C. }
  now rewrite E.
Qed.

(** X10. Merging a definition that is no object or interface type (a
    union, an input object, a scalar, an enum) into a record is not
    refused, whatever the kind of the record: unless the record is an
    interface and the definition comes from a document, the merge
    returns, and it has changed the extensions at most: the record has
    its fields, in their order and with their types, arguments and
    resolvers, and its interfaces as before. *)
Theorem mergeTypes_of_fieldless_definition tc type plugin createdFrom w :
  isObjectOrInterfaceType type = false ->
  tcKind tc <> KInterface \/ String.eqb createdFrom "sdl" = false ->
  exists tc' w',
    mergeTypes tc type plugin createdFrom w = (Ok tc', w')
    /\ sameButReports w w'
    /\ tcName tc' = tcName tc /\ tcKind tc' = tcKind tc
    /\ tcInterfaces tc' = tcInterfaces tc
    /\ map fst (tcFields tc') = map fst (tcFields tc)
    /\ forall f k, k <> "extensions" ->
                   Obj.get k (TC.getField f tc')
                   = Obj.get k (TC.getField f tc).
Proof.
  intros T H.
  destruct (warnUnsafeMerge_returns tc plugin w) as [w0 [W S0]].
  set (tc0 := match namedTypeComposerExtensions type with
              | Some e => TC.extendExtensions e tc
              | None => tc
              end).
  assert (K0 : tcKind tc0 = tcKind tc).
  { unfold tc0. now destruct (namedTypeComposerExtensions type). }
  assert (X0 : sameButExtensions tc tc0).
  { unfold tc0. destruct (namedTypeComposerExtensions type);
      repeat split. }
  destruct (@addExtensions_returns tc0 plugin createdFrom w0)
    as [tc' [w' E]]; [now rewrite K0|].
  destruct (addExtensions_inv _ _ _ _ E) as [tcD [XD [FD SD]]].
  exists tc', w'.
  assert (R : mergeTypes tc type plugin createdFrom w = (Ok tc', w')).
  { unfold mergeTypes. unfold bind at 1. rewrite W.
    unfold mergeInto. unfold bind at 1.
    assert (M : mergeDefinition type tc w0 = (Ok tc, w0))
      by (destruct type; try discriminate T; reflexivity).
    rewrite M. exact E. }
  split; [exact R|].
  split; [eapply sameButReports_trans; eauto|].
  destruct X0 as [A1 [A2 [A3 A4]]]. destruct XD as [B1 [B2 [B3 B4]]].
  destruct FD as [C1 [C2 [C3 [C4 [C5 C6]]]]].
  split; [congruence|]. split; [congruence|]. split; [congruence|].
  split; [congruence|].
  intros f k N. rewrite (C6 f k N). unfold TC.getField.
  now rewrite B3, A3.
Qed.

(** ** The stamps of [addExtensions] *)

Lemma getFieldExtension_setFieldExtension f n v g k tc :
  TC.getFieldExtension g k (TC.setFieldExtension f n v tc)
  = if String.eqb f g && String.eqb n k then v
    else TC.getFieldExtension g k tc.
Proof.
  unfold TC.getFieldExtension, TC.setFieldExtension.
  destruct (String.eqb f g) eqn:E.
  - apply String.eqb_eq in E. subst g.
    rewrite getFieldExtensions_setFieldExtensions, prop_set.
    now destruct (String.eqb n k).
  - simpl. unfold TC.getFieldExtensions, TC.setFieldExtensions.
    now rewrite getField_setField, E.
Qed.

Lemma fieldExtension_keeps fieldName name tc w tc' w' :
  fieldExtension fieldName name tc w = (Ok tc', w') ->
  forall g k, k <> name ->
              TC.getFieldExtension g k tc' = TC.getFieldExtension g k tc.
Proof.
  unfold fieldExtension.
  destruct (negb (truthy (TC.getFieldExtension fieldName name tc))
            || negb (isObjectType (TC.getFieldExtension fieldName name tc))).
  - unfold bind, report.error, addReport, ret. intros E. now inversion E.
  - unfold tryCatch, bind, schemaComposer.getDirective.
    destruct (Obj.get name (directiveDefs w)) as [defs|].
    + match goal with
      | |- context [checkExtensionArgs ?a ?b ?c ?d ?e w] =>
          destruct (checkExtensionArgs_reports a b c d e w) as [w1 [E S]]
      end.
      rewrite E. unfold ret. intros X. inversion X; subst.
      intros g k N.
      destruct (TC.getFieldExtension fieldName name tc); try reflexivity.
      rewrite getFieldExtension_setFieldExtension.
      rewrite (eqb_neq_false (not_eq_sym N)). now rewrite andb_false_r.
    + unfold report.error, addReport, ret. intros E. now inversion E.
Qed.

Lemma fieldExtensions_keep fieldName names (K : string -> Prop) :
  forall tc w,
    TC.hasField fieldName tc = true ->
    (forall name, In name names -> ~ K name) ->
    exists tc' w',
      forEach names (fieldExtension fieldName) tc w = (Ok tc', w')
      /\ sameButFieldExtensions tc tc' /\ sameButReports w w'
      /\ forall g k, K k -> TC.getFieldExtension g k tc'
                            = TC.getFieldExtension g k tc.
Proof.
  induction names as [|name names IH]; intros tc w H N; simpl.
  - exists tc, w. split; [reflexivity|].
    split; [apply sameButFieldExtensions_refl|].
    split; [apply sameButReports_refl | reflexivity].
  - destruct (@fieldExtension_returns fieldName name tc w H)
      as [t1 [w1 [E [S1 R1]]]].
    destruct (IH t1 w1) as [t2 [w2 [E2 [S2 [R2 K2]]]]].
    { now rewrite (@sameButFieldExtensions_hasField tc t1 fieldName S1). }
    { intros. apply N. now right. }
    exists t2, w2. unfold bind. rewrite E. split; [exact E2|].
    split; [eapply sameButFieldExtensions_trans; eauto|].
    split; [eapply sameButReports_trans; eauto|].
    intros g k Kk. rewrite K2 by exact Kk.
    apply (@fieldExtension_keeps fieldName name tc w t1 w1 E).
    intros X. subst k. apply (N name); [now left | exact Kk].
Qed.

Lemma stampField_stamps plugin createdFrom f tc w :
  String.eqb createdFrom "sdl" = false ->
  TC.hasField f tc = true ->
  exists tc' w',
    stampField plugin createdFrom f tc w = (Ok tc', w')
    /\ sameButFieldExtensions tc tc' /\ sameButReports w w'
    /\ fieldStamped plugin createdFrom f tc'
    /\ forall g, fieldStamped plugin createdFrom g tc ->
                 fieldStamped plugin createdFrom g tc'.
Proof.
  intros NS H. unfold stampField. rewrite NS.
  set (tc1 := TC.setFieldExtension f "createdFrom" (VStr createdFrom) tc).
  set (tc2 := TC.setFieldExtension f "plugin" (pluginNameOrNull plugin) tc1).
  assert (S1 : sameButFieldExtensions tc tc1)
    by now apply setFieldExtension_same.
  assert (H1 : TC.hasField f tc1 = true)
    by now rewrite (@sameButFieldExtensions_hasField tc tc1 f S1).
  assert (S2 : sameButFieldExtensions tc tc2).
  { eapply sameButFieldExtensions_trans; [exact S1|].
    now apply setFieldExtension_same. }
  assert (H2 : TC.hasField f tc2 = true)
    by now rewrite (@sameButFieldExtensions_hasField tc tc2 f S2).
  destruct (@fieldExtensions_keep f
              (filter (fun name =>
                         negb (Str.includes name internalExtensionNames))
                      (Obj.keys (TC.getFieldExtensions f tc2)))
              (fun k => k = "createdFrom" \/ k = "plugin") tc2 w H2)
    as [tc' [w' [E [S' [R K]]]]].
  { intros name I. apply filter_In in I. destruct I as [_ I].
    intros [-> | ->]; discriminate I. }
  exists tc', w'. split; [exact E|].
  split; [eapply sameButFieldExtensions_trans; eauto|].
  split; [exact R|].
  assert (C2 : forall g,
             TC.getFieldExtension g "createdFrom" tc2
             = if String.eqb f g then VStr createdFrom
               else TC.getFieldExtension g "createdFrom" tc).
  { intros g. unfold tc2, tc1.
    rewrite !getFieldExtension_setFieldExtension.
    destruct (String.eqb f g); reflexivity. }
  assert (P2 : forall g,
             TC.getFieldExtension g "plugin" tc2
             = if String.eqb f g then pluginNameOrNull plugin
               else TC.getFieldExtension g "plugin" tc).
  { intros g. unfold tc2, tc1.
    rewrite !getFieldExtension_setFieldExtension.
    destruct (String.eqb f g); reflexivity. }
  split.
  - split.
    + rewrite K by now left. now rewrite C2, String.eqb_refl.
    + rewrite K by now right. now rewrite P2, String.eqb_refl.
  - intros g [G1 G2]. split.
    + rewrite K by now left. rewrite C2.
      now destruct (String.eqb f g).
    + rewrite K by now right. rewrite P2.
      now destruct (String.eqb f g).
Qed.

Lemma stampFields_stamp plugin createdFrom names : forall tc w,
  String.eqb createdFrom "sdl" = false ->
  (forall f, In f names -> TC.hasField f tc = true) ->
  exists tc' w',
    forEach names (stampField plugin createdFrom) tc w = (Ok tc', w')
    /\ sameButFieldExtensions tc tc' /\ sameButReports w w'
    /\ (forall f, In f names -> fieldStamped plugin createdFrom f tc')
    /\ forall g, fieldStamped plugin createdFrom g tc ->
                 fieldStamped plugin createdFrom g tc'.
Proof.
  induction names as [|f names IH]; intros tc w NS H; simpl.
  - exists tc, w. split; [reflexivity|].
    split; [apply sameButFieldExtensions_refl|].
    split; [apply sameButReports_refl|]. split; [intros f []|auto].
  - destruct (@stampField_stamps plugin createdFrom f tc w NS
                (H f (or_introl eq_refl)))
      as [t1 [w1 [E [S1 [R1 [F1 P1]]]]]].
    destruct (IH t1 w1 NS) as [t2 [w2 [E2 [S2 [R2 [F2 P2]]]]]].
    { intros g I.
      rewrite (@sameButFieldExtensions_hasField tc t1 g S1).
      apply H. now right. }
    exists t2, w2. unfold bind. rewrite E. split; [exact E2|].
    split; [eapply sameButFieldExtensions_trans; eauto|].
    split; [eapply sameButReports_trans; eauto|]. split.
    + intros g [<-|I]; [now apply P2 | now apply F2].
    + intros g G. apply P2. now apply P1.
Qed.

(** X11. For a type that does not come from a document, [addExtensions]
    always returns and only reports: the type has its name, kind,
    interfaces and fields, the fields their types, arguments and
    resolvers; the extensions of the type are the ones it had with
    [createdFrom] and [plugin] set; and where the composer is an object,
    interface or input object type every field carries [createdFrom] and
    [plugin] as well, while the fields of any other composer are not
    touched. *)
Theorem addExtensions_stamps_type_and_fields tc plugin createdFrom w :
  String.eqb createdFrom "sdl" = false ->
  exists tc' w',
    addExtensions tc plugin createdFrom w = (Ok tc', w')
    /\ sameButReports w w'
    /\ tcName tc' = tcName tc /\ tcKind tc' = tcKind tc
    /\ tcInterfaces tc' = tcInterfaces tc
    /\ map fst (tcFields tc') = map fst (tcFields tc)
    /\ (forall f k, k <> "extensions" ->
                    Obj.get k (TC.getField f tc')
                    = Obj.get k (TC.getField f tc))
    /\ tcExtensions tc'
       = Obj.set "plugin" (pluginNameOrNull plugin)
           (Obj.set "createdFrom" (VStr createdFrom) (tcExtensions tc))
    /\ (hasFieldMethods (tcKind tc) = true ->
        forall f, TC.hasField f tc = true ->
                  fieldStamped plugin createdFrom f tc')
    /\ (hasFieldMethods (tcKind tc) = false ->
        tcFields tc' = tcFields tc).
Proof.
  intros NS. unfold addExtensions. rewrite NS.
  fold (stamped tc plugin createdFrom).
  set (tcS := stamped tc plugin createdFrom).
  unfold bind at 1. unfold ret at 1.
  assert (KS : tcKind tcS = tcKind tc) by reflexivity.
  rewrite KS.
  assert (Dep : forall t w0,
             exists w1,
               ((if TC.hasExtension "addDefaultResolvers" t
                 then report.warn deprecationNoDefaultResolvers
                 else ret tt) ;;; ret t) w0 = (Ok t, w1)
               /\ sameButReports w0 w1).
  { intros t w0. unfold bind.
    destruct (TC.hasExtension "addDefaultResolvers" t).
    - eexists. split; [reflexivity|]. repeat split.
    - exists w0. split; [reflexivity|]. apply sameButReports_refl. }
  destruct (hasFieldMethods (tcKind tc)) eqn:HF.
  - destruct (@stampFields_stamp plugin createdFrom
                (TC.getFieldNames tcS) tcS w NS)
      as [t1 [w1 [E [S1 [R1 [F1 _]]]]]].
    { intros f I. apply has_in. apply in_keys. exact I. }
    destruct (Dep t1 w1) as [w2 [E2 R2]].
    exists t1, w2. unfold bind at 1. rewrite E.
    split; [exact E2|].
    split; [eapply sameButReports_trans; eauto|].
    destruct S1 as [A1 [A2 [A3 [A4 [A5 A6]]]]].
    split; [exact A1|]. split; [exact A2|]. split; [exact A3|].
    split; [exact A5|]. split; [exact A6|].
    split; [|split].
    + rewrite A4. reflexivity.
    + intros _ f H. apply F1. apply in_keys. apply has_in. exact H.
    + discriminate.
  - unfold bind at 1. unfold ret at 1.
    destruct (Dep tcS w) as [w2 [E2 R2]].
    exists tcS, w2. split; [exact E2|]. split; [exact R2|].
    do 5 (split; [reflexivity|]).
    split; [|split].
    + reflexivity.
    + discriminate.
    + reflexivity.
Qed.

(** ** [processAddedType] *)

Lemma forEach_ok_related A S (Q : S -> S -> Prop) (l : list A)
      (f : A -> S -> M S) :
  (forall s, Q s s) ->
  (forall a b c, Q a b -> Q b c -> Q a c) ->
  (forall x s w s' w', In x l -> f x s w = (Ok s', w') -> Q s s') ->
  forall s w s' w', forEach l f s w = (Ok s', w') -> Q s s'.
Proof.
  intros Qr Qt. induction l as [|x l IH]; intros H s w s' w'; simpl.
  - unfold ret. intros E. inversion E. apply Qr.
  - unfold bind. destruct (f x s w) as [[s1|m|m] w1] eqn:E;
      try discriminate.
    intros E2. eapply Qt.
    + exact (H x s w s1 w1 (or_introl eq_refl) E).
    + eapply IH; [|exact E2].
      intros y s2 w2 s3 w3 I X. exact (H y s2 w2 s3 w3 (or_intror I) X).
Qed.

Lemma typeDirective_resolveType d tc w tc' w' :
  typeDirective d tc w = (Ok tc', w') ->
  tcResolveType tc' = tcResolveType tc.
Proof.
  unfold typeDirective.
  destruct (isStr "infer" (propOf "name" d)
            || isStr "dontInfer" (propOf "name" d)).
  { destruct (negb (isNullish _)); unfold ret; intros E;
      now inversion E. }
  destruct (isStr "mimeTypes" (propOf "name" d));
    [unfold ret; intros E; now inversion E|].
  destruct (isStr "childOf" (propOf "name" d));
    [unfold ret; intros E; now inversion E|].
  destruct (isStr "nodeInterface" (propOf "name" d));
    [|unfold ret; intros E; now inversion E].
  destruct (tcKind tc); try (unfold ret; intros E; now inversion E).
  unfold bind. destruct (lacksIdField tc); [discriminate|].
  unfold ret. intros E. now inversion E.
Qed.

Lemma fieldExtension_resolveType fieldName name tc w tc' w' :
  fieldExtension fieldName name tc w = (Ok tc', w') ->
  tcResolveType tc' = tcResolveType tc.
Proof.
  unfold fieldExtension.
  destruct (negb (truthy (TC.getFieldExtension fieldName name tc))
            || negb (isObjectType (TC.getFieldExtension fieldName name tc))).
  - unfold bind, report.error, addReport, ret. intros E. now inversion E.
  - unfold tryCatch, bind, schemaComposer.getDirective.
    destruct (Obj.get name (directiveDefs w)) as [defs|].
    + match goal with
      | |- context [checkExtensionArgs ?a ?b ?c ?d ?e w] =>
          destruct (checkExtensionArgs_reports a b c d e w) as [w1 [E S]]
      end.
      rewrite E. unfold ret. intros X. inversion X; subst.
      now destruct (TC.getFieldExtension fieldName name tc).
    + unfold report.error, addReport, ret. intros E. now inversion E.
Qed.

Lemma fieldDirectives_resolveType f ds : forall t,
  tcResolveType
    (fold_left
       (fun tc d =>
          TC.setFieldExtension f (templateString (propOf "name" d))
                               (propOf "args" d) tc) ds t)
  = tcResolveType t.
Proof.
  induction ds as [|d ds IH]; intros t; simpl; auto.
  now rewrite IH.
Qed.

Lemma stampField_resolveType plugin createdFrom f tc w tc' w' :
  stampField plugin createdFrom f tc w = (Ok tc', w') ->
  tcResolveType tc' = tcResolveType tc.
Proof.
  unfold stampField. intros E.
  apply (@forEach_ok_related _ _
           (fun a b => tcResolveType b = tcResolveType a)) in E.
  - rewrite E. destruct (String.eqb createdFrom "sdl"); [|reflexivity].
    now rewrite fieldDirectives_resolveType.
  - reflexivity.
  - intros; congruence.
  - intros name s w0 s' w0' _ X.
    now apply (@fieldExtension_resolveType f name s w0 s' w0').
Qed.

Lemma addExtensions_resolveType tc plugin createdFrom w tc' w' :
  addExtensions tc plugin createdFrom w = (Ok tc', w') ->
  tcResolveType tc' = tcResolveType tc.
Proof.
  unfold addExtensions.
  set (tcS := TC.setExtension "plugin" (pluginNameOrNull plugin)
                (TC.setExtension "createdFrom" (VStr createdFrom) tc)).
  assert (RS : tcResolveType tcS = tcResolveType tc) by reflexivity.
  unfold bind at 1.
  destruct ((if String.eqb createdFrom "sdl"
             then forEach (TC.getDirectives tcS) typeDirective tcS
             else ret tcS) w) as [[tcD|m|m] wD] eqn:D; try discriminate.
  assert (RD : tcResolveType tcD = tcResolveType tcS).
  { destruct (String.eqb createdFrom "sdl").
    - apply (@forEach_ok_related _ _
               (fun a b => tcResolveType b = tcResolveType a)) in D; auto.
      + intros; congruence.
      + intros d s w0 s' w0' _ X.
        now apply (@typeDirective_resolveType d s w0 s' w0').
    - unfold ret in D. now inversion D. }
  unfold bind at 1.
  destruct ((if hasFieldMethods (tcKind tcD)
             then forEach (TC.getFieldNames tcD)
                          (stampField plugin createdFrom) tcD
             else ret tcD) wD) as [[tcF|m|m] wF] eqn:F; try discriminate.
  assert (RF : tcResolveType tcF = tcResolveType tcD).
  { destruct (hasFieldMethods (tcKind tcD)).
    - apply (@forEach_ok_related _ _
               (fun a b => tcResolveType b = tcResolveType a)) in F; auto.
      + intros; congruence.
      + intros f s w0 s' w0' _ X.
        now apply (@stampField_resolveType plugin createdFrom f s w0
                     s' w0').
    - unfold ret in F. now inversion F. }
  unfold bind.
  destruct (TC.hasExtension "addDefaultResolvers" tcF);
    unfold report.warn, addReport, ret; intros E; inversion E; subst;
    congruence.
Qed.

Lemma processAddedType_run type createdFrom plugin w :
  tcKind (asComposer type) <> KInterface
  \/ String.eqb createdFrom "sdl" = false ->
  exists tc' w',
    processAddedType type createdFrom plugin w = (Ok tc', w')
    /\ Obj.get (addedName type) (registry w') = Some tc'
    /\ (forall name, name <> addedName type ->
                     Obj.get name (registry w')
                     = Obj.get name (registry w))
    /\ mustHave w' = (mustHave w ++ [addedName type])%list
    /\ directiveDefs w' = directiveDefs w
    /\ tcName tc' = addedName type
    /\ tcKind tc' = tcKind (asComposer type)
    /\ tcResolveType tc'
       = match tcKind (asComposer type) with
         | KInterface | KUnion => true
         | _ => tcResolveType (asComposer type)
         end.
Proof.
  intros H. unfold processAddedType, processAddedComposer.
  assert (N : tcName (asComposer type) = addedName type)
    by now destruct type.
  set (tc0 := asComposer type) in *.
  set (tc1 := match tcKind tc0 with
              | KInterface | KUnion =>
                  if negb (tcResolveType tc0) then TC.setResolveType tc0
                  else tc0
              | _ => tc0
              end).
  assert (N1 : tcName tc1 = tcName tc0).
  { unfold tc1. destruct (tcKind tc0); auto;
      destruct (negb (tcResolveType tc0)); auto. }
  assert (K1 : tcKind tc1 = tcKind tc0).
  { unfold tc1. destruct (tcKind tc0) eqn:K; auto;
      destruct (negb (tcResolveType tc0)); auto. }
  assert (R1 : tcResolveType tc1
               = match tcKind tc0 with
                 | KInterface | KUnion => true
                 | _ => tcResolveType tc0
                 end).
  { unfold tc1. destruct (tcKind tc0) eqn:K; auto;
      destruct (tcResolveType tc0) eqn:R; simpl; auto. }
  unfold bind at 1. unfold schemaComposer.set at 1.
  unfold bind at 1. unfold schemaComposer.addSchemaMustHaveType at 1.
  cbn [registry mustHave directiveDefs reports].
  set (w1 := mkWorld (Obj.set (tcName tc0) tc0 (registry w))
                     (mustHave w ++ [tcName tc1]) (directiveDefs w)
                     (reports w)).
  destruct (@addExtensions_returns tc1 plugin createdFrom w1)
    as [tc' [w' E]]; [now rewrite K1|].
  destruct (addExtensions_inv _ _ _ _ E) as [tcD [XD [FD [SR [SM SD]]]]].
  pose proof (addExtensions_resolveType _ _ _ _ E) as RT.
  destruct XD as [B1 [B2 [B3 B4]]].
  destruct FD as [C1 [C2 [C3 [C4 [C5 C6]]]]].
  assert (N' : tcName tc' = addedName type) by congruence.
  exists tc', (mkWorld (Obj.set (tcName tc') tc' (registry w'))
                       (mustHave w') (directiveDefs w') (reports w')).
  split.
  { unfold bind at 1. fold w1. rewrite E. reflexivity. }
  cbn [registry mustHave directiveDefs].
  split; [rewrite N'; apply get_set_eq|]. split.
  { intros name Nn. rewrite get_set_ne by congruence.
    rewrite SR. unfold w1. cbn [registry].
    apply get_set_ne. congruence. }
  split; [rewrite SM; unfold w1; cbn [mustHave]; congruence|].
  split; [rewrite SD; reflexivity|].
  split; [exact N'|]. split; [congruence|]. congruence.
Qed.

(** X12. [processAddedType], for a type that is no interface or does
    not come from a document, returns: the composer it returns is the
    one the registry then has under the name of the type, the other names
    of the registry are as before, the name is added last to the types
    the schema must have, the composer has the kind of the type, and an
    interface or a union has a [resolveType] in any case, while any other
    type has not got one it did not have. *)
Theorem processAddedType_registers type createdFrom plugin w :
  tcKind (asComposer type) <> KInterface
  \/ String.eqb createdFrom "sdl" = false ->
  exists tc' w',
    processAddedType type createdFrom plugin w = (Ok tc', w')
    /\ Obj.get (addedName type) (registry w') = Some tc'
    /\ (forall name, name <> addedName type ->
                     Obj.get name (registry w')
                     = Obj.get name (registry w))
    /\ mustHave w' = (mustHave w ++ [addedName type])%list
    /\ directiveDefs w' = directiveDefs w
    /\ tcName tc' = addedName type
    /\ tcKind tc' = tcKind (asComposer type)
    /\ tcResolveType tc'
       = match tcKind (asComposer type) with
         | KInterface | KUnion => true
         | _ => tcResolveType (asComposer type)
         end.
Proof. apply processAddedType_run. Qed.

(** ** The directives of a type of a document *)

Lemma getExtension_setExtension k' v k tc :
  TC.getExtension k (TC.setExtension k' v tc)
  = if String.eqb k' k then v else TC.getExtension k tc.
Proof. unfold TC.getExtension, TC.setExtension. simpl. apply prop_set. Qed.

Lemma typeDirective_infer d tc w tc' w' :
  typeDirective d tc w = (Ok tc', w') ->
  TC.getExtension "infer" tc'
  = if existsb (fun n => isStr n (propOf "name" d)) ["infer"; "dontInfer"]
    then VBool (isStr "infer" (propOf "name" d))
    else TC.getExtension "infer" tc.
Proof.
  unfold typeDirective. cbn [existsb]. rewrite orb_false_r.
  destruct (isStr "infer" (propOf "name" d)
            || isStr "dontInfer" (propOf "name" d)) eqn:I.
  { destruct (negb (isNullish _)); unfold ret; intros E; inversion E;
      now rewrite ?getExtension_setExtension. }
  destruct (isStr "mimeTypes" (propOf "name" d));
    [unfold ret; intros E; inversion E;
     now rewrite getExtension_setExtension|].
  destruct (isStr "childOf" (propOf "name" d));
    [unfold ret; intros E; inversion E;
     now rewrite getExtension_setExtension|].
  destruct (isStr "nodeInterface" (propOf "name" d));
    [|unfold ret; intros E; now inversion E].
  destruct (tcKind tc); try (unfold ret; intros E; now inversion E).
  unfold bind. destruct (lacksIdField tc); [discriminate|].
  unfold ret. intros E. inversion E.
  now rewrite getExtension_setExtension.
Qed.

Lemma typeDirective_verbatim key d tc w tc' w' :
  key = "mimeTypes" \/ key = "childOf" ->
  typeDirective d tc w = (Ok tc', w') ->
  TC.getExtension key tc'
  = if existsb (fun n => isStr n (propOf "name" d)) [key]
    then propOf "args" d
    else TC.getExtension key tc.
Proof.
  intros K. unfold typeDirective. cbn [existsb]. rewrite orb_false_r.
  destruct (isStr "infer" (propOf "name" d)
            || isStr "dontInfer" (propOf "name" d)) eqn:I.
  { assert (X : isStr key (propOf "name" d) = false).
    { apply orb_true_iff in I.
      destruct I as [I|I]; apply isStr_eq in I; rewrite I;
        destruct K as [-> | ->]; reflexivity. }
    rewrite X.
    destruct (negb (isNullish _)); unfold ret; intros E; inversion E;
      rewrite ?getExtension_setExtension;
      destruct K as [-> | ->]; reflexivity. }
  destruct (isStr "mimeTypes" (propOf "name" d)) eqn:M.
  { unfold ret; intros E; inversion E.
    rewrite getExtension_setExtension.
    destruct K as [-> | ->]; [now rewrite M|].
    apply isStr_eq in M. rewrite M. reflexivity. }
  destruct (isStr "childOf" (propOf "name" d)) eqn:C.
  { unfold ret; intros E; inversion E.
    rewrite getExtension_setExtension.
    destruct K as [-> | ->]; [now rewrite M | now rewrite C]. }
  assert (X : isStr key (propOf "name" d) = false)
    by (destruct K as [-> | ->]; assumption).
  rewrite X.
  destruct (isStr "nodeInterface" (propOf "name" d));
    [|unfold ret; intros E; now inversion E].
  destruct (tcKind tc); try (unfold ret; intros E; now inversion E).
  unfold bind. destruct (lacksIdField tc); [discriminate|].
  unfold ret. intros E. inversion E.
  rewrite getExtension_setExtension.
  destruct K as [-> | ->]; reflexivity.
Qed.

Lemma typeDirectives_last key names (value : JSVal -> JSVal) :
  (forall d tc w tc' w',
      typeDirective d tc w = (Ok tc', w') ->
      TC.getExtension key tc'
      = if existsb (fun n => isStr n (propOf "name" d)) names
        then value d else TC.getExtension key tc) ->
  forall ds tc w tc' w' base found,
    TC.getExtension key tc
    = match found with Some d => value d | None => base end ->
    forEach ds typeDirective tc w = (Ok tc', w') ->
    TC.getExtension key tc'
    = match fold_left
              (fun found d =>
                 if existsb (fun n => isStr n (propOf "name" d)) names
                 then Some d else found) ds found with
      | Some d => value d
      | None => base
      end.
Proof.
  intros H. induction ds as [|d ds IH]; intros tc w tc' w' base found B;
    simpl.
  - unfold ret. intros E. inversion E; subst. exact B.
  - unfold bind. destruct (typeDirective d tc w) as [[t1|m|m] w1] eqn:E;
      try discriminate.
    intros E2. apply (IH t1 w1 tc' w' base); [|exact E2].
    rewrite (H d tc w t1 w1 E).
    destruct (existsb _ names); [reflexivity | exact B].
Qed.

(** X13. Of a type of a document that is no interface, [addExtensions]
    returns, and it has turned the directives of the type into
    extensions, the last directive winning: [infer] is [true] after a
    last [@infer] and [false] after a last [@dontInfer], and [mimeTypes]
    and [childOf] are the arguments of the last directive of that name
    as they are; without such a directive the extension is what it
    was. *)
Theorem addExtensions_translates_directives tc plugin w :
  tcKind tc <> KInterface ->
  exists tc' w',
    addExtensions tc plugin "sdl" w = (Ok tc', w')
    /\ TC.getExtension "infer" tc'
       = match lastNamed ["infer"; "dontInfer"] (TC.getDirectives tc) with
         | Some d => VBool (isStr "infer" (propOf "name" d))
         | None => TC.getExtension "infer" tc
         end
    /\ forall key,
        key = "mimeTypes" \/ key = "childOf" ->
        TC.getExtension key tc'
        = match lastNamed [key] (TC.getDirectives tc) with
          | Some d => propOf "args" d
          | None => TC.getExtension key tc
          end.
Proof.
  intros K.
  set (tcS := stamped tc plugin "sdl").
  destruct (@typeDirectives_return (TC.getDirectives tcS) tcS w)
    as [tcD [D _]]; [right; now left|].
  destruct (@addExtensions_after_directives tc plugin "sdl" w tcD w D)
    as [tc' [w' [E [F _]]]].
  exists tc', w'. split; [exact E|].
  destruct F as [_ [_ [_ [X _]]]].
  assert (G : forall k, TC.getExtension k tc' = TC.getExtension k tcD).
  { intros k. unfold TC.getExtension. now rewrite X. }
  assert (DS : TC.getDirectives tcS = TC.getDirectives tc)
    by apply getDirectives_stamped.
  rewrite DS in D. split.
  - rewrite G. unfold lastNamed.
    apply (@typeDirectives_last "infer" ["infer"; "dontInfer"]
             (fun d => VBool (isStr "infer" (propOf "name" d)))
             typeDirective_infer (TC.getDirectives tc) tcS w tcD w
             (TC.getExtension "infer" tc) None); [|exact D].
    unfold tcS, stamped. now rewrite !getExtension_setExtension.
  - intros key Hk. rewrite G. unfold lastNamed.
    apply (@typeDirectives_last key [key] (propOf "args")
             (fun d t w0 t' w0' => @typeDirective_verbatim key d t w0 t'
                                     w0' Hk)
             (TC.getDirectives tc) tcS w tcD w
             (TC.getExtension key tc) None); [|exact D].
    unfold tcS, stamped. rewrite !getExtension_setExtension.
    destruct Hk as [-> | ->]; reflexivity.
Qed.

(** ** [addTypes] on new types *)

Lemma nativeName_addedName type n :
  nativeName type = Some n -> n = addedName type.
Proof. destruct type; simpl; congruence. Qed.

Lemma addType_new source plugin type createdFrom w :
  sourceType source = Some (type, createdFrom) ->
  allowedTypeName (addedName type) ->
  Obj.has (addedName type) (registry w) = false ->
  addType (source, plugin) w
  = (processAddedType type createdFrom plugin ;;; ret tt) w
    /\ createdFrom <> "sdl".
Proof.
  intros S A H.
  assert (R : addOrMerge (addedName type) type plugin createdFrom w
              = (processAddedType type createdFrom plugin ;;; ret tt) w).
  { unfold addOrMerge. unfold bind at 1.
    rewrite (checkIsAllowedTypeName_allowed w A).
    unfold bind at 1. unfold schemaComposer.has at 1. now rewrite H. }
  unfold addType. cbn [fst snd]. destruct source as [doc|k c|t];
    simpl in S; [discriminate| |].
  - destruct (createTypeComposerFromGatsbyType k c) as [t|];
      [|discriminate].
    inversion S; subst. split; [exact R|discriminate].
  - destruct (nativeName t) as [n|] eqn:N; [|discriminate].
    inversion S; subst.
    rewrite <- (nativeName_addedName _ N) in R.
    split; [exact R|discriminate].
Qed.

Lemma addTypes_new sources : forall w,
  (forall source plugin,
      In (source, plugin) sources ->
      exists type createdFrom,
        sourceType source = Some (type, createdFrom)
        /\ allowedTypeName (addedName type)
        /\ Obj.has (addedName type) (registry w) = false) ->
  NoDup (map (fun e => sourceName (fst e)) sources) ->
  exists w',
    addTypes sources w = (Ok tt, w')
    /\ mustHave w'
       = (mustHave w ++ map (fun e => sourceName (fst e)) sources)%list
    /\ directiveDefs w' = directiveDefs w
    /\ (forall name,
           In name (map (fun e => sourceName (fst e)) sources) ->
           exists tc, Obj.get name (registry w') = Some tc
                      /\ tcName tc = name)
    /\ (forall name,
           ~ In name (map (fun e => sourceName (fst e)) sources) ->
           Obj.get name (registry w') = Obj.get name (registry w)).
Proof.
  induction sources as [|[source plugin] sources IH]; intros w H ND.
  - exists w. simpl. rewrite app_nil_r. repeat split; auto.
    intros name [].
  - destruct (H source plugin (or_introl eq_refl))
      as [type [createdFrom [S [A U]]]].
    destruct (@addType_new source plugin type createdFrom w S A U)
      as [E NS].
    assert (SN : sourceName source = addedName type).
    { unfold sourceName. now rewrite S. }
    destruct (@processAddedType_run type createdFrom plugin w)
      as [tc1 [w1 [P [G1 [O1 [M1 [D1 [N1 _]]]]]]]].
    { right. now apply String.eqb_neq. }
    simpl in ND. inversion ND as [|? ? NI ND']; subst.
    destruct (IH w1) as [w' [E' [M' [D' [G' O']]]]]; [|exact ND'|].
    { intros s p I. destruct (H s p (or_intror I))
        as [t [cf [S' [A' U']]]].
      exists t, cf. split; [exact S'|]. split; [exact A'|].
      unfold Obj.has. rewrite O1; [exact U'|].
      intros X. apply NI. apply in_map_iff. exists (s, p).
      split; [|exact I]. cbn [fst]. rewrite SN.
      unfold sourceName. rewrite S'. exact X. }
    exists w'. split; [|split; [|split; [|split]]].
    + unfold addTypes. cbn [forEach_]. unfold bind at 1.
      rewrite E. unfold bind at 1. rewrite P. unfold ret at 1.
      exact E'.
    + rewrite M', M1. cbn [map fst]. rewrite SN.
      now rewrite <- app_assoc.
    + congruence.
    + cbn [map fst]. intros name [X|I].
      * rewrite <- X. rewrite SN. exists tc1. split; [|exact N1].
        rewrite O'; [exact G1|]. now rewrite <- SN.
      * now apply G'.
    + cbn [map fst]. intros name NI'.
      rewrite O' by (intros X; apply NI'; now right).
      apply O1. intros X. apply NI'. left. now rewrite SN.
Qed.

(** X14. Builder descriptors and native types of names that pass the
    name check, are not in the registry and differ from one another are
    all added by [addTypes], which returns: each is registered under its
    name, the names are added, in the order of the sources, to the types
    the schema must have, and no other name of the registry is
    touched. *)
Theorem addTypes_registers_new_types sources w :
  (forall source plugin,
      In (source, plugin) sources ->
      exists type createdFrom,
        sourceType source = Some (type, createdFrom)
        /\ allowedTypeName (addedName type)
        /\ Obj.has (addedName type) (registry w) = false) ->
  NoDup (map (fun e => sourceName (fst e)) sources) ->
  exists w',
    addTypes sources w = (Ok tt, w')
    /\ mustHave w'
       = (mustHave w ++ map (fun e => sourceName (fst e)) sources)%list
    /\ directiveDefs w' = directiveDefs w
    /\ (forall name,
           In name (map (fun e => sourceName (fst e)) sources) ->
           exists tc, Obj.get name (registry w') = Some tc
                      /\ tcName tc = name)
    /\ (forall name,
           ~ In name (map (fun e => sourceName (fst e)) sources) ->
           Obj.get name (registry w') = Obj.get name (registry w)).
Proof. apply addTypes_new. Qed.

(** ** A document of new types *)

Lemma processAddedTypes_run createdFrom plugin types : forall w,
  (forall type, In type types ->
                tcKind (asComposer type) <> KInterface
                \/ String.eqb createdFrom "sdl" = false) ->
  NoDup (map addedName types) ->
  exists w',
    forEach_ types
      (fun type => processAddedType type createdFrom plugin ;;; ret tt) w
    = (Ok tt, w')
    /\ mustHave w' = (mustHave w ++ map addedName types)%list
    /\ directiveDefs w' = directiveDefs w
    /\ (forall type,
           In type types ->
           exists tc, Obj.get (addedName type) (registry w') = Some tc
                      /\ tcName tc = addedName type
                      /\ tcKind tc = tcKind (asComposer type))
    /\ (forall name, ~ In name (map addedName types) ->
                     Obj.get name (registry w')
                     = Obj.get name (registry w)).
Proof.
  induction types as [|type types IH]; intros w H ND.
  - exists w. simpl. rewrite app_nil_r. repeat split; auto.
    intros type [].
  - destruct (@processAddedType_run type createdFrom plugin w
                (H type (or_introl eq_refl)))
      as [tc1 [w1 [P [G1 [O1 [M1 [D1 [N1 [K1 _]]]]]]]]].
    simpl in ND. inversion ND as [|? ? NI ND']; subst.
    destruct (IH w1) as [w' [E' [M' [D' [G' O']]]]]; [|exact ND'|].
    { intros. apply H. now right. }
    exists w'. split; [|split; [|split; [|split]]].
    + cbn [forEach_]. unfold bind at 1. unfold bind at 1.
      rewrite P. unfold ret at 1. exact E'.
    + rewrite M', M1. cbn [map]. now rewrite <- app_assoc.
    + congruence.
    + intros t [<-|I]; [|now apply G'].
      exists tc1. split; [|split; assumption].
      rewrite O' by exact NI. exact G1.
    + cbn [map]. intros name NI'.
      rewrite O' by (intros X; apply NI'; now right).
      apply O1. intros X. apply NI'. now left.
Qed.

Lemma parseTypes_new plugin createdFrom doc : forall types w,
  (forall def, In def doc ->
               defName def = addedName (defComposer def)
               /\ allowedTypeName (defName def)
               /\ Obj.has (defName def) (registry w) = false) ->
  NoDup (map defName doc) ->
  exists w',
    forEach doc
      (fun def types =>
         let name := defName def in
         checkIsAllowedTypeName name ;;;
         known <- schemaComposer.has name ;;
         if known then
           typeComposer <- schemaComposer.get name ;;
           parsedType <- makeSchemaDef def ;;
           merged <- mergeTypes typeComposer parsedType plugin
                                createdFrom ;;
           schemaComposer.set (tcName merged) merged ;;;
           ret (map (fun type =>
                       if String.eqb (tcName type) (tcName merged)
                       then merged else type) types)
         else
           parsedType <- makeSchemaDef def ;;
           ret (types ++ [asComposer parsedType])%list) types w
    = (Ok (types ++ map asComposer (map defComposer doc))%list, w')
    /\ mustHave w' = mustHave w
    /\ directiveDefs w' = directiveDefs w
    /\ reports w' = reports w
    /\ (forall name, ~ In name (map defName doc) ->
                     Obj.get name (registry w')
                     = Obj.get name (registry w)).
Proof.
  induction doc as [|def doc IH]; intros types w H ND.
  - exists w. simpl. rewrite app_nil_r. repeat split; auto.
  - destruct (H def (or_introl eq_refl)) as [N [A U]].
    simpl in ND. inversion ND as [|? ? NI ND']; subst.
    set (w1 := mkWorld (Obj.set (addedName (defComposer def))
                          (asComposer (defComposer def)) (registry w))
                       (mustHave w) (directiveDefs w) (reports w)).
    destruct (IH (types ++ [asComposer (defComposer def)])%list w1)
      as [w' [E' [M' [D' [R' O']]]]]; [|exact ND'|].
    { intros d I. destruct (H d (or_intror I)) as [N' [A' U']].
      split; [exact N'|]. split; [exact A'|].
      unfold w1. cbn [registry]. rewrite has_set, U'.
      rewrite <- N. rewrite (eqb_neq_false); [reflexivity|].
      intros X. apply NI. rewrite X. now apply in_map. }
    exists w'. split; [|split; [|split; [|split]]].
    + cbn [forEach]. unfold bind at 1. cbv zeta. unfold bind at 1.
      rewrite (checkIsAllowedTypeName_allowed w A).
      unfold bind at 1. unfold schemaComposer.has at 1. rewrite U.
      unfold bind at 1. unfold makeSchemaDef, bind at 1.
      unfold schemaComposer.set at 1. unfold ret at 1. unfold ret at 1.
      fold w1. cbn [map]. rewrite <- app_assoc in E'. exact E'.
    + exact M'.
    + exact D'.
    + exact R'.
    + cbn [map]. intros name NI'.
      rewrite O' by (intros X; apply NI'; now right).
      unfold w1. cbn [registry]. apply get_set_ne.
      rewrite <- N. intros X. apply NI'. now left.
Qed.

Lemma forEach__map A B (g : A -> B) (f : B -> M unit) l w :
  forEach_ (map g l) f w = forEach_ l (fun x => f (g x)) w.
Proof.
  revert w. induction l as [|x l IH]; intros w; simpl; auto.
  unfold bind. destruct (f (g x) w) as [[u|m|m] w1]; auto.
Qed.

Lemma addType_SDL_parsed doc plugin w types w1 :
  parseTypes doc plugin "sdl" w = (Ok types, w1) ->
  addType (SDL doc, plugin) w
  = forEach_ types
      (fun type => processAddedComposer type "sdl" plugin ;;; ret tt) w1.
Proof.
  intros P. unfold addType. cbn [fst snd]. unfold bind at 1.
  unfold tryCatch. unfold bind at 1. rewrite P. reflexivity.
Qed.

(** X15. A document whose definitions have names that pass the name
    check, are not in the registry and differ from one another, and none
    of which is an interface, is added as a whole: [addTypes] returns
    without handing anything to the reporter of parsing errors, each
    definition is registered under its name with its kind, the names are
    added, in the order of the document, to the types the schema must
    have, and no other name of the registry is touched. *)
Theorem addTypes_registers_a_document doc plugin w :
  (forall def, In def doc ->
               defName def = addedName (defComposer def)
               /\ allowedTypeName (defName def)
               /\ Obj.has (defName def) (registry w) = false
               /\ tcKind (asComposer (defComposer def)) <> KInterface) ->
  NoDup (map defName doc) ->
  exists w',
    addTypes [(SDL doc, plugin)] w = (Ok tt, w')
    /\ mustHave w' = (mustHave w ++ map defName doc)%list
    /\ directiveDefs w' = directiveDefs w
    /\ (forall def,
           In def doc ->
           exists tc, Obj.get (defName def) (registry w') = Some tc
                      /\ tcName tc = defName def
                      /\ tcKind tc = tcKind (asComposer (defComposer def)))
    /\ (forall name, ~ In name (map defName doc) ->
                     Obj.get name (registry w')
                     = Obj.get name (registry w)).
Proof.
  intros H ND.
  assert (Names : map addedName (map defComposer doc) = map defName doc).
  { rewrite map_map. apply map_ext_in. intros d I.
    now destruct (H d I) as [-> _]. }
  destruct (@parseTypes_new plugin "sdl" doc [] w)
    as [w1 [P [M1 [D1 [R1 O1]]]]]; [|exact ND|].
  { intros d I. destruct (H d I) as [N [A [U _]]]. auto. }
  destruct (@processAddedTypes_run "sdl" plugin (map defComposer doc) w1)
    as [w' [E [M' [D' [G' O']]]]].
  { intros t I. apply in_map_iff in I. destruct I as [d [<- I]].
    left. now destruct (H d I) as [_ [_ [_ K]]]. }
  { now rewrite Names. }
  exists w'. split; [|split; [|split; [|split]]].
  - unfold addTypes. cbn [forEach_]. unfold bind at 1.
    rewrite (@addType_SDL_parsed doc plugin w
               (map asComposer (map defComposer doc)) w1 P).
    rewrite forEach__map.
    change (forEach_ (map defComposer doc)
              (fun type => processAddedType type "sdl" plugin ;;; ret tt)
              w1)
      with (forEach_ (map defComposer doc)
              (fun x => processAddedComposer (asComposer x) "sdl" plugin
                        ;;; ret tt) w1) in E.
    rewrite E. reflexivity.
  - rewrite M', M1, Names. reflexivity.
  - congruence.
  - intros d I.
    destruct (G' (defComposer d)) as [tc [G [N K]]];
      [now apply in_map|].
    destruct (H d I) as [Nd _]. rewrite Nd. now exists tc.
  - intros name NI. rewrite O' by now rewrite Names. now apply O1.
Qed.

(** ** [determineSearchableFields] *)

Lemma determineSearchableField_other enums f g tc :
  g <> f ->
  Obj.get g (tcFields (determineSearchableField enums f tc))
  = Obj.get g (tcFields tc).
Proof.
  intros N. unfold determineSearchableField, TC.extendFieldExtensions,
              TC.setFieldExtensions.
  now apply fields_setField_other.
Qed.

Lemma determineSearchableField_field enums f tc :
  Obj.get f (tcFields (determineSearchableField enums f tc))
  = Some (Obj.set "extensions"
            (VObj (Obj.spread
                     (fieldExtensionsOf (TC.getField f tc))
                     (searchableExtensions enums (TC.getField f tc)
                        (fieldExtensionsOf (TC.getField f tc)))))
            (TC.getField f tc)).
Proof.
  unfold determineSearchableField, TC.extendFieldExtensions,
    TC.setFieldExtensions, TC.setField. cbn [tcFields TC.setFields].
  now rewrite get_set_eq.
Qed.

Lemma determineSearchableFields_field enums tc f c :
  Obj.get f (tcFields tc) = Some c ->
  Obj.get f (tcFields (determineSearchableFields enums tc))
  = Some (Obj.set "extensions"
            (VObj (Obj.spread (fieldExtensionsOf c)
                     (searchableExtensions enums c (fieldExtensionsOf c))))
            c).
Proof.
  intros G. unfold determineSearchableFields.
  rewrite (@fold_fieldwise (determineSearchableField enums)
             (TC.getFieldNames tc) (NoDup_keys _)).
  - destruct (in_dec string_dec f (TC.getFieldNames tc)) as [I|I].
    + rewrite determineSearchableField_field.
      unfold TC.getField. now rewrite G.
    + exfalso. apply I. apply in_keys. eapply get_Some_in; eauto.
  - intros. now apply determineSearchableField_other.
  - intros g t t' E. rewrite !determineSearchableField_field.
    unfold TC.getField. now rewrite E.
Qed.

Lemma determineSearchableFields_same enums tc :
  sameButFieldExtensions tc (determineSearchableFields enums tc).
Proof.
  unfold determineSearchableFields.
  assert (G : forall names t,
             (forall f, In f names -> TC.hasField f tc = true) ->
             sameButFieldExtensions tc t ->
             sameButFieldExtensions tc
               (fold_left
                  (fun tc f => determineSearchableField enums f tc)
                  names t)).
  { induction names as [|n names IH]; intros t H S; simpl; auto.
    apply IH; [intros; apply H; now right|].
    eapply sameButFieldExtensions_trans; [exact S|].
    apply setFieldExtensions_same.
    rewrite (@sameButFieldExtensions_hasField tc t n S).
    apply H. now left. }
  apply G; [|apply sameButFieldExtensions_refl].
  intros f I. apply has_in. apply in_keys. exact I.
Qed.

Lemma searchableExtensions_values enums c e k :
  prop k (Obj.spread e (searchableExtensions enums c e))
  = if String.eqb k "searchable"
    then (if isDeprecatedSearch c e then DEPRECATED_SEARCHABLE enums
          else SEARCHABLE enums)
    else if String.eqb k "sortable"
    then (if isDeprecatedSearch c e then DEPRECATED_SORTABLE enums
          else SORTABLE enums)
    else if String.eqb k "needsResolve"
    then VBool (needsResolveOf c e)
    else prop k e.
Proof.
  unfold prop at 1. rewrite get_spread.
  unfold searchableExtensions, isDeprecatedSearch, needsResolveOf.
  destruct (truthy (prop "resolve" c)),
           (truthy (prop "dateformat" e)),
           (isEmpty (prop "args" c)),
           (truthy (prop "proxy" e)); cbn [Obj.get negb andb orb];
    rewrite !(String.eqb_sym _ k);
    destruct (String.eqb k "searchable"); try reflexivity;
    destruct (String.eqb k "sortable"); try reflexivity;
    destruct (String.eqb k "needsResolve"); reflexivity.
Qed.

Lemma determineSearchableFields_extension enums tc f c k :
  Obj.get f (tcFields tc) = Some c ->
  TC.getFieldExtension f k (determineSearchableFields enums tc)
  = prop k (Obj.spread (fieldExtensionsOf c)
              (searchableExtensions enums c (fieldExtensionsOf c))).
Proof.
  intros G. rewrite getFieldExtension_field. unfold TC.getField.
  rewrite (determineSearchableFields_field enums _ _ G).
  unfold fieldExtensionsOf at 1. now rewrite prop_set.
Qed.

(** X16. [determineSearchableFields] sets three extensions on every
    field and nothing else.  [needsResolve] is true exactly for a field
    with a resolver that is no [dateformat] field, or is one with
    [proxy]; [searchable] and [sortable] are the deprecated values
    exactly for a field with a resolver and arguments that is no
    [dateformat] field, and the plain values otherwise.  The other
    extensions of the field, its type, arguments and resolver, the order
    of the fields and the type itself stay, and a second run changes no
    extension of the field. *)
Theorem determineSearchableFields_classifies enums tc f c :
  Obj.get f (tcFields tc) = Some c ->
  let e := fieldExtensionsOf c in
  let tc' := determineSearchableFields enums tc in
  TC.getFieldExtension f "needsResolve" tc' = VBool (needsResolveOf c e)
  /\ TC.getFieldExtension f "searchable" tc'
     = (if isDeprecatedSearch c e then DEPRECATED_SEARCHABLE enums
        else SEARCHABLE enums)
  /\ TC.getFieldExtension f "sortable" tc'
     = (if isDeprecatedSearch c e then DEPRECATED_SORTABLE enums
        else SORTABLE enums)
  /\ (forall k, k <> "searchable" -> k <> "sortable" ->
                k <> "needsResolve" ->
                TC.getFieldExtension f k tc' = prop k e)
  /\ (forall k, k <> "extensions" ->
                Obj.get k (TC.getField f tc') = Obj.get k c)
  /\ sameButFieldExtensions tc tc'
  /\ forall k, TC.getFieldExtension f k
                 (determineSearchableFields enums tc')
               = TC.getFieldExtension f k tc'.
Proof.
  intros G. cbv zeta.
  pose proof (determineSearchableFields_same enums tc) as S.
  pose proof (determineSearchableFields_field enums _ _ G) as G'.
  assert (V : forall k,
             TC.getFieldExtension f k (determineSearchableFields enums tc)
             = prop k (Obj.spread (fieldExtensionsOf c)
                         (searchableExtensions enums c
                            (fieldExtensionsOf c))))
    by (intros k; now apply determineSearchableFields_extension).
  assert (P : forall k, k <> "extensions" ->
             Obj.get k (TC.getField f
                          (determineSearchableFields enums tc))
             = Obj.get k c).
  { intros k N. destruct S as [_ [_ [_ [_ [_ S]]]]].
    rewrite (S f k N). unfold TC.getField. now rewrite G. }
  split; [rewrite V; now rewrite searchableExtensions_values|].
  split; [rewrite V; now rewrite searchableExtensions_values|].
  split; [rewrite V; now rewrite searchableExtensions_values|].
  split.
  { intros k N1 N2 N3. rewrite V, searchableExtensions_values.
    now rewrite (eqb_neq_false N1), (eqb_neq_false N2),
      (eqb_neq_false N3). }
  split; [exact P|]. split; [exact S|].
  intros k.
  rewrite (determineSearchableFields_extension enums _ _ k G'), V.
  set (e := fieldExtensionsOf c).
  set (e' := Obj.spread e (searchableExtensions enums c e)).
  set (c' := Obj.set "extensions" (VObj e') c).
  assert (E' : fieldExtensionsOf c' = e').
  { unfold fieldExtensionsOf, c'. now rewrite prop_set. }
  rewrite E'.
  assert (R : prop "resolve" c' = prop "resolve" c)
    by (unfold c'; now rewrite prop_set).
  assert (A : prop "args" c' = prop "args" c)
    by (unfold c'; now rewrite prop_set).
  assert (D : prop "dateformat" e' = prop "dateformat" e)
    by (unfold e'; now rewrite searchableExtensions_values).
  assert (X : prop "proxy" e' = prop "proxy" e)
    by (unfold e'; now rewrite searchableExtensions_values).
  assert (Dep : isDeprecatedSearch c' e' = isDeprecatedSearch c e)
    by (unfold isDeprecatedSearch; now rewrite R, A, D).
  assert (Nr : needsResolveOf c' e' = needsResolveOf c e)
    by (unfold needsResolveOf; now rewrite R, D, X).
  rewrite searchableExtensions_values, Dep, Nr.
  unfold e'. rewrite searchableExtensions_values.
  destruct (String.eqb k "searchable"); [reflexivity|].
  destruct (String.eqb k "sortable"); [reflexivity|].
  destruct (String.eqb k "needsResolve"); reflexivity.
Qed.

(** ** [attachTracingResolver] *)

(** X17. The tracing pass gives every field of an object or interface
    type a resolver: the wrapped resolver of the field where it had one,
    the default resolver where it had none.  It changes nothing else of a
    field, neither adds nor removes nor reorders fields, and leaves a
    composer of any other kind as it is. *)
Theorem attachTracingResolver_resolves_every_field wrappingResolver
        defaultResolver tc :
  let tc' := attachTracingResolverTo wrappingResolver defaultResolver tc in
  (tcKind tc <> KObject -> tcKind tc <> KInterface -> tc' = tc)
  /\ (tcKind tc = KObject \/ tcKind tc = KInterface ->
      map fst (tcFields tc') = map fst (tcFields tc)
      /\ sameButFields tc tc'
      /\ forall f c,
          Obj.get f (tcFields tc) = Some c ->
          exists c',
            Obj.get f (tcFields tc') = Some c'
            /\ prop "resolve" c'
               = (if truthy (prop "resolve" c)
                  then wrappingResolver (prop "resolve" c)
                  else defaultResolver)
            /\ forall k, k <> "resolve" -> Obj.get k c' = Obj.get k c).
Proof.
  cbv zeta. unfold attachTracingResolverTo. split.
  - intros N1 N2. destruct (tcKind tc); try reflexivity; contradiction.
  - set (step := fun fieldName tc =>
                   TC.extendField fieldName
                     [("resolve",
                       if truthy (prop "resolve" (TC.getField fieldName tc))
                       then wrappingResolver
                              (prop "resolve" (TC.getField fieldName tc))
                       else defaultResolver)] tc).
    assert (Loop : forall names t,
               (forall f, In f names -> TC.hasField f tc = true) ->
               map fst (tcFields t) = map fst (tcFields tc) ->
               sameButFields tc t ->
               map fst (tcFields (fold_left (fun tc f => step f tc)
                                            names t))
               = map fst (tcFields tc)
               /\ sameButFields tc
                    (fold_left (fun tc f => step f tc) names t)).
    { induction names as [|n names IH]; intros t H M S; simpl; auto.
      apply IH; [intros; apply H; now right| |].
      - rewrite <- M. unfold step, TC.extendField, TC.setField.
        cbn [tcFields TC.setFields]. apply map_fst_set_has.
        apply has_in. rewrite M. apply has_in. apply H. now left.
      - destruct S as [S1 [S2 [S3 S4]]]. repeat split; assumption. }
    assert (Field : forall f c,
               Obj.get f (tcFields tc) = Some c ->
               Obj.get f (tcFields
                            (fold_left (fun tc f => step f tc)
                                       (TC.getFieldNames tc) tc))
               = Some (Obj.spread c
                         [("resolve",
                           if truthy (prop "resolve" c)
                           then wrappingResolver (prop "resolve" c)
                           else defaultResolver)])).
    { intros f c G.
      rewrite (@fold_fieldwise step (TC.getFieldNames tc)
                 (NoDup_keys _)).
      - destruct (in_dec string_dec f (TC.getFieldNames tc)) as [I|I].
        + unfold step, TC.extendField, TC.setField.
          cbn [tcFields TC.setFields]. rewrite get_set_eq.
          unfold TC.getField. now rewrite G.
        + exfalso. apply I. apply in_keys. eapply get_Some_in; eauto.
      - intros g h t N. unfold step, TC.extendField.
        now apply fields_setField_other.
      - intros g t t' E. unfold step, TC.extendField, TC.setField.
        cbn [tcFields TC.setFields]. rewrite !get_set_eq.
        unfold TC.getField. now rewrite E. }
    intros K.
    assert (R : (match tcKind tc with
                 | KObject | KInterface =>
                     fold_left (fun tc f => step f tc)
                               (TC.getFieldNames tc) tc
                 | _ => tc
                 end)
                = fold_left (fun tc f => step f tc)
                            (TC.getFieldNames tc) tc)
      by (destruct K as [-> | ->]; reflexivity).
    unfold step in R at 1 2. rewrite R. fold step.
    destruct (Loop (TC.getFieldNames tc) tc) as [M S];
      [|reflexivity|apply sameButFields_refl|].
    { intros f I. apply has_in. apply in_keys. exact I. }
    split; [exact M|]. split; [exact S|].
    intros f c G. eexists. split; [apply (Field f c G)|]. split.
    + unfold prop at 1. rewrite get_spread. reflexivity.
    + intros k N. rewrite get_spread. cbn [Obj.get].
      now rewrite (eqb_neq_false (not_eq_sym N)).
Qed.

(** ** Definitions of types the registry has *)

Lemma mergeTypes_run tc type plugin createdFrom w fields ifaces :
  isObjectOrInterfaceType type = true ->
  incomingFieldConfigs type = Ok fields ->
  (forall w0, incomingInterfaces type w0 = (Ok ifaces, w0)) ->
  tcKind tc = KObject
  \/ (tcKind tc = KInterface /\ ifaces = []
      /\ String.eqb createdFrom "sdl" = false) ->
  exists tc' w',
    mergeTypes tc type plugin createdFrom w = (Ok tc', w')
    /\ mergedWith tc fields ifaces tc'
    /\ sameButReports w w'
    /\ tcName tc' = tcName tc /\ tcKind tc' = tcKind tc.
Proof.
  intros T C I K.
  destruct (warnUnsafeMerge_returns tc plugin w) as [w0 [W S0]].
  destruct (@mergeInto_returns tc type plugin createdFrom w0 fields ifaces
              T C (I w0) K) as [tc' [w' E]].
  destruct (@mergeInto_inv tc type plugin createdFrom w0 fields ifaces
              tc' w' T C (I w0) E) as [MA S1].
  exists tc', w'.
  split; [unfold mergeTypes, bind; now rewrite W|].
  split; [exact MA|].
  split; [eapply sameButReports_trans; eauto|].
  unfold mergeInto, bind in E.
  destruct (mergeDefinition type tc w0) as [[tcM|x|x] wM] eqn:EM;
    try discriminate.
  destruct (@mergeDefinition_inv type tc w0 fields ifaces tcM wM T C
              (I w0) EM)
    as [_ [Mn [Mk _]]].
  apply addExtensions_inv in E.
  destruct E as [tcD [[Dn [Dk _]] [[Sn [Sk _]] _]]].
  split.
  - rewrite Sn, Dn. now destruct (namedTypeComposerExtensions type).
  - rewrite Sk, Dk. now destruct (namedTypeComposerExtensions type).
Qed.

(** X18. A definition of a document whose name is registered as an
    object type extends that type in place: [addTypes] returns, the
    registry has under the name the record that was there with the
    definition merged into it, not the composer parsed from the
    definition; the name is not added again to the types the schema must
    have, and no other name of the registry is touched. *)
Theorem addTypes_document_extends_registered_type def plugin tc ifaces w :
  defName def = addedName (defComposer def) ->
  allowedTypeName (defName def) ->
  Obj.get (defName def) (registry w) = Some tc ->
  tcName tc = defName def ->
  tcKind tc = KObject ->
  isObjectOrInterfaceType (defComposer def) = true ->
  (forall w0, incomingInterfaces (defComposer def) w0 = (Ok ifaces, w0)) ->
  exists tc' w',
    addTypes [(SDL [def], plugin)] w = (Ok tt, w')
    /\ Obj.get (defName def) (registry w') = Some tc'
    /\ mergedAs tc (defComposer def) ifaces tc'
    /\ tcName tc' = tcName tc /\ tcKind tc' = KObject
    /\ mustHave w' = mustHave w
    /\ directiveDefs w' = directiveDefs w
    /\ forall name, name <> defName def ->
                    Obj.get name (registry w')
                    = Obj.get name (registry w).
Proof.
  intros N A G Nt K T I.
  set (w1 := mkWorld (Obj.set (addedName (defComposer def))
                        (asComposer (defComposer def)) (registry w))
                     (mustHave w) (directiveDefs w) (reports w)).
  destruct (@mergeTypes_run tc (defComposer def) plugin "sdl" w1
              (incomingFields (defComposer def)) ifaces T
              (incomingFieldConfigs_composer _ (defIsComposer def))
              I (or_introl K))
    as [tc' [w2 [E [MA [[R2 [M2 D2]] [Nn Kk]]]]]].
  set (w3 := mkWorld (Obj.set (tcName tc') tc' (registry w2))
                     (mustHave w2) (directiveDefs w2) (reports w2)).
  assert (P : parseTypes [def] plugin "sdl" w = (Ok [], w3)).
  { unfold parseTypes. cbn [forEach]. unfold bind at 1. cbv zeta.
    unfold bind at 1. rewrite (checkIsAllowedTypeName_allowed w A).
    unfold bind at 1. unfold schemaComposer.has at 1.
    unfold Obj.has. rewrite G.
    unfold bind at 1. unfold schemaComposer.get at 1. rewrite G.
    unfold bind at 1. unfold makeSchemaDef, bind at 1.
    unfold schemaComposer.set at 1. unfold ret at 1.
    fold w1. unfold bind at 1. rewrite E.
    unfold bind at 1. unfold schemaComposer.set at 1.
    reflexivity. }
  exists tc', w3. split.
  { unfold addTypes. cbn [forEach_]. unfold bind at 1.
    rewrite (@addType_SDL_parsed [def] plugin w [] w3 P).
    reflexivity. }
  unfold w3. cbn [registry mustHave directiveDefs].
  split; [rewrite Nn, Nt; apply get_set_eq|].
  split; [exact MA|]. split; [exact Nn|]. split; [congruence|].
  split; [rewrite M2; reflexivity|]. split; [rewrite D2; reflexivity|].
  intros name Nd. rewrite get_set_ne by congruence.
  rewrite R2. unfold w1. cbn [registry]. apply get_set_ne. congruence.
Qed.


(** ** The deprecation warnings of the convenience fields *)

Lemma reportedAll_nil w : reportedAll [] w = w.
Proof. destruct w. unfold reportedAll. simpl. now rewrite app_nil_r. Qed.

Lemma reportedAll_app a b w :
  reportedAll b (reportedAll a w) = reportedAll (a ++ b) w.
Proof. unfold reportedAll. simpl. now rewrite app_assoc. Qed.





(** ** The order of the fields after a merge *)

Lemma mergeFields_order w (l : list (string * JSObj)) : forall tc,
  hasFieldMethods (tcKind tc) = true ->
  NoDup (map fst l) ->
  exists tc',
    forEach l
      (fun entry tc =>
         let fieldName := fst entry in
         let fieldConfig := snd entry in
         if hasFieldMethods (tcKind tc) then
           if TC.hasField fieldName tc
           then ret (TC.extendField fieldName fieldConfig tc)
           else ret (TC.setField fieldName fieldConfig tc)
         else throw "TypeError: typeComposer.hasField is not a function")
      tc w = (Ok tc', w)
    /\ map fst (tcFields tc')
       = (map fst (tcFields tc)
          ++ filter (fun k => negb (Obj.has k (tcFields tc)))
                    (map fst l))%list.
Proof.
  induction l as [|[f c] l IH]; intros tc K ND.
  - exists tc. simpl. now rewrite app_nil_r.
  - simpl in ND. inversion ND as [|? ? NI ND']; subst.
    set (tc1 := TC.setField f
                  (if TC.hasField f tc
                   then TC.extended (TC.getField f tc) c else c) tc).
    assert (K1 : hasFieldMethods (tcKind tc1) = true) by exact K.
    destruct (IH tc1 K1 ND') as [tc' [E M]].
    exists tc'. split.
    + cbn [forEach]. unfold bind at 1. cbv zeta. cbn [fst snd].
      rewrite K. unfold tc1 in E.
      destruct (TC.hasField f tc); unfold ret at 1; exact E.
    + rewrite M. cbn [map fst filter].
      assert (F : filter (fun k => negb (Obj.has k (tcFields tc1)))
                         (map fst l)
                  = filter (fun k => negb (Obj.has k (tcFields tc)))
                           (map fst l)).
      { apply filter_ext_in'. intros k I. unfold tc1, TC.setField.
        cbn [tcFields TC.setFields]. rewrite has_set.
        rewrite eqb_neq_false; [reflexivity|].
        intros X. apply NI. now rewrite X. }
      rewrite F. unfold tc1, TC.setField. cbn [tcFields TC.setFields].
      unfold TC.hasField.
      destruct (Obj.has f (tcFields tc)) eqn:H; cbn [negb].
      * now rewrite map_fst_set_has by exact H.
      * rewrite map_fst_set_new by exact H.
        now rewrite <- app_assoc.
Qed.

(** X21. [mergeFields] into an object, interface or input object type
    keeps the fields the type has in their places and puts the fields
    that are new after them, in the order in which the incoming
    definition has them. *)
Theorem mergeFields_keeps_the_field_order fields tc w :
  hasFieldMethods (tcKind tc) = true ->
  exists tc',
    mergeFields fields tc w = (Ok tc', w)
    /\ map fst (tcFields tc')
       = (map fst (tcFields tc)
          ++ filter (fun k => negb (Obj.has k (tcFields tc)))
                    (Obj.keys fields))%list.
Proof.
  intros K. unfold mergeFields.
  destruct (@mergeFields_order w (Obj.entries fields) tc K
              (NoDup_entries fields)) as [tc' [E M]].
  exists tc'. split; [exact E|].
  now rewrite <- map_fst_entries.
Qed.

(** ** Several third-party schemas *)

Lemma importedWorld_rest schema q w :
  directiveDefs (importedWorld schema q w) = directiveDefs w
  /\ reports (importedWorld schema q w) = reports w.
Proof.
  unfold importedWorld. cbv zeta.
  match goal with
  | |- context [fold_left ?f ?l ?w1] =>
      destruct (importStep_fold_rest (tcName q) l w1) as [D R]
  end.
  rewrite D, R. split; reflexivity.
Qed.

Lemma addThirdPartySchemas_run schemas : forall done w,
  (forall schema, In schema schemas ->
                  exists q,
                    Obj.get (queryTypeName schema) (typeMap schema)
                    = Some q
                    /\ wellFormedSchema schema) ->
  exists done' w',
    forEach schemas
      (fun schema done =>
         schema' <- addThirdPartySchema schema ;;
         ret (done ++ [schema'])%list) done w = (Ok done', w')
    /\ mustHave w'
       = (mustHave w
          ++ flat_map
               (fun schema =>
                  filter (isImportedName (queryTypeName schema))
                         (Obj.keys (typeMap schema))) schemas)%list
    /\ directiveDefs w' = directiveDefs w
    /\ reports w' = reports w
    /\ (forall name, Obj.has name (registry w) = true ->
                     Obj.has name (registry w') = true)
    /\ (schemas <> [] -> Obj.has "Query" (registry w') = true)
    /\ forall schema name,
        In schema schemas ->
        In name (filter (isImportedName (queryTypeName schema))
                        (Obj.keys (typeMap schema))) ->
        Obj.has name (registry w') = true.
Proof.
  induction schemas as [|schema schemas IH]; intros done w H.
  - exists done, w. simpl. rewrite app_nil_r.
    repeat split; auto; try contradiction.
  - destruct (H schema (or_introl eq_refl)) as [q [G WF]].
    destruct (@addThirdPartySchema_run schema w q G WF) as [types R].
    set (w1 := importedWorld schema q w) in *.
    destruct (IH (done ++ [mkSchema (queryTypeName schema) types])%list
                 w1)
      as [done' [w' [E [M [D [Rp [Keep [_ Imp]]]]]]]].
    { intros s I. apply H. now right. }
    assert (H1 : forall name,
               Obj.has name (registry w1)
               = Str.includes name
                   (filter (isImportedName (queryTypeName schema))
                           (Obj.keys (typeMap schema)))
                 || (String.eqb "Query" name
                     || Obj.has name (registry w)))
      by (intros name; now apply importedWorld_has).
    destruct (importedWorld_rest schema q w) as [D1 R1].
    exists done', w'. split.
    { cbn [forEach]. unfold bind at 1. unfold bind at 1.
      rewrite R. unfold ret at 1. exact E. }
    split.
    { rewrite M. unfold w1.
      rewrite (importedWorld_mustHave w G WF).
      cbn [flat_map]. now rewrite <- app_assoc. }
    split; [fold w1 in D1; congruence|].
    split; [fold w1 in R1; congruence|].
    split.
    { intros name Hn. apply Keep. rewrite H1, Hn.
      now rewrite !orb_true_r. }
    split.
    { intros _. apply Keep. rewrite H1. rewrite String.eqb_refl.
      now rewrite orb_true_r. }
    intros s name [<-|I] In'.
    + apply Keep. rewrite H1.
      apply includes_In in In'. now rewrite In'.
    + now apply (Imp s name I).
Qed.

(** X22. Third-party schemas that have their query type and are well
    formed are all imported, one after the other: [addThirdPartySchemas]
    returns, the types the schema must have are the ones before followed
    by the imported types of each schema in turn, every name that was in
    the registry is still there, [Query] and every imported type are
    there, and nothing is reported. *)
Theorem addThirdPartySchemas_imports_each schemas w :
  (forall schema, In schema schemas ->
                  exists q,
                    Obj.get (queryTypeName schema) (typeMap schema)
                    = Some q
                    /\ wellFormedSchema schema) ->
  exists schemas' w',
    addThirdPartySchemas schemas w = (Ok schemas', w')
    /\ mustHave w'
       = (mustHave w
          ++ flat_map
               (fun schema =>
                  filter (isImportedName (queryTypeName schema))
                         (Obj.keys (typeMap schema))) schemas)%list
    /\ directiveDefs w' = directiveDefs w
    /\ reports w' = reports w
    /\ (forall name, Obj.has name (registry w) = true ->
                     Obj.has name (registry w') = true)
    /\ (schemas <> [] -> Obj.has "Query" (registry w') = true)
    /\ forall schema name,
        In schema schemas ->
        In name (filter (isImportedName (queryTypeName schema))
                        (Obj.keys (typeMap schema))) ->
        Obj.has name (registry w') = true.
Proof. intros H. unfold addThirdPartySchemas. now apply addThirdPartySchemas_run. Qed.

(** ** [addConvenienceChildrenFields] *)

Lemma sameValueZero_str_r x s :
  sameValueZero x (VStr s) = true -> x = VStr s.
Proof.
  destruct x; simpl; try discriminate.
  intros E. apply String.eqb_eq in E. now subst.
Qed.

Lemma sameValueZero_str_l x s :
  sameValueZero (VStr s) x = true -> x = VStr s.
Proof.
  destruct x; simpl; try discriminate.
  intros E. apply String.eqb_eq in E. now subst.
Qed.

Lemma sameValueZero_str s : sameValueZero (VStr s) (VStr s) = true.
Proof. simpl. apply String.eqb_refl. Qed.

Lemma mapGet_In V k (m : list (JSVal * V)) v :
  mapGet k m = Some v ->
  exists k', In (k', v) m /\ sameValueZero k' k = true.
Proof.
  induction m as [|[k' v'] m IH]; simpl; [discriminate|].
  destruct (sameValueZero k' k) eqn:E.
  - intros [= <-]. exists k'. auto.
  - intros G. destruct (IH G) as [k2 [I S]]. exists k2. auto.
Qed.

Lemma mapGet_In_str V s (m : list (JSVal * V)) v :
  mapGet (VStr s) m = Some v -> In (VStr s, v) m.
Proof.
  intros G. destruct (mapGet_In _ _ G) as [k' [I S]].
  apply sameValueZero_str_r in S. now subst.
Qed.

Lemma mapGet_set_same V s (v : V) m :
  mapGet (VStr s) (mapSet (VStr s) v m) = Some v.
Proof.
  induction m as [|[k' v'] m IH]; simpl.
  - now rewrite String.eqb_refl.
  - destruct (sameValueZero k' (VStr s)) eqn:E; simpl; now rewrite E.
Qed.

Lemma mapGet_set_other V s k (v : V) m :
  k <> VStr s ->
  mapGet (VStr s) (mapSet k v m) = mapGet (VStr s) m.
Proof.
  intros N. induction m as [|[k' v'] m IH]; simpl.
  - destruct (sameValueZero k (VStr s)) eqn:E; auto.
    apply sameValueZero_str_r in E. contradiction.
  - destruct (sameValueZero k' k) eqn:E; simpl.
    + destruct (sameValueZero k' (VStr s)) eqn:E2; auto.
      apply sameValueZero_str_r in E2. subst k'.
      apply sameValueZero_str_l in E. now subst.
    + destruct (sameValueZero k' (VStr s)); auto.
Qed.

Lemma mapSet_In V s (v : V) m k0 v0 :
  In (k0, v0) (mapSet (VStr s) v m) ->
  In (k0, v0) m \/ (v0 = v /\ k0 = VStr s).
Proof.
  induction m as [|[k' v'] m IH]; simpl.
  - intros [ [= <- <-] | [] ]. right. auto.
  - destruct (sameValueZero k' (VStr s)) eqn:E; simpl.
    + intros [ [= <- <-] | I ]; [|auto].
      right. split; auto. now apply sameValueZero_str_r.
    + intros [ [= <- <-] | I ]; [auto|].
      destruct (IH I) as [I'|X]; auto.
Qed.

(** *** Sets of names *)

Lemma setAdd_In s l x :
  In x (setAdd (VStr s) l) <-> In x l \/ x = VStr s.
Proof.
  unfold setAdd.
  destruct (existsb (fun y => sameValueZero y (VStr s)) l) eqn:E.
  - split; [auto|]. intros [I| ->]; auto.
    apply existsb_exists in E. destruct E as [y [I S]].
    apply sameValueZero_str_r in S. now subst.
  - rewrite in_app_iff. simpl. split.
    + intros [I|[<-|[]]]; auto.
    + intros [I| ->]; auto.
Qed.

Lemma fold_setAdd_In items : forall acc x,
  forallb isString items = true ->
  (In x (fold_left (fun s y => setAdd y s) items acc)
   <-> In x acc \/ In x items).
Proof.
  induction items as [|y items IH]; intros acc x F; simpl.
  - tauto'.
  - simpl in F. apply andb_true_iff in F. destruct F as [Y F].
    destruct y; try discriminate Y.
    rewrite (IH _ _ F), setAdd_In. split.
    + intros [[I| ->]|I]; auto.
    + intros [I|[<-|I]]; auto.
Qed.

Lemma isString_inv x : isString x = true -> exists s, x = VStr s.
Proof. destruct x; try discriminate. intros _. now eexists. Qed.

Lemma lists_In s items :
  lists s (VArr items) = true <-> In (VStr s) items.
Proof.
  unfold lists. simpl. rewrite existsb_exists. split.
  - intros [x [I E]]. destruct x; try discriminate E.
    simpl in E. apply String.eqb_eq in E. now subst.
  - intros I. exists (VStr s). split; auto. simpl. apply String.eqb_refl.
Qed.

Lemma newSet_names v :
  namesOrMissing v = true ->
  exists l,
    (forall w, newSet v w = (Ok l, w))
    /\ (forall x, In x l -> exists s, x = VStr s)
    /\ (forall s, In (VStr s) l <-> lists s v = true).
Proof.
  destruct v; try discriminate; intros N; simpl in N.
  - exists []. repeat split; try contradiction. discriminate.
  - exists []. repeat split; try contradiction. discriminate.
  - exists (fold_left (fun s y => setAdd y s) items []).
    split; [reflexivity|]. split.
    + intros x I. apply (fold_setAdd_In items [] x N) in I.
      destruct I as [[]|I].
      apply isString_inv.
      rewrite forallb_forall in N. now apply N.
    + intros s. rewrite (fold_setAdd_In items [] _ N), lists_In.
      simpl. tauto'.
Qed.

(** *** The maps *)

Lemma addChild_str key type many p map w :
  exists map',
    addChild key type many (VStr p) map w = (Ok map', w)
    /\ holds map' p key (tcName type, many)
    /\ (forall q key0 v,
           holds map q key0 v -> key0 <> key \/ q <> p ->
           holds map' q key0 v)
    /\ (forall k ch, In (k, ch) map' ->
                     k = VStr p \/ exists ch0, In (k, ch0) map).
Proof.
  unfold addChild, mapHas.
  destruct (mapGet (VStr p) map) as [ch0|] eqn:G.
  - rewrite G. eexists. split; [reflexivity|]. split.
    { exists (Obj.set key (tcName type, many) ch0).
      split; [apply mapGet_set_same | apply get_set_eq]. }
    split.
    { intros q key0 v [ch [Gq Gk]] N.
      destruct (string_dec q p) as [->|Nq].
      - destruct N as [N|N]; [|contradiction].
        rewrite G in Gq. injection Gq as <-.
        exists (Obj.set key (tcName type, many) ch0).
        split; [apply mapGet_set_same|].
        rewrite get_set_ne; auto.
      - exists ch. split; [|exact Gk].
        rewrite mapGet_set_other; auto. congruence. }
    intros k ch I. apply mapSet_In in I.
    destruct I as [I|[_ ->]]; eauto.
  - rewrite mapGet_set_same. eexists. split; [reflexivity|]. split.
    { exists (Obj.set key (tcName type, many) []).
      split; [apply mapGet_set_same | apply get_set_eq]. }
    split.
    { intros q key0 v [ch [Gq Gk]] N.
      destruct (string_dec q p) as [->|Nq]; [congruence|].
      exists ch. split; [|exact Gk].
      rewrite !mapGet_set_other; auto; congruence. }
    intros k ch I. apply mapSet_In in I.
    destruct I as [I|[_ ->]]; auto.
    apply mapSet_In in I. destruct I as [I|[_ ->]]; eauto.
Qed.

Lemma addChild_loop key type many types : forall map w,
  (forall x, In x types -> exists s, x = VStr s) ->
  exists map',
    forEach types (addChild key type many) map w = (Ok map', w)
    /\ (forall p, In (VStr p) types ->
                  holds map' p key (tcName type, many))
    /\ (forall q key0 v,
           holds map q key0 v ->
           key0 <> key \/ ~ In (VStr q) types
           \/ v = (tcName type, many) ->
           holds map' q key0 v)
    /\ (forall k ch, In (k, ch) map' ->
                     In k types \/ exists ch0, In (k, ch0) map).
Proof.
  induction types as [|x types IH]; intros map w S.
  - exists map. simpl. repeat split; auto; try contradiction. eauto.
  - destruct (S x (or_introl eq_refl)) as [p ->].
    destruct (addChild_str key type many p map w)
      as [map1 [E1 [A1 [B1 C1]]]].
    destruct (IH map1 w (fun y I => S y (or_intror I)))
      as [map' [E [A [B C]]]].
    assert (B' : forall q key0 v,
               holds map q key0 v ->
               key0 <> key \/ ~ In (VStr q) (VStr p :: types)
               \/ v = (tcName type, many) ->
               holds map' q key0 v).
    { intros q key0 v H N.
      destruct (string_dec key0 key) as [->|Nk].
      - destruct N as [N|[N|N]]; [contradiction| |].
        + apply B; [|right; left; intros I; apply N; now right].
          apply B1; auto. right. intros ->. apply N. now left.
        + subst v. apply B; [|auto].
          destruct (string_dec q p) as [->|Nq]; [exact A1|].
          apply B1; auto.
      - apply B; auto. }
    exists map'. split.
    { cbn [forEach]. unfold bind. now rewrite E1. }
    split.
    { intros q [[= <-]|I]; [|now apply A].
      apply B; auto. }
    split; [exact B'|].
    intros k ch I. destruct (C k ch I) as [I'|[ch0 I']].
    + left. now right.
    + destruct (C1 k ch0 I') as [->|X]; [left; now left | now right].
Qed.

Lemma addComposer_In key s key0 :
  In key0 (addComposer key s) <-> In key0 s \/ key0 = key.
Proof.
  unfold addComposer. destruct (Str.includes key s) eqn:E.
  - split; [auto|]. intros [I| ->]; auto. now apply includes_In.
  - rewrite in_app_iff. simpl. split.
    + intros [I|[<-|[]]]; auto.
    + intros [I| ->]; auto.
Qed.

Lemma addHandler_str key m handling w :
  exists handling',
    addHandler key (VStr m) handling w = (Ok handling', w)
    /\ handled handling' m key
    /\ (forall q key0, handled handling q key0 ->
                       handled handling' q key0)
    /\ (forall k keys key0,
           In (k, keys) handling' -> In key0 keys ->
           key0 = key
           \/ exists keys0, In (k, keys0) handling /\ In key0 keys0).
Proof.
  unfold addHandler, mapHas.
  destruct (mapGet (VStr m) handling) as [s0|] eqn:G.
  - rewrite G. eexists. split; [reflexivity|]. split.
    { exists (addComposer key s0).
      split; [apply mapGet_set_same | apply addComposer_In; auto]. }
    split.
    { intros q key0 [s [Gq I]].
      destruct (string_dec q m) as [->|Nq].
      - rewrite G in Gq. injection Gq as <-.
        exists (addComposer key s0).
        split; [apply mapGet_set_same | apply addComposer_In; auto].
      - exists s. split; [|exact I].
        rewrite mapGet_set_other; auto. congruence. }
    intros k keys key0 I Ik. apply mapSet_In in I.
    destruct I as [I|[-> ->]]; [right; eauto|].
    apply addComposer_In in Ik. destruct Ik as [Ik|Ik]; [|auto].
    right. exists s0. split; [|exact Ik]. now apply mapGet_In_str.
  - rewrite mapGet_set_same. eexists. split; [reflexivity|]. split.
    { exists (addComposer key []).
      split; [apply mapGet_set_same | apply addComposer_In; auto]. }
    split.
    { intros q key0 [s [Gq I]].
      destruct (string_dec q m) as [->|Nq]; [congruence|].
      exists s. split; [|exact I].
      rewrite !mapGet_set_other; auto; congruence. }
    intros k keys key0 I Ik. apply mapSet_In in I.
    destruct I as [I|[-> ->]].
    + apply mapSet_In in I. destruct I as [I|[-> ->]]; [right; eauto|].
      destruct Ik.
    + apply addComposer_In in Ik. destruct Ik as [[]|Ik]. auto.
Qed.

Lemma addHandler_loop key types : forall handling w,
  (forall x, In x types -> exists s, x = VStr s) ->
  exists handling',
    forEach types (addHandler key) handling w = (Ok handling', w)
    /\ (forall m, In (VStr m) types -> handled handling' m key)
    /\ (forall q key0, handled handling q key0 ->
                       handled handling' q key0)
    /\ (forall k keys key0,
           In (k, keys) handling' -> In key0 keys ->
           key0 = key
           \/ exists keys0, In (k, keys0) handling /\ In key0 keys0).
Proof.
  induction types as [|x types IH]; intros handling w S.
  - exists handling. simpl. repeat split; auto; try contradiction.
    intros k keys key0 I Ik. right. eauto.
  - destruct (S x (or_introl eq_refl)) as [m ->].
    destruct (addHandler_str key m handling w)
      as [h1 [E1 [A1 [B1 C1]]]].
    destruct (IH h1 w (fun y I => S y (or_intror I)))
      as [h' [E [A [B C]]]].
    exists h'. split.
    { cbn [forEach]. unfold bind. now rewrite E1. }
    split.
    { intros q [[= <-]|I]; [now apply B | now apply A]. }
    split; [intros q key0 H; apply B; now apply B1|].
    intros k keys key0 I Ik.
    destruct (C k keys key0 I Ik) as [->|[keys0 [I0 Ik0]]]; auto.
    exact (C1 k keys0 key0 I0 Ik0).
Qed.

(** *** The first loop *)

Lemma collectChildOf_skipped key type maps w :
  takenAsChild type = false ->
  collectChildOf key type maps w
  = (Ok maps, reportedAll (childOfReport type) w).
Proof.
  unfold collectChildOf, childOfReport, takenAsChild, isObjectOrInterface.
  destruct (tcKind type); destruct (TC.hasExtension "childOf" type);
    destruct (TC.hasInterface "Node" type);
    destruct (TC.hasExtension "nodeInterface" type);
    simpl; intros T; try discriminate T;
    try (now rewrite reportedAll_nil); reflexivity.
Qed.

Lemma childOfReport_taken type :
  takenAsChild type = true -> childOfReport type = [].
Proof.
  unfold childOfReport, takenAsChild, isObjectOrInterface.
  destruct (tcKind type); destruct (TC.hasExtension "childOf" type);
    destruct (TC.hasInterface "Node" type);
    destruct (TC.hasExtension "nodeInterface" type);
    simpl; intros T; try discriminate T; reflexivity.
Qed.

Lemma collectChildOf_taken key type maps w :
  takenAsChild type = true ->
  isNullish (TC.getExtension "childOf" type) = false ->
  namesOrMissing (propOf "types" (TC.getExtension "childOf" type))
  = true ->
  namesOrMissing (propOf "mimeTypes" (TC.getExtension "childOf" type))
  = true ->
  exists maps',
    collectChildOf key type maps w = (Ok maps', w)
    /\ (forall p, childOfType type p = true ->
                  holds (fst maps') p key (tcName type, manyOf type))
    /\ (forall m, childOfMimeType type m = true ->
                  holds (snd maps') m key (tcName type, manyOf type))
    /\ (forall q key0 v, key0 <> key -> holds (fst maps) q key0 v ->
                         holds (fst maps') q key0 v)
    /\ (forall q key0 v, key0 <> key -> holds (snd maps) q key0 v ->
                         holds (snd maps') q key0 v)
    /\ (forall k ch, In (k, ch) (fst maps') ->
                     (exists ch0, In (k, ch0) (fst maps))
                     \/ exists p, k = VStr p /\ childOfType type p = true).
Proof.
  intros T Nn Nt Nm.
  destruct (newSet_names _ Nt) as [types [Et [St Lt]]].
  destruct (newSet_names _ Nm) as [mimes [Em [Sm Lm]]].
  destruct (addChild_loop key type (manyOf type) types (fst maps) w St)
    as [parents [Ep [Ap [Bp Cp]]]].
  destruct (addChild_loop key type (manyOf type) mimes (snd maps) w Sm)
    as [mimes' [Emm [Am [Bm _]]]].
  exists (parents, mimes'). split.
  { assert (G : isObjectOrInterface type
                && TC.hasExtension "childOf" type = true
                /\ Kind_eqb (tcKind type) KObject
                   && negb (TC.hasInterface "Node" type) = false
                /\ Kind_eqb (tcKind type) KInterface
                   && negb (TC.hasExtension "nodeInterface" type) = false).
    { revert T. unfold takenAsChild, isObjectOrInterface.
      destruct (tcKind type); destruct (TC.hasExtension "childOf" type);
        destruct (TC.hasInterface "Node" type);
        destruct (TC.hasExtension "nodeInterface" type);
        simpl; intros T; try discriminate T; auto. }
    destruct G as [G1 [G2 G3]].
    unfold collectChildOf. rewrite G1, G2, G3.
    unfold bind at 1. unfold destructured. rewrite Nn.
    unfold ret at 1. unfold bind at 1. rewrite Et.
    unfold bind at 1. fold (manyOf type). rewrite Ep.
    unfold bind at 1. rewrite Em.
    unfold bind at 1. rewrite Emm. reflexivity. }
  cbn [fst snd].
  split.
  { intros p C. apply Ap. apply Lt.
    unfold childOfType in C. rewrite T in C. exact C. }
  split.
  { intros m C. apply Am. apply Lm.
    unfold childOfMimeType in C. rewrite T in C. exact C. }
  split; [intros q key0 v N H; apply Bp; auto|].
  split; [intros q key0 v N H; apply Bm; auto|].
  intros k ch I. destruct (Cp k ch I) as [I'|X]; [|auto].
  right. destruct (St k I') as [p ->]. exists p. split; auto.
  unfold childOfType. rewrite T. simpl. now apply Lt.
Qed.

Lemma readableDeclaration_childOf type :
  readableDeclaration type = true -> takenAsChild type = true ->
  isNullish (TC.getExtension "childOf" type) = false
  /\ namesOrMissing (propOf "types" (TC.getExtension "childOf" type))
     = true
  /\ namesOrMissing (propOf "mimeTypes" (TC.getExtension "childOf" type))
     = true.
Proof.
  unfold readableDeclaration. intros R T. rewrite T in R.
  apply andb_true_iff in R. destruct R as [_ R]. simpl in R.
  apply andb_true_iff in R. destruct R as [R R3].
  apply andb_true_iff in R. destruct R as [R1 R2].
  apply negb_true_iff in R1. auto.
Qed.

Lemma readableDeclaration_mimeTypes type :
  readableDeclaration type = true ->
  isObjectOrInterface type && TC.hasExtension "mimeTypes" type = true ->
  isNullish (TC.getExtension "mimeTypes" type) = false
  /\ namesOrMissing (propOf "types" (TC.getExtension "mimeTypes" type))
     = true.
Proof.
  unfold readableDeclaration. intros R T. rewrite T in R.
  apply andb_true_iff in R. destruct R as [R _]. simpl in R.
  apply andb_true_iff in R. destruct R as [R1 R2].
  apply negb_true_iff in R1. auto.
Qed.

Lemma collectMimeTypes_spec key type handling w :
  readableDeclaration type = true ->
  exists handling',
    collectMimeTypes key type handling w = (Ok handling', w)
    /\ (forall m, handlesMimeType type m = true ->
                  handled handling' m key)
    /\ (forall q key0, handled handling q key0 ->
                       handled handling' q key0)
    /\ (forall k keys key0,
           In (k, keys) handling' -> In key0 keys ->
           (exists keys0, In (k, keys0) handling /\ In key0 keys0)
           \/ (key0 = key /\ isObjectOrInterface type = true)).
Proof.
  intros R. unfold collectMimeTypes, handlesMimeType.
  destruct (isObjectOrInterface type && TC.hasExtension "mimeTypes" type)
    eqn:T.
  - destruct (readableDeclaration_mimeTypes type R T) as [Nn Nt].
    destruct (newSet_names _ Nt) as [types [Et [St Lt]]].
    destruct (addHandler_loop key types handling w St)
      as [h' [E [A [B C]]]].
    exists h'. split.
    { unfold bind at 1. unfold destructured. rewrite Nn.
      unfold ret at 1. unfold bind at 1. rewrite Et. exact E. }
    split; [intros m L; apply A; apply Lt; exact L|].
    split; [exact B|].
    intros k keys key0 I Ik.
    destruct (C k keys key0 I Ik) as [->|X]; [right|now left].
    split; auto. apply andb_true_iff in T. tauto'.
  - exists handling. split; [reflexivity|].
    split; [intros m L; discriminate L|].
    split; [auto|]. intros k keys key0 I Ik. left. eauto.
Qed.

Lemma collectChildren_spec key type maps w :
  readableDeclaration type = true ->
  exists maps',
    collectChildren (key, type) maps w
    = (Ok maps', reportedAll (childOfReport type) w)
    /\ (forall p, childOfType type p = true ->
                  holds (parentTypesToChildren maps') p key
                        (tcName type, manyOf type))
    /\ (forall m, childOfMimeType type m = true ->
                  holds (mimeTypesToChildren maps') m key
                        (tcName type, manyOf type))
    /\ (forall m, handlesMimeType type m = true ->
                  handled (typesHandlingMimeTypes maps') m key)
    /\ (forall q key0 v, key0 <> key ->
                         holds (parentTypesToChildren maps) q key0 v ->
                         holds (parentTypesToChildren maps') q key0 v)
    /\ (forall q key0 v, key0 <> key ->
                         holds (mimeTypesToChildren maps) q key0 v ->
                         holds (mimeTypesToChildren maps') q key0 v)
    /\ (forall q key0, handled (typesHandlingMimeTypes maps) q key0 ->
                       handled (typesHandlingMimeTypes maps') q key0)
    /\ (forall k ch,
           In (k, ch) (parentTypesToChildren maps') ->
           (exists ch0, In (k, ch0) (parentTypesToChildren maps))
           \/ exists p, k = VStr p /\ childOfType type p = true)
    /\ (forall k keys key0,
           In (k, keys) (typesHandlingMimeTypes maps') -> In key0 keys ->
           (exists keys0, In (k, keys0) (typesHandlingMimeTypes maps)
                          /\ In key0 keys0)
           \/ (key0 = key /\ isObjectOrInterface type = true)).
Proof.
  intros R.
  destruct (collectMimeTypes_spec key type (typesHandlingMimeTypes maps)
                                  w R)
    as [h' [Eh [Ah [Bh Ch]]]].
  unfold collectChildren. cbn [fst snd].
  destruct (takenAsChild type) eqn:T.
  - destruct (readableDeclaration_childOf type R T) as [Nn [Nt Nm]].
    destruct (collectChildOf_taken key type
                (parentTypesToChildren maps, mimeTypesToChildren maps)
                w T Nn Nt Nm)
      as [pm [E [A1 [A2 [B1 [B2 C1]]]]]].
    exists (mkMaps (fst pm) (snd pm) h'). split.
    { unfold bind at 1. rewrite Eh. unfold bind at 1. rewrite E.
      rewrite (childOfReport_taken type T), reportedAll_nil.
      reflexivity. }
    cbn [parentTypesToChildren mimeTypesToChildren
         typesHandlingMimeTypes fst snd] in *.
    repeat (split; [assumption|]). assumption.
  - exists (mkMaps (parentTypesToChildren maps)
                   (mimeTypesToChildren maps) h'). split.
    { unfold bind at 1. rewrite Eh. unfold bind at 1.
      rewrite collectChildOf_skipped by exact T. reflexivity. }
    cbn [parentTypesToChildren mimeTypesToChildren
         typesHandlingMimeTypes fst snd].
    split.
    { intros p C. unfold childOfType in C. rewrite T in C.
      discriminate C. }
    split.
    { intros m C. unfold childOfMimeType in C. rewrite T in C.
      discriminate C. }
    split; [exact Ah|]. split; [auto|]. split; [auto|].
    split; [exact Bh|]. split; [|exact Ch].
    intros k ch I. left. eauto.
Qed.

Lemma collectChildren_loop entries : forall maps w,
  NoDup (map fst entries) ->
  forallb (fun e => readableDeclaration (snd e)) entries = true ->
  exists maps',
    forEach entries collectChildren maps w
    = (Ok maps',
       reportedAll (flat_map childOfReport (map snd entries)) w)
    /\ (forall key child p,
           In (key, child) entries -> childOfType child p = true ->
           holds (parentTypesToChildren maps') p key
                 (tcName child, manyOf child))
    /\ (forall key child m,
           In (key, child) entries -> childOfMimeType child m = true ->
           holds (mimeTypesToChildren maps') m key
                 (tcName child, manyOf child))
    /\ (forall key type m,
           In (key, type) entries -> handlesMimeType type m = true ->
           handled (typesHandlingMimeTypes maps') m key)
    /\ (forall q key0 v,
           ~ In key0 (map fst entries) ->
           holds (parentTypesToChildren maps) q key0 v ->
           holds (parentTypesToChildren maps') q key0 v)
    /\ (forall q key0 v,
           ~ In key0 (map fst entries) ->
           holds (mimeTypesToChildren maps) q key0 v ->
           holds (mimeTypesToChildren maps') q key0 v)
    /\ (forall q key0, handled (typesHandlingMimeTypes maps) q key0 ->
                       handled (typesHandlingMimeTypes maps') q key0)
    /\ (forall k ch,
           In (k, ch) (parentTypesToChildren maps') ->
           (exists ch0, In (k, ch0) (parentTypesToChildren maps))
           \/ exists p key child,
               k = VStr p /\ In (key, child) entries
               /\ childOfType child p = true)
    /\ (forall k keys key0,
           In (k, keys) (typesHandlingMimeTypes maps') -> In key0 keys ->
           (exists keys0, In (k, keys0) (typesHandlingMimeTypes maps)
                          /\ In key0 keys0)
           \/ exists type, In (key0, type) entries
                           /\ isObjectOrInterface type = true).
Proof.
  induction entries as [|[key type] entries IH]; intros maps w ND R.
  - exists maps. simpl. rewrite reportedAll_nil.
    split; [reflexivity|].
    repeat (split; [intros; try contradiction; eauto|]).
    intros k keys key0 I Ik. left. eauto.
  - simpl in ND, R. inversion ND as [|? ? Nk ND']; subst.
    apply andb_true_iff in R. destruct R as [Rt R].
    destruct (@collectChildren_spec key type maps w Rt)
      as [maps1 [E1 [A1 [A2 [A3 [B1 [B2 [B3 [C1 C2]]]]]]]]].
    destruct (IH maps1 (reportedAll (childOfReport type) w) ND' R)
      as [maps' [E [I1 [I2 [I3 [P1 [P2 [P3 [D1 D2]]]]]]]]].
    exists maps'. split.
    { cbn [forEach]. unfold bind at 1. rewrite E1. rewrite E.
      cbn [map flat_map snd]. now rewrite reportedAll_app. }
    split.
    { intros key0 child p [[= <- <-]|I] C.
      - apply P1; auto.
      - eapply I1; eauto. }
    split.
    { intros key0 child m [[= <- <-]|I] C.
      - apply P2; auto.
      - eapply I2; eauto. }
    split.
    { intros key0 child m [[= <- <-]|I] C.
      - apply P3; auto.
      - eapply I3; eauto. }
    split.
    { intros q key0 v N H. apply P1; [intros I; apply N; now right|].
      apply B1; auto. intros ->. apply N. now left. }
    split.
    { intros q key0 v N H. apply P2; [intros I; apply N; now right|].
      apply B2; auto. intros ->. apply N. now left. }
    split; [intros q key0 H; apply P3; now apply B3|].
    split.
    { intros k ch I. destruct (D1 k ch I) as [[ch0 I0]|X].
      - destruct (C1 k ch0 I0) as [X|[p [-> C]]]; [now left|].
        right. exists p, key, type. split; auto. split; auto. now left.
      - destruct X as [p [key0 [child [-> [I0 C]]]]].
        right. exists p, key0, child. split; auto. split; auto.
        now right. }
    intros k keys key0 I Ik.
    destruct (D2 k keys key0 I Ik) as [[keys0 [I0 Ik0]]|[t [It Ot]]].
    + destruct (C2 k keys0 key0 I0 Ik0) as [X|[-> O]]; [now left|].
      right. exists type. split; auto. now left.
    + right. exists t. split; auto. now right.
Qed.

(** *** The loops over the parents *)

Lemma fieldsGrew_refl w : fieldsGrew w w.
Proof.
  repeat split. intros name tc G. exists tc.
  split; [exact G|]. split; [apply sameButFields_refl | auto].
Qed.

Lemma fieldsGrew_trans a b c :
  fieldsGrew a b -> fieldsGrew b c -> fieldsGrew a c.
Proof.
  intros [A1 [A2 [A3 A4]]] [B1 [B2 [B3 B4]]].
  split; [congruence|]. split; [congruence|]. split; [congruence|].
  intros name tc G. destruct (A4 name tc G) as [tc1 [G1 [S1 F1]]].
  destruct (B4 name tc1 G1) as [tc2 [G2 [S2 F2]]].
  exists tc2. split; [exact G2|].
  split; [eapply sameButFields_trans; eauto | auto].
Qed.

Lemma fieldsGrew_reports w w' : sameButReports w w' -> fieldsGrew w w'.
Proof.
  intros [R [M D]]. split; [now rewrite R|]. split; [exact M|].
  split; [exact D|]. intros name tc G. exists tc. rewrite R.
  split; [exact G|]. split; [apply sameButFields_refl | auto].
Qed.

Lemma fieldsGrew_set key tc tc' w :
  Obj.get key (registry w) = Some tc ->
  sameButFields tc tc' ->
  (forall f, TC.hasField f tc = true -> TC.hasField f tc' = true) ->
  fieldsGrew w (mkWorld (Obj.set key tc' (registry w)) (mustHave w)
                        (directiveDefs w) (reports w)).
Proof.
  intros G S F. unfold fieldsGrew. cbn [registry mustHave directiveDefs].
  split.
  { apply map_fst_set_has. unfold Obj.has. now rewrite G. }
  split; [reflexivity|]. split; [reflexivity|].
  intros name t Gn. destruct (string_dec key name) as [<-|N].
  - rewrite G in Gn. injection Gn as <-. exists tc'.
    split; [apply get_set_eq | auto].
  - exists t. rewrite get_set_ne by exact N.
    split; [exact Gn|]. split; [apply sameButFields_refl | auto].
Qed.

Lemma fieldsGrew_back w w' name tc' :
  fieldsGrew w w' -> Obj.get name (registry w') = Some tc' ->
  exists tc, Obj.get name (registry w) = Some tc
             /\ sameButFields tc tc'
             /\ forall f, TC.hasField f tc = true ->
                          TC.hasField f tc' = true.
Proof.
  intros [K [_ [_ H]]] G.
  destruct (Obj.get name (registry w)) as [tc|] eqn:G0.
  - destruct (H name tc G0) as [t [Gt [S F]]].
    rewrite G in Gt. injection Gt as <-. exists tc. auto.
  - apply get_None_notin in G0. rewrite <- K in G0.
    apply get_None_notin in G0. congruence.
Qed.

Lemma childrenOrChildField_has name many :
  Obj.has (childFieldName name many) (childrenOrChildField name many)
  = true.
Proof.
  unfold childFieldName, childrenOrChildField, createChildrenField,
    createChildField, Obj.has.
  destruct (truthy many); simpl; now rewrite String.eqb_refl.
Qed.

Lemma addFields_hasField fs tc f :
  TC.hasField f (TC.addFields fs tc) = Obj.has f fs || TC.hasField f tc.
Proof.
  unfold TC.hasField, TC.addFields. destruct tc. simpl.
  apply has_spread.
Qed.

Lemma addFields_sameButFields fs tc :
  sameButFields tc (TC.addFields fs tc).
Proof. destruct tc. repeat split. Qed.

(** The loop over the children of a parent. *)
Lemma addFields_loop (children : Children) : forall tc w,
  hasAddFields tc = true ->
  exists tc',
    forEach children
      (fun child tc =>
         addFieldsTo (childrenOrChildField (fst (snd child))
                                           (snd (snd child))) tc)
      tc w = (Ok tc', w)
    /\ sameButFields tc tc'
    /\ (forall f, TC.hasField f tc = true -> TC.hasField f tc' = true)
    /\ forall k name many,
        In (k, (name, many)) children ->
        TC.hasField (childFieldName name many) tc' = true.
Proof.
  induction children as [|[k [name many]] children IH]; intros tc w K.
  - exists tc. simpl. split; [reflexivity|].
    split; [apply sameButFields_refl|]. split; [auto|].
    intros ? ? ? [].
  - set (tc1 := TC.addFields (childrenOrChildField name many) tc).
    assert (S1 : sameButFields tc tc1)
      by apply addFields_sameButFields.
    assert (K1 : hasAddFields tc1 = true).
    { unfold hasAddFields in *. destruct S1 as [_ [-> _]]. exact K. }
    destruct (IH tc1 w K1) as [tc' [E [S [F A]]]].
    exists tc'. split.
    { cbn [forEach fst snd]. unfold bind at 1. unfold addFieldsTo at 1.
      unfold hasAddFields in K.
      destruct (tcKind tc); try discriminate K; exact E. }
    split; [exact (sameButFields_trans S1 S)|].
    split.
    { intros f H. apply F. unfold tc1. rewrite addFields_hasField.
      now rewrite H, orb_true_r. }
    intros k0 name0 many0 [[= <- <- <-]|I]; [|eapply A; eauto].
    apply F. unfold tc1. rewrite addFields_hasField.
    now rewrite childrenOrChildField_has.
Qed.

Lemma addFields_loop_throws (children : Children) tc w :
  hasAddFields tc = false -> children <> [] ->
  forEach children
    (fun child tc =>
       addFieldsTo (childrenOrChildField (fst (snd child))
                                         (snd (snd child))) tc)
    tc w
  = (Throw "TypeError: typeComposer.addFields is not a function", w).
Proof.
  intros K N. destruct children as [|c children]; [contradiction|].
  cbn [forEach]. unfold bind at 1. unfold addFieldsTo at 1.
  unfold hasAddFields in K. now destruct (tcKind tc).
Qed.

Lemma addFields_loop_world (children : Children) : forall tc w,
  snd (forEach children
         (fun child tc =>
            addFieldsTo (childrenOrChildField (fst (snd child))
                                              (snd (snd child))) tc)
         tc w) = w.
Proof.
  induction children as [|c children IH]; intros tc w; [reflexivity|].
  destruct (hasAddFields tc) eqn:K.
  - cbn [forEach]. unfold bind at 1. unfold addFieldsTo at 1.
    unfold hasAddFields in K.
    destruct (tcKind tc); try discriminate K; apply IH.
  - rewrite addFields_loop_throws; auto. discriminate.
Qed.

Lemma takesChildren_false tc :
  takesChildren tc = false ->
  tcKind tc = KInterface /\ TC.hasExtension "nodeInterface" tc = false.
Proof.
  unfold takesChildren. intros T. apply negb_false_iff in T.
  apply andb_true_iff in T. destruct T as [K N].
  apply Kind_eqb_eq in K. apply negb_true_iff in N. auto.
Qed.

(** What is done with a parent composer. *)
Lemma addChildrenFieldsTo_spec key children w tc :
  Obj.get key (registry w) = Some tc ->
  hasAddFields tc = true ->
  exists w',
    addChildrenFieldsTo key children w = (Ok tt, w')
    /\ fieldsGrew w w'
    /\ reports w'
       = (reports w
          ++ if takesChildren tc then []
             else [Error (childrenOnInterfaceMessage (tcName tc))])%list
    /\ (takesChildren tc = true ->
        exists tc',
          Obj.get key (registry w') = Some tc'
          /\ forall k name many,
              In (k, (name, many)) children ->
              TC.hasField (childFieldName name many) tc' = true).
Proof.
  intros G K. unfold addChildrenFieldsTo.
  unfold bind at 1. unfold schemaComposer.get at 1. rewrite G.
  fold (takesChildren tc).
  destruct (takesChildren tc) eqn:T.
  - unfold takesChildren in T. apply negb_true_iff in T. rewrite T.
    destruct (addFields_loop children tc w K) as [tc' [E [S [F A]]]].
    eexists. split.
    { unfold bind at 1. rewrite E. reflexivity. }
    split; [now apply fieldsGrew_set with (tc := tc)|].
    split; [cbn; now rewrite app_nil_r|].
    intros _. exists tc'. split; [apply get_set_eq | exact A].
  - unfold takesChildren in T. apply negb_false_iff in T. rewrite T.
    eexists. split; [reflexivity|].
    split; [apply fieldsGrew_reports; repeat split|].
    split; [reflexivity|]. discriminate.
Qed.

(** However it ends, the types stay. *)
Lemma addChildrenFieldsTo_grew key children w :
  fieldsGrew w (snd (addChildrenFieldsTo key children w)).
Proof.
  unfold addChildrenFieldsTo.
  unfold bind at 1. unfold schemaComposer.get at 1.
  destruct (Obj.get key (registry w)) as [tc|] eqn:G;
    [|apply fieldsGrew_refl].
  destruct (Kind_eqb (tcKind tc) KInterface
            && negb (TC.hasExtension "nodeInterface" tc)).
  - apply fieldsGrew_reports. repeat split.
  - unfold bind at 1.
    pose proof (addFields_loop_world children tc w) as W.
    destruct (hasAddFields tc) eqn:K.
    + destruct (addFields_loop children tc w K) as [tc' [E [S [F A]]]].
      rewrite E. now apply fieldsGrew_set with (tc := tc).
    + destruct children as [|c children].
      * simpl. now apply fieldsGrew_set with (tc := tc);
          [|apply sameButFields_refl|auto].
      * rewrite addFields_loop_throws by (auto; discriminate).
        apply fieldsGrew_refl.
Qed.

Lemma sameButFields_takesChildren a b :
  sameButFields a b -> takesChildren b = takesChildren a.
Proof.
  intros [_ [K [_ E]]]. unfold takesChildren, TC.hasExtension.
  now rewrite K, E.
Qed.

Lemma sameButFields_hasAddFields a b :
  sameButFields a b -> hasAddFields b = hasAddFields a.
Proof. intros [_ [K _]]. unfold hasAddFields. now rewrite K. Qed.

Lemma sameButFields_isObjectOrInterface a b :
  sameButFields a b -> isObjectOrInterface b = isObjectOrInterface a.
Proof. intros [_ [K _]]. unfold isObjectOrInterface. now rewrite K. Qed.

Lemma parentReport_back w w' r :
  fieldsGrew w w' -> parentReport w' r -> parentReport w r.
Proof.
  intros G [key [tc' [Gk [K [N ->]]]]].
  destruct (fieldsGrew_back _ G Gk) as [tc [G0 [S _]]].
  destruct S as [Sn [Sk [_ Se]]].
  exists key, tc. split; [exact G0|].
  split; [congruence|]. split.
  - unfold TC.hasExtension in *. now rewrite <- Se.
  - now rewrite Sn.
Qed.

Lemma addsChildren_loop A (pre : World -> Prop) (f : A -> M unit)
      (targets : A -> list (string * Children)) (l : list A) :
  (forall w w', fieldsGrew w w' -> pre w -> pre w') ->
  (forall x, In x l -> addsChildren pre (f x) (targets x)) ->
  addsChildren pre (forEach_ l f) (flat_map targets l).
Proof.
  intros St. induction l as [|x l IH]; intros H w Pw.
  - exists w, []. simpl. split; [reflexivity|].
    split; [apply fieldsGrew_refl|]. split; [now rewrite app_nil_r|].
    split; intros; contradiction.
  - destruct (H x (or_introl eq_refl) w Pw)
      as [w1 [rs1 [E1 [G1 [R1 [P1 T1]]]]]].
    destruct (IH (fun y I => H y (or_intror I)) w1 (St _ _ G1 Pw))
      as [w' [rs2 [E2 [G2 [R2 [P2 T2]]]]]].
    exists w', (rs1 ++ rs2)%list. split.
    { cbn [forEach_]. unfold bind. now rewrite E1. }
    split; [exact (fieldsGrew_trans G1 G2)|].
    split; [rewrite R2, R1; now rewrite app_assoc|].
    split.
    { intros r I. apply in_app_or in I. destruct I as [I|I]; auto.
      eapply parentReport_back; eauto. }
    intros key children tc I G T. cbn [flat_map] in I.
    apply in_app_or in I.
    destruct G1 as [K1 [M1 [D1 F1]]].
    destruct (F1 key tc G) as [tc1 [Gk1 [S1 Mo1]]].
    destruct I as [I|I].
    + destruct (T1 key children tc I G T) as [tc1' [Gk1' F]].
      rewrite Gk1 in Gk1'. injection Gk1' as <-.
      destruct G2 as [K2 [M2 [D2 F2]]].
      destruct (F2 key tc1 Gk1) as [tc2 [Gk2 [S2 Mo2]]].
      exists tc2. split; [exact Gk2|].
      intros k name many Ik. apply Mo2. eapply F; eauto.
    + apply (T2 key children tc1 I Gk1).
      now rewrite (sameButFields_takesChildren S1).
Qed.

Lemma addsChildren_nothing (pre : World -> Prop) :
  addsChildren pre (ret tt) [].
Proof.
  intros w _. exists w, []. split; [reflexivity|].
  split; [apply fieldsGrew_refl|]. split; [now rewrite app_nil_r|].
  split; intros; contradiction.
Qed.

Lemma addsChildren_one (pre : World -> Prop) key children :
  (forall w, pre w ->
             exists tc, Obj.get key (registry w) = Some tc
                        /\ hasAddFields tc = true) ->
  addsChildren pre (addChildrenFieldsTo key children) [(key, children)].
Proof.
  intros H w Pw. destruct (H w Pw) as [tc [G K]].
  destruct (@addChildrenFieldsTo_spec key children w tc G K)
    as [w' [E [Gr [R F]]]].
  exists w',
    (if takesChildren tc then []
     else [Error (childrenOnInterfaceMessage (tcName tc))]).
  split; [exact E|]. split; [exact Gr|]. split; [exact R|].
  split.
  - intros r I. destruct (takesChildren tc) eqn:T; [destruct I|].
    destruct I as [<-|[]].
    destruct (takesChildren_false tc T) as [Ki Ne].
    exists key, tc. auto.
  - intros key0 ch tc0 [[= <- <-]|[]] G0 T.
    rewrite G in G0. injection G0 as <-.
    destruct (F T) as [tc' [G' A]]. exists tc'. split; auto.
Qed.

(** The second loop. *)
Lemma addToParentType_adds (pre : World -> Prop) entry :
  (forall w p tc, pre w -> fst entry = VStr p ->
                  Obj.get p (registry w) = Some tc ->
                  hasAddFields tc = true) ->
  addsChildren pre (addToParentType entry) (parentTargets entry).
Proof.
  intros H w Pw. unfold addToParentType, parentTargets.
  destruct (fst entry) as [| | | |p| | | | | | | |] eqn:K;
    try (now apply (@addsChildren_nothing pre w Pw)).
  unfold bind at 1. unfold schemaComposer.has at 1. unfold Obj.has.
  destruct (Obj.get p (registry w)) as [tc|] eqn:G.
  - apply (@addsChildren_one (fun w0 => w0 = w) p (snd entry));
      [|reflexivity].
    intros w0 ->. exists tc. split; [exact G|].
    now apply (H w p tc Pw).
  - exists w, []. split; [reflexivity|].
    split; [apply fieldsGrew_refl|]. split; [now rewrite app_nil_r|].
    split; [intros; contradiction|].
    intros key ch tc [[= <- <-]|[]] G0. congruence.
Qed.

(** The third loop. *)
Lemma addToMimeTypeHandlers_adds (pre : World -> Prop) handling entry :
  (forall w w', fieldsGrew w w' -> pre w -> pre w') ->
  (forall w keys key,
      pre w -> mapGet (fst entry) handling = Some keys -> In key keys ->
      exists tc, Obj.get key (registry w) = Some tc
                 /\ hasAddFields tc = true) ->
  addsChildren pre (addToMimeTypeHandlers handling entry)
               (handlerTargets handling entry).
Proof.
  intros St H. unfold addToMimeTypeHandlers, handlerTargets.
  destruct (mapGet (fst entry) handling) as [keys|] eqn:G;
    [|apply addsChildren_nothing].
  assert (L : addsChildren pre
                (forEach_ keys
                   (fun key => addChildrenFieldsTo key (snd entry)))
                (flat_map (fun key => [(key, snd entry)]) keys)).
  { apply addsChildren_loop; [exact St|].
    intros key I. apply addsChildren_one.
    intros w Pw. now apply (H w keys key Pw). }
  assert (E : flat_map (fun key => [(key, snd entry)]) keys
              = map (fun key => (key, snd entry)) keys).
  { clear. induction keys as [|k keys IH]; simpl; congruence. }
  now rewrite <- E.
Qed.

Lemma parentsTakeFields_spec w key child p tc :
  parentsTakeFields w = true ->
  In (key, child) (registry w) -> childOfType child p = true ->
  Obj.get p (registry w) = Some tc ->
  hasAddFields tc = true.
Proof.
  unfold parentsTakeFields. intros H I C G.
  rewrite forallb_forall in H. specialize (H (p, tc) (get_In _ _ G)).
  cbn [fst snd] in H. unfold hasAddFields.
  assert (X : existsb (fun c => childOfType (snd c) p) (registry w)
              = true).
  { apply existsb_exists. exists (key, child). auto. }
  rewrite X in H. now destruct (tcKind tc).
Qed.

Lemma isObjectOrInterface_hasAddFields tc :
  isObjectOrInterface tc = true -> hasAddFields tc = true.
Proof.
  unfold isObjectOrInterface, hasAddFields.
  now destruct (tcKind tc).
Qed.

(** The whole of [addConvenienceChildrenFields] on a registry whose
    declarations can be read. *)
Lemma addConvenienceChildrenFields_run w :
  NoDup (map fst (registry w)) ->
  readableDeclarations w = true ->
  parentsTakeFields w = true ->
  exists w' rs,
    addConvenienceChildrenFields w = (Ok tt, w')
    /\ fieldsGrew w w'
    /\ reports w'
       = (reports w
          ++ flat_map childOfReport (map snd (registry w)) ++ rs)%list
    /\ (forall r, In r rs -> parentReport w r)
    /\ (forall key child parent tc,
           In (key, child) (registry w) ->
           childOfType child parent = true ->
           Obj.get parent (registry w) = Some tc ->
           takesChildren tc = true ->
           exists tc',
             Obj.get parent (registry w') = Some tc'
             /\ TC.hasField (explicitFieldName child) tc' = true)
    /\ (forall key child mimeType parent tc,
           In (key, child) (registry w) ->
           childOfMimeType child mimeType = true ->
           In (parent, tc) (registry w) ->
           handlesMimeType tc mimeType = true ->
           takesChildren tc = true ->
           exists tc',
             Obj.get parent (registry w') = Some tc'
             /\ TC.hasField (explicitFieldName child) tc' = true).
Proof.
  intros ND R PT.
  destruct (collectChildren_loop (registry w) (mkMaps [] [] []) w ND R)
    as [maps [E1 [I1 [I2 [I3 [_ [_ [_ [D1 D2]]]]]]]]].
  set (w1 := reportedAll
               (flat_map childOfReport (map snd (registry w))) w) in *.
  assert (G1 : fieldsGrew w w1)
    by (apply fieldsGrew_reports; repeat split).
  assert (St : forall a b, fieldsGrew a b -> fieldsGrew w a ->
                           fieldsGrew w b)
    by (intros a b X Y; exact (fieldsGrew_trans Y X)).
  (* the second loop *)
  destruct (@addsChildren_loop _ (fieldsGrew w) addToParentType
              parentTargets (parentTypesToChildren maps) St) with (w := w1)
    as [w2 [rs2 [E2 [G2 [R2 [P2 T2]]]]]]; [|exact G1|].
  { intros [k ch] I. apply addToParentType_adds.
    intros w0 p tc0 G0 K Gp. cbn [fst] in K. subst k.
    destruct (fieldsGrew_back _ G0 Gp) as [tc [Gt [S _]]].
    rewrite (sameButFields_hasAddFields S).
    destruct (D1 _ _ I) as [[ch0 []]|[p' [key [child [Q [Ic C]]]]]].
    injection Q as <-.
    exact (@parentsTakeFields_spec w key child p tc PT Ic C Gt). }
  assert (G12 : fieldsGrew w w2) by exact (fieldsGrew_trans G1 G2).
  (* the third loop *)
  destruct (@addsChildren_loop _ (fieldsGrew w)
              (addToMimeTypeHandlers (typesHandlingMimeTypes maps))
              (handlerTargets (typesHandlingMimeTypes maps))
              (mimeTypesToChildren maps) St) with (w := w2)
    as [w3 [rs3 [E3 [G3 [R3 [P3 T3]]]]]]; [|exact G12|].
  { intros e I. apply addToMimeTypeHandlers_adds; [exact St|].
    intros w0 keys key G0 Gm Ik.
    destruct (mapGet_In _ _ Gm) as [k' [Ih _]].
    destruct (D2 _ _ _ Ih Ik) as [[keys0 [[] _]]|[type [It O]]].
    pose proof (get_of_In_NoDup _ _ _ ND It) as Gt.
    destruct G0 as [_ [_ [_ F0]]].
    destruct (F0 key type Gt) as [tc0 [Gk0 [S0 _]]].
    exists tc0. split; [exact Gk0|].
    rewrite (sameButFields_hasAddFields S0).
    now apply isObjectOrInterface_hasAddFields. }
  exists w3, (rs2 ++ rs3)%list. split.
  { unfold addConvenienceChildrenFields. unfold bind at 1.
    unfold getWorld at 1. unfold bind at 1. rewrite E1.
    unfold bind at 1. fold w1. rewrite E2. exact E3. }
  split; [exact (fieldsGrew_trans G12 G3)|].
  split.
  { rewrite R3, R2. unfold w1. cbn [reports reportedAll].
    now rewrite <- !app_assoc. }
  split.
  { intros r I. apply in_app_or in I. destruct I as [I|I].
    - eapply parentReport_back; [exact G1 | now apply P2].
    - eapply parentReport_back; [exact G12 | now apply P3]. }
  split.
  - intros key child parent tc Ic C Gp T.
    destruct (I1 key child parent Ic C) as [ch [Gm Gc]].
    apply mapGet_In_str in Gm. apply get_In in Gc.
    destruct (T2 parent ch tc) as [tc2 [Gp2 F2]]; auto.
    { apply in_flat_map. exists (VStr parent, ch). split; [exact Gm|].
      now left. }
    destruct G3 as [_ [_ [_ F3]]].
    destruct (F3 parent tc2 Gp2) as [tc3 [Gp3 [_ Mo]]].
    exists tc3. split; [exact Gp3|]. apply Mo.
    exact (F2 key (tcName child) (manyOf child) Gc).
  - intros key child m parent tc Ic C Ip Hm T.
    destruct (I2 key child m Ic C) as [ch [Gm Gc]].
    apply mapGet_In_str in Gm. apply get_In in Gc.
    destruct (I3 parent tc m Ip Hm) as [keys [Gh Ik]].
    pose proof (get_of_In_NoDup _ _ _ ND Ip) as Gp.
    destruct G12 as [_ [_ [_ F12]]].
    destruct (F12 parent tc Gp) as [tc2 [Gp2 [S2 _]]].
    destruct (T3 parent ch tc2) as [tc3 [Gp3 F3]]; auto.
    { apply in_flat_map. exists (VStr m, ch). split; [exact Gm|].
      unfold handlerTargets. cbn [fst snd]. rewrite Gh.
      apply in_map_iff. exists parent. auto. }
    { now rewrite (sameButFields_takesChildren S2). }
    exists tc3. split; [exact Gp3|].
    exact (F3 key (tcName child) (manyOf child) Gc).
Qed.

(** *** However it ends *)

Lemma bind_related A B (R : World -> World -> Prop) (m : M A)
      (f : A -> M B) :
  (forall a b c, R a b -> R b c -> R a c) ->
  (forall w, R w (snd (m w))) ->
  (forall a w, R w (snd (f a w))) ->
  forall w, R w (snd (bind m f w)).
Proof.
  intros Rt Hm Hf w. unfold bind. pose proof (Hm w) as X.
  destruct (m w) as [[a|e|e] w1]; simpl in X; simpl; auto.
  eapply Rt; [exact X | apply Hf].
Qed.

Lemma forEach_related A S (R : World -> World -> Prop) (l : list A)
      (f : A -> S -> M S) :
  (forall w, R w w) ->
  (forall a b c, R a b -> R b c -> R a c) ->
  (forall x s w, R w (snd (f x s w))) ->
  forall s w, R w (snd (forEach l f s w)).
Proof.
  intros Rr Rt H. induction l as [|x l IH]; intros s w; simpl.
  - apply Rr.
  - apply bind_related; auto.
Qed.

Lemma newSet_world v w : snd (newSet v w) = w.
Proof. now destruct v. Qed.

Lemma destructured_world v w : snd (destructured v w) = w.
Proof. unfold destructured. now destruct (isNullish v). Qed.

Lemma addHandler_world key m handling w :
  snd (addHandler key m handling w) = w.
Proof.
  unfold addHandler. now destruct (mapGet m _).
Qed.

Lemma addChild_world key type many k map w :
  snd (addChild key type many k map w) = w.
Proof.
  unfold addChild. now destruct (mapGet k _).
Qed.

Lemma collectChildren_reports entry maps w :
  sameButReports w (snd (collectChildren entry maps w)).
Proof.
  assert (Rr := sameButReports_refl).
  assert (Rt := sameButReports_trans).
  assert (Eq : forall a b, b = a -> sameButReports a b)
    by (intros a b ->; apply Rr).
  unfold collectChildren. cbv zeta.
  apply bind_related; [exact Rt| |].
  - intros w0. unfold collectMimeTypes.
    destruct (isObjectOrInterface (snd entry)
              && TC.hasExtension "mimeTypes" (snd entry)); [|apply Rr].
    apply bind_related; [exact Rt| |].
    + intros w1. apply Eq, destructured_world.
    + intros ext w1. apply bind_related; [exact Rt| |].
      * intros w2. apply Eq, newSet_world.
      * intros types w2. apply forEach_related; auto.
        intros x s w3. apply Eq, addHandler_world.
  - intros handling w0. apply bind_related; [exact Rt| |].
    + intros w1. unfold collectChildOf.
      destruct (isObjectOrInterface (snd entry)
                && TC.hasExtension "childOf" (snd entry)); [|apply Rr].
      destruct (Kind_eqb (tcKind (snd entry)) KObject
                && negb (TC.hasInterface "Node" (snd entry)));
        [repeat split|].
      destruct (Kind_eqb (tcKind (snd entry)) KInterface
                && negb (TC.hasExtension "nodeInterface" (snd entry)));
        [repeat split|].
      apply bind_related; [exact Rt| |].
      * intros w2. apply Eq, destructured_world.
      * intros ext w2. apply bind_related; [exact Rt| |].
        { intros w3. apply Eq, newSet_world. }
        intros types w3. apply bind_related; [exact Rt| |].
        { intros w4. apply forEach_related; auto.
          intros x s w5. apply Eq, addChild_world. }
        intros parents w4. apply bind_related; [exact Rt| |].
        { intros w5. apply Eq, newSet_world. }
        intros mimes w5. apply bind_related; [exact Rt| |].
        { intros w6. apply forEach_related; auto.
          intros x s w7. apply Eq, addChild_world. }
        intros ms w6. apply Rr.
    + intros pm w1. apply Rr.
Qed.

Lemma addChildren_loops_grew entries maps0 w :
  fieldsGrew w
    (snd ((maps <- forEach entries collectChildren maps0 ;;
           forEach_ (parentTypesToChildren maps) addToParentType ;;;
           forEach_ (mimeTypesToChildren maps)
                    (addToMimeTypeHandlers (typesHandlingMimeTypes maps)))
            w)).
Proof.
  assert (Rr := fieldsGrew_refl).
  assert (Rt := fieldsGrew_trans).
  revert w. apply bind_related; [exact Rt| |].
  - intros w0. apply fieldsGrew_reports.
    apply forEach_related; [apply sameButReports_refl
                           |apply sameButReports_trans|].
    intros x s w1. apply collectChildren_reports.
  - intros maps w0. apply bind_related; [exact Rt| |].
    + intros w1. apply forEach__related; auto.
      intros e w2 _. unfold addToParentType.
      destruct (fst e); try apply Rr.
      apply bind_related; [exact Rt| |].
      * intros w3. apply Rr.
      * intros has w3. destruct has; [|apply Rr].
        apply addChildrenFieldsTo_grew.
    + intros u w1. apply forEach__related; auto.
      intros e w2 _. unfold addToMimeTypeHandlers.
      destruct (mapGet (fst e) (typesHandlingMimeTypes maps));
        [|apply Rr].
      apply forEach__related; auto.
      intros key w3 _. apply addChildrenFieldsTo_grew.
Qed.

(** *** A parent without the method *)

Lemma addChildrenFieldsTo_outcome key children w tc :
  Obj.get key (registry w) = Some tc ->
  exists o w',
    addChildrenFieldsTo key children w = (o, w')
    /\ (o = Ok tt
        \/ o = Throw "TypeError: typeComposer.addFields is not a function").
Proof.
  intros G. unfold addChildrenFieldsTo.
  unfold bind at 1. unfold schemaComposer.get at 1. rewrite G.
  destruct (Kind_eqb (tcKind tc) KInterface
            && negb (TC.hasExtension "nodeInterface" tc)).
  - eexists. eexists. split; [reflexivity | auto].
  - unfold bind at 1. destruct (hasAddFields tc) eqn:K.
    + destruct (addFields_loop children tc w K) as [tc' [E _]].
      rewrite E. eexists. eexists. split; [reflexivity | auto].
    + destruct children as [|c children].
      * eexists. eexists. split; [reflexivity | auto].
      * rewrite addFields_loop_throws by (auto; discriminate).
        eexists. eexists. split; [reflexivity | auto].
Qed.

Lemma addToParentType_outcome entry w :
  (exists w', addToParentType entry w = (Ok tt, w') /\ fieldsGrew w w')
  \/ exists w',
      addToParentType entry w
      = (Throw "TypeError: typeComposer.addFields is not a function", w').
Proof.
  unfold addToParentType.
  destruct (fst entry) as [| | | |p| | | | | | | |];
    try (left; exists w; split; [reflexivity | apply fieldsGrew_refl]).
  unfold bind. unfold schemaComposer.has. unfold Obj.has.
  destruct (Obj.get p (registry w)) as [tc|] eqn:G;
    [|left; exists w; split; [reflexivity | apply fieldsGrew_refl]].
  pose proof (addChildrenFieldsTo_grew p (snd entry) w) as Gr.
  destruct (addChildrenFieldsTo_outcome p (snd entry) w G)
    as [o [w' [E [-> | ->]]]]; rewrite E in *.
  - left. exists w'. auto.
  - right. now exists w'.
Qed.

Lemma addToParentType_throws (entry : JSVal * Children) p tc w :
  fst entry = VStr p ->
  Obj.get p (registry w) = Some tc ->
  hasAddFields tc = false -> snd entry <> [] ->
  addToParentType entry w
  = (Throw "TypeError: typeComposer.addFields is not a function", w).
Proof.
  intros F G K N. unfold addToParentType. rewrite F.
  unfold bind at 1. unfold schemaComposer.has at 1. unfold Obj.has.
  rewrite G. unfold addChildrenFieldsTo.
  unfold bind at 1. unfold schemaComposer.get at 1. rewrite G.
  assert (T : Kind_eqb (tcKind tc) KInterface = false)
    by (unfold hasAddFields in K; now destruct (tcKind tc)).
  rewrite T. cbn [andb]. unfold bind at 1.
  now rewrite addFields_loop_throws.
Qed.

Lemma addToParentTypes_throw (P : list (JSVal * Children)) : forall w,
  (exists p children tc,
      In (VStr p, children) P /\ children <> []
      /\ Obj.get p (registry w) = Some tc
      /\ hasAddFields tc = false) ->
  exists w',
    forEach_ P addToParentType w
    = (Throw "TypeError: typeComposer.addFields is not a function", w').
Proof.
  induction P as [|e P IH]; intros w [p [ch [tc [I [N [G K]]]]]];
    [destruct I|].
  destruct I as [Q|I].
  - exists w. cbn [forEach_]. unfold bind.
    rewrite (@addToParentType_throws e p tc w); auto; now rewrite Q.
  - destruct (addToParentType_outcome e w) as [[w1 [E Gr]]|[w1 E]].
    + destruct Gr as [_ [_ [_ F]]].
      destruct (F p tc G) as [tc1 [G1 [S1 _]]].
      destruct (IH w1) as [w' E'].
      { exists p, ch, tc1. split; auto. split; auto. split; auto.
        now rewrite (sameButFields_hasAddFields S1). }
      exists w'. cbn [forEach_]. unfold bind. now rewrite E.
    + exists w1. cbn [forEach_]. unfold bind. now rewrite E.
Qed.

(** X23. However [addConvenienceChildrenFields] ends, it adds no type to
    the registry and takes none out; every type keeps its name, kind,
    interfaces and extensions and has the fields it had; the types the
    schema must have and the directive definitions stay. *)
Theorem addConvenienceChildrenFields_keeps_the_types w :
  fieldsGrew w (snd (addConvenienceChildrenFields w)).
Proof. exact (addChildren_loops_grew (registry w) (mkMaps [] [] []) w). Qed.

(** X24. A type that says with [childOf] that it is a child of a type
    gives that type a field: on a registry whose [childOf] and
    [mimeTypes] extensions list names, and where no union or scalar is
    named as a parent, [addConvenienceChildrenFields] returns, and
    every registered type that a child names in [types], unless it is an
    interface without the [nodeInterface] extension, has the field
    [children<Child>] where the child says [many], and [child<Child>]
    where it does not.  The child is an object type that implements
    [Node] or an interface with the [nodeInterface] extension. *)
Theorem childOf_types_adds_the_field w :
  NoDup (map fst (registry w)) ->
  readableDeclarations w = true ->
  parentsTakeFields w = true ->
  exists w',
    addConvenienceChildrenFields w = (Ok tt, w')
    /\ forall key child parent tc,
        In (key, child) (registry w) ->
        childOfType child parent = true ->
        Obj.get parent (registry w) = Some tc ->
        takesChildren tc = true ->
        exists tc',
          Obj.get parent (registry w') = Some tc'
          /\ TC.hasField (explicitFieldName child) tc' = true.
Proof.
  intros ND R PT.
  destruct (addConvenienceChildrenFields_run w ND R PT)
    as [w' [rs [E [_ [_ [_ [T _]]]]]]].
  exists w'. split; [exact E | exact T].
Qed.

(** X25. A type that says with [childOf] that it is a child of the
    types that handle a mime type gives each of them a field: on such a
    registry every object or interface type whose [mimeTypes] extension
    lists the mime type, unless it is an interface without the
    [nodeInterface] extension, has the field [children<Child>] or
    [child<Child>] of every child that names the mime type in
    [mimeTypes]. *)
Theorem childOf_mimeTypes_adds_the_field w :
  NoDup (map fst (registry w)) ->
  readableDeclarations w = true ->
  parentsTakeFields w = true ->
  exists w',
    addConvenienceChildrenFields w = (Ok tt, w')
    /\ forall key child mimeType parent tc,
        In (key, child) (registry w) ->
        childOfMimeType child mimeType = true ->
        In (parent, tc) (registry w) ->
        handlesMimeType tc mimeType = true ->
        takesChildren tc = true ->
        exists tc',
          Obj.get parent (registry w') = Some tc'
          /\ TC.hasField (explicitFieldName child) tc' = true.
Proof.
  intros ND R PT.
  destruct (addConvenienceChildrenFields_run w ND R PT)
    as [w' [rs [E [_ [_ [_ [_ T]]]]]]].
  exists w'. split; [exact E | exact T].
Qed.

(** X26. What [addConvenienceChildrenFields] reports on such a registry:
    first, in the order of the registry, one error for every object type
    that has the [childOf] extension and does not implement [Node], and
    for every interface that has it and has no [nodeInterface]
    extension; after them only errors on interfaces of the registry
    without the [nodeInterface] extension that would have been given
    fields, so none where every interface can take the fields.  It
    reports no warning and the errors do not stop it. *)
Theorem addConvenienceChildrenFields_reports w :
  NoDup (map fst (registry w)) ->
  readableDeclarations w = true ->
  parentsTakeFields w = true ->
  exists w' rs,
    addConvenienceChildrenFields w = (Ok tt, w')
    /\ reports w'
       = (reports w
          ++ flat_map childOfReport (map snd (registry w)) ++ rs)%list
    /\ (forall r, In r rs -> parentReport w r)
    /\ ((forall key tc, In (key, tc) (registry w) ->
                        takesChildren tc = true) ->
        rs = []).
Proof.
  intros ND R PT.
  destruct (addConvenienceChildrenFields_run w ND R PT)
    as [w' [rs [E [_ [Rp [P _]]]]]].
  exists w', rs. split; [exact E|]. split; [exact Rp|].
  split; [exact P|].
  intros A. destruct rs as [|r rs]; [reflexivity|].
  destruct (P r (or_introl eq_refl)) as [key [tc [G [K [N _]]]]].
  pose proof (A key tc (get_In _ _ G)) as T.
  unfold takesChildren in T. rewrite K, N in T. discriminate T.
Qed.

(** X27. A union or a scalar cannot be a parent: if a child whose
    [childOf] extension is taken up names a registered union or scalar
    in [types], [addConvenienceChildrenFields] throws the [TypeError] of
    the missing [addFields] method. *)
Theorem childOf_a_union_or_scalar_throws w key child parent tc :
  NoDup (map fst (registry w)) ->
  readableDeclarations w = true ->
  In (key, child) (registry w) ->
  childOfType child parent = true ->
  Obj.get parent (registry w) = Some tc ->
  tcKind tc = KUnion \/ tcKind tc = KScalar ->
  exists w',
    addConvenienceChildrenFields w
    = (Throw "TypeError: typeComposer.addFields is not a function", w').
Proof.
  intros ND R I C G K.
  destruct (collectChildren_loop (registry w) (mkMaps [] [] []) w ND R)
    as [maps [E1 [I1 _]]].
  destruct (I1 key child parent I C) as [ch [Gm Gc]].
  apply mapGet_In_str in Gm.
  destruct (addToParentTypes_throw (parentTypesToChildren maps)
              (reportedAll
                 (flat_map childOfReport (map snd (registry w))) w))
    as [w' E2].
  { exists parent, ch, tc. split; [exact Gm|]. split.
    - intros ->. discriminate Gc.
    - split; [exact G|]. unfold hasAddFields.
      now destruct K as [-> | ->]. }
  exists w'. unfold addConvenienceChildrenFields. unfold bind at 1.
  unfold getWorld at 1. unfold bind at 1. rewrite E1.
  unfold bind at 1. now rewrite E2.
Qed.

End Builder.

(** * The properties at concrete inputs *)

Lemma reserved_type_name_is_rejected_witness :
  reservedTypeName "Node"
  /\ reachesNameCheck parseAnything noDefineFieldMapToConfig
                      (SDL [nodeDefinition]) None "Node"
                      emptyWorld emptyWorld
  /\ (forall doc, SDL [nodeDefinition] = SDL doc ->
        forall error w0,
          specReportParsingError error w0 = specReportParsingError error w0)
  /\ exists msg,
      Str.mentions msg "Node"
      /\ addTypes specReportParsingError parseAnything
                  noDefineFieldMapToConfig
                  [(SDL [nodeDefinition], None); (NativeType fooType, None)]
                  emptyWorld
         = (Throw msg, emptyWorld).
Proof.
  assert (R : reservedTypeName "Node") by (left; reflexivity).
  assert (H : reachesNameCheck parseAnything noDefineFieldMapToConfig
                               (SDL [nodeDefinition]) None
                               "Node" emptyWorld emptyWorld).
  { exists [], nodeDefinition, [], []. repeat split; reflexivity. }
  assert (Spec : forall doc, SDL [nodeDefinition] = SDL doc ->
            forall error w0,
              specReportParsingError error w0
              = specReportParsingError error w0)
    by reflexivity.
  split; [exact R|]. split; [exact H|]. split; [exact Spec|].
  exact (@reserved_type_name_is_rejected specReportParsingError parseAnything
           noDefineFieldMapToConfig
           (SDL [nodeDefinition]) None [(NativeType fooType, None)] "Node"
           emptyWorld emptyWorld R H Spec).
Defined.

Lemma nodeInterface_directive_on_interface_witness :
  tcKind thingInterface = KInterface
  /\ (exists d, In d (TC.getDirectives thingInterface)
                /\ isNodeInterfaceDirective d = true)
  /\ declaresIdField thingInterface
  /\ exists tc' w',
      addExtensions parseAnything thingInterface None "sdl" emptyWorld
      = (Ok tc', w')
      /\ TC.getExtension "nodeInterface" tc' = VBool true.
Proof.
  assert (K : tcKind thingInterface = KInterface) by reflexivity.
  assert (D : exists d, In d (TC.getDirectives thingInterface)
                        /\ isNodeInterfaceDirective d = true).
  { exists nodeInterfaceDirective. split; [left|]; reflexivity. }
  assert (I : declaresIdField thingInterface) by (split; reflexivity).
  split; [exact K|]. split; [exact D|]. split; [exact I|].
  exact (proj2 (@nodeInterface_directive_on_interface parseAnything
                  thingInterface None emptyWorld K D) I).
Defined.

Lemma nodeInterface_directive_ignored_off_interfaces_witness :
  tcKind thingObject <> KInterface
  /\ exists tcD tc' w',
      forEach (TC.getDirectives thingObject) typeDirective
              (stamped thingObject None "sdl") emptyWorld
      = (Ok tcD, emptyWorld)
      /\ addExtensions parseAnything thingObject None "sdl" emptyWorld
         = (Ok tc', w')
      /\ TC.getExtension "nodeInterface" tc'
         = TC.getExtension "nodeInterface" thingObject.
Proof.
  assert (K : tcKind thingObject <> KInterface) by discriminate.
  split; [exact K|].
  exact (proj2 (proj2 (@nodeInterface_directive_ignored_off_interfaces
                         parseAnything thingObject None emptyWorld K))).
Defined.

Lemma checkQueryableInterfaces_names_all_violators_witness :
  violatesNodeCapability (map snd (registry queryableWorld)) typeB
  /\ exists msg,
      checkQueryableInterfaces queryableWorld = (Panic msg, queryableWorld)
      /\ forall t',
          violatesNodeCapability (map snd (registry queryableWorld)) t' ->
          Str.mentions msg (bq (tcName t')).
Proof.
  assert (V : violatesNodeCapability (map snd (registry queryableWorld))
                                     typeB).
  { split; [simpl; auto|]. split; [reflexivity|]. split.
    - exists "I". split; [simpl; auto|].
      eexists. split; [left; reflexivity|]. repeat split.
    - simpl. intros [H|[]]. discriminate. }
  split; [exact V|].
  exact (@checkQueryableInterfaces_names_all_violators queryableWorld typeB V).
Defined.



Lemma mergeTypes_ownership_witness :
  isSafeMerge (Some (mkPlugin "p2")) (TC.getExtension "plugin" fooRecord)
  = false
  /\ truthy (TC.getExtension "plugin" fooRecord) = true
  /\ Obj.has "plugin" (tcExtensions fooRecord) = true
  /\ (let msg := unsafeMergeMessage "p2" "Foo" (VStr "p1") in
      mergeTypes parseAnything noDefineFieldMapToConfig fooRecord
                 fooDefinition (Some (mkPlugin "p2")) "sdl" emptyWorld
      = mergeInto parseAnything noDefineFieldMapToConfig fooRecord
                  fooDefinition (Some (mkPlugin "p2")) "sdl"
                  (reported (Warn msg) emptyWorld)
      /\ Str.mentions msg "p2" /\ Str.mentions msg "p1")
  /\ mergeInto parseAnything noDefineFieldMapToConfig
               (TC.setExtension "plugin" (VStr "p2") fooRecord)
               fooDefinition (Some (mkPlugin "p2")) "sdl" emptyWorld
     = mergeInto parseAnything noDefineFieldMapToConfig fooRecord
                 fooDefinition (Some (mkPlugin "p2")) "sdl" emptyWorld
  /\ exists tc' w',
      mergeTypes parseAnything noDefineFieldMapToConfig fooRecord
                 fooDefinition (Some (mkPlugin "p2")) "sdl" emptyWorld
      = (Ok tc', w')
      /\ mergedWith fooRecord (incomingFields fooDefinition)
                    ["Node"; "Bar"] tc'
      /\ In (Warn (unsafeMergeMessage "p2" "Foo" (VStr "p1"))) (reports w').
Proof.
  assert (U : isSafeMerge (Some (mkPlugin "p2"))
                          (TC.getExtension "plugin" fooRecord) = false)
    by reflexivity.
  assert (T : truthy (TC.getExtension "plugin" fooRecord) = true)
    by reflexivity.
  assert (H : Obj.has "plugin" (tcExtensions fooRecord) = true)
    by reflexivity.
  split; [exact U|]. split; [exact T|]. split; [exact H|].
  destruct (@mergeTypes_ownership parseAnything noDefineFieldMapToConfig
              fooRecord fooDefinition
              (Some (mkPlugin "p2")) "sdl" emptyWorld)
    as [_ [_ [W [_ [O S]]]]].
  split; [|split].
  - destruct (W (mkPlugin "p2") eq_refl U) as [E [M1 M2]].
    split; [exact E|]. split; [exact M1 | exact (M2 T)].
  - exact (O (VStr "p2") H).
  - destruct (S (incomingFields fooDefinition) ["Node"; "Bar"]
                eq_refl eq_refl eq_refl eq_refl (or_intror eq_refl) eq_refl)
      as [tc' [w' [E [MW Wn]]]].
    exists tc', w'. split; [exact E|]. split; [exact MW|].
    exact (Wn (mkPlugin "p2") eq_refl U).
Defined.

Lemma addThirdPartySchema_imports_witness :
  Obj.get (queryTypeName relaySchema) (typeMap relaySchema)
  = Some rootQueryType
  /\ wellFormedSchema relaySchema
  /\ exists schema' w' query,
      addThirdPartySchema relaySchema emptyWorld = (Ok schema', w')
      /\ getQuery emptyWorld = (Ok query, emptyWorld)
      /\ mustHave w' = ["Viewer"]
      /\ Obj.get "Query" (registry w')
         = Some (TC.addFields
                   (tcFields (processedFields "RootQuery" rootQueryType))
                   query).
Proof.
  assert (G : Obj.get (queryTypeName relaySchema) (typeMap relaySchema)
              = Some rootQueryType) by reflexivity.
  assert (WF : wellFormedSchema relaySchema)
    by (apply wellFormedSchemab_sound; reflexivity).
  split; [exact G|]. split; [exact WF|].
  destruct (@addThirdPartySchema_imports relaySchema emptyWorld rootQueryType
              G WF)
    as [schema' [w' [query [E [Q [HQ [MH _]]]]]]].
  exists schema', w', query. split; [exact E|]. split; [exact Q|].
  split; [exact MH|]. apply HQ. reflexivity.
Defined.

(** The import of the Relay schema at work: [Viewer] is registered with
    the provenance, its field [query] of type [[RootQuery!]!] refers to
    [[Query!]!], and the scalar [Date] of the schema is not registered. *)
Example relaySchema_imported :
  exists schema' w' viewer,
    addThirdPartySchema relaySchema emptyWorld = (Ok schema', w')
    /\ Obj.get "Viewer" (registry w') = Some viewer
    /\ TC.getExtension "createdFrom" viewer = VStr "thirdPartySchema"
    /\ prop "type" (TC.getField "query" viewer) = VStr "[Query!]!"
    /\ Obj.has "Date" (registry w') = false
    /\ Obj.has "RootQuery" (registry w') = false.
Proof.
  eexists. eexists. eexists.
  split; [vm_compute; reflexivity|]. split; [vm_compute; reflexivity|].
  repeat split.
Qed.


(** The two calls of the specification, through [createResolvers]: against
    [Foo.bar: Int] the override as a [String] leaves the registry as it
    was and a warning; against [Foo.bar: String!] it is applied, the
    resolver of [bar] is the new one closed over the old one, the type is
    the type given, and [bar] is marked [needsResolve]. *)
Example createResolvers_on_Foo_bar :
  createResolvers [("Foo", [("bar", overrideAsString)])] false
                  (fooWorld "Int")
  = (Ok tt,
     reported (Warn (mismatchMessage "Foo" "bar" "String" "Int"))
              (fooWorld "Int"))
  /\ exists w' foo,
      createResolvers [("Foo", [("bar", overrideAsString)])] false
                      (fooWorld "String!") = (Ok tt, w')
      /\ reports w' = []
      /\ Obj.get "Foo" (registry w') = Some foo
      /\ prop "resolve" (TC.getField "bar" foo)
         = VOverrideFn (VFun "fn") (VFun "old")
      /\ prop "type" (TC.getField "bar" foo) = VStr "String"
      /\ TC.getFieldExtension "bar" "needsResolve" foo = VBool true.
Proof.
  split; [vm_compute; reflexivity|].
  eexists. eexists. split; [vm_compute; reflexivity|].
  split; [reflexivity|]. split; [vm_compute; reflexivity|].
  repeat split.
Qed.


(** The Relay schema imported again after a [createResolvers] that has
    overridden [Viewer.query] and added [Viewer.extra]: the schema as the
    build has left it carries both, and the second import registers the
    types the first one has registered, [Viewer] with [query] as the first
    import has left it and without [extra]. *)
Example relaySchema_imported_again :
  exists viewer schema1 w1 schema3 w3,
    Obj.get "Viewer" (typeMap relaySchemaRebuilt) = Some viewer
    /\ TC.hasField "extra" viewer = true
    /\ prop "type" (TC.getField "query" viewer) = VStr "String"
    /\ addThirdPartySchema relaySchema emptyWorld = (Ok schema1, w1)
    /\ addThirdPartySchema relaySchemaRebuilt emptyWorld = (Ok schema3, w3)
    /\ registry w3 = registry w1
    /\ mustHave w3 = ["Viewer"].
Proof.
  eexists. eexists. eexists. eexists. eexists.
  split; [vm_compute; reflexivity|]. split; [reflexivity|].
  split; [reflexivity|]. split; [vm_compute; reflexivity|].
  split; [vm_compute; reflexivity|]. split; reflexivity.
Qed.


(** The example of the specification: with parents of no, one and two
    children of type [C] the field is the plural one; with one child at
    most under every parent it is the singular one. *)
Example convenience_fields_of_the_families :
  (exists tc' w',
      addImplicitConvenienceChildrenFields joinWords familyStore
                                           parentComposer emptyWorld
      = (Ok tc', w')
      /\ TC.getFieldNames tc' = ["id"; "childrenC"]
      /\ TC.getField "childrenC" tc'
         = [("type", VThunk (VArr [VStr "C"]));
            ("resolve", VChildrenFn "C")])
  /\ maxChildCount smallFamilyStore "Parent" "C" = 1%nat
  /\ exists tc' w',
      addImplicitConvenienceChildrenFields joinWords smallFamilyStore
                                           parentComposer emptyWorld
      = (Ok tc', w')
      /\ TC.getFieldNames tc' = ["id"; "childC"]
      /\ TC.getField "childC" tc'
         = [("type", VThunk (VStr "C")); ("resolve", VChildFn "C")].
Proof.
  split; [|split; [reflexivity|]].
  - eexists. eexists. split; [vm_compute; reflexivity|].
    split; reflexivity.
  - eexists. eexists. split; [vm_compute; reflexivity|].
    split; reflexivity.
Qed.


(** * The further properties at concrete inputs *)

Lemma createResolvers_unknown_types_witness :
  (forall typeName,
      In typeName (Obj.keys [("Foo", [("bar", overrideAsString)])]) ->
      Obj.has typeName (registry emptyWorld) = false)
  /\ createResolvers [("Foo", [("bar", overrideAsString)])] false emptyWorld
     = (Ok tt, mkWorld [] [] [] [Warn (unknownTypeMessage "Foo")]).
Proof.
  assert (H : forall typeName,
             In typeName (Obj.keys [("Foo", [("bar", overrideAsString)])]) ->
             Obj.has typeName (registry emptyWorld) = false)
    by (intros typeName _; reflexivity).
  split; [exact H|].
  exact (@createResolvers_unknown_types
           [("Foo", [("bar", overrideAsString)])] false emptyWorld H).
Defined.

Lemma stringifyArray_prints_the_list_type_witness :
  prop "type" [("type", VArr [VType (NamedType "String")])]
  = arrayShorthand (GraphQLList (NamedType "String"))
  /\ stringifyArray [VType (NamedType "String")] = Some "[String]"
  /\ overrideTypeName [("type", VArr [VType (NamedType "String")])]
                      emptyWorld
     = (Ok (Some "[String]"), emptyWorld).
Proof.
  assert (T : prop "type" [("type", VArr [VType (NamedType "String")])]
              = arrayShorthand (GraphQLList (NamedType "String")))
    by reflexivity.
  split; [exact T|].
  destruct (@stringifyArray_prints_the_list_type (NamedType "String")
              [("type", VArr [VType (NamedType "String")])] emptyWorld T)
    as [S [O _]].
  split; [exact S | exact O].
Defined.

Lemma mergeTypes_into_fieldless_record_throws_witness :
  (tcKind mediaUnion = KUnion \/ tcKind mediaUnion = KScalar)
  /\ isObjectOrInterfaceType mediaObject = true
  /\ incomingFieldConfigs noDefineFieldMapToConfig mediaObject
     = Ok [("url", [("type", VStr "String")])]
  /\ [("url", [("type", VStr "String")])] <> []
  /\ exists w',
      mergeTypes parseAnything noDefineFieldMapToConfig mediaUnion
                 mediaObject None "sdl" emptyWorld
      = (Throw "TypeError: typeComposer.hasField is not a function", w')
      /\ sameButReports emptyWorld w'.
Proof.
  assert (K : tcKind mediaUnion = KUnion \/ tcKind mediaUnion = KScalar)
    by (left; reflexivity).
  assert (T : isObjectOrInterfaceType mediaObject = true) by reflexivity.
  assert (C : incomingFieldConfigs noDefineFieldMapToConfig mediaObject
              = Ok [("url", [("type", VStr "String")])]) by reflexivity.
  assert (N : [("url", [("type", VStr "String")])] <> []
              :> list (string * JSObj)) by discriminate.
  split; [exact K|]. split; [exact T|]. split; [exact C|]. split; [exact N|].
  exact (@mergeTypes_into_fieldless_record_throws parseAnything
           noDefineFieldMapToConfig mediaUnion
           mediaObject None "sdl" emptyWorld _ K T C N).
Defined.

Lemma mergeTypes_of_native_type_without_configs_witness :
  incomingFieldConfigs noDefineFieldMapToConfig fooType
  = Throw "TypeError: defineFieldMapToConfig is not a function"
  /\ exists w',
      mergeTypes parseAnything noDefineFieldMapToConfig fooRecord fooType
                 None "graphql-js" emptyWorld
      = (Throw "TypeError: defineFieldMapToConfig is not a function", w')
      /\ sameButReports emptyWorld w'.
Proof.
  assert (C : incomingFieldConfigs noDefineFieldMapToConfig fooType
              = Throw "TypeError: defineFieldMapToConfig is not a function")
    by reflexivity.
  split; [exact C|].
  exact (@mergeTypes_of_native_type_without_configs parseAnything
           noDefineFieldMapToConfig fooRecord fooType None "graphql-js"
           emptyWorld _ C).
Defined.

Lemma mergeTypes_of_fieldless_definition_witness :
  isObjectOrInterfaceType fooEnum = false
  /\ (tcKind fooRecord <> KInterface \/ String.eqb "sdl" "sdl" = false)
  /\ exists tc' w',
      mergeTypes parseAnything noDefineFieldMapToConfig fooRecord fooEnum None "sdl" emptyWorld
      = (Ok tc', w')
      /\ map fst (tcFields tc') = ["a"]
      /\ tcInterfaces tc' = ["Node"].
Proof.
  assert (T : isObjectOrInterfaceType fooEnum = false) by reflexivity.
  assert (K : tcKind fooRecord <> KInterface
              \/ String.eqb "sdl" "sdl" = false)
    by (left; discriminate).
  split; [exact T|]. split; [exact K|].
  destruct (@mergeTypes_of_fieldless_definition parseAnything
              noDefineFieldMapToConfig fooRecord
              fooEnum None "sdl" emptyWorld T K)
    as [tc' [w' [E [_ [_ [_ [I [F _]]]]]]]].
  exists tc', w'. split; [exact E|]. split; [exact F | exact I].
Defined.

Lemma addExtensions_stamps_type_and_fields_witness :
  String.eqb "typeBuilder" "sdl" = false
  /\ exists tc' w',
      addExtensions parseAnything (fooWith "Int") (Some (mkPlugin "p"))
                    "typeBuilder" emptyWorld = (Ok tc', w')
      /\ fieldStamped (Some (mkPlugin "p")) "typeBuilder" "bar" tc'.
Proof.
  assert (NS : String.eqb "typeBuilder" "sdl" = false) by reflexivity.
  split; [exact NS|].
  destruct (@addExtensions_stamps_type_and_fields parseAnything
              (fooWith "Int") (Some (mkPlugin "p")) "typeBuilder"
              emptyWorld NS)
    as [tc' [w' [E [_ [_ [_ [_ [_ [_ [_ [F _]]]]]]]]]]].
  exists tc', w'. split; [exact E|].
  apply F; reflexivity.
Defined.

Lemma processAddedType_registers_witness :
  (tcKind (asComposer shapeInterface) <> KInterface
   \/ String.eqb "graphql-js" "sdl" = false)
  /\ exists tc' w',
      processAddedType parseAnything shapeInterface "graphql-js" None
                       emptyWorld = (Ok tc', w')
      /\ Obj.get "Shape" (registry w') = Some tc'
      /\ mustHave w' = ["Shape"]
      /\ tcResolveType tc' = true.
Proof.
  assert (H : tcKind (asComposer shapeInterface) <> KInterface
              \/ String.eqb "graphql-js" "sdl" = false)
    by (right; reflexivity).
  split; [exact H|].
  destruct (@processAddedType_registers parseAnything shapeInterface
              "graphql-js" None emptyWorld H)
    as [tc' [w' [E [G [_ [M [_ [_ [_ R]]]]]]]]].
  exists tc', w'. split; [exact E|]. split; [exact G|].
  split; [exact M | exact R].
Defined.

Lemma addExtensions_translates_directives_witness :
  tcKind postWithDirectives <> KInterface
  /\ exists tc' w',
      addExtensions parseAnything postWithDirectives None "sdl" emptyWorld
      = (Ok tc', w')
      /\ TC.getExtension "infer" tc' = VBool false
      /\ TC.getExtension "childOf" tc'
         = VObj [("types", VArr [VStr "File"])].
Proof.
  assert (K : tcKind postWithDirectives <> KInterface) by discriminate.
  split; [exact K|].
  destruct (@addExtensions_translates_directives parseAnything
              postWithDirectives None emptyWorld K)
    as [tc' [w' [E [I V]]]].
  exists tc', w'. split; [exact E|]. split; [exact I|].
  exact (V "childOf" (or_intror eq_refl)).
Defined.

Lemma addTypes_registers_new_types_witness :
  NoDup (map (fun e => sourceName (fst e)) authorAndBook)
  /\ exists w',
      addTypes specReportParsingError parseAnything
               noDefineFieldMapToConfig authorAndBook emptyWorld
      = (Ok tt, w')
      /\ mustHave w' = ["Author"; "Book"]
      /\ Obj.has "Author" (registry w') = true
      /\ Obj.has "Book" (registry w') = true.
Proof.
  assert (ND : NoDup (map (fun e => sourceName (fst e)) authorAndBook)).
  { apply distinct_NoDup. reflexivity. }
  assert (H : forall source plugin,
             In (source, plugin) authorAndBook ->
             exists type createdFrom,
               sourceType source = Some (type, createdFrom)
               /\ allowedTypeName (addedName type)
               /\ Obj.has (addedName type) (registry emptyWorld) = false).
  { intros source plugin [E|[E|[]]]; inversion E; subst;
      eexists; eexists; (split; [reflexivity|]);
      (split; [apply allowed_by_check; reflexivity | reflexivity]). }
  split; [exact ND|].
  destruct (@addTypes_registers_new_types specReportParsingError
              parseAnything noDefineFieldMapToConfig authorAndBook emptyWorld H ND)
    as [w' [E [M [_ [G _]]]]].
  exists w'. split; [exact E|]. split; [exact M|].
  unfold Obj.has. split.
  - destruct (G "Author") as [tc [-> _]]; [now left | reflexivity].
  - destruct (G "Book") as [tc [-> _]]; [right; now left | reflexivity].
Defined.

Lemma addTypes_registers_a_document_witness :
  NoDup (map defName authorAndBookDocument)
  /\ exists w',
      addTypes specReportParsingError parseAnything
               noDefineFieldMapToConfig
               [(SDL authorAndBookDocument, None)] emptyWorld = (Ok tt, w')
      /\ mustHave w' = ["Author"; "Book"].
Proof.
  assert (ND : NoDup (map defName authorAndBookDocument)).
  { apply distinct_NoDup. reflexivity. }
  assert (H : forall def,
             In def authorAndBookDocument ->
             defName def = addedName (defComposer def)
             /\ allowedTypeName (defName def)
             /\ Obj.has (defName def) (registry emptyWorld) = false
             /\ tcKind (asComposer (defComposer def)) <> KInterface).
  { intros def [E|[E|[]]]; subst;
      (split; [reflexivity|]);
      (split; [apply allowed_by_check; reflexivity|]);
      (split; [reflexivity | discriminate]). }
  split; [exact ND|].
  destruct (@addTypes_registers_a_document specReportParsingError
              parseAnything noDefineFieldMapToConfig authorAndBookDocument None emptyWorld H ND)
    as [w' [E [M _]]].
  exists w'. split; [exact E | exact M].
Defined.

Lemma determineSearchableFields_classifies_witness :
  exists c,
    Obj.get "excerpt" (tcFields articleType) = Some c
    /\ TC.getFieldExtension "excerpt" "needsResolve"
         (determineSearchableFields someEnums articleType) = VBool true
    /\ TC.getFieldExtension "excerpt" "searchable"
         (determineSearchableFields someEnums articleType)
       = VStr "DEPRECATED_SEARCHABLE".
Proof.
  eexists. 
  assert (G : Obj.get "excerpt" (tcFields articleType)
              = Some [("type", VStr "String");
                      ("args", VObj [("length", VStr "Int")]);
                      ("resolve", VFun "excerpt")]) by reflexivity.
  split; [exact G|].
  destruct (@determineSearchableFields_classifies someEnums articleType
              "excerpt" _ G) as [N [S _]].
  split; [exact N | exact S].
Defined.

(** The three kinds of field of [Article]: the plain field needs no
    resolver, the field with arguments is searchable the deprecated way,
    and the date field with a resolver but without [proxy] needs no
    resolver either. *)
Example determineSearchableFields_on_Article :
  let article := determineSearchableFields someEnums articleType in
  TC.getFieldExtension "title" "needsResolve" article = VBool false
  /\ TC.getFieldExtension "title" "searchable" article = VStr "SEARCHABLE"
  /\ TC.getFieldExtension "excerpt" "sortable" article
     = VStr "DEPRECATED_SORTABLE"
  /\ TC.getFieldExtension "date" "needsResolve" article = VBool false
  /\ TC.getFieldExtension "date" "dateformat" article = VObj []
  /\ TC.getFieldNames article = ["title"; "excerpt"; "date"].
Proof. repeat split. Qed.

Lemma addTypes_document_extends_registered_type_witness :
  allowedTypeName "Foo"
  /\ Obj.get "Foo" (registry fooRegistered) = Some fooRecord
  /\ exists tc' w',
      addTypes specReportParsingError parseAnything
               noDefineFieldMapToConfig
               [(SDL [mkDef "Foo" fooDefinition eq_refl], None)]
               fooRegistered
      = (Ok tt, w')
      /\ Obj.get "Foo" (registry w') = Some tc'
      /\ TC.hasField "a" tc' = true /\ TC.hasField "b" tc' = true
      /\ mustHave w' = ["Foo"].
Proof.
  assert (A : allowedTypeName "Foo") by (apply allowed_by_check; reflexivity).
  assert (G : Obj.get "Foo" (registry fooRegistered) = Some fooRecord)
    by reflexivity.
  split; [exact A|]. split; [exact G|].
  destruct (@addTypes_document_extends_registered_type
              specReportParsingError parseAnything noDefineFieldMapToConfig
              (mkDef "Foo" fooDefinition eq_refl) None fooRecord
              ["Node"; "Bar"]
              fooRegistered eq_refl A G eq_refl eq_refl eq_refl
              (fun w0 => eq_refl))
    as [tc' [w' [E [G' [[_ [F _]] [_ [_ [M _]]]]]]]].
  exists tc', w'. split; [exact E|]. split; [exact G'|].
  split; [now rewrite F|]. split; [now rewrite F | exact M].
Defined.

(** A document that defines a new type twice: the second definition is
    merged into the composer parsed from the first, and that composer,
    with the fields and the interface of both, is the one registered. *)
Example document_defines_a_type_twice :
  exists tc w',
    addTypes specReportParsingError parseAnything noDefineFieldMapToConfig
      [(SDL [mkDef "A" (ObjectTC "A" [("x", [("type", VStr "Int")])] [] [])
                   eq_refl;
             mkDef "A" (ObjectTC "A" [("y", [("type", VStr "Int")])]
                                 [IfaceType "Node"] [])
                   eq_refl],
        None)] emptyWorld
    = (Ok tt, w')
    /\ Obj.get "A" (registry w') = Some tc
    /\ TC.getFieldNames tc = ["x"; "y"]
    /\ tcInterfaces tc = ["Node"]
    /\ mustHave w' = ["A"].
Proof.
  eexists. eexists. split; [vm_compute; reflexivity|].
  split; [reflexivity|]. repeat split.
Qed.



Lemma mergeFields_keeps_the_field_order_witness :
  hasFieldMethods (tcKind fooRecord) = true
  /\ exists tc',
      mergeFields [("b", [("type", VStr "Int")]);
                   ("a", [("type", VStr "String")]);
                   ("c", [("type", VStr "Date")])] fooRecord emptyWorld
      = (Ok tc', emptyWorld)
      /\ map fst (tcFields tc') = ["a"; "b"; "c"].
Proof.
  split; [reflexivity|].
  destruct (@mergeFields_keeps_the_field_order
              [("b", [("type", VStr "Int")]);
               ("a", [("type", VStr "String")]);
               ("c", [("type", VStr "Date")])] fooRecord emptyWorld eq_refl)
    as [tc' [E F]].
  exists tc'. split; [exact E | exact F].
Defined.

Lemma addThirdPartySchemas_imports_each_witness :
  wellFormedSchema relaySchema /\ wellFormedSchema shopSchema
  /\ exists schemas' w',
      addThirdPartySchemas [relaySchema; shopSchema] emptyWorld
      = (Ok schemas', w')
      /\ mustHave w' = ["Viewer"; "Product"]
      /\ reports w' = []
      /\ Obj.has "Query" (registry w') = true
      /\ Obj.has "Viewer" (registry w') = true
      /\ Obj.has "Product" (registry w') = true.
Proof.
  assert (WR : wellFormedSchema relaySchema)
    by (apply wellFormedSchemab_sound; reflexivity).
  assert (WS : wellFormedSchema shopSchema)
    by (apply wellFormedSchemab_sound; reflexivity).
  split; [exact WR|]. split; [exact WS|].
  destruct (@addThirdPartySchemas_imports_each [relaySchema; shopSchema]
              emptyWorld)
    as [schemas' [w' [E [M [_ [R [_ [Q I]]]]]]]].
  - intros schema [<-|[<-|[]]]; eexists; (split; [reflexivity|]);
      assumption.
  - exists schemas', w'. split; [exact E|]. split; [exact M|].
    split; [exact R|]. split; [apply Q; discriminate|].
    split.
    + apply (I relaySchema "Viewer"); [now left | vm_compute; now left].
    + apply (I shopSchema "Product");
        [right; now left | vm_compute; now left].
Defined.

Lemma childOf_types_adds_the_field_witness :
  NoDup (map fst (registry childrenRegistry))
  /\ readableDeclarations childrenRegistry = true
  /\ parentsTakeFields childrenRegistry = true
  /\ exists w' tc',
      addConvenienceChildrenFields joinWords childrenRegistry = (Ok tt, w')
      /\ Obj.get "Parent" (registry w') = Some tc'
      /\ TC.hasField "childrenChild" tc' = true.
Proof.
  assert (ND : NoDup (map fst (registry childrenRegistry)))
    by (apply distinct_NoDup; reflexivity).
  split; [exact ND|]. split; [reflexivity|]. split; [reflexivity|].
  destruct (@childOf_types_adds_the_field joinWords childrenRegistry ND
              eq_refl eq_refl) as [w' [E T]].
  destruct (T "Child"
              (mkTC "Child" KObject [("id", [("type", VStr "ID!")])]
                    ["Node"]
                    [("childOf", VObj [("types", VArr [VStr "Parent"]);
                                       ("mimeTypes", VArr []);
                                       ("many", VBool true)])]
                    false)
              "Parent"
              (mkTC "Parent" KObject [("id", [("type", VStr "ID!")])]
                    ["Node"] [] false))
    as [tc' [G F]]; try reflexivity.
  - right. right. now left.
  - exists w', tc'. split; [exact E|]. split; [exact G | exact F].
Defined.

Lemma childOf_mimeTypes_adds_the_field_witness :
  NoDup (map fst (registry childrenRegistry))
  /\ readableDeclarations childrenRegistry = true
  /\ parentsTakeFields childrenRegistry = true
  /\ exists w' tc',
      addConvenienceChildrenFields joinWords childrenRegistry = (Ok tt, w')
      /\ Obj.get "File" (registry w') = Some tc'
      /\ TC.hasField "childMarkdown" tc' = true.
Proof.
  assert (ND : NoDup (map fst (registry childrenRegistry)))
    by (apply distinct_NoDup; reflexivity).
  split; [exact ND|]. split; [reflexivity|]. split; [reflexivity|].
  destruct (@childOf_mimeTypes_adds_the_field joinWords childrenRegistry ND
              eq_refl eq_refl) as [w' [E T]].
  destruct (T "Markdown"
              (mkTC "Markdown" KObject [("id", [("type", VStr "ID!")])]
                    ["Node"]
                    [("childOf",
                      VObj [("types", VArr []);
                            ("mimeTypes", VArr [VStr "text/markdown"]);
                            ("many", VBool false)])]
                    false)
              "text/markdown" "File"
              (mkTC "File" KObject [("id", [("type", VStr "ID!")])]
                    ["Node"]
                    [("mimeTypes",
                      VObj [("types", VArr [VStr "text/markdown"])])]
                    false))
    as [tc' [G F]]; try reflexivity.
  - right. right. right. now left.
  - right. now left.
  - exists w', tc'. split; [exact E|]. split; [exact G | exact F].
Defined.

Lemma addConvenienceChildrenFields_reports_witness :
  NoDup (map fst (registry childrenRegistry))
  /\ readableDeclarations childrenRegistry = true
  /\ parentsTakeFields childrenRegistry = true
  /\ exists w',
      addConvenienceChildrenFields joinWords childrenRegistry = (Ok tt, w')
      /\ reports w' = [Error (childOfOnObjectMessage "Stray")].
Proof.
  assert (ND : NoDup (map fst (registry childrenRegistry)))
    by (apply distinct_NoDup; reflexivity).
  split; [exact ND|]. split; [reflexivity|]. split; [reflexivity|].
  destruct (@addConvenienceChildrenFields_reports joinWords childrenRegistry
              ND eq_refl eq_refl) as [w' [rs [E [R [_ N]]]]].
  exists w'. split; [exact E|]. rewrite R, N; [reflexivity|].
  intros key tc I.
  repeat (destruct I as [I|I]; [injection I as <- <-; reflexivity|]).
  destruct I.
Defined.

Lemma childOf_a_union_or_scalar_throws_witness :
  NoDup (map fst (registry scalarParentRegistry))
  /\ readableDeclarations scalarParentRegistry = true
  /\ exists w',
      addConvenienceChildrenFields joinWords scalarParentRegistry
      = (Throw "TypeError: typeComposer.addFields is not a function", w').
Proof.
  assert (ND : NoDup (map fst (registry scalarParentRegistry)))
    by (apply distinct_NoDup; reflexivity).
  split; [exact ND|]. split; [reflexivity|].
  apply (@childOf_a_union_or_scalar_throws joinWords scalarParentRegistry
           "Child"
           (mkTC "Child" KObject [("id", [("type", VStr "ID!")])] ["Node"]
                 [("childOf", VObj [("types", VArr [VStr "String"])])]
                 false)
           "String" (mkTC "String" KScalar [] [] [] false) ND eq_refl).
  - right. now left.
  - reflexivity.
  - reflexivity.
  - now right.
Defined.

(** The fields of the children at work: [Parent] gets [childrenChild],
    [File] gets [childMarkdown], the declaration of [Stray] is reported
    and gives no field. *)
Example addConvenienceChildrenFields_on_the_registry :
  exists w' parent file,
    addConvenienceChildrenFields joinWords childrenRegistry = (Ok tt, w')
    /\ Obj.get "Parent" (registry w') = Some parent
    /\ map fst (tcFields parent) = ["id"; "childrenChild"]
    /\ prop "type" (TC.getField "childrenChild" parent)
       = VThunk (VArr [VStr "Child"])
    /\ Obj.get "File" (registry w') = Some file
    /\ map fst (tcFields file) = ["id"; "childMarkdown"]
    /\ prop "type" (TC.getField "childMarkdown" file)
       = VThunk (VStr "Markdown")
    /\ reports w' = [Error (childOfOnObjectMessage "Stray")].
Proof.
  eexists. eexists. eexists.
  split; [vm_compute; reflexivity|].
  split; [vm_compute; reflexivity|].
  split; [reflexivity|]. split; [reflexivity|].
  split; [vm_compute; reflexivity|].
  split; [reflexivity|]. split; [reflexivity|]. reflexivity.
Qed.
